(** * Logical plan builder (package [plan], file logical_plan_builder.go)

    A shallow embedding of the builder that turns a parsed SQL statement
    into a tree of logical operators, and the properties of it that the
    specification states.

    Conventions of the embedding.
    - Go [int], [int64] and [uint64] values are integers of [Z]; slices are
      lists, indexed from 0, whose capacity is their length.  Indexing or
      slicing out of range, calling a method on a nil interface and a
      failed type assertion are run-time panics: they are the [Panic]
      outcome.
    - An interface value or pointer that may be nil is an [option].
    - [planBuilder] is threaded explicitly.  Its field [err] is ordinary
      state: the source keeps running after setting it unless it returns.
    - Plans are trees: a node holds its children, and the parent
      back-pointers are not represented.  Columns and schemas are values, so
      [Clone] is the identity; where the source updates a structure through
      an alias the update is written out on the owner.
    - The bit set [optFlag], the statistics handle and the session context
      passed to constructors are written but never read by the functions
      below and are left out.
    - Functions of other packages (expression rewriter, AST traversal,
      catalog, type system) are the fields of the class [Externals]. *)

From Stdlib Require Import ZArith Ascii String.
From stdpp Require Import gmap strings list fin_maps pretty.

Set Warnings "-register-all".

Local Open Scope string_scope.
Local Open Scope list_scope.
Local Open Scope Z_scope.

(** ** Package [model] *)

Module model.

(** [strings.ToLower], on the ASCII letters. *)
Definition lower_ascii (c : ascii) : ascii :=
  let n := nat_of_ascii c in
  if ((65 <=? n) && (n <=? 90))%nat then ascii_of_nat (n + 32) else c.

Fixpoint ToLower (s : string) : string :=
  match s with
  | EmptyString => EmptyString
  | String c s' => String (lower_ascii c) (ToLower s')
  end.

(** A case-insensitive string: the original and its lower-case form. *)
Record CIStr := mkCIStr { O : string; L : string }.

Definition NewCIStr (s : string) : CIStr := {| O := s; L := ToLower s |}.

Record ColumnInfo := mkColumnInfo {
  ci_ID : Z;
  ci_Name : CIStr;
  ci_Tp : Z;
  ci_Flen : Z;
  ci_Decimal : Z;
  ci_Flag : Z;
  GeneratedExprString : string
}.

Record TableInfo := mkTableInfo {
  ti_ID : Z;
  ti_Name : CIStr;
  ti_Columns : list ColumnInfo;
  PKIsHandle : bool
}.

End model.

(** ** Package [types] *)

Module types.

Record FieldType := mkFieldType { Tp : Z; Flen : Z; Decimal : Z }.

Definition FieldType_of (c : model.ColumnInfo) : FieldType :=
  {| Tp := model.ci_Tp c; Flen := model.ci_Flen c; Decimal := model.ci_Decimal c |}.

(** The dynamic types a [Datum] hands out through [GetValue]. *)
Inductive Value :=
| VNil
| VInt64 (v : Z)
| VUint64 (v : Z)
| VFloat32 (bits : Z)
| VFloat64 (bits : Z)
| VString (s : string)
| VBytes (s : string)
| VOther (kind : string).

Inductive Kind := KindNull | KindString | KindOther.

Definition Kind_of (v : Value) : Kind :=
  match v with
  | VNil => KindNull
  | VString _ => KindString
  | _ => KindOther
  end.

Definition GetString (v : Value) : string :=
  match v with
  | VString s | VBytes s => s
  | _ => ""
  end.

End types.

(** ** Package [expression] *)

Module expression.

Record Column := mkColumn {
  FromID : string;
  ColName : model.CIStr;
  DBName : model.CIStr;
  TblName : model.CIStr;
  RetType : types.FieldType;
  ID : Z;
  Position : Z;
  IsAggOrSubq : bool;
  Index : Z
}.

Definition Column_Clone (c : Column) : Column := c.

Record Schema := mkSchema {
  Columns : list Column;
  TblID2Handle : gmap Z (list Column)
}.

(** Modelled from the spec: the schema operations of section 4.1 are not in
    this file.  A schema is an ordered sequence of columns with a map from
    base-table id to handle columns; [Append] adds a column at the end,
    [Len] is the number of columns, [Clone] copies the columns and
    [MergeSchema] concatenates two schemas in order (a nil schema counts as
    empty, and two nil schemas merge to nil). *)
Definition NewSchema (cols : list Column) : Schema :=
  {| Columns := cols; TblID2Handle := ∅ |}.

Definition Append (s : Schema) (c : Column) : Schema :=
  {| Columns := Columns s ++ [c]; TblID2Handle := TblID2Handle s |}.

Definition Len (s : Schema) : Z := Z.of_nat (length (Columns s)).

Definition Clone (s : Schema) : Schema :=
  {| Columns := Column_Clone <$> Columns s; TblID2Handle := TblID2Handle s |}.

Definition MergeSchema (l r : option Schema) : option Schema :=
  match l, r with
  | None, None => None
  | Some a, None => Some (Clone a)
  | None, Some b => Some (Clone b)
  | Some a, Some b =>
      Some {| Columns := Columns (Clone a) ++ Columns (Clone b);
              TblID2Handle := union_with (λ x y, Some (x ++ y))
                                (TblID2Handle a) (TblID2Handle b) |}
  end.

Definition SetTblID2Handle (s : Schema) (id : Z) (cols : list Column) : Schema :=
  {| Columns := Columns s; TblID2Handle := <[id := cols]> (TblID2Handle s) |}.

Inductive Expression :=
| EColumn (c : Column)
| ECorrelatedColumn (c : Column)
| EConstant (v : types.Value)
| EScalarFunction (FuncName : model.CIStr) (RetTp : types.FieldType)
                  (args : list Expression).

(** A slice of expressions holds interface values: [None] is nil. *)
Definition Column2Exprs (cols : list Column) : list (option Expression) :=
  (λ c, Some (EColumn c)) <$> cols.

(** [NewAggFunction] records the function name, its arguments and the
    distinct flag. *)
Record AggregationFunction := NewAggFunction {
  agg_Name : string;
  agg_Args : list (option Expression);
  agg_Distinct : bool
}.

Definition zeroCIStr : model.CIStr := model.mkCIStr "" "".

End expression.

(** ** Package [ast] *)

Module ast.

Record ColumnName := mkColumnName {
  Schema : model.CIStr;
  Table : model.CIStr;
  Name : model.CIStr
}.

Inductive ExprNode :=
| ColumnNameExpr (Name : ColumnName)
| AggregateFuncExpr (F : string) (Args : list ExprNode) (Distinct : bool)
| BinaryOperationExpr (Op : string) (L R : ExprNode)
| ParenthesesExpr (e : ExprNode)
| ValueExpr (v : types.Value)
| PositionExpr (N : Z)
| ParamMarkerExpr
| FuncCallExpr (FnName : string) (Args : list ExprNode)
| SubqueryExpr (text : string)
| ExistsSubqueryExpr (text : string)
| CompareSubqueryExpr (L R : ExprNode).

(** An [*AggregateFuncExpr], where the source holds one by its type. *)
Record AggregateFunc := mkAggregateFunc {
  af_F : string;
  af_Args : list ExprNode;
  af_Distinct : bool
}.

Definition agg_node (a : AggregateFunc) : ExprNode :=
  AggregateFuncExpr (af_F a) (af_Args a) (af_Distinct a).

(** The nodes a visitor meets inside an expression: expression nodes and
    the [ColumnName] below a [ColumnNameExpr]. *)
Inductive Node :=
| NExpr (e : ExprNode)
| NColumnName (c : ColumnName).

Record WildCardField := mkWildCardField {
  wc_Schema : model.CIStr;
  wc_Table : model.CIStr
}.

Record SelectField := mkSelectField {
  WildCard : option WildCardField;
  Expr : option ExprNode;
  AsName : model.CIStr;
  Auxiliary : bool;
  Text : string;
  ExprType : option types.FieldType
}.

Record ByItem := mkByItem { by_Expr : ExprNode; Desc : bool }.

Record Limit := mkLimit {
  Offset : option types.Value;
  Count : option types.Value
}.

Record TableOptimizerHint := mkTableOptimizerHint {
  HintName : model.CIStr;
  Tables : list model.CIStr
}.

Record TableName := mkTableName {
  tn_Schema : model.CIStr;
  tn_Name : model.CIStr;
  tn_TableInfo : model.TableInfo;
  IndexHints : list string
}.

Inductive JoinType := CrossJoin | LeftJoin | RightJoin.
#[global] Instance ast_JoinType_eq_dec : EqDecision JoinType.
Proof. solve_decision. Defined.
Inductive SelectLockType := SelectLockNone | SelectLockForUpdate | SelectLockInShareMode.
#[global] Instance SelectLockType_eq_dec : EqDecision SelectLockType.
Proof. solve_decision. Defined.

(** Modelled from the spec: the name of the FIRST_ROW aggregate (sections 4.5
    and 9) and the name of the equality operator are constants of other
    packages.  The builder only compares them and hands them on. *)
Definition AggFuncFirstRow : string := "firstrow".
Definition EQ : string := "eq".

(** The clauses of a SELECT other than FROM. *)
Record SelectClauses := mkSelectClauses {
  Distinct : bool;
  Fields : list SelectField;
  Where : option ExprNode;
  GroupBy : option (list ByItem);
  Having : option ExprNode;
  OrderBy : option (list ByItem);
  sel_Limit : option Limit;
  LockTp : SelectLockType;
  TableHints : list TableOptimizerHint
}.

Record UnionClauses := mkUnionClauses {
  u_Distinct : bool;
  u_OrderBy : option (list ByItem);
  u_Limit : option Limit
}.

Record JoinClauses := mkJoinClauses {
  Tp : JoinType;
  NaturalJoin : bool;
  Using : option (list ColumnName);
  On : option ExprNode
}.

(** Result-set nodes.  [RightNode], [FromClause] and [SelectList] are the
    optional right operand of a join, the optional FROM clause and the
    branches of a union. *)
Inductive ResultSetNode :=
| RJoin (j : Join)
| RTableSource (Source : ResultSetNode) (ts_AsName : model.CIStr)
| RSelectStmt (s : SelectStmt)
| RUnionStmt (u : UnionStmt)
| RTableName (tn : TableName)
with Join :=
| mkJoin (Left : ResultSetNode) (Right : RightNode) (c : JoinClauses)
with RightNode :=
| NoRight
| HasRight (n : ResultSetNode)
with SelectStmt :=
| mkSelectStmt (From : FromClause) (c : SelectClauses)
with FromClause :=
| NoFrom
| TableRefs (j : Join)
with UnionStmt :=
| mkUnionStmt (Selects : SelectList) (c : UnionClauses)
with SelectList :=
| SelNil
| SelCons (s : SelectStmt) (rest : SelectList).

Scheme ResultSetNode_mind := Induction for ResultSetNode Sort Prop
  with Join_mind := Induction for Join Sort Prop
  with RightNode_mind := Induction for RightNode Sort Prop
  with SelectStmt_mind := Induction for SelectStmt Sort Prop
  with FromClause_mind := Induction for FromClause Sort Prop
  with UnionStmt_mind := Induction for UnionStmt Sort Prop
  with SelectList_mind := Induction for SelectList Sort Prop.

Combined Scheme stmt_mutind from ResultSetNode_mind, Join_mind, RightNode_mind,
  SelectStmt_mind, FromClause_mind, UnionStmt_mind, SelectList_mind.

End ast.

(** ** Plans *)

Inductive JoinType := InnerJoin | LeftOuterJoin | RightOuterJoin | SemiJoin | LeftOuterSemiJoin.
#[global] Instance JoinType_eq_dec : EqDecision JoinType.
Proof. solve_decision. Defined.

Record ByItems := mkByItems { Expr : option expression.Expression; Desc : bool }.

Record JoinInfo := mkJoinInfo {
  JoinType_ : JoinType;
  cartesianJoin : bool;
  anti : bool;
  preferMergeJoin : bool;
  preferINLJ : Z;
  EqualConditions : list expression.Expression;
  LeftConditions : list expression.Expression;
  RightConditions : list expression.Expression;
  OtherConditions : list expression.Expression;
  DefaultValues : list types.Value;
  redundantSchema : option expression.Schema
}.

(** [LogicalJoin{}]: every field at its zero value. *)
Definition zeroJoin : JoinInfo :=
  {| JoinType_ := InnerJoin; cartesianJoin := false; anti := false;
     preferMergeJoin := false; preferINLJ := 0;
     EqualConditions := []; LeftConditions := []; RightConditions := [];
     OtherConditions := []; DefaultValues := []; redundantSchema := None |}.

Record DataSourceInfo := mkDataSourceInfo {
  indexHints : list string;
  tableInfo : model.TableInfo;
  ds_DBName : model.CIStr;
  TableAsName : option model.CIStr;
  ds_Columns : list model.ColumnInfo;
  NeedColHandle : bool;
  unionScanSchema : option expression.Schema
}.

Inductive PlanKind :=
| KDataSource (d : DataSourceInfo)
| KSelection (Conditions : list expression.Expression)
| KProjection (Exprs : list (option expression.Expression))
| KAggregation (AggFuncs : list expression.AggregationFunction)
               (GroupByItems : list (option expression.Expression))
               (groupByCols : list expression.Column)
| KJoin (j : JoinInfo)
| KApply (j : JoinInfo)
| KUnion
| KSort (items : list ByItems)
| KLimit (Offset Count : Z)
| KTableDual (RowCount : Z)
| KExists
| KMaxOneRow
| KSelectLock (Lock : ast.SelectLockType).

(** A plan node: its variant, id, output schema and children. *)
Inductive LogicalPlan := mkPlan {
  kind : PlanKind;
  id : string;
  schema : expression.Schema;
  children : list LogicalPlan
}.

Definition SetSchema (p : LogicalPlan) (s : expression.Schema) : LogicalPlan :=
  mkPlan (kind p) (id p) s (children p).

Definition SetKind (p : LogicalPlan) (k : PlanKind) : LogicalPlan :=
  mkPlan k (id p) (schema p) (children p).

Definition SetChildren (p : LogicalPlan) (cs : list LogicalPlan) : LogicalPlan :=
  mkPlan (kind p) (id p) (schema p) cs.

(** Modelled from the spec: [addChild] is not in this file.  It links a
    child under a parent; a nil child is not linked. *)
Definition addChild (parent : LogicalPlan) (child : option LogicalPlan) : LogicalPlan :=
  match child with
  | Some c => SetChildren parent (children parent ++ [c])
  | None => parent
  end.

(** Modelled from the spec: the kind tag that starts an operator id
    (section 4.2), one per variant of section 3. *)
Definition kind_tag (k : PlanKind) : string :=
  match k with
  | KDataSource _ => "DataSource"
  | KSelection _ => "Selection"
  | KProjection _ => "Projection"
  | KAggregation _ _ _ => "Aggregation"
  | KJoin _ => "Join"
  | KApply _ => "Apply"
  | KUnion => "Union"
  | KSort _ => "Sort"
  | KLimit _ _ => "Limit"
  | KTableDual _ => "TableDual"
  | KExists => "Exists"
  | KMaxOneRow => "MaxOneRow"
  | KSelectLock _ => "SelectLock"
  end.

(** ** The builder *)

Record ExtError := mkExtError { ext_msg : string }.

Inductive Error :=
| ErrUnsupportedType (what : string)
| ErrAmbiguous (name : string)
| ErrUnknownColumn (col clause : string)
| ErrInvalidWildCard
| ErrWrongArguments
| errors_New (msg : string)
| Foreign (e : ExtError).

Record tableHintInfo := mkTableHintInfo {
  indexNestedLoopJoinTables : list model.CIStr;
  sortMergeJoinTables : list model.CIStr
}.

Record visitInfo := mkVisitInfo {
  privilege : string;
  db : string;
  table : string;
  column : string
}.

(** A map keyed by the address of an AST node, as an association list keyed
    by the node; the latest binding is first, so that reading a key gives
    what was written to it last.  The list identifies a node with its
    value: the source tells two equal nodes at different addresses apart,
    and keeps one entry for a node written twice. *)
Definition nodeMap := list (ast.ExprNode * Z).

Record planBuilder := mkPlanBuilder {
  err : option Error;
  allocator : Z;
  b_tableHintInfo : list tableHintInfo;
  needColHandle : Z;
  inUpdateStmt : bool;
  colMapper : nodeMap;
  outerSchemas : list expression.Schema;
  b_visitInfo : list visitInfo
}.

Definition set_err (e : option Error) (b : planBuilder) : planBuilder :=
  mkPlanBuilder e (allocator b) (b_tableHintInfo b) (needColHandle b)
    (inUpdateStmt b) (colMapper b) (outerSchemas b) (b_visitInfo b).

Definition set_allocator (n : Z) (b : planBuilder) : planBuilder :=
  mkPlanBuilder (err b) n (b_tableHintInfo b) (needColHandle b)
    (inUpdateStmt b) (colMapper b) (outerSchemas b) (b_visitInfo b).

Definition set_tableHintInfo (h : list tableHintInfo) (b : planBuilder) : planBuilder :=
  mkPlanBuilder (err b) (allocator b) h (needColHandle b)
    (inUpdateStmt b) (colMapper b) (outerSchemas b) (b_visitInfo b).

Definition set_needColHandle (n : Z) (b : planBuilder) : planBuilder :=
  mkPlanBuilder (err b) (allocator b) (b_tableHintInfo b) n
    (inUpdateStmt b) (colMapper b) (outerSchemas b) (b_visitInfo b).

Definition set_colMapper (m : nodeMap) (b : planBuilder) : planBuilder :=
  mkPlanBuilder (err b) (allocator b) (b_tableHintInfo b) (needColHandle b)
    (inUpdateStmt b) m (outerSchemas b) (b_visitInfo b).

Definition set_visitInfo (v : list visitInfo) (b : planBuilder) : planBuilder :=
  mkPlanBuilder (err b) (allocator b) (b_tableHintInfo b) (needColHandle b)
    (inUpdateStmt b) (colMapper b) (outerSchemas b) v.

(** *** Control flow

    A call either completes with a value and the builder, or panics.  Inside
    a function body a statement either falls through to the next statement
    ([Next]), leaves the function with its result ([Return]), or panics. *)

Inductive PanicKind := NilDereference | IndexOutOfRange | SliceBounds | TypeAssertion.

Inductive Res (A : Type) :=
| Ok (a : A) (b : planBuilder)
| Crash (k : PanicKind).
Arguments Ok {A} a b.
Arguments Crash {A} k.

Inductive Outcome (R A : Type) :=
| Next (a : A) (b : planBuilder)
| Return (r : R) (b : planBuilder)
| Panic (k : PanicKind).
Arguments Next {R A} a b.
Arguments Return {R A} r b.
Arguments Panic {R A} k.

Definition Fn (A : Type) := planBuilder → Res A.
Definition G (R A : Type) := planBuilder → Outcome R A.

Definition ret {R A} (a : A) : G R A := λ b, Next a b.
Definition return_ {R A} (r : R) : G R A := λ b, Return r b.
Definition panic {R A} (k : PanicKind) : G R A := λ _, Panic k.

Definition bind {R A B} (m : G R A) (k : A → G R B) : G R B :=
  λ b, match m b with
       | Next a b' => k a b'
       | Return r b' => Return r b'
       | Panic p => Panic p
       end.

(** A function body run to completion. *)
Definition fn {R} (body : G R R) : Fn R :=
  λ b, match body b with
       | Next r b' | Return r b' => Ok r b'
       | Panic p => Crash p
       end.

(** A call inside a body. *)
Definition call {R A} (f : Fn A) : G R A :=
  λ b, match f b with
       | Ok a b' => Next a b'
       | Crash p => Panic p
       end.

Definition get {R} : G R planBuilder := λ b, Next b b.
Definition modify {R} (f : planBuilder → planBuilder) : G R unit := λ b, Next tt (f b).

(** [b.err = e] *)
Definition latch {R} (e : Error) : G R unit := modify (set_err (Some e)).

(** [if b.err != nil { return r }] *)
Definition bail {R} (r : R) : G R unit :=
  λ b, match err b with
       | Some _ => Return r b
       | None => Next tt b
       end.

(** [defer d] around a body: [d] runs when the body is left. *)
Definition defer {R} (d : Fn unit) (body : Fn R) : Fn R :=
  λ b, match body b with
       | Ok r b' => match d b' with
                    | Ok _ b'' => Ok r b''
                    | Crash p => Crash p
                    end
       | Crash p => Crash p
       end.

Declare Scope go_scope.
Delimit Scope go_scope with go.
Notation "x <- m ;; k" := (bind m (λ x, k))
  (at level 100, m at next level, right associativity) : go_scope.
Notation "'do' m ;; k" := (bind m (λ _, k))
  (at level 100, m at next level, right associativity) : go_scope.
Local Open Scope go_scope.

(** [s[i]] *)
Definition index {R A} (s : list A) (i : Z) : G R A :=
  if decide (0 ≤ i) then
    match s !! Z.to_nat i with
    | Some x => ret x
    | None => panic IndexOutOfRange
    end
  else panic IndexOutOfRange.

(** [s[:n]] *)
Definition slice_to {R A} (s : list A) (n : Z) : G R (list A) :=
  if decide (0 ≤ n ≤ Z.of_nat (length s)) then ret (take (Z.to_nat n) s)
  else panic SliceBounds.

(** [p.Schema()] on an interface value. *)
Definition Schema_of {R} (p : option LogicalPlan) : G R expression.Schema :=
  match p with
  | Some n => ret (schema n)
  | None => panic NilDereference
  end.

(** [idAllocator.allocID].  The counter [a.id] is a Go [int]; here it is
    counted in [Z], which follows the source as long as the counter stays
    below the largest [int]. *)
Definition allocID : Fn string :=
  λ b, let n := allocator b + 1 in
       Ok ("_" +:+ pretty n) (set_allocator n b).

(** Modelled from the spec: the [init] method of a node is not in this file.
    It gives the node the id [<kind-tag><n>] with [n] from the builder's
    allocator (see [buildSemiApply], which composes an id the same way). *)
Definition init (k : PlanKind) : Fn LogicalPlan :=
  fn (suffix <- call allocID ;;
      ret (mkPlan k (kind_tag k +:+ suffix) (expression.NewSchema []) [])).

(** A computation outside the builder that may panic. *)
Inductive Try (A : Type) :=
| Done (a : A)
| Fail (k : PanicKind).
Arguments Done {A} a.
Arguments Fail {A} k.

Definition try {R A} (t : Try A) : G R A :=
  match t with
  | Done a => ret a
  | Fail k => panic k
  end.

(** ** Collaborators

    A visitor over the AST: its two callbacks on a state [S].  [v_Enter]
    returns the node and the skip-children flag; [v_Leave] returns the node
    (nil is [None]) and the ok flag. *)
Record Visitor (S : Type) := mkVisitor {
  v_Enter : ast.Node → S → Try ((ast.Node * bool) * S);
  v_Leave : ast.Node → S → Try ((option ast.Node * bool) * S)
}.
Arguments mkVisitor {S} _ _.
Arguments v_Enter {S} _ _ _.
Arguments v_Leave {S} _ _ _.

(** What a table of the catalog exposes. *)
Record Table := mkTable {
  Meta : model.TableInfo;
  Cols : list model.ColumnInfo;
  WritableCols : list model.ColumnInfo
}.

(** The result of [planBuilder.rewrite]: the expression, the plan to adopt
    and the error. *)
Record Rewritten := mkRewritten {
  rw_expr : option expression.Expression;
  rw_plan : option LogicalPlan;
  rw_err : option ExtError
}.

(** Everything this file calls in other files and packages.  Methods of
    the builder take and return it. *)
Class Externals := {
  (* constants *)
  ExtraHandleID : Z;
  TypeTiny : Z;
  TypeLonglong : Z;
  preferLeftAsOuter : Z;
  preferRightAsOuter : Z;
  (* package types and mysql *)
  NewFieldType : Z → types.FieldType;
  MergeFieldType : Z → Z → Z;
  StrToUint : string → Z * option ExtError;
  HasPriKeyFlag : Z → bool;
  IsGraphic : ascii → bool;
  (* package expression *)
  NewFunction : string → types.FieldType → list expression.Expression →
                option expression.Expression * option ExtError;
  SplitCNFItems : expression.Expression → list expression.Expression;
  IsCorrelated : expression.Expression → bool;
  GetType : expression.Expression → types.FieldType;
  agg_Equal : expression.AggregationFunction → expression.AggregationFunction → bool;
  agg_GetType : expression.AggregationFunction → types.FieldType;
  FindColumn : expression.Schema → ast.ColumnName →
               option expression.Column * option ExtError;
  (* packages ast and parser *)
  Accept : ∀ S : Type, Visitor S → ast.ExprNode → S → Try ((option ast.Node * bool) * S);
  AggregateFuncExtractorState : Type;
  AggregateFuncExtractor : Visitor AggregateFuncExtractorState;
  newAggregateFuncExtractor : AggregateFuncExtractorState;
  AggFuncs : AggregateFuncExtractorState → list ast.AggregateFunc;
  expr_Text : ast.ExprNode → string;
  TrimComments : string → string;
  (* package plan, other files *)
  rewrite : ast.ExprNode → option LogicalPlan → nodeMap → bool →
            planBuilder → Rewritten * planBuilder;
  splitWhere : ast.ExprNode → list ast.ExprNode;
  getInnerFromParentheses : ast.ExprNode → ast.ExprNode;
  detectSelectAgg : ast.SelectClauses → bool;
  buildSelectLock : option LogicalPlan → ast.SelectLockType → Fn (option LogicalPlan);
  attachOnConds : list expression.Expression → LogicalPlan → LogicalPlan;
  (* catalog and session *)
  TableByName : model.CIStr → model.CIStr → Table + ExtError;
  CurrentDB : string;
  TxnReadWrite : bool
}.

Section Builder.
Context {ext : Externals}.

(** [b.rewrite] as a statement of a body. *)
Definition rewriteG {R} (e : ast.ExprNode) (p : option LogicalPlan) (m : nodeMap)
    (asScalar : bool) : G R Rewritten :=
  λ b, let '(r, b') := rewrite e p m asScalar b in Next r b'.

(** ** Aggregation *)

Definition collectGroupByColumns (items : list (option expression.Expression))
    : list expression.Column :=
  omap (λ item, match item with Some (expression.EColumn c) => Some c | _ => None end) items.

(** The state of the loops of [buildAggregation]: the plan [p], the
    aggregate functions and schema collected so far, and [aggIndexMap]. *)
Record aggLoop := mkAggLoop {
  al_p : option LogicalPlan;
  al_AggFuncs : list expression.AggregationFunction;
  al_schema : expression.Schema;
  al_aggIndexMap : gmap Z Z
}.

Definition AggResult : Type := option LogicalPlan * gmap Z Z.

Fixpoint aggArgsLoop (args : list ast.ExprNode) (p : option LogicalPlan)
    (newArgList : list (option expression.Expression))
    : G AggResult (option LogicalPlan * list (option expression.Expression)) :=
  match args with
  | [] => ret (p, newArgList)
  | arg :: rest =>
      r <- rewriteG arg p [] true ;;
      match rw_err r with
      | Some e => do latch (Foreign e) ;; return_ (None, ∅)
      | None => aggArgsLoop rest (rw_plan r) (newArgList ++ [rw_expr r])
      end
  end.

(** The index of the first function of [funcs] equal to [newFunc]. *)
Fixpoint findEqualFunc (funcs : list expression.AggregationFunction)
    (newFunc : expression.AggregationFunction) (j : Z) : option Z :=
  match funcs with
  | [] => None
  | oldFunc :: rest =>
      if agg_Equal oldFunc newFunc then Some j else findEqualFunc rest newFunc (j + 1)
  end.

Definition newAggColumn (aggID : string) (position : Z)
    (newFunc : expression.AggregationFunction) : expression.Column :=
  {| expression.FromID := aggID;
     expression.ColName := model.NewCIStr (aggID +:+ "_col_" +:+ pretty position);
     expression.DBName := expression.zeroCIStr;
     expression.TblName := expression.zeroCIStr;
     expression.RetType := agg_GetType newFunc;
     expression.ID := 0;
     expression.Position := position;
     expression.IsAggOrSubq := true;
     expression.Index := 0 |}.

Fixpoint aggFuncLoop (aggID : string) (aggFuncList : list ast.AggregateFunc) (i : Z)
    (st : aggLoop) : G AggResult aggLoop :=
  match aggFuncList with
  | [] => ret st
  | aggFunc :: rest =>
      pa <- aggArgsLoop (ast.af_Args aggFunc) (al_p st) [] ;;
      let newFunc := expression.NewAggFunction (ast.af_F aggFunc) pa.2
                       (ast.af_Distinct aggFunc) in
      match findEqualFunc (al_AggFuncs st) newFunc 0 with
      | Some j =>
          aggFuncLoop aggID rest (i + 1)
            (mkAggLoop pa.1 (al_AggFuncs st) (al_schema st)
               (<[i := j]> (al_aggIndexMap st)))
      | None =>
          let position := Z.of_nat (length (al_AggFuncs st)) in
          aggFuncLoop aggID rest (i + 1)
            (mkAggLoop pa.1 (al_AggFuncs st ++ [newFunc])
               (expression.Append (al_schema st) (newAggColumn aggID position newFunc))
               (<[i := position]> (al_aggIndexMap st)))
      end
  end.

(** The second loop: one FIRST_ROW aggregate and one schema column per
    column of the child's schema. *)
Definition firstRowLoop (cols : list expression.Column) (st : aggLoop) : aggLoop :=
  foldl (λ st col,
           let newFunc := expression.NewAggFunction ast.AggFuncFirstRow
                            [Some (expression.EColumn (expression.Column_Clone col))] false in
           mkAggLoop (al_p st) (al_AggFuncs st ++ [newFunc])
             (expression.Append (al_schema st) (expression.Column_Clone col))
             (al_aggIndexMap st))
        st cols.

Definition buildAggregation (p : option LogicalPlan)
    (aggFuncList : list ast.AggregateFunc)
    (gbyItems : list (option expression.Expression)) : Fn AggResult :=
  fn (agg <- call (init (KAggregation [] [] [])) ;;
      (* len(aggFuncList)+p.Schema().Len(): the schema of [p] is asked for
         before the first loop *)
      do Schema_of p ;;
      let schema := expression.NewSchema [] in
      st <- aggFuncLoop (id agg) aggFuncList 0 (mkAggLoop p [] schema ∅) ;;
      let p := al_p st in
      psch <- Schema_of p ;;
      let st := firstRowLoop (expression.Columns psch) st in
      let agg := addChild agg p in
      let agg := SetSchema agg (al_schema st) in
      let agg := SetKind agg (KAggregation (al_AggFuncs st) gbyItems
                                (collectGroupByColumns gbyItems)) in
      ret (Some agg, al_aggIndexMap st)).

(** ** Joins *)

Definition joinInfo (p : LogicalPlan) : JoinInfo :=
  match kind p with
  | KJoin j | KApply j => j
  | _ => zeroJoin
  end.

Definition withJoin (f : JoinInfo → JoinInfo) (p : LogicalPlan) : LogicalPlan :=
  match kind p with
  | KJoin j => SetKind p (KJoin (f j))
  | KApply j => SetKind p (KApply (f j))
  | _ => p
  end.

Definition extractTableAlias {R} (p : option LogicalPlan) : G R (option model.CIStr) :=
  match p with
  | Some (mkPlan (KDataSource dataSource) _ _ _) =>
      match TableAsName dataSource with
      | None => panic NilDereference
      | Some asName =>
          if decide (model.L asName ≠ "") then ret (Some asName)
          else ret (Some (model.ti_Name (tableInfo dataSource)))
      end
  | _ =>
      sch <- Schema_of p ;;
      match expression.Columns sch with
      | c0 :: _ =>
          if decide (model.L (expression.TblName c0) ≠ "")
          then ret (Some (expression.TblName c0))
          else ret None
      | [] => ret None
      end
  end.

(** [planBuilder.TableHints]: the innermost frame, or nil. *)
Definition TableHints (b : planBuilder) : option tableHintInfo :=
  last (b_tableHintInfo b).

(** Modelled from the spec: the two queries on a hint frame are not in this
    file.  A merge-join or index-nested-loop hint applies when the alias of
    a side appears among the tables of the hint (section 4.6); a side
    without an alias matches nothing. *)
Definition matchTableName (tables : list (option model.CIStr))
    (tablesInHints : list model.CIStr) : bool :=
  existsb (λ t, match t with
                | None => false
                | Some tableName =>
                    existsb (λ curEntry, bool_decide (model.L curEntry = model.L tableName))
                      tablesInHints
                end) tables.

Definition ifPreferMergeJoin (info : tableHintInfo)
    (tables : list (option model.CIStr)) : bool :=
  matchTableName tables (sortMergeJoinTables info).

Definition ifPreferINLJ (info : tableHintInfo)
    (tables : list (option model.CIStr)) : bool :=
  matchTableName tables (indexNestedLoopJoinTables info).

(** [copy(s[dlo:dhi], s[slo:shi])] inside one slice: the elements move as
    by memmove, [min] of the two lengths of them. *)
Definition copy_within {R A} (dlo dhi slo shi : nat) (s : list A) : G R (list A) :=
  if decide ((dlo ≤ dhi ≤ length s)%nat ∧ (slo ≤ shi ≤ length s)%nat) then
    let n := ((dhi - dlo) `min` (shi - slo))%nat in
    ret (take dlo s ++ take n (drop slo s) ++ drop (dlo + n)%nat s)
  else panic SliceBounds.

Definition index_nat {R A} (s : list A) (i : nat) : G R A :=
  match s !! i with
  | Some x => ret x
  | None => panic IndexOutOfRange
  end.

(** The variables of the first loop of [coalesceCommonColumns]. *)
Record coalesceState := mkCoalesceState {
  c_lColumns : list expression.Column;
  c_rColumns : list expression.Column;
  c_commonLen : nat;
  c_filter : gmap string bool
}.

(** The inner loop up to its first name match: the least [j], from [j0] on,
    with [lName = rColumns[j].ColName.L]. *)
Fixpoint scanRight (lName : string) (rest : list expression.Column) (j : nat)
    : option nat :=
  match rest with
  | [] => None
  | rCol :: rest' =>
      if decide (lName ≠ model.L (expression.ColName rCol))
      then scanRight lName rest' (S j)
      else Some j
  end.

(** One round of the outer loop, for the index [i]. *)
Definition coalesceStep {R} (i : nat) (st : coalesceState) : G R coalesceState :=
  lCol <- index_nat (c_lColumns st) i ;;
  let name := model.L (expression.ColName lCol) in
  let commonLen := c_commonLen st in
  match scanRight name (drop commonLen (c_rColumns st)) commonLen with
  | None => ret st
  | Some j =>
      if bool_decide (0 < size (c_filter st))%nat && negb (default false (c_filter st !! name))
      then ret st
      else
        let filter' := if bool_decide (0 < size (c_filter st))%nat
                       then <[name := false]> (c_filter st) else c_filter st in
        col <- index_nat (c_rColumns st) i ;;
        rColumns' <- copy_within (commonLen + 1)%nat (i + 1)%nat commonLen i (c_rColumns st) ;;
        let rColumns' := <[commonLen := col]> rColumns' in
        col <- index_nat (c_lColumns st) j ;;
        lColumns' <- copy_within (commonLen + 1)%nat (j + 1)%nat commonLen j (c_lColumns st) ;;
        let lColumns' := <[commonLen := col]> lColumns' in
        ret (mkCoalesceState lColumns' rColumns' (commonLen + 1)%nat filter')
  end.

Fixpoint coalesceLoop {R} (idxs : list nat) (st : coalesceState) : G R coalesceState :=
  match idxs with
  | [] => ret st
  | i :: idxs' => st' <- coalesceStep i st ;; coalesceLoop idxs' st'
  end.

(** The pass over the filter after the loop.  The source ranges over a map;
    the model visits its keys in the order of [map_to_list]. *)
Definition unseenColumn (filter : gmap string bool) : option string :=
  fst <$> List.find (λ kv, snd kv) (map_to_list filter).

(** The loop that builds one equality per common column.  It returns the
    error of [NewFunction], if any, from the enclosing function. *)
Fixpoint coalesceConds (p : LogicalPlan) (lsc rsc : list expression.Column)
    (idxs : list nat) (conds : list expression.Expression)
    : G (LogicalPlan * option Error) (list expression.Expression) :=
  match idxs with
  | [] => ret conds
  | i :: idxs' =>
      lc <- index_nat lsc i ;;
      rc <- index_nat rsc i ;;
      match NewFunction ast.EQ (NewFieldType TypeTiny)
              [expression.EColumn lc; expression.EColumn rc] with
      | (_, Some e) => return_ (p, Some (Foreign e))
      | (Some (expression.EScalarFunction _ _ _ as cond), None) =>
          coalesceConds p lsc rsc idxs' (conds ++ [cond])
      | (_, None) => panic TypeAssertion
      end
  end.

(** [coalesceCommonColumns] returns an error and updates the join [p] in
    place: the result is the updated join with the error. *)
Definition coalesceCommonColumns (p : LogicalPlan) (leftPlan rightPlan : option LogicalPlan)
    (rightJoin : bool) (filter : gmap string bool) : Fn (LogicalPlan * option Error) :=
  fn (lsch <- Schema_of leftPlan ;;
      rsch <- Schema_of rightPlan ;;
      let lsc := expression.Clone lsch in
      let rsc := expression.Clone rsch in
      let '(lColumns0, rColumns0) :=
        if rightJoin then (expression.Columns rsc, expression.Columns lsc)
        else (expression.Columns lsc, expression.Columns rsc) in
      (* Find out all the common columns and put them ahead. *)
      st <- coalesceLoop (seq 0 (length lColumns0))
              (mkCoalesceState lColumns0 rColumns0 0 filter) ;;
      let lColumns := c_lColumns st in
      let rColumns := c_rColumns st in
      let commonLen := c_commonLen st in
      let filter := c_filter st in
      do (if bool_decide (0 < size filter)%nat && negb (bool_decide (size filter = commonLen))
          then match unseenColumn filter with
               | Some col => return_ (p, Some (ErrUnknownColumn col "from clause"))
               | None => ret tt
               end
          else ret tt) ;;
      let schemaCols := lColumns ++ drop commonLen rColumns in
      (* lsc.Columns and rsc.Columns are the two slices the loop permuted. *)
      let '(lscCols, rscCols) :=
        if rightJoin then (rColumns, lColumns) else (lColumns, rColumns) in
      conds <- coalesceConds p lscCols rscCols (seq 0 commonLen) [] ;;
      let p := SetSchema p (expression.NewSchema schemaCols) in
      let p := withJoin (λ j,
                 mkJoinInfo (JoinType_ j) (cartesianJoin j) (anti j) (preferMergeJoin j)
                   (preferINLJ j) (conds ++ EqualConditions j) (LeftConditions j)
                   (RightConditions j) (OtherConditions j) (DefaultValues j)
                   (expression.MergeSchema (redundantSchema j)
                      (Some (expression.NewSchema (take commonLen rColumns))))) p in
      ret (p, None)).

(** [buildUsingClause]: the filter holds the lower-case name of every column
    of the USING list. *)
Definition buildUsingClause (p : LogicalPlan) (leftPlan rightPlan : option LogicalPlan)
    (tp : ast.JoinType) (usingCols : list ast.ColumnName) : Fn (LogicalPlan * option Error) :=
  let filter := foldl (λ (f : gmap string bool) col, <[model.L (ast.Name col) := true]> f)
                  ∅ usingCols in
  coalesceCommonColumns p leftPlan rightPlan
    (bool_decide (tp = ast.RightJoin)) filter.

Definition buildNaturalJoin (p : LogicalPlan) (leftPlan rightPlan : option LogicalPlan)
    (tp : ast.JoinType) : Fn (LogicalPlan * option Error) :=
  coalesceCommonColumns p leftPlan rightPlan (bool_decide (tp = ast.RightJoin)) ∅.

(** ** Selection, projection, distinct, sort and limit *)

(** The loop of [buildSelection] over the conjuncts. *)
Fixpoint selectionLoop (conditions : list ast.ExprNode) (AggMapper : nodeMap)
    (p : option LogicalPlan) (expressions : list expression.Expression)
    : G (option LogicalPlan) (option LogicalPlan * list expression.Expression) :=
  match conditions with
  | [] => ret (p, expressions)
  | cond :: rest =>
      r <- rewriteG cond p AggMapper false ;;
      match rw_err r with
      | Some e => do latch (Foreign e) ;; return_ None
      | None =>
          let p := rw_plan r in
          match rw_expr r with
          | None => selectionLoop rest AggMapper p expressions
          | Some expr => selectionLoop rest AggMapper p (expressions ++ SplitCNFItems expr)
          end
      end
  end.

Definition buildSelection (p : option LogicalPlan) (where_ : ast.ExprNode)
    (AggMapper : nodeMap) : Fn (option LogicalPlan) :=
  fn (let conditions := splitWhere where_ in
      selection <- call (init (KSelection [])) ;;
      pe <- selectionLoop conditions AggMapper p [] ;;
      let '(p, expressions) := pe in
      if bool_decide (length expressions = 0%nat) then return_ p
      else
        let selection := SetKind selection (KSelection expressions) in
        psch <- Schema_of p ;;
        let selection := SetSchema selection (expression.Clone psch) in
        let selection := addChild selection p in
        ret (Some selection)).

(** [buildProjectionFieldNameFromColumns] *)
Definition buildProjectionFieldNameFromColumns (field : ast.SelectField)
    (c : expression.Column) : model.CIStr * model.CIStr :=
  match getInnerFromParentheses <$> ast.Expr field with
  | Some (ast.ColumnNameExpr astCol) => (ast.Name astCol, ast.Table astCol)
  | _ => (expression.ColName c, expression.TblName c)
  end.

(** [strings.TrimLeftFunc] with the test of the source: leading characters
    that are not graphic are dropped. *)
Fixpoint TrimLeftNonGraphic (s : string) : string :=
  match s with
  | EmptyString => EmptyString
  | String c s' => if IsGraphic c then s else TrimLeftNonGraphic s'
  end.

(** [buildProjectionFieldNameFromExpressions] *)
Definition buildProjectionFieldNameFromExpressions {R} (field : ast.SelectField)
    : G R model.CIStr :=
  let viaText :=
    match getInnerFromParentheses <$> ast.Expr field with
    | Some (ast.ValueExpr valueExpr as innerExpr) =>
        match types.Kind_of valueExpr with
        | types.KindString =>
            ret (model.NewCIStr (TrimLeftNonGraphic (types.GetString valueExpr)))
        | types.KindNull => ret (model.NewCIStr "NULL")
        | types.KindOther =>
            if decide (expr_Text innerExpr ≠ "")
            then ret (model.NewCIStr (expr_Text innerExpr))
            else ret (model.NewCIStr (ast.Text field))
        end
    | _ => ret (model.NewCIStr (TrimComments (ast.Text field)))
    end in
  match ast.Expr field with
  | Some (ast.AggregateFuncExpr F Args _) =>
      if decide (F = ast.AggFuncFirstRow) then
        (* the name of agg.Args[0], asserted to be a column reference *)
        match Args with
        | [] => panic IndexOutOfRange
        | ast.ColumnNameExpr name :: _ => ret (ast.Name name)
        | _ :: _ => panic TypeAssertion
        end
      else viaText
  | _ => viaText
  end.

(** [buildProjectionField] *)
Definition buildProjectionField {R} (id : string) (position : Z) (field : ast.SelectField)
    (expr : option expression.Expression) : G R expression.Column :=
  names <-
    (if decide (model.L (ast.AsName field) ≠ "") then
       ret (ast.AsName field, expression.zeroCIStr)
     else
       match expr with
       | Some (expression.EColumn c) =>
           if negb (expression.IsAggOrSubq c)
           then ret (buildProjectionFieldNameFromColumns field c)
           else colName <- buildProjectionFieldNameFromExpressions field ;;
                ret (colName, expression.zeroCIStr)
       | _ => colName <- buildProjectionFieldNameFromExpressions field ;;
              ret (colName, expression.zeroCIStr)
       end) ;;
  match expr with
  | None => panic NilDereference
  | Some e =>
      ret {| expression.FromID := id;
             expression.ColName := names.1;
             expression.DBName := expression.zeroCIStr;
             expression.TblName := names.2;
             expression.RetType := GetType e;
             expression.ID := 0;
             expression.Position := position;
             expression.IsAggOrSubq := false;
             expression.Index := 0 |}
  end.

(** The variables of the loop of [buildProjection]. *)
Record projLoop := mkProjLoop {
  pl_p : option LogicalPlan;
  pl_Exprs : list (option expression.Expression);
  pl_schema : expression.Schema;
  pl_oldLen : Z
}.

(** [b.rewrite] of the expression of a select field; a field without one
    hands the rewriter a nil node. *)
Definition rewriteField {R} (field : ast.SelectField) (p : option LogicalPlan)
    (m : nodeMap) (asScalar : bool) : G R Rewritten :=
  match ast.Expr field with
  | Some e => rewriteG e p m asScalar
  | None => panic NilDereference
  end.

Fixpoint projectionLoop (projID : string) (fields : list ast.SelectField)
    (mapper : nodeMap) (st : projLoop) : G (option LogicalPlan * Z) projLoop :=
  match fields with
  | [] => ret st
  | field :: rest =>
      r <- rewriteField field (pl_p st) mapper true ;;
      match rw_err r with
      | Some e => do latch (Foreign e) ;; return_ (None, pl_oldLen st)
      | None =>
          let newExpr := rw_expr r in
          col <- buildProjectionField projID (expression.Len (pl_schema st) + 1)
                   field newExpr ;;
          projectionLoop projID rest mapper
            (mkProjLoop (rw_plan r) (pl_Exprs st ++ [newExpr])
               (expression.Append (pl_schema st) col)
               (if negb (ast.Auxiliary field) then pl_oldLen st + 1 else pl_oldLen st))
      end
  end.

(** [buildProjection] returns a Projection plan and non-aux columns length. *)
Definition buildProjection (p : option LogicalPlan) (fields : list ast.SelectField)
    (mapper : nodeMap) : Fn (option LogicalPlan * Z) :=
  fn (proj <- call (init (KProjection [])) ;;
      let schema := expression.NewSchema [] in
      st <- projectionLoop (id proj) fields mapper (mkProjLoop p [] schema 0) ;;
      let proj := SetKind proj (KProjection (pl_Exprs st)) in
      let proj := SetSchema proj (pl_schema st) in
      let proj := addChild proj (pl_p st) in
      ret (Some proj, pl_oldLen st)).

Definition buildDistinct (child : option LogicalPlan) (length : Z)
    : Fn (option LogicalPlan) :=
  fn (csch <- Schema_of child ;;
      gbyCols <- slice_to (expression.Columns (expression.Clone csch)) length ;;
      let GroupByItems := expression.Column2Exprs gbyCols in
      agg <- call (init (KAggregation [] GroupByItems [])) ;;
      let groupByCols := collectGroupByColumns GroupByItems in
      let AggFuncs :=
        (λ col, expression.NewAggFunction ast.AggFuncFirstRow
                  [Some (expression.EColumn col)] false) <$> expression.Columns csch in
      let agg := SetKind agg (KAggregation AggFuncs GroupByItems groupByCols) in
      let agg := addChild agg child in
      let agg := SetSchema agg (expression.Clone csch) in
      ret (Some agg)).

Fixpoint sortLoop (byItems : list ast.ByItem) (aggMapper : nodeMap)
    (p : option LogicalPlan) (exprs : list ByItems)
    : G (option LogicalPlan) (option LogicalPlan * list ByItems) :=
  match byItems with
  | [] => ret (p, exprs)
  | item :: rest =>
      r <- rewriteG (ast.by_Expr item) p aggMapper true ;;
      match rw_err r with
      | Some e => do latch (Foreign e) ;; return_ None
      | None =>
          sortLoop rest aggMapper (rw_plan r)
            (exprs ++ [mkByItems (rw_expr r) (ast.Desc item)])
      end
  end.

Definition buildSort (p : option LogicalPlan) (byItems : list ast.ByItem)
    (aggMapper : nodeMap) : Fn (option LogicalPlan) :=
  fn (sort <- call (init (KSort [])) ;;
      pe <- sortLoop byItems aggMapper p [] ;;
      let '(p, exprs) := pe in
      let sort := SetKind sort (KSort exprs) in
      let sort := addChild sort p in
      psch <- Schema_of p ;;
      let sort := SetSchema sort (expression.Clone psch) in
      ret (Some sort)).

(** The name [%T] prints for the dynamic type of a value. *)
Definition type_name (v : types.Value) : string :=
  match v with
  | types.VNil => "<nil>"
  | types.VInt64 _ => "int64"
  | types.VUint64 _ => "uint64"
  | types.VFloat32 _ => "float32"
  | types.VFloat64 _ => "float64"
  | types.VString _ => "string"
  | types.VBytes _ => "[]uint8"
  | types.VOther k => k
  end.

(** [getUintForLimitOffset] gets the uint64 value for limit/offset. *)
Definition getUintForLimitOffset (val : types.Value) : Z * option Error :=
  let invalid := (0, Some (errors_New ("Invalid type " +:+ type_name val +:+
                                       " for Limit/Offset"))) in
  match val with
  | types.VUint64 v => (v, None)
  | types.VInt64 v => if decide (v >= 0) then (v, None) else invalid
  | types.VString v =>
      let '(uVal, e) := StrToUint v in (uVal, Foreign <$> e)
  | _ => invalid
  end.

Definition buildLimit (src : option LogicalPlan) (limit : ast.Limit)
    : Fn (option LogicalPlan) :=
  fn (offset <-
        match ast.Offset limit with
        | Some v =>
            let '(offset, e) := getUintForLimitOffset v in
            match e with
            | Some _ => do latch ErrWrongArguments ;; return_ None
            | None => ret offset
            end
        | None => ret 0
        end ;;
      count <-
        match ast.Count limit with
        | Some v =>
            let '(count, e) := getUintForLimitOffset v in
            match e with
            | Some _ => do latch ErrWrongArguments ;; return_ None
            | None => ret count
            end
        | None => ret 0
        end ;;
      li <- call (init (KLimit offset count)) ;;
      let li := addChild li src in
      ssch <- Schema_of src ;;
      let li := SetSchema li (expression.Clone ssch) in
      ret (Some li)).

(** ** Name resolution *)

(** [colMatch a b] means that [a] matches [b]: [t.a] matches [test.t.a] but
    [test.t.a] does not match [t.a]. *)
Definition colMatch (a b : ast.ColumnName) : bool :=
  if bool_decide (model.L (ast.Schema a) = "")
     || bool_decide (model.L (ast.Schema a) = model.L (ast.Schema b))
  then
    if bool_decide (model.L (ast.Table a) = "")
       || bool_decide (model.L (ast.Table a) = model.L (ast.Table b))
    then bool_decide (model.L (ast.Name a) = model.L (ast.Name b))
    else false
  else false.

Definition matchField (f : ast.SelectField) (col : ast.ColumnName) (ignoreAsName : bool)
    : bool :=
  if bool_decide (model.L (ast.Table col) = "") then
    if bool_decide (model.L (ast.AsName f) = "") || ignoreAsName then
      match ast.Expr f with
      | Some (ast.ColumnNameExpr curCol) =>
          bool_decide (model.L (ast.Name curCol) = model.L (ast.Name col))
      | _ => false
      end
    else bool_decide (model.L (ast.AsName f) = model.L (ast.Name col))
  else false.

(** The loop of [resolveFromSelectFields], from the field of index [i] on,
    with the variables [matchedExpr] and [index]. *)
Fixpoint resolveFieldsLoop (v : ast.ColumnName) (ignoreAsName : bool)
    (fields : list ast.SelectField) (i : Z) (matchedExpr : option ast.ColumnName)
    (index : Z) : Z * option Error :=
  match fields with
  | [] => (index, None)
  | field :: rest =>
      if ast.Auxiliary field then
        resolveFieldsLoop v ignoreAsName rest (i + 1) matchedExpr index
      else if matchField field v ignoreAsName then
        match ast.Expr field with
        | Some (ast.ColumnNameExpr curCol) =>
            match matchedExpr with
            | None => resolveFieldsLoop v ignoreAsName rest (i + 1) (Some curCol) i
            | Some matched =>
                if negb (colMatch matched curCol) && negb (colMatch curCol matched)
                then (-1, Some (ErrAmbiguous (model.L (ast.Name curCol))))
                else resolveFieldsLoop v ignoreAsName rest (i + 1) matchedExpr index
            end
        | _ => (i, None)
        end
      else resolveFieldsLoop v ignoreAsName rest (i + 1) matchedExpr index
  end.

Definition resolveFromSelectFields (v : ast.ColumnName) (fields : list ast.SelectField)
    (ignoreAsName : bool) : Z * option Error :=
  resolveFieldsLoop v ignoreAsName fields 0 None (-1).

(** *** The resolver of HAVING and ORDER BY *)

Record havingAndOrderbyExprResolver := mkHavingAndOrderbyExprResolver {
  inAggFunc : bool;
  inExpr : bool;
  orderBy : bool;
  r_err : option Error;
  r_p : option LogicalPlan;
  selectFields : list ast.SelectField;
  aggMapper : nodeMap;
  r_colMapper : nodeMap;
  gbyItems : list ast.ByItem;
  r_outerSchemas : list expression.Schema
}.

Definition set_flags (inAgg inEx : bool) (a : havingAndOrderbyExprResolver) :=
  mkHavingAndOrderbyExprResolver inAgg inEx (orderBy a) (r_err a) (r_p a)
    (selectFields a) (aggMapper a) (r_colMapper a) (gbyItems a) (r_outerSchemas a).

Definition set_r_err (e : option Error) (a : havingAndOrderbyExprResolver) :=
  mkHavingAndOrderbyExprResolver (inAggFunc a) (inExpr a) (orderBy a) e (r_p a)
    (selectFields a) (aggMapper a) (r_colMapper a) (gbyItems a) (r_outerSchemas a).

Definition set_selectFields (fs : list ast.SelectField) (a : havingAndOrderbyExprResolver) :=
  mkHavingAndOrderbyExprResolver (inAggFunc a) (inExpr a) (orderBy a) (r_err a) (r_p a)
    fs (aggMapper a) (r_colMapper a) (gbyItems a) (r_outerSchemas a).

Definition set_aggMapper (m : nodeMap) (a : havingAndOrderbyExprResolver) :=
  mkHavingAndOrderbyExprResolver (inAggFunc a) (inExpr a) (orderBy a) (r_err a) (r_p a)
    (selectFields a) m (r_colMapper a) (gbyItems a) (r_outerSchemas a).

Definition set_r_colMapper (m : nodeMap) (a : havingAndOrderbyExprResolver) :=
  mkHavingAndOrderbyExprResolver (inAggFunc a) (inExpr a) (orderBy a) (r_err a) (r_p a)
    (selectFields a) (aggMapper a) m (gbyItems a) (r_outerSchemas a).

Definition set_phase (ob inEx : bool) (a : havingAndOrderbyExprResolver) :=
  mkHavingAndOrderbyExprResolver (inAggFunc a) inEx ob (r_err a) (r_p a)
    (selectFields a) (aggMapper a) (r_colMapper a) (gbyItems a) (r_outerSchemas a).

(** [Enter] implements the Visitor interface. *)
Definition hr_Enter (n : ast.Node) (a : havingAndOrderbyExprResolver)
    : Try ((ast.Node * bool) * havingAndOrderbyExprResolver) :=
  match n with
  | ast.NExpr (ast.AggregateFuncExpr _ _ _) => Done ((n, false), set_flags true (inExpr a) a)
  | ast.NExpr ast.ParamMarkerExpr
  | ast.NExpr (ast.ColumnNameExpr _)
  | ast.NColumnName _ => Done ((n, false), a)
  | ast.NExpr (ast.SubqueryExpr _)
  | ast.NExpr (ast.ExistsSubqueryExpr _) => Done ((n, true), a)
  | _ => Done ((n, false), set_flags (inAggFunc a) true a)
  end.

(** The index of the first select field that is a column reference
    matched by [newColName]. *)
Fixpoint findMatchingField (newColName : ast.ColumnName) (fields : list ast.SelectField)
    (i : Z) : option Z :=
  match fields with
  | [] => None
  | field :: rest =>
      match ast.Expr field with
      | Some (ast.ColumnNameExpr c) =>
          if colMatch newColName c then Some i else findMatchingField newColName rest (i + 1)
      | _ => findMatchingField newColName rest (i + 1)
      end
  end.

Definition hr_resolveFromSchema (a : havingAndOrderbyExprResolver) (v : ast.ColumnName)
    (schema : expression.Schema) : (Z * option Error) * havingAndOrderbyExprResolver :=
  match FindColumn schema v with
  | (_, Some e) => ((-1, Some (Foreign e)), a)
  | (None, None) => ((-1, None), a)
  | (Some col, None) =>
      let newColName :=
        ast.mkColumnName (expression.DBName col) (expression.TblName col)
          (expression.ColName col) in
      match findMatchingField newColName (selectFields a) 0 with
      | Some i => ((i, None), a)
      | None =>
          let sf := ast.mkSelectField None (Some (ast.ColumnNameExpr newColName))
                      expression.zeroCIStr true "" (Some (expression.RetType col)) in
          let a := set_selectFields (selectFields a ++ [sf]) a in
          ((Z.of_nat (length (selectFields a)) - 1, None), a)
      end
  end.

(** Whether [v] names a GROUP BY item that is a column reference, matching
    in one direction or the other. *)
Definition namesGbyItem (gbyItems : list ast.ByItem) (v : ast.ColumnName) : bool :=
  existsb (λ item, match ast.by_Expr item with
                   | ast.ColumnNameExpr col => colMatch v col || colMatch col v
                   | _ => false
                   end) gbyItems.

(** The variable [resolveFieldsFirst] of [Leave], after the two tests that
    may clear it. *)
Definition resolveFieldsFirst (a : havingAndOrderbyExprResolver) (v : ast.ColumnName)
    : bool :=
  let resolveFieldsFirst := true in
  let resolveFieldsFirst :=
    if inAggFunc a || (orderBy a && inExpr a) then false else resolveFieldsFirst in
  if negb (inAggFunc a) && negb (orderBy a) then
    if namesGbyItem (gbyItems a) v then false else resolveFieldsFirst
  else resolveFieldsFirst.

(** [a.p.Schema()] *)
Definition r_schema (a : havingAndOrderbyExprResolver) : Try expression.Schema :=
  match r_p a with
  | Some p => Done (schema p)
  | None => Fail NilDereference
  end.

Definition try_bind {A B} (t : Try A) (k : A → Try B) : Try B :=
  match t with
  | Done a => k a
  | Fail p => Fail p
  end.

(** The branch of [Leave] on [resolveFieldsFirst]: the variable [index] and
    the resolver after it.  Where the branch returns on an error of the
    select fields, [a.err] is set and the test of [a.err] that follows the
    branch returns the same result. *)
Definition resolveIndex (a : havingAndOrderbyExprResolver) (v : ast.ColumnName)
    : Try (Z * havingAndOrderbyExprResolver) :=
  if resolveFieldsFirst a v then
    let '(index, e) := resolveFromSelectFields v (selectFields a) false in
    let a := set_r_err e a in
    match e with
    | Some _ => Done (index, a)
    | None =>
        if bool_decide (index = -1) then
          if orderBy a then
            try_bind (r_schema a) (λ sch,
              let '((index, e), a) := hr_resolveFromSchema a v sch in
              Done (index, set_r_err e a))
          else
            let '(index, e) := resolveFromSelectFields v (selectFields a) true in
            Done (index, set_r_err e a)
        else Done (index, a)
    end
  else
    (* We should ignore the err when resolving from schema. Because we could
       resolve successfully when considering select fields. *)
    try_bind (r_schema a) (λ sch,
      let '((index, _), a) := hr_resolveFromSchema a v sch in
      if bool_decide (index = -1) then
        let '(index, e) := resolveFromSelectFields v (selectFields a) false in
        Done (index, set_r_err e a)
      else Done (index, a)).

(** Whether some outer schema has the column. *)
Definition inOuterSchemas (a : havingAndOrderbyExprResolver) (v : ast.ColumnName) : bool :=
  existsb (λ schema, match FindColumn schema v with
                     | (Some _, _) => true
                     | (None, _) => false
                     end) (r_outerSchemas a).

(** [Leave] on a [ColumnNameExpr] whose name is [v]. *)
Definition hr_LeaveColumn (n : ast.Node) (v : ast.ColumnName)
    (a : havingAndOrderbyExprResolver)
    : Try ((option ast.Node * bool) * havingAndOrderbyExprResolver) :=
  try_bind (resolveIndex a v) (λ ia,
    let '(index, a) := ia in
    match r_err a with
    | Some _ => Done ((None, false), a)
    | None =>
        if bool_decide (index = -1) then
          (* If we can't find it any where, it may be a correlated columns. *)
          if inOuterSchemas a v then Done ((Some n, true), a)
          else
            let a := set_r_err (Some (errors_New ("Unknown Column " +:+
                                                  model.L (ast.Name v)))) a in
            Done ((None, false), a)
        else if inAggFunc a then
          match selectFields a !! Z.to_nat index with
          | Some field => Done ((ast.NExpr <$> ast.Expr field, true), a)
          | None => Fail IndexOutOfRange
          end
        else
          Done ((Some n, true),
                set_r_colMapper ((ast.ColumnNameExpr v, index) :: r_colMapper a) a)
    end).

(** [Leave] implements the Visitor interface. *)
Definition hr_Leave (n : ast.Node) (a : havingAndOrderbyExprResolver)
    : Try ((option ast.Node * bool) * havingAndOrderbyExprResolver) :=
  match n with
  | ast.NExpr (ast.AggregateFuncExpr _ _ _ as v) =>
      let a := set_flags false (inExpr a) a in
      let len := Z.of_nat (length (selectFields a)) in
      let a := set_aggMapper ((v, len) :: aggMapper a) a in
      let sf := ast.mkSelectField None (Some v)
                  (model.NewCIStr ("sel_agg_" +:+ pretty len)) true "" None in
      Done ((Some n, true), set_selectFields (selectFields a ++ [sf]) a)
  | ast.NExpr (ast.ColumnNameExpr v) => hr_LeaveColumn n v a
  | _ => Done ((Some n, true), a)
  end.

Definition havingAndOrderbyVisitor : Visitor havingAndOrderbyExprResolver :=
  mkVisitor hr_Enter hr_Leave.

(** [n.(ast.ExprNode)] *)
Definition asExprNode {R} (n : option ast.Node) : G R ast.ExprNode :=
  match n with
  | Some (ast.NExpr e) => ret e
  | _ => panic TypeAssertion
  end.

(** What [resolveHavingAndOrderBy] returns and what it leaves in the
    statement: the two maps, and the select fields, HAVING expression and
    ORDER BY items as the statement holds them afterwards. *)
Record havingOrderResult := mkHavingOrderResult {
  ho_havingMap : nodeMap;
  ho_orderMap : nodeMap;
  ho_Fields : list ast.SelectField;
  ho_Having : option ast.ExprNode;
  ho_OrderBy : option (list ast.ByItem)
}.

(** The loop over the ORDER BY items: the items already visited hold their
    new expression.  The builder's [colMapper] is the map the extractor
    writes, so it is stored back on every exit. *)
Fixpoint orderByLoop (c : ast.SelectClauses) (havingExpr : option ast.ExprNode)
    (items done : list ast.ByItem) (extractor : havingAndOrderbyExprResolver)
    : G havingOrderResult (list ast.ByItem * havingAndOrderbyExprResolver) :=
  match items with
  | [] => ret (done, extractor)
  | item :: rest =>
      r <- try (Accept _ havingAndOrderbyVisitor (ast.by_Expr item) extractor) ;;
      let '((n, ok), extractor) := r in
      do modify (set_colMapper (r_colMapper extractor)) ;;
      if negb ok then
        do (λ b, Next tt (set_err (r_err extractor) b)) ;;
        return_ (mkHavingOrderResult [] [] (ast.Fields c) havingExpr
                   (Some (done ++ item :: rest)))
      else
        e <- asExprNode n ;;
        orderByLoop c havingExpr rest (done ++ [ast.mkByItem e (ast.Desc item)]) extractor
  end.

(** [resolveHavingAndOrderBy] will process aggregate functions and resolve
    the columns that don't exist in select fields. *)
Definition resolveHavingAndOrderBy (c : ast.SelectClauses) (gby : option (list ast.ByItem))
    (p : option LogicalPlan) : Fn havingOrderResult :=
  fn (b <- get ;;
      let extractor :=
        mkHavingAndOrderbyExprResolver false false false None p (ast.Fields c) []
          (colMapper b) (default [] gby) (outerSchemas b) in
      (* Extract agg funcs from having clause. *)
      he <-
        match ast.Having c with
        | Some having =>
            r <- try (Accept _ havingAndOrderbyVisitor having extractor) ;;
            let '((n, ok), extractor) := r in
            do modify (set_colMapper (r_colMapper extractor)) ;;
            if negb ok then
              do (λ b, Next tt (set_err (r_err extractor) b)) ;;
              return_ (mkHavingOrderResult [] [] (ast.Fields c) (ast.Having c)
                         (ast.OrderBy c))
            else
              e <- asExprNode n ;;
              ret (Some e, extractor)
        | None => ret (None, extractor)
        end ;;
      let '(havingExpr, extractor) := he in
      let havingAggMapper := aggMapper extractor in
      let extractor := set_aggMapper [] extractor in
      let extractor := set_phase true false extractor in
      (* Extract agg funcs from order by clause. *)
      oe <-
        match ast.OrderBy c with
        | Some items =>
            r <- orderByLoop c havingExpr items [] extractor ;;
            ret (Some r.1, r.2)
        | None => ret (None, extractor)
        end ;;
      let '(orderItems, extractor) := oe in
      ret (mkHavingOrderResult havingAggMapper (aggMapper extractor)
             (selectFields extractor) havingExpr orderItems)).

(** [extractAggFuncs]: the aggregates of the fields, their map, and the
    fields with the expressions the traversal returned. *)
Fixpoint extractAggLoop {R} (fields done : list ast.SelectField)
    (extractor : AggregateFuncExtractorState)
    : G R (list ast.SelectField * AggregateFuncExtractorState) :=
  match fields with
  | [] => ret (done, extractor)
  | f :: rest =>
      match ast.Expr f with
      | None => panic NilDereference
      | Some fe =>
          r <- try (Accept _ AggregateFuncExtractor fe extractor) ;;
          let '((n, _), extractor) := r in
          e <- asExprNode n ;;
          let f := ast.mkSelectField (ast.WildCard f) (Some e) (ast.AsName f)
                     (ast.Auxiliary f) (ast.Text f) (ast.ExprType f) in
          extractAggLoop rest (done ++ [f]) extractor
      end
  end.

Definition extractAggFuncs (fields : list ast.SelectField)
    : Fn (list ast.AggregateFunc * nodeMap * list ast.SelectField) :=
  fn (r <- extractAggLoop fields [] newAggregateFuncExtractor ;;
      let aggList := AggFuncs r.2 in
      let totalAggMapper :=
        foldl (λ (m : nodeMap) ia, (ast.agg_node ia.2, Z.of_nat ia.1) :: m) []
          (imap pair aggList) in
      ret (aggList, totalAggMapper, r.1)).

(** *** The resolver of GROUP BY *)

Record gbyResolver := mkGbyResolver {
  g_fields : list ast.SelectField;
  g_schema : expression.Schema;
  g_err : option Error;
  g_inExpr : bool
}.

Definition g_Enter (inNode : ast.Node) (g : gbyResolver)
    : Try ((ast.Node * bool) * gbyResolver) :=
  match inNode with
  | ast.NExpr (ast.SubqueryExpr _)
  | ast.NExpr (ast.CompareSubqueryExpr _ _)
  | ast.NExpr (ast.ExistsSubqueryExpr _) => Done ((inNode, true), g)
  | ast.NExpr (ast.ValueExpr _)
  | ast.NExpr (ast.ColumnNameExpr _)
  | ast.NExpr (ast.ParenthesesExpr _)
  | ast.NColumnName _ => Done ((inNode, false), g)
  | _ => Done ((inNode, false), mkGbyResolver (g_fields g) (g_schema g) (g_err g) true)
  end.

Definition g_Leave (inNode : ast.Node) (g : gbyResolver)
    : Try ((option ast.Node * bool) * gbyResolver) :=
  let set_g_err e := mkGbyResolver (g_fields g) (g_schema g) e (g_inExpr g) in
  match inNode with
  | ast.NExpr (ast.ColumnNameExpr v) =>
      let '(col, err) := FindColumn (g_schema g) v in
      if bool_decide (col = None) || negb (g_inExpr g) then
        let '(index, e) := resolveFromSelectFields v (g_fields g) false in
        let g := set_g_err e in
        match e with
        | Some _ => Done ((Some inNode, false), g)
        | None =>
            match col with
            | Some _ => Done ((Some inNode, true), g)
            | None =>
                if bool_decide (index ≠ -1) then
                  match g_fields g !! Z.to_nat index with
                  | Some field => Done ((ast.NExpr <$> ast.Expr field, true), g)
                  | None => Fail IndexOutOfRange
                  end
                else Done ((Some inNode, false), set_g_err (Foreign <$> err))
            end
        end
      else Done ((Some inNode, true), g)
  | ast.NExpr (ast.PositionExpr N) =>
      if bool_decide (N >= 1) && bool_decide (N <= Z.of_nat (length (g_fields g))) then
        match g_fields g !! Z.to_nat (N - 1) with
        | Some field => Done ((ast.NExpr <$> ast.Expr field, true), g)
        | None => Fail IndexOutOfRange
        end
      else
        Done ((Some inNode, false),
              set_g_err (Some (errors_New ("Unknown column '" +:+ pretty N +:+
                                           "' in 'group statement'"))))
  | _ => Done ((Some inNode, true), g)
  end.

Definition gbyVisitor : Visitor gbyResolver := mkVisitor g_Enter g_Leave.

(** The variables of the loop of [resolveGbyExprs], with the items already
    visited, which hold their new expression. *)
Record gbyLoop := mkGbyLoop {
  gl_p : option LogicalPlan;
  gl_exprs : list (option expression.Expression);
  gl_done : list ast.ByItem;
  gl_resolver : gbyResolver
}.

Definition GbyResult : Type :=
  option LogicalPlan * list (option expression.Expression) * list ast.ByItem.

Fixpoint gbyItemsLoop (items : list ast.ByItem) (st : gbyLoop) : G GbyResult gbyLoop :=
  match items with
  | [] => ret st
  | item :: rest =>
      let g := gl_resolver st in
      let resolver := mkGbyResolver (g_fields g) (g_schema g) (g_err g) false in
      r <- try (Accept _ gbyVisitor (ast.by_Expr item) resolver) ;;
      let '((retExpr, _), resolver) := r in
      match g_err resolver with
      | Some e => do latch e ;; return_ (None, [], gl_done st ++ item :: rest)
      | None =>
          e <- asExprNode retExpr ;;
          let item := ast.mkByItem e (ast.Desc item) in
          r <- rewriteG e (gl_p st) [] true ;;
          match rw_err r with
          | Some er =>
              do latch (Foreign er) ;;
              return_ (None, [], gl_done st ++ item :: rest)
          | None =>
              gbyItemsLoop rest
                (mkGbyLoop (rw_plan r) (gl_exprs st ++ [rw_expr r])
                   (gl_done st ++ [item]) resolver)
          end
      end
  end.

(** [resolveGbyExprs]: the plan, the group-by expressions, and the items of
    the clause as it holds them afterwards. *)
Definition resolveGbyExprs (p : option LogicalPlan) (gby : list ast.ByItem)
    (fields : list ast.SelectField) : Fn GbyResult :=
  fn (psch <- Schema_of p ;;
      let resolver := mkGbyResolver fields psch None false in
      st <- gbyItemsLoop gby (mkGbyLoop p [] [] resolver) ;;
      ret (gl_p st, gl_exprs st, gl_done st)).

(** ** Wildcards and hints *)

(** The test of the qualifiers of a wildcard on a column: an empty
    qualifier lets every column through. *)
Definition qualifies (wc : ast.WildCardField) (col : expression.Column) : bool :=
  let dbName := ast.wc_Schema wc in
  let tblName := ast.wc_Table wc in
  (bool_decide (model.L dbName = "")
   || bool_decide (model.L dbName = model.L (expression.DBName col)))
  && (bool_decide (model.L tblName = "")
      || bool_decide (model.L tblName = model.L (expression.TblName col))).

(** The select fields one wildcard stands for: a field per column of the
    schema that the qualifiers let through and that is not the extra handle. *)
Definition wildFields (wc : ast.WildCardField) (cols : list expression.Column)
    : list ast.SelectField :=
  omap (λ col,
          if qualifies wc col && bool_decide (expression.ID col ≠ ExtraHandleID)
          then
            let colName :=
              ast.ColumnNameExpr
                (ast.mkColumnName (expression.DBName col) (expression.TblName col)
                   (expression.ColName col)) in
            Some (ast.mkSelectField None (Some colName) expression.zeroCIStr false
                    (model.O (expression.ColName col)) (Some (expression.RetType col)))
          else None) cols.

Fixpoint unfoldLoop (p : option LogicalPlan) (selectFields : list ast.SelectField)
    (i : Z) (resultList : list ast.SelectField)
    : G (list ast.SelectField) (list ast.SelectField) :=
  match selectFields with
  | [] => ret resultList
  | field :: rest =>
      match ast.WildCard field with
      | None => unfoldLoop p rest (i + 1) (resultList ++ [field])
      | Some wc =>
          if bool_decide (model.L (ast.wc_Table wc) = "") && bool_decide (i > 0) then
            do latch ErrInvalidWildCard ;; return_ resultList
          else
            psch <- Schema_of p ;;
            unfoldLoop p rest (i + 1) (resultList ++ wildFields wc (expression.Columns psch))
      end
  end.

Definition unfoldWildStar (p : option LogicalPlan) (selectFields : list ast.SelectField)
    : Fn (list ast.SelectField) :=
  fn (unfoldLoop p selectFields 0 []).

(** The names of the two hints, the constants declared at the head of the
    file. *)
Definition TiDBMergeJoin : string := "tidb_smj".
Definition TiDBIndexNestedLoopJoin : string := "tidb_inlj".

Definition pushTableHints (hints : list ast.TableOptimizerHint) : Fn bool :=
  fn (let '(sortMergeTables, INLJTables) :=
        foldl (λ (acc : list model.CIStr * list model.CIStr) hint,
                 if decide (model.L (ast.HintName hint) = TiDBMergeJoin)
                 then (acc.1 ++ ast.Tables hint, acc.2)
                 else if decide (model.L (ast.HintName hint) = TiDBIndexNestedLoopJoin)
                 then (acc.1, acc.2 ++ ast.Tables hint)
                 else acc (* ignore hints that not implemented *))
              ([], []) hints in
      if negb (bool_decide (length sortMergeTables = 0%nat))
         || negb (bool_decide (length INLJTables = 0%nat)) then
        do modify (λ b, set_tableHintInfo
                          (b_tableHintInfo b ++ [mkTableHintInfo INLJTables sortMergeTables]) b) ;;
        ret true
      else ret false).

Definition popTableHints : Fn unit :=
  fn (b <- get ;;
      hs <- slice_to (b_tableHintInfo b) (Z.of_nat (length (b_tableHintInfo b)) - 1) ;;
      modify (set_tableHintInfo hs)).

(** ** Leaves *)

Definition buildTableDual : Fn (option LogicalPlan) :=
  fn (dual <- call (init (KTableDual 1)) ;;
      ret (Some (SetSchema dual (expression.NewSchema [])))).

Definition appendVisitInfo (vi : list visitInfo) (priv db tbl col : string)
    : list visitInfo :=
  vi ++ [mkVisitInfo priv db tbl col].

(** The loop of [buildDataSource] over the columns of the table: the column
    infos, the schema and the primary-key column. *)
Definition dataSourceColumns (pid : string) (tableInfo : model.TableInfo)
    (schemaName : model.CIStr) (columns : list model.ColumnInfo)
    : list model.ColumnInfo * expression.Schema * option expression.Column :=
  foldl (λ (acc : list model.ColumnInfo * expression.Schema * option expression.Column) ic,
           let '(cols, schema, pkCol) := acc in
           let '(i, col) := (ic.1, ic.2) in
           let c := {| expression.FromID := pid;
                       expression.ColName := model.ci_Name col;
                       expression.DBName := schemaName;
                       expression.TblName := model.ti_Name tableInfo;
                       expression.RetType := types.FieldType_of col;
                       expression.ID := model.ci_ID col;
                       expression.Position := Z.of_nat i;
                       expression.IsAggOrSubq := false;
                       expression.Index := 0 |} in
           (cols ++ [col], expression.Append schema c,
            if model.PKIsHandle tableInfo && HasPriKeyFlag (model.ci_Flag col)
            then Some c else pkCol))
        ([], expression.NewSchema [], None) (imap pair columns).

Definition buildDataSource (tn : ast.TableName) : Fn (option LogicalPlan) :=
  fn (let schemaName :=
        if decide (model.L (ast.tn_Schema tn) = "") then model.NewCIStr CurrentDB
        else ast.tn_Schema tn in
      match TableByName schemaName (ast.tn_Name tn) with
      | inr e => do latch (Foreign e) ;; return_ None
      | inl tbl =>
          let tableInfo := Meta tbl in
          b <- get ;;
          let ds := mkDataSourceInfo (ast.IndexHints tn) tableInfo schemaName None []
                      (bool_decide (needColHandle b > 0)) None in
          p <- call (init (KDataSource ds)) ;;
          do modify (λ b, set_visitInfo
                           (appendVisitInfo (b_visitInfo b) "Select" (model.L schemaName)
                              (model.L (model.ti_Name tableInfo)) "") b) ;;
          let columns := if inUpdateStmt b then WritableCols tbl else Cols tbl in
          let '(pColumns, schema, pkCol) :=
            dataSourceColumns (id p) tableInfo schemaName columns in
          let needUnionScan := TxnReadWrite in
          let finish (pColumns : list model.ColumnInfo) (uss : option expression.Schema)
                     (schema : expression.Schema) :=
            SetSchema
              (SetKind p (KDataSource
                            (mkDataSourceInfo (ast.IndexHints tn) tableInfo schemaName None
                               pColumns (bool_decide (needColHandle b > 0)) uss)))
              schema in
          if bool_decide (needColHandle b = 0) && negb needUnionScan then
            return_ (Some (finish pColumns None schema))
          else
            let uss := if needUnionScan
                       then Some (expression.NewSchema (expression.Columns schema))
                       else None in
            match pkCol with
            | None =>
                let idCol := {| expression.FromID := id p;
                                expression.ColName := model.NewCIStr "_rowid";
                                expression.DBName := schemaName;
                                expression.TblName := model.ti_Name tableInfo;
                                expression.RetType := NewFieldType TypeLonglong;
                                expression.ID := ExtraHandleID;
                                expression.Position := expression.Len schema;
                                expression.IsAggOrSubq := false;
                                expression.Index := expression.Len schema |} in
                let uss :=
                  if needUnionScan && bool_decide (needColHandle b > 0)
                  then (λ u, expression.SetTblID2Handle (expression.Append u idCol)
                               (model.ti_ID tableInfo) [idCol]) <$> uss
                  else uss in
                let pColumns :=
                  pColumns ++ [model.mkColumnInfo ExtraHandleID (model.NewCIStr "_rowid")
                                 0 0 0 0 ""] in
                let schema := expression.Append schema idCol in
                let schema := expression.SetTblID2Handle schema (model.ti_ID tableInfo)
                                [idCol] in
                ret (Some (finish pColumns uss schema))
            | Some pkCol =>
                let uss :=
                  if needUnionScan && bool_decide (needColHandle b > 0)
                  then (λ u, expression.SetTblID2Handle u (model.ti_ID tableInfo) [pkCol])
                         <$> uss
                  else uss in
                let schema := expression.SetTblID2Handle schema (model.ti_ID tableInfo)
                                [pkCol] in
                ret (Some (finish pColumns uss schema))
            end
      end).

(** ** Statements *)

(** The loop of [buildResultSetNode] that gives every column of the schema
    the alias of the table source.  The handle map and the union-scan schema
    of a data source hold the same column objects; no function of this file
    reads their names through them, and the columns of the schema alone are
    renamed. *)
Definition aliasColumns (asName : model.CIStr) (p : LogicalPlan) : LogicalPlan :=
  SetSchema p
    (expression.mkSchema
       ((λ col, expression.mkColumn (expression.FromID col) (expression.ColName col)
                  (model.NewCIStr "") asName (expression.RetType col) (expression.ID col)
                  (expression.Position col) (expression.IsAggOrSubq col)
                  (expression.Index col)) <$> expression.Columns (schema p))
       (expression.TblID2Handle (schema p))).

Definition setTableAsName (asName : model.CIStr) (p : LogicalPlan) : LogicalPlan :=
  match kind p with
  | KDataSource v =>
      SetKind p (KDataSource
                   (mkDataSourceInfo (indexHints v) (tableInfo v) (ds_DBName v) (Some asName)
                      (ds_Columns v) (NeedColHandle v) (unionScanSchema v)))
  | _ => p
  end.

Definition setFromID (fromID : string) (col : expression.Column) : expression.Column :=
  expression.mkColumn fromID (expression.ColName col) (expression.DBName col)
    (expression.TblName col) (expression.RetType col) (expression.ID col)
    (expression.Position col) (expression.IsAggOrSubq col) (expression.Index col).

(** The redundant schema of a plan that is a [LogicalJoin]. *)
Definition redundantOf (p : option LogicalPlan) : option expression.Schema :=
  match p with
  | Some (mkPlan (KJoin j) _ _ _) => redundantSchema j
  | _ => None
  end.

Definition setJoinHints (merge : bool) (inlj : Z) (j : JoinInfo) : JoinInfo :=
  mkJoinInfo (JoinType_ j) (cartesianJoin j) (anti j) merge inlj (EqualConditions j)
    (LeftConditions j) (RightConditions j) (OtherConditions j) (DefaultValues j)
    (redundantSchema j).

Definition setRedundant (r : option expression.Schema) (j : JoinInfo) : JoinInfo :=
  mkJoinInfo (JoinType_ j) (cartesianJoin j) (anti j) (preferMergeJoin j) (preferINLJ j)
    (EqualConditions j) (LeftConditions j) (RightConditions j) (OtherConditions j)
    (DefaultValues j) r.

Definition setCartesian (c : bool) (j : JoinInfo) : JoinInfo :=
  mkJoinInfo (JoinType_ j) c (anti j) (preferMergeJoin j) (preferINLJ j)
    (EqualConditions j) (LeftConditions j) (RightConditions j) (OtherConditions j)
    (DefaultValues j) (redundantSchema j).

Definition setJoinType (t : JoinType) (dv : list types.Value) (j : JoinInfo) : JoinInfo :=
  mkJoinInfo t (cartesianJoin j) (anti j) (preferMergeJoin j) (preferINLJ j)
    (EqualConditions j) (LeftConditions j) (RightConditions j) (OtherConditions j)
    dv (redundantSchema j).

(** The part of [buildJoin] after both sides are built. *)
Definition joinPlans (c : ast.JoinClauses) (leftPlan rightPlan : option LogicalPlan)
    : G (option LogicalPlan) (option LogicalPlan) :=
  leftAlias <- extractTableAlias leftPlan ;;
  rightAlias <- extractTableAlias rightPlan ;;
  lsch <- Schema_of leftPlan ;;
  rsch <- Schema_of rightPlan ;;
  let newSchema := expression.MergeSchema (Some lsch) (Some rsch) in
  joinPlan <- call (init (KJoin zeroJoin)) ;;
  let joinPlan := addChild joinPlan leftPlan in
  let joinPlan := addChild joinPlan rightPlan in
  let joinPlan := SetSchema joinPlan (default (expression.NewSchema []) newSchema) in
  (* Merge sub join's redundantSchema into this join plan. *)
  let lRedundant := redundantOf leftPlan in
  let rRedundant := redundantOf rightPlan in
  let joinPlan := withJoin (setRedundant (expression.MergeSchema lRedundant rRedundant))
                    joinPlan in
  b <- get ;;
  joinPlan <-
    match TableHints b with
    | Some hints =>
        let merge := ifPreferMergeJoin hints [leftAlias; rightAlias] in
        let inlj := preferINLJ (joinInfo joinPlan) in
        let inlj := if ifPreferINLJ hints [leftAlias]
                    then Z.lor inlj preferLeftAsOuter else inlj in
        let inlj := if ifPreferINLJ hints [rightAlias]
                    then Z.lor inlj preferRightAsOuter else inlj in
        if merge && bool_decide (inlj > 0) then
          do latch (errors_New "Optimizer Hints is conflict") ;; return_ None
        else ret (withJoin (setJoinHints merge inlj) joinPlan)
    | None => ret joinPlan
    end ;;
  joinPlan <-
    (if ast.NaturalJoin c then
       r <- call (buildNaturalJoin joinPlan leftPlan rightPlan (ast.Tp c)) ;;
       match r.2 with
       | Some e => do latch e ;; return_ None
       | None => ret r.1
       end
     else
       match ast.Using c, ast.On c with
       | Some usingCols, _ =>
           r <- call (buildUsingClause joinPlan leftPlan rightPlan (ast.Tp c) usingCols) ;;
           match r.2 with
           | Some e => do latch e ;; return_ None
           | None => ret r.1
           end
       | None, Some on =>
           r <- rewriteG on (Some joinPlan) [] false ;;
           match rw_err r with
           | Some e => do latch (Foreign e) ;; return_ None
           | None =>
               match rw_expr r with
               | None => panic NilDereference
               | Some onExpr =>
                   if IsCorrelated onExpr then
                     do latch (errors_New "ON condition doesn't support subqueries yet") ;;
                     return_ None
                   else ret (attachOnConds (SplitCNFItems onExpr) joinPlan)
               end
           end
       | None, None =>
           if decide (JoinType_ (joinInfo joinPlan) = InnerJoin)
           then ret (withJoin (setCartesian true) joinPlan)
           else ret joinPlan
       end) ;;
  let nils (n : Z) := replicate (Z.to_nat n) types.VNil in
  match ast.Tp c with
  | ast.LeftJoin =>
      ret (Some (withJoin (setJoinType LeftOuterJoin (nils (expression.Len rsch))) joinPlan))
  | ast.RightJoin =>
      ret (Some (withJoin (setJoinType RightOuterJoin (nils (expression.Len lsch))) joinPlan))
  | ast.CrossJoin =>
      ret (Some (withJoin (λ j, setJoinType InnerJoin (DefaultValues j) j) joinPlan))
  end.

(** One round of the second loop of [buildUnion], for the branch [sel]: the
    branch as the union keeps it, and the columns of [firstSchema].  The
    source widens the type of a column of [firstSchema] through a pointer
    that the column it was cloned from holds too; here the type is a value
    of the column, and the widening is written on [firstSchema] alone. *)
Definition unionBranch (firstCols : list expression.Column) (sel : option LogicalPlan)
    : G (option LogicalPlan) (option LogicalPlan * list expression.Column) :=
  ssch <- Schema_of sel ;;
  if bool_decide (Z.of_nat (length firstCols) ≠ expression.Len ssch) then
    do latch (errors_New "The used SELECT statements have a different number of columns") ;;
    return_ None
  else
    sel <-
      match sel with
      | Some (mkPlan (KProjection _) _ _ _) => ret sel
      | _ =>
          proj <- call (init (KProjection (expression.Column2Exprs (expression.Columns ssch)))) ;;
          let schema := expression.Clone ssch in
          let schema := expression.mkSchema (setFromID (id proj) <$> expression.Columns schema)
                          (expression.TblID2Handle schema) in
          let proj := SetSchema proj schema in
          let proj := SetChildren proj (option_list sel) in
          ret (Some proj)
      end ;;
    ssch <- Schema_of sel ;;
    (* The lengths of the columns in the UNION result take into account the
       values retrieved by all of the SELECT statements. *)
    let firstCols :=
      zip_with (λ (first col : expression.Column),
                  let schemaTp := expression.RetType first in
                  let colTp := expression.RetType col in
                  let decimal := Z.max (types.Decimal colTp) (types.Decimal schemaTp) in
                  (* Flen - Decimal is the fraction before the point *)
                  let flen := Z.max (types.Flen colTp - types.Decimal colTp)
                                (types.Flen schemaTp - decimal) + decimal in
                  let tp := MergeFieldType (types.Tp schemaTp) (types.Tp colTp) in
                  expression.mkColumn (expression.FromID first) (expression.ColName first)
                    (expression.DBName first) (expression.TblName first)
                    (types.mkFieldType tp flen decimal) (expression.ID first)
                    (expression.Position first) (expression.IsAggOrSubq first)
                    (expression.Index first))
        firstCols (expression.Columns ssch) in
    ret (sel, firstCols).

Fixpoint unionLoop (branches done : list (option LogicalPlan))
    (firstCols : list expression.Column)
    : G (option LogicalPlan) (list (option LogicalPlan) * list expression.Column) :=
  match branches with
  | [] => ret (done, firstCols)
  | sel :: rest =>
      r <- unionBranch firstCols sel ;;
      unionLoop rest (done ++ [r.1]) r.2
  end.

(** The part of [buildUnion] after the branches are built. *)
Definition unionPlans (c : ast.UnionClauses) (u : LogicalPlan)
    (branches : list (option LogicalPlan)) : G (option LogicalPlan) (option LogicalPlan) :=
  first <- index branches 0 ;;
  fsch <- Schema_of first ;;
  let firstSchema := expression.Clone fsch in
  r <- unionLoop branches [] (expression.Columns firstSchema) ;;
  let '(branches, firstCols) := r in
  let u := SetChildren u (omap (λ x, x) branches) in
  let firstCols :=
    (λ v, expression.mkColumn (id u) (expression.ColName v) (model.NewCIStr "")
            (expression.TblName v) (expression.RetType v) (expression.ID v)
            (expression.Position v) (expression.IsAggOrSubq v) (expression.Index v))
      <$> firstCols in
  let u := SetSchema u (expression.mkSchema firstCols (expression.TblID2Handle firstSchema)) in
  let p := Some u in
  p <- (if ast.u_Distinct c
        then call (buildDistinct (Some u) (expression.Len (schema u)))
        else ret p) ;;
  p <- match ast.u_OrderBy c with
       | Some items => call (buildSort p items [])
       | None => ret p
       end ;;
  p <- match ast.u_Limit c with
       | Some limit => call (buildLimit p limit)
       | None => ret p
       end ;;
  ret p.

(** What [buildSelect] does once the FROM clause is built into [p]. *)
Definition selectBody (c : ast.SelectClauses) (hasAgg : bool) (p : option LogicalPlan)
    : G (option LogicalPlan) (option LogicalPlan) :=
  do bail None ;;
  fields <- call (unfoldWildStar p (ast.Fields c)) ;;
  do bail None ;;
  pg <-
    match ast.GroupBy c with
    | Some items =>
        r <- call (resolveGbyExprs p items fields) ;;
        do bail None ;;
        ret (r.1.1, r.1.2, Some r.2)
    | None => ret (p, [], None)
    end ;;
  let '(p, gbyCols, gbyItems) := pg in
  (* We must resolve having and order by clause before build projection. *)
  ho <- call (resolveHavingAndOrderBy
                (ast.mkSelectClauses (ast.Distinct c) fields (ast.Where c) gbyItems
                   (ast.Having c) (ast.OrderBy c) (ast.sel_Limit c) (ast.LockTp c)
                   (ast.TableHints c))
                gbyItems p) ;;
  let havingMap := ho_havingMap ho in
  let orderMap := ho_orderMap ho in
  let fields := ho_Fields ho in
  p <- match ast.Where c with
       | Some where_ =>
           p <- call (buildSelection p where_ []) ;;
           do bail None ;;
           ret p
       | None => ret p
       end ;;
  p <- (if decide (ast.LockTp c ≠ ast.SelectLockNone)
        then call (buildSelectLock p (ast.LockTp c))
        else ret p) ;;
  pt <-
    (if hasAgg then
       r <- call (extractAggFuncs fields) ;;
       let '(aggFuncs, totalMap, fields) := r in
       do bail None ;;
       pa <- call (buildAggregation p aggFuncs gbyCols) ;;
       let '(p, aggIndexMap) := pa in
       let totalMap := (λ kv : ast.ExprNode * Z, (kv.1, default 0 (aggIndexMap !! kv.2)))
                         <$> totalMap in
       do bail None ;;
       ret (p, totalMap, fields)
     else ret (p, [], fields)) ;;
  let '(p, totalMap, fields) := pt in
  po <- call (buildProjection p fields totalMap) ;;
  let '(p, oldLen) := po in
  do bail None ;;
  p <- match ho_Having ho with
       | Some having =>
           p <- call (buildSelection p having havingMap) ;;
           do bail None ;;
           ret p
       | None => ret p
       end ;;
  p <- (if ast.Distinct c then
          p <- call (buildDistinct p oldLen) ;;
          do bail None ;;
          ret p
        else ret p) ;;
  p <- match ho_OrderBy ho with
       | Some items =>
           p <- call (buildSort p items orderMap) ;;
           do bail None ;;
           ret p
       | None => ret p
       end ;;
  p <- match ast.sel_Limit c with
       | Some limit =>
           p <- call (buildLimit p limit) ;;
           do bail None ;;
           ret p
       | None => ret p
       end ;;
  do (if decide (ast.LockTp c = ast.SelectLockForUpdate)
      then modify (λ b, set_needColHandle (needColHandle b - 1) b)
      else ret tt) ;;
  psch <- Schema_of p ;;
  if bool_decide (oldLen ≠ expression.Len psch) then
    exprCols <- slice_to (expression.Columns psch) oldLen ;;
    proj <- call (init (KProjection (expression.Column2Exprs exprCols))) ;;
    let proj := addChild proj p in
    cols <- slice_to (expression.Columns (expression.Clone psch)) oldLen ;;
    let schema := expression.NewSchema (setFromID (id proj) <$> cols) in
    ret (Some (SetSchema proj schema))
  else ret p.

(** [buildResultSetNode], [buildJoin], [buildSelect] and [buildUnion], by
    recursion on the statement; [buildSelects] is the first loop of
    [buildUnion]. *)
Fixpoint buildResultSetNode (node : ast.ResultSetNode) {struct node}
    : Fn (option LogicalPlan) :=
  match node with
  | ast.RJoin x => buildJoin x
  | ast.RTableSource Source AsName =>
      fn (p <- match Source with
               | ast.RSelectStmt v => call (buildSelect v)
               | ast.RUnionStmt v => call (buildUnion v)
               | ast.RTableName v => call (buildDataSource v)
               | _ => do latch (ErrUnsupportedType "unsupported table source type") ;;
                      return_ None
               end ;;
          do bail None ;;
          let p := setTableAsName AsName <$> p in
          if decide (model.L AsName ≠ "") then
            match p with
            | Some n => ret (Some (aliasColumns AsName n))
            | None => panic NilDereference
            end
          else ret p)
  | ast.RSelectStmt x => buildSelect x
  | ast.RUnionStmt x => buildUnion x
  | ast.RTableName _ =>
      fn (do latch (ErrUnsupportedType "unsupported table source type") ;; return_ None)
  end
with buildJoin (join : ast.Join) {struct join} : Fn (option LogicalPlan) :=
  match join with
  | ast.mkJoin Left ast.NoRight _ => buildResultSetNode Left
  | ast.mkJoin Left (ast.HasRight Right) c =>
      fn (leftPlan <- call (buildResultSetNode Left) ;;
          rightPlan <- call (buildResultSetNode Right) ;;
          joinPlans c leftPlan rightPlan)
  end
with buildSelect (sel : ast.SelectStmt) {struct sel} : Fn (option LogicalPlan) :=
  match sel with
  | ast.mkSelectStmt From c =>
      λ b,
        (* table hints without query block support only visible in current SELECT *)
        let pushed :=
          match ast.TableHints c with
          | [] => Ok false b
          | hints => pushTableHints hints b
          end in
        match pushed with
        | Crash k => Crash k
        | Ok pushed b =>
            defer (if pushed then popTableHints else fn (ret tt))
              (fn (do (if decide (ast.LockTp c = ast.SelectLockForUpdate)
                       then modify (λ b, set_needColHandle (needColHandle b + 1) b)
                       else ret tt) ;;
                   let hasAgg := detectSelectAgg c in
                   p <- match From with
                        | ast.TableRefs j => call (buildJoin j)
                        | ast.NoFrom => call buildTableDual
                        end ;;
                   selectBody c hasAgg p)) b
        end
  end
with buildUnion (union : ast.UnionStmt) {struct union} : Fn (option LogicalPlan) :=
  match union with
  | ast.mkUnionStmt Selects c =>
      fn (u <- call (init KUnion) ;;
          branches <- buildSelects Selects [] ;;
          unionPlans c u branches)
  end
with buildSelects (sels : ast.SelectList) (done : list (option LogicalPlan)) {struct sels}
    : G (option LogicalPlan) (list (option LogicalPlan)) :=
  match sels with
  | ast.SelNil => ret done
  | ast.SelCons sel rest =>
      p <- call (buildSelect sel) ;;
      do bail None ;;
      buildSelects rest (done ++ [p])
  end.

End Builder.

(** ** A concrete setting

    Simple collaborators and a small catalog, on which the builder runs on
    concrete statements. *)

Module sample.

#[global] Instance CIStr_eq_dec : EqDecision model.CIStr.
Proof. solve_decision. Defined.
#[global] Instance ColumnName_eq_dec : EqDecision ast.ColumnName.
Proof. solve_decision. Defined.
#[global] Instance Value_eq_dec : EqDecision types.Value.
Proof. solve_decision. Defined.

(** Equality of AST expressions. *)
Fixpoint ExprNode_eqb (x y : ast.ExprNode) {struct x} : bool :=
  let list_eqb :=
    fix list_eqb (l l' : list ast.ExprNode) {struct l} : bool :=
      match l, l' with
      | [], [] => true
      | u :: l, v :: l' => ExprNode_eqb u v && list_eqb l l'
      | _, _ => false
      end in
  match x, y with
  | ast.ColumnNameExpr a, ast.ColumnNameExpr b => bool_decide (a = b)
  | ast.AggregateFuncExpr f a d, ast.AggregateFuncExpr f' a' d' =>
      bool_decide (f = f') && list_eqb a a' && bool_decide (d = d')
  | ast.BinaryOperationExpr o l r, ast.BinaryOperationExpr o' l' r' =>
      bool_decide (o = o') && ExprNode_eqb l l' && ExprNode_eqb r r'
  | ast.ParenthesesExpr e, ast.ParenthesesExpr e' => ExprNode_eqb e e'
  | ast.ValueExpr v, ast.ValueExpr v' => bool_decide (v = v')
  | ast.PositionExpr n, ast.PositionExpr n' => bool_decide (n = n')
  | ast.ParamMarkerExpr, ast.ParamMarkerExpr => true
  | ast.FuncCallExpr f a, ast.FuncCallExpr f' a' => bool_decide (f = f') && list_eqb a a'
  | ast.SubqueryExpr t, ast.SubqueryExpr t' => bool_decide (t = t')
  | ast.ExistsSubqueryExpr t, ast.ExistsSubqueryExpr t' => bool_decide (t = t')
  | ast.CompareSubqueryExpr l r, ast.CompareSubqueryExpr l' r' =>
      ExprNode_eqb l l' && ExprNode_eqb r r'
  | _, _ => false
  end.

Definition lookupNode (m : nodeMap) (n : ast.ExprNode) : option Z :=
  snd <$> List.find (λ kv, ExprNode_eqb kv.1 n) m.

(** Modelled from the spec: [findColumn] (section 4.1) matches on the
    optional database, the optional table and the name, all in lower
    case; it fails when more than one column matches and finds nothing
    silently. *)
Definition matches (v : ast.ColumnName) (col : expression.Column) : bool :=
  (bool_decide (model.L (ast.Schema v) = "")
   || bool_decide (model.L (ast.Schema v) = model.L (expression.DBName col)))
  && (bool_decide (model.L (ast.Table v) = "")
      || bool_decide (model.L (ast.Table v) = model.L (expression.TblName col)))
  && bool_decide (model.L (ast.Name v) = model.L (expression.ColName col)).

Definition findColumn (s : expression.Schema) (v : ast.ColumnName)
    : option expression.Column * option ExtError :=
  match List.filter (matches v) (expression.Columns s) with
  | [] => (None, None)
  | [col] => (Some col, None)
  | col :: _ =>
      (None, Some (mkExtError ("Column " +:+ model.L (ast.Name v) +:+ " is ambiguous")))
  end.

(** Modelled from the spec: the traversal of an expression (section 9):
    enter the node; unless the children are skipped, visit them in order
    and stop at the first that fails; leave the node.  The child of a
    column reference is its column name. *)
Section Walk.
Context {S : Type} (v : Visitor S).

Definition walkName (c : ast.ColumnName) (s : S) : Try ((option ast.Node * bool) * S) :=
  try_bind (v_Enter v (ast.NColumnName c) s) (λ r,
    let '((n, _), s) := r in v_Leave v n s).

Fixpoint walk (e : ast.ExprNode) (s : S) {struct e}
    : Try ((option ast.Node * bool) * S) :=
  let walkList :=
    fix walkList (l done : list ast.ExprNode) (s : S) {struct l}
        : Try ((list ast.ExprNode * bool) * S) :=
      match l with
      | [] => Done ((done, true), s)
      | x :: l' =>
          try_bind (walk x s) (λ r,
            let '((n, ok), s) := r in
            match n, ok with
            | Some (ast.NExpr x'), true => walkList l' (done ++ [x']) s
            | _, _ => Done ((done ++ x :: l', false), s)
            end)
      end in
  try_bind (v_Enter v (ast.NExpr e) s) (λ r,
    let '((n, skipChildren), s) := r in
    if skipChildren then v_Leave v n s
    else
      match e with
      | ast.ColumnNameExpr c =>
          try_bind (walkName c s) (λ r,
            let '((_, ok), s) := r in
            if ok then v_Leave v (ast.NExpr e) s else Done ((Some (ast.NExpr e), false), s))
      | ast.AggregateFuncExpr f args d =>
          try_bind (walkList args [] s) (λ r,
            let '((args, ok), s) := r in
            let e := ast.AggregateFuncExpr f args d in
            if ok then v_Leave v (ast.NExpr e) s else Done ((Some (ast.NExpr e), false), s))
      | ast.FuncCallExpr f args =>
          try_bind (walkList args [] s) (λ r,
            let '((args, ok), s) := r in
            let e := ast.FuncCallExpr f args in
            if ok then v_Leave v (ast.NExpr e) s else Done ((Some (ast.NExpr e), false), s))
      | ast.BinaryOperationExpr o l r =>
          try_bind (walkList [l; r] [] s) (λ r',
            let '((args, ok), s) := r' in
            let e := match args with
                     | [l; r] => ast.BinaryOperationExpr o l r
                     | _ => e
                     end in
            if ok then v_Leave v (ast.NExpr e) s else Done ((Some (ast.NExpr e), false), s))
      | ast.ParenthesesExpr x =>
          try_bind (walkList [x] [] s) (λ r',
            let '((args, ok), s) := r' in
            let e := match args with
                     | [x] => ast.ParenthesesExpr x
                     | _ => e
                     end in
            if ok then v_Leave v (ast.NExpr e) s else Done ((Some (ast.NExpr e), false), s))
      | ast.CompareSubqueryExpr l r =>
          try_bind (walkList [l; r] [] s) (λ r',
            let '((args, ok), s) := r' in
            let e := match args with
                     | [l; r] => ast.CompareSubqueryExpr l r
                     | _ => e
                     end in
            if ok then v_Leave v (ast.NExpr e) s else Done ((Some (ast.NExpr e), false), s))
      | _ => v_Leave v (ast.NExpr e) s
      end).
End Walk.

(** The visitor that collects aggregate functions. *)
Definition aggExtractor : Visitor (list ast.AggregateFunc) :=
  mkVisitor (λ n s, Done ((n, false), s))
    (λ n s, match n with
            | ast.NExpr (ast.AggregateFuncExpr f a d) =>
                Done ((Some n, true), s ++ [ast.mkAggregateFunc f a d])
            | _ => Done ((Some n, true), s)
            end).

Fixpoint hasAggFunc (e : ast.ExprNode) : bool :=
  match e with
  | ast.AggregateFuncExpr _ _ _ => true
  | ast.BinaryOperationExpr _ l r => hasAggFunc l || hasAggFunc r
  | ast.ParenthesesExpr x => hasAggFunc x
  | ast.FuncCallExpr _ args => existsb hasAggFunc args
  | _ => false
  end.

Definition detectAgg (c : ast.SelectClauses) : bool :=
  bool_decide (is_Some (ast.GroupBy c))
  || existsb (λ f, from_option hasAggFunc false (ast.Expr f)) (ast.Fields c)
  || from_option hasAggFunc false (ast.Having c)
  || from_option (existsb (λ item, hasAggFunc (ast.by_Expr item))) false (ast.OrderBy c).

(** Modelled from the spec: the WHERE expression is split at its top-level
    ANDs (section 4.5). *)
Fixpoint splitAnd (where_ : ast.ExprNode) : list ast.ExprNode :=
  match where_ with
  | ast.BinaryOperationExpr "and" l r => splitAnd l ++ splitAnd r
  | ast.ParenthesesExpr x => splitAnd x
  | _ => [where_]
  end.

Fixpoint innerOf (e : ast.ExprNode) : ast.ExprNode :=
  match e with
  | ast.ParenthesesExpr x => innerOf x
  | _ => e
  end.

Definition newFieldType (tp : Z) : types.FieldType := types.mkFieldType tp (-1) (-1).

Definition typeOf (e : expression.Expression) : types.FieldType :=
  match e with
  | expression.EColumn c | expression.ECorrelatedColumn c => expression.RetType c
  | expression.EScalarFunction _ tp _ => tp
  | expression.EConstant _ => newFieldType 0
  end.

(** A rewriter.  A column reference becomes the column of the plan's schema
    it names, a literal a constant, a binary operation a scalar function
    of its rewritten operands, and an aggregate the column of the plan
    that the mapper gives it.  An EXISTS sub-query in a filter is turned
    into a semi-join of the plan with a one-row table: the filter itself
    vanishes and the new plan is to be adopted (section 4.3). *)
Fixpoint rewriter (e : ast.ExprNode) (p : option LogicalPlan) (m : nodeMap)
    (asScalar : bool) (b : planBuilder) {struct e} : Rewritten * planBuilder :=
  let sch := from_option schema (expression.NewSchema []) p in
  match e with
  | ast.ColumnNameExpr v =>
      match findColumn sch v with
      | (Some col, None) => (mkRewritten (Some (expression.EColumn col)) p None, b)
      | (_, Some er) => (mkRewritten None p (Some er), b)
      | (None, None) =>
          (mkRewritten None p
             (Some (mkExtError ("Unknown column " +:+ model.L (ast.Name v)))), b)
      end
  | ast.ValueExpr v => (mkRewritten (Some (expression.EConstant v)) p None, b)
  | ast.ParenthesesExpr x => rewriter x p m asScalar b
  | ast.BinaryOperationExpr o l r =>
      let '(rl, b) := rewriter l p m true b in
      match rw_err rl, rw_expr rl with
      | None, Some el =>
          let '(rr, b) := rewriter r (rw_plan rl) m true b in
          match rw_err rr, rw_expr rr with
          | None, Some er =>
              (mkRewritten
                 (Some (expression.EScalarFunction (model.NewCIStr o) (newFieldType 1)
                          [el; er])) (rw_plan rr) None, b)
          | _, _ => (rr, b)
          end
      | _, _ => (rl, b)
      end
  | ast.AggregateFuncExpr _ _ _ =>
      match lookupNode m e with
      | Some i =>
          match expression.Columns sch !! Z.to_nat i with
          | Some col => (mkRewritten (Some (expression.EColumn col)) p None, b)
          | None => (mkRewritten None p (Some (mkExtError "aggregate out of range")), b)
          end
      | None => (mkRewritten None p (Some (mkExtError "unmapped aggregate")), b)
      end
  | ast.ExistsSubqueryExpr _ =>
      if asScalar then (mkRewritten None p (Some (mkExtError "scalar sub-query")), b)
      else
        match fn (inner <- call (init (KTableDual 1)) ;;
                  ap <- call (init (KApply (mkJoinInfo SemiJoin false false false 0 [] [] []
                                              [] [] None))) ;;
                  ret (SetSchema (SetChildren ap (option_list p ++ [inner])) sch)) b with
        | Ok ap b' => (mkRewritten None (Some ap) None, b')
        | Crash _ => (mkRewritten None p (Some (mkExtError "panic")), b)
        end
  | _ => (mkRewritten None p (Some (mkExtError "unsupported expression")), b)
  end.

Definition lockOver (src : option LogicalPlan) (lock : ast.SelectLockType)
    : Fn (option LogicalPlan) :=
  fn (selectLock <- call (init (KSelectLock lock)) ;;
      let selectLock := addChild selectLock src in
      ssch <- Schema_of src ;;
      ret (Some (SetSchema selectLock ssch))).

(** Decimal digits to a number. *)
Fixpoint digits (s : string) (acc : Z) : option Z :=
  match s with
  | EmptyString => Some acc
  | String c s' =>
      let n := Z.of_nat (nat_of_ascii c) in
      if bool_decide (48 ≤ n ≤ 57) then digits s' (10 * acc + (n - 48)) else None
  end.

Definition strToUint (s : string) : Z * option ExtError :=
  match s, digits s 0 with
  | String _ _, Some n =>
      if bool_decide (n < 2 ^ 64) then (n, None)
      else (2 ^ 64 - 1, Some (mkExtError "overflow"))
  | _, _ => (0, Some (mkExtError "not a number"))
  end.

(** The catalog: tables [t(a, b, c)], [t1(a, b)] and [t2(b, c)] of
    database [test], and the table [u(id, v)] whose primary key [id] is
    its handle. *)
Definition colInfo (id : Z) (name : string) : model.ColumnInfo :=
  model.mkColumnInfo id (model.NewCIStr name) 3 11 0 0 "".

Definition tableOf (id : Z) (name : string) (cols : list string) : Table :=
  let infos := imap (λ i c, colInfo (Z.of_nat i + 1) c) cols in
  mkTable (model.mkTableInfo id (model.NewCIStr name) infos false) infos infos.

Definition keyedTable : Table :=
  let infos := [model.mkColumnInfo 1 (model.NewCIStr "id") 3 11 0 2 ""; colInfo 2 "v"] in
  mkTable (model.mkTableInfo 4 (model.NewCIStr "u") infos true) infos infos.

Definition tableByName (db name : model.CIStr) : Table + ExtError :=
  if bool_decide (model.L db = "test") then
    if bool_decide (model.L name = "t") then inl (tableOf 1 "t" ["a"; "b"; "c"])
    else if bool_decide (model.L name = "t1") then inl (tableOf 2 "t1" ["a"; "b"])
    else if bool_decide (model.L name = "t2") then inl (tableOf 3 "t2" ["b"; "c"])
    else if bool_decide (model.L name = "u") then inl keyedTable
    else inr (mkExtError ("Table 'test." +:+ model.L name +:+ "' doesn't exist"))
  else inr (mkExtError ("Unknown database '" +:+ model.L db +:+ "'")).

Definition externals : Externals := {|
  ExtraHandleID := -1;
  TypeTiny := 1;
  TypeLonglong := 8;
  preferLeftAsOuter := 1;
  preferRightAsOuter := 2;
  NewFieldType := newFieldType;
  MergeFieldType := Z.max;
  StrToUint := strToUint;
  HasPriKeyFlag := λ flag, Z.testbit flag 1;
  IsGraphic := λ c, let n := nat_of_ascii c in (32 <? n)%nat && (n <? 127)%nat;
  NewFunction := λ name tp args,
    (Some (expression.EScalarFunction (model.NewCIStr name) tp args), None);
  SplitCNFItems := λ e, [e];
  IsCorrelated := λ e, match e with expression.ECorrelatedColumn _ => true | _ => false end;
  GetType := typeOf;
  agg_Equal := λ f g,
    bool_decide (expression.agg_Name f = expression.agg_Name g)
    && bool_decide (expression.agg_Distinct f = expression.agg_Distinct g)
    && bool_decide (length (expression.agg_Args f) = length (expression.agg_Args g));
  agg_GetType := λ _, newFieldType 8;
  FindColumn := findColumn;
  Accept := λ S v, walk v;
  AggregateFuncExtractorState := list ast.AggregateFunc;
  AggregateFuncExtractor := aggExtractor;
  newAggregateFuncExtractor := [];
  AggFuncs := λ s, s;
  expr_Text := λ _, "";
  TrimComments := λ s, s;
  rewrite := rewriter;
  splitWhere := splitAnd;
  getInnerFromParentheses := innerOf;
  detectSelectAgg := detectAgg;
  buildSelectLock := lockOver;
  attachOnConds := λ conds p,
    withJoin (λ j, mkJoinInfo (JoinType_ j) (cartesianJoin j) (anti j) (preferMergeJoin j)
                     (preferINLJ j) (EqualConditions j) (LeftConditions j)
                     (RightConditions j) (conds ++ OtherConditions j) (DefaultValues j)
                     (redundantSchema j)) p;
  TableByName := tableByName;
  CurrentDB := "test";
  TxnReadWrite := false
|}.

(** A builder at the start of a statement. *)
Definition builder0 : planBuilder := mkPlanBuilder None 0 [] 0 false [] [] [].

End sample.

(** * Vocabulary of the properties *)

(** ** The hint stack *)

Definition stableG {R A} (m : G R A) : Prop :=
  ∀ b, match m b with
       | Next _ b' | Return _ b' => b_tableHintInfo b' = b_tableHintInfo b
       | Panic _ => True
       end.

Definition stableF {A} (f : Fn A) : Prop :=
  ∀ b, match f b with
       | Ok _ b' => b_tableHintInfo b' = b_tableHintInfo b
       | Crash _ => True
       end.

(** The collaborators that take the builder leave its hint stack alone. *)
Definition hints_untouched (ext : Externals) : Prop :=
  (∀ e p m s b, b_tableHintInfo (rewrite e p m s b).2 = b_tableHintInfo b)
  ∧ (∀ p l, stableF (buildSelectLock p l)).

(** A hint the builder knows. *)
Definition recognized (hint : ast.TableOptimizerHint) : Prop :=
  model.L (ast.HintName hint) = TiDBMergeJoin
  ∨ model.L (ast.HintName hint) = TiDBIndexNestedLoopJoin.

(** ** LIMIT *)

(** The value of an optional OFFSET or COUNT: zero when absent. *)
Definition limitValue `{Externals} (o : option types.Value) : Z * option Error :=
  match o with
  | Some v => getUintForLimitOffset v
  | None => (0, None)
  end.

(** A value whose type is none of [uint64], [int64] and [string]. *)
Definition other_type (val : types.Value) : Prop :=
  match val with
  | types.VUint64 _ | types.VInt64 _ | types.VString _ => False
  | _ => True
  end.

(** ** Resolution in the select fields *)

(** A field that the resolution considers and that matches the name: it is
    not auxiliary and [matchField] accepts it. *)
Definition matched (v : ast.ColumnName) (ignoreAsName : bool) (f : ast.SelectField) : Prop :=
  ast.Auxiliary f = false ∧ matchField f v ignoreAsName = true.

(** The column a field refers to, when its expression is a column
    reference. *)
Definition column_of (f : ast.SelectField) : option ast.ColumnName :=
  match ast.Expr f with
  | Some (ast.ColumnNameExpr c) => Some c
  | _ => None
  end.

(** Two column names that match in one qualification direction or the
    other. *)
Definition same_column (c d : ast.ColumnName) : Prop :=
  colMatch c d = true ∨ colMatch d c = true.

(** The index of the first matched field, counting from [i], or -1. *)
Fixpoint firstMatched (v : ast.ColumnName) (ignoreAsName : bool)
    (fields : list ast.SelectField) (i : Z) : Z :=
  match fields with
  | [] => -1
  | f :: rest =>
      if negb (ast.Auxiliary f) && matchField f v ignoreAsName then i
      else firstMatched v ignoreAsName rest (i + 1)
  end.

(** ** Wildcards *)

(** What a select field becomes: itself, or the fields of its wildcard. *)
Definition expandField `{Externals} (cols : list expression.Column) (f : ast.SelectField)
    : list ast.SelectField :=
  match ast.WildCard f with
  | None => [f]
  | Some wc => wildFields wc cols
  end.

(** Whether some field, the first of which has index [i], is a wildcard
    without a table at an index above 0. *)
Fixpoint lateBareStar (fields : list ast.SelectField) (i : Z) : bool :=
  match fields with
  | [] => false
  | f :: rest =>
      match ast.WildCard f with
      | Some wc => bool_decide (model.L (ast.wc_Table wc) = "") && bool_decide (i > 0)
      | None => false
      end || lateBareStar rest (i + 1)
  end.


(** ** The resolver of HAVING and ORDER BY *)

(** The traversal of the children of a node, the inner loop of
    [sample.walk]. *)
Fixpoint walkList {S} (v : Visitor S) (l done : list ast.ExprNode) (s : S) {struct l}
    : Try ((list ast.ExprNode * bool) * S) :=
  match l with
  | [] => Done ((done, true), s)
  | x :: l' =>
      try_bind (sample.walk v x s) (λ r,
        let '((n, ok), s) := r in
        match n, ok with
        | Some (ast.NExpr x'), true => walkList v l' (done ++ [x']) s
        | _, _ => Done ((done ++ x :: l', false), s)
        end)
  end.

(** Where a node stands in the expression that is walked: inside an
    aggregate function, and inside a compound expression. *)
Record place := mkPlace { insideAgg : bool; insideExpr : bool }.

(** The place of the expression that is walked itself. *)
Definition top : place := mkPlace false false.

(** The place of the children of [e], for [e] at the place [pl]: the
    arguments of an aggregate function are inside an aggregate function,
    and the operands of any other expression are inside a compound
    expression. *)
Definition below (pl : place) (e : ast.ExprNode) : place :=
  match e with
  | ast.AggregateFuncExpr _ _ _ => mkPlace true (insideExpr pl)
  | _ => mkPlace (insideAgg pl) true
  end.

(** The column references of an expression in the order of the walk, each
    with its place.  The walk does not go into a sub-query. *)
Fixpoint columnsAt (pl : place) (e : ast.ExprNode) {struct e}
    : list (ast.ColumnName * place) :=
  let columnsOf :=
    fix columnsOf (pl : place) (l : list ast.ExprNode) {struct l} :=
      match l with
      | [] => []
      | x :: l' => columnsAt pl x ++ columnsOf pl l'
      end in
  match e with
  | ast.ColumnNameExpr v => [(v, pl)]
  | ast.AggregateFuncExpr _ args _ | ast.FuncCallExpr _ args => columnsOf (below pl e) args
  | ast.BinaryOperationExpr _ l r | ast.CompareSubqueryExpr l r =>
      columnsAt (below pl e) l ++ columnsAt (below pl e) r
  | ast.ParenthesesExpr x => columnsAt (below pl e) x
  | _ => []
  end.

(** No aggregate function in an expression, and no aggregate function
    inside another. *)
Fixpoint aggregateFree (e : ast.ExprNode) {struct e} : bool :=
  match e with
  | ast.AggregateFuncExpr _ _ _ => false
  | ast.FuncCallExpr _ args => forallb aggregateFree args
  | ast.BinaryOperationExpr _ l r | ast.CompareSubqueryExpr l r =>
      aggregateFree l && aggregateFree r
  | ast.ParenthesesExpr x => aggregateFree x
  | _ => true
  end.

Fixpoint aggregatesApart (e : ast.ExprNode) {struct e} : bool :=
  match e with
  | ast.AggregateFuncExpr _ args _ => forallb aggregateFree args
  | ast.FuncCallExpr _ args => forallb aggregatesApart args
  | ast.BinaryOperationExpr _ l r | ast.CompareSubqueryExpr l r =>
      aggregatesApart l && aggregatesApart r
  | ast.ParenthesesExpr x => aggregatesApart x
  | _ => true
  end.

(** The decision as the claim words it, from the phase, the GROUP BY items
    and the place of the column: the select fields first if and only if
    the column is not inside an aggregate function, not in the ORDER BY
    phase inside a compound expression, and not in the HAVING phase a
    name of a GROUP BY item. *)
Definition fieldsFirstAt (orderByPhase : bool) (gby : list ast.ByItem)
    (vp : ast.ColumnName * place) : bool :=
  negb (insideAgg vp.2)
  && negb (orderByPhase && insideExpr vp.2)
  && negb (negb orderByPhase && namesGbyItem gby vp.1).

(** The visitor with a record of its decisions: at each column reference
    that [Leave] is called on, the column and the value that the variable
    [resolveFieldsFirst] takes there. *)
Definition recording `{Externals}
    : Visitor (havingAndOrderbyExprResolver * list (ast.ColumnName * bool)) :=
  mkVisitor
    (λ n s, try_bind (hr_Enter n s.1) (λ r, Done (r.1, (r.2, s.2))))
    (λ n s, try_bind (hr_Leave n s.1) (λ r,
       Done (r.1, (r.2, match n with
                        | ast.NExpr (ast.ColumnNameExpr v) =>
                            s.2 ++ [(v, resolveFieldsFirst s.1 v)]
                        | _ => s.2
                        end)))).

(** The decisions of the claim at column references with their places,
    and at the column references of an expression that is walked, in the
    order of the walk. *)
Definition decisionsFor (orderByPhase : bool) (gby : list ast.ByItem)
    (cols : list (ast.ColumnName * place)) : list (ast.ColumnName * bool) :=
  (λ vp, (vp.1, fieldsFirstAt orderByPhase gby vp)) <$> cols.

Definition decisionsAt (orderByPhase : bool) (gby : list ast.ByItem)
    (e : ast.ExprNode) : list (ast.ColumnName * bool) :=
  decisionsFor orderByPhase gby (columnsAt top e).

(** The flags of the resolver say where the walk is: [inAggFunc] whether
    it is inside an aggregate function and, outside one, [inExpr] whether
    it is inside a compound expression. *)
Definition flagsAt (pl : place) (a : havingAndOrderbyExprResolver) : Prop :=
  inAggFunc a = insideAgg pl ∧ (insideAgg pl = false → inExpr a = insideExpr pl).

(** No aggregate function stands inside another, for an expression at the
    place [pl]. *)
Definition nestedApart (pl : place) (e : ast.ExprNode) : bool :=
  if insideAgg pl then aggregateFree e else aggregatesApart e.

(** What holds of a walk at the place [pl] that takes the resolver [a] and
    the record [l] to [a'] and [l']: the phase and the GROUP BY items are
    kept and [inExpr] is not cleared; the record grows by decisions of the
    claim for the columns [cols], from the first on, by all of them when
    the walk has not stopped, and then [inAggFunc] is as it was. *)
Definition walkedAt (pl : place) (cols : list (ast.ColumnName * place))
    (a : havingAndOrderbyExprResolver) (l : list (ast.ColumnName * bool)) (ok : bool)
    (a' : havingAndOrderbyExprResolver) (l' : list (ast.ColumnName * bool)) : Prop :=
  orderBy a' = orderBy a ∧ gbyItems a' = gbyItems a
  ∧ (inExpr a = true → inExpr a' = true)
  ∧ ∃ part, l' = l ++ part
            ∧ part `prefix_of` decisionsFor (orderBy a) (gbyItems a) cols
            ∧ (ok = true →
               part = decisionsFor (orderBy a) (gbyItems a) cols
               ∧ inAggFunc a' = insideAgg pl).

(** Whether the walk of an expression sets [inExpr]: it enters a node
    other than an aggregate function, a column reference, a parameter
    marker and a sub-query, whose children are skipped. *)
Fixpoint entersExpr (e : ast.ExprNode) {struct e} : bool :=
  match e with
  | ast.ColumnNameExpr _ | ast.ParamMarkerExpr
  | ast.SubqueryExpr _ | ast.ExistsSubqueryExpr _ => false
  | ast.AggregateFuncExpr _ args _ => existsb entersExpr args
  | _ => true
  end.

(** What a walk does to the flags of the resolver: the phase and the GROUP
    BY items are kept and [inExpr] is not cleared; when the walk comes to
    its end, [inAggFunc] stays set only if it was and the walk has met no
    aggregate function ([free]), and [inExpr] is set if it was or the walk
    has set it ([enters]). *)
Definition flagsWalked (free enters : bool) (a : havingAndOrderbyExprResolver) (ok : bool)
    (a' : havingAndOrderbyExprResolver) : Prop :=
  orderBy a' = orderBy a ∧ gbyItems a' = gbyItems a
  ∧ (inExpr a = true → inExpr a' = true)
  ∧ (ok = true → inAggFunc a' = inAggFunc a && free ∧ inExpr a' = inExpr a || enters).

(** A run of the recording visitor without its record. *)
Definition unrecorded {A}
    (t : Try (A * (havingAndOrderbyExprResolver * list (ast.ColumnName * bool))))
    : Try (A * havingAndOrderbyExprResolver) :=
  match t with
  | Done (r, s) => Done (r, s.1)
  | Fail k => Fail k
  end.

(** The resolver with which [resolveHavingAndOrderBy] starts the walk of
    the HAVING expression, and the one with which it starts the loop over
    the ORDER BY items, from the resolver [extractor] that the HAVING
    clause has left. *)
Definition havingStart (c : ast.SelectClauses) (gby : option (list ast.ByItem))
    (p : option LogicalPlan) (b : planBuilder) : havingAndOrderbyExprResolver :=
  mkHavingAndOrderbyExprResolver false false false None p (ast.Fields c) []
    (colMapper b) (default [] gby) (outerSchemas b).

Definition orderByStart (extractor : havingAndOrderbyExprResolver)
    : havingAndOrderbyExprResolver :=
  set_phase true false (set_aggMapper [] extractor).

(** The HAVING clause walked: there is none, or its expression is walked
    from [havingStart] to the end. *)
Inductive havingWalked `{Externals} (c : ast.SelectClauses) (gby : option (list ast.ByItem))
    (p : option LogicalPlan) (b : planBuilder)
    : option ast.ExprNode → havingAndOrderbyExprResolver → Prop :=
| having_none :
    ast.Having c = None → havingWalked c gby p b None (havingStart c gby p b)
| having_some h e extractor :
    ast.Having c = Some h →
    Accept _ havingAndOrderbyVisitor h (havingStart c gby p b)
    = Done ((Some (ast.NExpr e), true), extractor) →
    havingWalked c gby p b (Some e) extractor.

(** The ORDER BY items walked in turn, each from the resolver that the one
    before it has left: to the end of every item, or up to an item whose
    walk stops. *)
Inductive itemsWalked `{Externals}
    : list ast.ByItem → havingAndOrderbyExprResolver →
      list ast.ByItem → bool → havingAndOrderbyExprResolver → Prop :=
| items_nil extractor : itemsWalked [] extractor [] true extractor
| items_cons item rest extractor e extractor1 done ok extractor' :
    Accept _ havingAndOrderbyVisitor (ast.by_Expr item) extractor
    = Done ((Some (ast.NExpr e), true), extractor1) →
    itemsWalked rest extractor1 done ok extractor' →
    itemsWalked (item :: rest) extractor
      (ast.mkByItem e (ast.Desc item) :: done) ok extractor'
| items_stop item rest extractor n extractor1 :
    Accept _ havingAndOrderbyVisitor (ast.by_Expr item) extractor
    = Done ((n, false), extractor1) →
    itemsWalked (item :: rest) extractor (item :: rest) false extractor1.

(** ** Selection *)

(** The rewriter hands back the plan it is given. *)
Definition keeps_plan `{Externals} (m : nodeMap) : Prop :=
  ∀ cond p b, rw_plan (rewrite cond p m false b).1 = p.

(** The rewriter called on the conjuncts in turn, the first on the plan [p]
    and each other on the plan returned for the one before, none with an
    error: the expressions returned, the nil ones included, and the plan
    and the builder after the last call. *)
Inductive rewritten_in_turn `{Externals} (m : nodeMap)
  : list ast.ExprNode → option LogicalPlan → planBuilder →
    list (option expression.Expression) → option LogicalPlan → planBuilder → Prop :=
| rewritten_nil p b : rewritten_in_turn m [] p b [] p b
| rewritten_cons cond rest p b expr np b1 exprs p' b' :
    rewrite cond p m false b = (mkRewritten expr np None, b1) →
    rewritten_in_turn m rest np b1 exprs p' b' →
    rewritten_in_turn m (cond :: rest) p b (expr :: exprs) p' b'.

(** The conditions that are left of the results of the rewriter: the nil
    ones are dropped, and each other is split into its items. *)
Definition keptConditions `{Externals} (exprs : list (option expression.Expression))
    : list expression.Expression :=
  concat (SplitCNFItems <$> omap (λ e, e) exprs).

(** ** Union *)

(** The error of [buildUnion] on branches of different arity. *)
Definition union_arity_error : Error :=
  errors_New "The used SELECT statements have a different number of columns".

(** The number of columns of the schema of a plan. *)
Definition arity (p : LogicalPlan) : nat := length (expression.Columns (schema p)).

(** The rewriter reports an error through its result and leaves [b.err]
    alone. *)
Definition err_untouched (ext : Externals) : Prop :=
  ∀ e p m s b, err (rewrite e p m s b).2 = err b.

(** From a builder whose error is not the arity error, no exit of the
    statement leaves it there. *)
Definition safeG {R A} (m : G R A) : Prop :=
  ∀ b, err b ≠ Some union_arity_error →
       match m b with
       | Next _ b' | Return _ b' => err b' ≠ Some union_arity_error
       | Panic _ => True
       end.

Definition safeF {A} (f : Fn A) : Prop :=
  ∀ b, err b ≠ Some union_arity_error →
       match f b with
       | Ok _ b' => err b' ≠ Some union_arity_error
       | Crash _ => True
       end.

(** * Concrete statements *)

(** Pieces of statements over the catalog of [sample]. *)
Definition colName (name : string) : ast.ColumnName :=
  ast.mkColumnName expression.zeroCIStr expression.zeroCIStr (model.NewCIStr name).

Definition colRef (name : string) : ast.ExprNode := ast.ColumnNameExpr (colName name).

Definition intLit (n : Z) : ast.ExprNode := ast.ValueExpr (types.VInt64 n).

Definition field (e : ast.ExprNode) (text : string) : ast.SelectField :=
  ast.mkSelectField None (Some e) expression.zeroCIStr false text None.

Definition fieldAs (e : ast.ExprNode) (text alias : string) : ast.SelectField :=
  ast.mkSelectField None (Some e) (model.NewCIStr alias) false text None.

Definition tableName (name : string) : ast.TableName :=
  ast.mkTableName expression.zeroCIStr (model.NewCIStr name)
    (model.mkTableInfo 0 (model.NewCIStr name) [] false) [].

Definition tableRef (name : string) : ast.ResultSetNode :=
  ast.RTableSource (ast.RTableName (tableName name)) expression.zeroCIStr.

Definition crossJoin : ast.JoinClauses := ast.mkJoinClauses ast.CrossJoin false None None.

Definition fromTable (name : string) : ast.FromClause :=
  ast.TableRefs (ast.mkJoin (tableRef name) ast.NoRight crossJoin).

(** The table and the name of each column. *)
Definition col_names (cols : list expression.Column) : list (string * string) :=
  (λ c, (model.L (expression.TblName c), model.L (expression.ColName c))) <$> cols.

(** [t1 NATURAL JOIN t2], with [t1(a, b)] and [t2(b, c)]. *)
Definition natural_t1_t2 : ast.Join :=
  ast.mkJoin (tableRef "t1") (ast.HasRight (tableRef "t2"))
    (ast.mkJoinClauses ast.CrossJoin true None None).

(** The two sides of [natural_t1_t2] as [buildJoin] builds them, and the
    builder after them. *)
Definition t1_built : Res (option LogicalPlan) :=
  Eval vm_compute in @buildResultSetNode sample.externals (tableRef "t1") sample.builder0.

Definition t1_plan : option LogicalPlan :=
  match t1_built with Ok p _ => p | Crash _ => None end.

Definition t2_built : Res (option LogicalPlan) :=
  Eval vm_compute in
    match t1_built with
    | Ok _ b => @buildResultSetNode sample.externals (tableRef "t2") b
    | Crash k => Crash k
    end.

Definition t2_plan : option LogicalPlan :=
  match t2_built with Ok p _ => p | Crash _ => None end.

Definition t1_columns : list expression.Column :=
  from_option (λ p, expression.Columns (schema p)) [] t1_plan.

Definition t2_columns : list expression.Column :=
  from_option (λ p, expression.Columns (schema p)) [] t2_plan.

(** What the claim of the spec asks of one match: the column at index [k]
    moves to the slot [slot] and the columns in between shift by one, the
    order of all others kept. *)
Definition spec_rotate {A} (slot k : nat) (l : list A) : list A :=
  take slot l ++ option_list (l !! k) ++ take (k - slot) (drop slot l) ++ drop (S k) l.

(** [missing JOIN t], where the catalog has no table [missing]. *)
Definition join_missing_t : ast.Join :=
  ast.mkJoin (tableRef "missing") (ast.HasRight (tableRef "t")) crossJoin.

Definition missing_built : Res (option LogicalPlan) :=
  Eval vm_compute in
    @buildResultSetNode sample.externals (tableRef "missing") sample.builder0.

(** The builder after the failed build of the left side. *)
Definition builder_after_missing : planBuilder :=
  match missing_built with Ok _ b => b | Crash _ => sample.builder0 end.

(** [SELECT a FROM t WHERE y > 0 HAVING x > 0]: neither [x] nor [y] is a
    column of [t]. *)
Definition select_two_unknowns : ast.SelectStmt :=
  ast.mkSelectStmt (fromTable "t")
    (ast.mkSelectClauses false [field (colRef "a") "a"]
       (Some (ast.BinaryOperationExpr "gt" (colRef "y") (intLit 0)))
       None
       (Some (ast.BinaryOperationExpr "gt" (colRef "x") (intLit 0)))
       None None ast.SelectLockNone []).

(** [SELECT 1] and [SELECT 1, 2]. *)
Definition select_1 : ast.SelectStmt :=
  ast.mkSelectStmt ast.NoFrom
    (ast.mkSelectClauses false [field (intLit 1) "1"] None None None None None
       ast.SelectLockNone []).

Definition select_1_2 : ast.SelectStmt :=
  ast.mkSelectStmt ast.NoFrom
    (ast.mkSelectClauses false [field (intLit 1) "1"; field (intLit 2) "2"] None None None
       None None ast.SelectLockNone []).

(** [SELECT 1 UNION ALL SELECT 1 ORDER BY nosuch LIMIT 1] *)
Definition union_order_limit : ast.UnionStmt :=
  ast.mkUnionStmt (ast.SelCons select_1 (ast.SelCons select_1 ast.SelNil))
    (ast.mkUnionClauses false (Some [ast.mkByItem (colRef "nosuch") false])
       (Some (ast.mkLimit None (Some (types.VUint64 1))))).

(** A statement with a known hint and an unknown one:
    [SELECT /*+ tidb_smj(t1), other(t) */ a FROM t], built on a stack that
    already holds a frame. *)
Definition hinted_select : ast.SelectStmt :=
  ast.mkSelectStmt (fromTable "t")
    (ast.mkSelectClauses false [field (colRef "a") "a"]
       None None None None None ast.SelectLockNone
       [ast.mkTableOptimizerHint (model.NewCIStr "TIDB_SMJ") [model.NewCIStr "t1"];
        ast.mkTableOptimizerHint (model.NewCIStr "other") [model.NewCIStr "t"]]).

Definition hinted_builder : planBuilder :=
  set_tableHintInfo [mkTableHintInfo [model.NewCIStr "t9"] []] sample.builder0.

Definition hinted_run : Res (option LogicalPlan) :=
  Eval vm_compute in @buildSelect sample.externals hinted_select hinted_builder.

(** [LIMIT -1, '7'] and a plan to limit. *)
Definition limit_negative_offset : ast.Limit :=
  ast.mkLimit (Some (types.VInt64 (-1))) (Some (types.VString "7")).

Definition limit_5_7 : ast.Limit :=
  ast.mkLimit (Some (types.VInt64 5)) (Some (types.VString "7")).

Definition dual_plan : LogicalPlan :=
  mkPlan (KTableDual 1) "TableDual_1" (expression.NewSchema []) [].

(** Select fields [t.a, a + 1 AS a, test.t.a, a (auxiliary), t2.a]. *)
Definition qualified (db tbl name : string) : ast.ColumnName :=
  ast.mkColumnName (model.NewCIStr db) (model.NewCIStr tbl) (model.NewCIStr name).

Definition fields_t_a : list ast.SelectField :=
  [field (ast.ColumnNameExpr (qualified "" "t" "a")) "t.a";
   field (ast.ColumnNameExpr (qualified "test" "t" "a")) "test.t.a"].

(** The field [b + 1 AS a]. *)
Definition b_plus_1_as_a : ast.SelectField :=
  fieldAs (ast.BinaryOperationExpr "plus" (colRef "b") (intLit 1)) "b + 1" "a".

Definition aux_field (e : ast.ExprNode) : ast.SelectField :=
  ast.mkSelectField None (Some e) expression.zeroCIStr true "" None.

(** [SELECT a, nosuch.*, b FROM t] and [SELECT a, * FROM t]; the plan of [t]. *)
Definition wild (db tbl : string) : ast.SelectField :=
  ast.mkSelectField (Some (ast.mkWildCardField (model.NewCIStr db) (model.NewCIStr tbl)))
    None expression.zeroCIStr false "*" None.

Definition fields_a_nosuch_b : list ast.SelectField :=
  [field (colRef "a") "a"; wild "" "nosuch"; field (colRef "b") "b"].

Definition fields_a_star : list ast.SelectField := [field (colRef "a") "a"; wild "" ""].

Definition t_built : Res (option LogicalPlan) :=
  Eval vm_compute in @buildResultSetNode sample.externals (tableRef "t") sample.builder0.

Definition t_plan : LogicalPlan :=
  match t_built with Ok (Some p) _ => p | _ => dual_plan end.

(** [COUNT(a)] over the plan of [t], with the builder that built [t]. *)
Definition count_a : ast.AggregateFunc := ast.mkAggregateFunc "count" [colRef "a"] false.

Definition builder_after_t : planBuilder :=
  match t_built with Ok _ b => b | Crash _ => sample.builder0 end.

Definition count_a_built : Res (option LogicalPlan * gmap Z Z) :=
  Eval vm_compute in
    @buildAggregation sample.externals (Some t_plan) [count_a] [] builder_after_t.

Definition count_a_agg : LogicalPlan :=
  match count_a_built with Ok (Some agg, _) _ => agg | _ => dual_plan end.

(** The resolver in the ORDER BY phase of
    [SELECT b AS a FROM t GROUP BY a ORDER BY a], at the column [a] of the
    ORDER BY clause: outside an aggregate and outside a compound
    expression. *)
Definition order_by_alias : havingAndOrderbyExprResolver :=
  mkHavingAndOrderbyExprResolver false false true None (Some t_plan)
    [fieldAs (colRef "b") "b" "a"] [] [] [ast.mkByItem (colRef "a") false] [].

(** The same resolver in the HAVING phase. *)
Definition having_alias : havingAndOrderbyExprResolver :=
  mkHavingAndOrderbyExprResolver false false false None (Some t_plan)
    [fieldAs (colRef "b") "b" "a"] [] [] [ast.mkByItem (colRef "a") false] [].

(** The clauses of [SELECT b AS a FROM t GROUP BY a ORDER BY a], whose
    ORDER BY loop starts at [order_by_alias]. *)
Definition alias_order_by : ast.SelectClauses :=
  ast.mkSelectClauses false [fieldAs (colRef "b") "b" "a"] None
    (Some [ast.mkByItem (colRef "a") false]) None
    (Some [ast.mkByItem (colRef "a") false]) None ast.SelectLockNone [].

(** The clauses of
    [SELECT b AS a FROM t GROUP BY a HAVING a > 0 ORDER BY a, b + 1, a]. *)
Definition alias_gby : list ast.ByItem := [ast.mkByItem (colRef "a") false].

Definition a_gt_0 : ast.ExprNode := ast.BinaryOperationExpr "gt" (colRef "a") (intLit 0).

Definition b_plus_1 : ast.ExprNode := ast.BinaryOperationExpr "plus" (colRef "b") (intLit 1).

Definition alias_clauses : ast.SelectClauses :=
  ast.mkSelectClauses false [fieldAs (colRef "b") "b" "a"] None (Some alias_gby)
    (Some a_gt_0)
    (Some [ast.mkByItem (colRef "a") false; ast.mkByItem b_plus_1 false;
           ast.mkByItem (colRef "a") false])
    None ast.SelectLockNone [].

(** The resolver that the walk of its HAVING expression leaves. *)
Definition alias_having_walked
    : Try ((option ast.Node * bool) * havingAndOrderbyExprResolver) :=
  Eval vm_compute in
    @Accept sample.externals _ (@havingAndOrderbyVisitor sample.externals) a_gt_0
      (havingStart alias_clauses (Some alias_gby) (Some t_plan) builder_after_t).

Definition alias_after_having : havingAndOrderbyExprResolver :=
  match alias_having_walked with
  | Done (_, a) => a
  | Fail _ => having_alias
  end.

(** The filter [EXISTS (SELECT 1 FROM t2)] over the plan of [t], and the
    filter [a > 1]. *)
Definition where_exists : ast.ExprNode := ast.ExistsSubqueryExpr "select 1 from t2".

Definition where_a_gt_1 : ast.ExprNode := ast.BinaryOperationExpr "gt" (colRef "a") (intLit 1).

Definition where_exists_built : Res (option LogicalPlan) :=
  Eval vm_compute in
    @buildSelection sample.externals (Some t_plan) where_exists [] builder_after_t.

Definition where_exists_plan : LogicalPlan :=
  match where_exists_built with Ok (Some p) _ => p | _ => dual_plan end.

Definition where_a_built : Res (option LogicalPlan) :=
  Eval vm_compute in
    @buildSelection sample.externals (Some t_plan) where_a_gt_1 [] builder_after_t.

(** [SELECT 1 UNION SELECT 1, 2] and [SELECT 1 UNION SELECT 1], with their
    branches as built. *)
Definition union_1_12 : ast.UnionStmt :=
  ast.mkUnionStmt (ast.SelCons select_1 (ast.SelCons select_1_2 ast.SelNil))
    (ast.mkUnionClauses true None None).

Definition union_1_1 : ast.UnionStmt :=
  ast.mkUnionStmt (ast.SelCons select_1 (ast.SelCons select_1 ast.SelNil))
    (ast.mkUnionClauses true None None).

Definition branches_of (sels : ast.SelectList) : list LogicalPlan * planBuilder :=
  match @buildSelects sample.externals sels []
          (set_allocator (allocator sample.builder0 + 1) sample.builder0) with
  | Next branches b => (omap (λ x, x) branches, b)
  | _ => ([], sample.builder0)
  end.

Definition branches_1_12 : list LogicalPlan * planBuilder :=
  Eval vm_compute in
    branches_of (ast.SelCons select_1 (ast.SelCons select_1_2 ast.SelNil)).

Definition branches_1_1 : list LogicalPlan * planBuilder :=
  Eval vm_compute in
    branches_of (ast.SelCons select_1 (ast.SelCons select_1 ast.SelNil)).

Definition first_branch (bs : list LogicalPlan * planBuilder) : LogicalPlan :=
  default dual_plan (bs.1 !! 0%nat).

(** * The rest of the file: conditions of a join, sub-query operators, DELETE *)

(** ** Correlated columns and the conditions of a join *)

(** [extractCorColumns]: the correlated columns of an expression, from left
    to right.  The inner loop is the [for ... range v.GetArgs()] of the
    source, with its variable [cols]. *)
Fixpoint extractCorColumns (expr : expression.Expression) : list expression.Column :=
  match expr with
  | expression.ECorrelatedColumn v => [v]
  | expression.EScalarFunction _ _ args =>
      (fix loop (args : list expression.Expression) (cols : list expression.Column) :=
         match args with
         | [] => cols
         | arg :: rest => loop rest (cols ++ extractCorColumns arg)
         end) args []
  | _ => []
  end.

(** Modelled from the spec: [Schema.Contains] is not in this file.  It is by
    column identity, the same owner id and position; not by name
    (section 4.1). *)
Definition Contains (s : expression.Schema) (col : expression.Column) : bool :=
  existsb (λ c, bool_decide (expression.FromID c = expression.FromID col)
                && bool_decide (expression.Position c = expression.Position col))
    (expression.Columns s).

(** What the functions below call in package [expression]. *)
Class ExprExternals := {
  ExtractColumns : expression.Expression → list expression.Column;
  Decorrelate : expression.Expression → expression.Schema → expression.Expression
}.

(** The four results of [extractOnCondition]. *)
Record onConditions := mkOnConditions {
  eqCond : list expression.Expression;
  leftCond : list expression.Expression;
  rightCond : list expression.Expression;
  otherCond : list expression.Expression
}.

(** [p.Schema()] outside a body of the builder. *)
Definition plan_schema (p : option LogicalPlan) : Try expression.Schema :=
  match p with
  | Some n => Done (schema n)
  | None => Fail NilDereference
  end.

Section Conditions.
Context {ext : Externals} {xext : ExprExternals}.

(** The first half of a round of [extractOnCondition]: the equality to
    append to [eqCond], when the round ends at one of the two [continue];
    [None] when the round goes on to the columns of the expression. *)
Definition eqOfColumns (expr : expression.Expression) (left right : option LogicalPlan)
    : Try (option expression.Expression) :=
  match expr with
  | expression.EScalarFunction FuncName _ args =>
      if decide (model.L FuncName = ast.EQ) then
        match args with
        | a0 :: a1 :: _ =>
            match a0, a1 with
            | expression.EColumn ln, expression.EColumn rn =>
                try_bind (plan_schema left) (λ ls,
                  let swapped :=
                    try_bind (plan_schema left) (λ ls,
                      if Contains ls rn then
                        try_bind (plan_schema right) (λ rs,
                          if Contains rs ln then
                            match NewFunction ast.EQ (NewFieldType TypeTiny)
                                    [expression.EColumn rn; expression.EColumn ln] with
                            | (Some (expression.EScalarFunction _ _ _ as cond), _) =>
                                Done (Some cond)
                            | (_, _) => Fail TypeAssertion
                            end
                          else Done None)
                      else Done None) in
                  if Contains ls ln then
                    try_bind (plan_schema right) (λ rs,
                      if Contains rs rn then Done (Some expr) else swapped)
                  else swapped)
            | _, _ => Done None
            end
        | _ => Fail IndexOutOfRange
        end
      else Done None
  | _ => Done None
  end.

(** The loop over the columns of an expression, with the variables
    [allFromLeft] and [allFromRight]. *)
Fixpoint sidesOfColumns (columns : list expression.Column) (left right : option LogicalPlan)
    (allFromLeft allFromRight : bool) : Try (bool * bool) :=
  match columns with
  | [] => Done (allFromLeft, allFromRight)
  | col :: rest =>
      try_bind (plan_schema left) (λ ls,
        let allFromLeft := if negb (Contains ls col) then false else allFromLeft in
        try_bind (plan_schema right) (λ rs,
          let allFromRight := if negb (Contains rs col) then false else allFromRight in
          sidesOfColumns rest left right allFromLeft allFromRight))
  end.

Fixpoint onConditionLoop (conditions : list expression.Expression)
    (left right : option LogicalPlan) (acc : onConditions) : Try onConditions :=
  match conditions with
  | [] => Done acc
  | expr :: rest =>
      try_bind (eqOfColumns expr left right) (λ eq,
        match eq with
        | Some cond =>
            onConditionLoop rest left right
              (mkOnConditions (eqCond acc ++ [cond]) (leftCond acc) (rightCond acc)
                 (otherCond acc))
        | None =>
            let columns := ExtractColumns expr in
            try_bind (sidesOfColumns columns left right true true) (λ sides,
              let '(allFromLeft, allFromRight) := sides in
              if allFromRight then
                onConditionLoop rest left right
                  (mkOnConditions (eqCond acc) (leftCond acc) (rightCond acc ++ [expr])
                     (otherCond acc))
              else if allFromLeft then
                onConditionLoop rest left right
                  (mkOnConditions (eqCond acc) (leftCond acc ++ [expr]) (rightCond acc)
                     (otherCond acc))
              else
                onConditionLoop rest left right
                  (mkOnConditions (eqCond acc) (leftCond acc) (rightCond acc)
                     (otherCond acc ++ [expr])))
        end)
  end.

(** [extractOnCondition] sorts the conditions of a join into equalities
    between a column of each side, conditions on the left side, on the
    right side, and the others. *)
Definition extractOnCondition (conditions : list expression.Expression)
    (left right : option LogicalPlan) : Try onConditions :=
  onConditionLoop conditions left right (mkOnConditions [] [] [] []).

(** ** Operators of sub-queries *)

Definition setIsAggOrSubq (v : bool) (col : expression.Column) : expression.Column :=
  expression.mkColumn (expression.FromID col) (expression.ColName col)
    (expression.DBName col) (expression.TblName col) (expression.RetType col)
    (expression.ID col) (expression.Position col) v (expression.Index col).

Definition setAnti (v : bool) (j : JoinInfo) : JoinInfo :=
  mkJoinInfo (JoinType_ j) (cartesianJoin j) v (preferMergeJoin j) (preferINLJ j)
    (EqualConditions j) (LeftConditions j) (RightConditions j) (OtherConditions j)
    (DefaultValues j) (redundantSchema j).

(** [buildApplyWithJoinType] builds the apply of [innerPlan] to every row of
    [outerPlan], with the join type [tp]. *)
Definition buildApplyWithJoinType (outerPlan innerPlan : option LogicalPlan) (tp : JoinType)
    : Fn (option LogicalPlan) :=
  fn (ap <- call (init (KApply (setJoinType tp [] zeroJoin))) ;;
      ap <- (if decide (tp = LeftOuterJoin) then
               isch <- Schema_of innerPlan ;;
               ret (withJoin (setJoinType tp
                                (replicate (Z.to_nat (expression.Len isch)) types.VNil)) ap)
             else ret ap) ;;
      let ap := addChild ap outerPlan in
      let ap := addChild ap innerPlan in
      osch <- Schema_of outerPlan ;;
      isch <- Schema_of innerPlan ;;
      let ap := SetSchema ap (default (expression.NewSchema [])
                                (expression.MergeSchema (Some osch) (Some isch))) in
      (* for i := outerPlan.Schema().Len(); i < ap.Schema().Len(); i++ *)
      let n := Z.to_nat (expression.Len osch) in
      let cols := expression.Columns (schema ap) in
      let ap := SetSchema ap
                  (expression.mkSchema (take n cols ++ (setIsAggOrSubq true <$> drop n cols))
                     (expression.TblID2Handle (schema ap))) in
      ret (Some ap)).

(** The loop of [buildSemiJoin] that decorrelates the conditions: it asks
    the outer plan for its schema once for each condition. *)
Definition decorrelateAll {R} (outerPlan : option LogicalPlan)
    (onCondition : list expression.Expression) : G R (list expression.Expression) :=
  match onCondition with
  | [] => ret []
  | _ :: _ =>
      osch <- Schema_of outerPlan ;;
      ret ((λ expr, Decorrelate expr osch) <$> onCondition)
  end.

(** [buildSemiJoin] returns the join itself, never nil.  [SetParents] is
    called on both plans, so a nil plan panics. *)
Definition buildSemiJoin (outerPlan innerPlan : option LogicalPlan)
    (onCondition : list expression.Expression) (asScalar not : bool) : Fn LogicalPlan :=
  fn (joinPlan <- call (init (KJoin zeroJoin)) ;;
      onCondition <- decorrelateAll outerPlan onCondition ;;
      match outerPlan, innerPlan with
      | Some outer, Some inner =>
          let joinPlan := SetChildren joinPlan [outer; inner] in
          let joinPlan := attachOnConds onCondition joinPlan in
          let joinPlan :=
            if asScalar then
              let newSchema :=
                expression.Append (expression.Clone (schema outer))
                  {| expression.FromID := id joinPlan;
                     expression.ColName := model.NewCIStr (id joinPlan +:+ "_aux_0");
                     expression.DBName := expression.zeroCIStr;
                     expression.TblName := expression.zeroCIStr;
                     expression.RetType := NewFieldType TypeTiny;
                     expression.ID := 0;
                     expression.Position := 0;
                     expression.IsAggOrSubq := true;
                     expression.Index := 0 |} in
              withJoin (λ j, setJoinType LeftOuterSemiJoin (DefaultValues j) j)
                (SetSchema joinPlan newSchema)
            else
              withJoin (λ j, setJoinType SemiJoin (DefaultValues j) j)
                (SetSchema joinPlan (expression.Clone (schema outer))) in
          ret (withJoin (setAnti not) joinPlan)
      | _, _ => panic NilDereference
      end).

(** [buildSemiApply] copies the join of [buildSemiJoin] into an apply and
    gives it an id of its own. *)
Definition buildSemiApply (outerPlan innerPlan : option LogicalPlan)
    (condition : list expression.Expression) (asScalar not : bool)
    : Fn (option LogicalPlan) :=
  fn (join <- call (buildSemiJoin outerPlan innerPlan condition asScalar not) ;;
      let tp := kind_tag (KApply (joinInfo join)) in
      suffix <- call allocID ;;
      let ap := mkPlan (KApply (joinInfo join)) (tp +:+ suffix) (schema join)
                  (children join) in
      (* ap.children[0].SetParents(ap); ap.children[1].SetParents(ap) *)
      do index (children ap) 0 ;;
      do index (children ap) 1 ;;
      ret (Some ap)).

(** The loop of [buildExists]: what is left of the plan once the operators
    that cannot change whether a row exists are taken off its top. *)
Fixpoint existsLoop {R} (p : LogicalPlan) {struct p} : G R (option LogicalPlan) :=
  let firstChild :=
    match children p with
    | [] => panic IndexOutOfRange
    | c :: _ => existsLoop c
    end in
  match kind p with
  (* This can be removed when in exists clause, e.g.
     exists(select count( * ) from t order by a) is equal to exists t. *)
  | KProjection _ | KSort _ => firstChild
  | KAggregation _ GroupByItems _ =>
      if bool_decide (length GroupByItems = 0%nat) then call buildTableDual
      else firstChild
  | _ => ret (Some p)
  end.

Definition buildExists (p : option LogicalPlan) : Fn (option LogicalPlan) :=
  fn (p <- match p with
           | Some n => existsLoop n
           | None => ret None
           end ;;
      exists_ <- call (init KExists) ;;
      let exists_ := addChild exists_ p in
      let newCol :=
        {| expression.FromID := id exists_;
           expression.ColName := model.NewCIStr "exists_col";
           expression.DBName := expression.zeroCIStr;
           expression.TblName := expression.zeroCIStr;
           expression.RetType := NewFieldType TypeTiny;
           expression.ID := 0;
           expression.Position := 0;
           expression.IsAggOrSubq := false;
           expression.Index := 0 |} in
      ret (Some (SetSchema exists_ (expression.NewSchema [newCol])))).

Definition buildMaxOneRow (p : option LogicalPlan) : Fn (option LogicalPlan) :=
  fn (maxOneRow <- call (init KMaxOneRow) ;;
      let maxOneRow := addChild maxOneRow p in
      psch <- Schema_of p ;;
      ret (Some (SetSchema maxOneRow (expression.Clone psch)))).

End Conditions.

(** ** DELETE *)

(** [extractTableList]: the table names of a tree of joins, from left to
    right.  A table source over a sub-query gives none, and a join without
    a right operand hands [extractTableList] a nil node. *)
Fixpoint extractTableList (node : ast.ResultSetNode) (input : list ast.TableName)
    {struct node} : list ast.TableName :=
  match node with
  | ast.RJoin x => extractTableList_Join x input
  | ast.RTableSource (ast.RTableName s) _ => input ++ [s]
  | _ => input
  end
with extractTableList_Join (x : ast.Join) (input : list ast.TableName) {struct x}
    : list ast.TableName :=
  match x with
  | ast.mkJoin Left Right _ =>
      let input := extractTableList Left input in
      match Right with
      | ast.HasRight r => extractTableList r input
      | ast.NoRight => input
      end
  end.

(** A DELETE statement.  [d_TableRefs] is the join of its FROM clause and
    [d_Tables] the list of [DELETE a, b FROM ...], when there is one. *)
Record DeleteStmt := mkDeleteStmt {
  d_TableRefs : ast.Join;
  d_Where : option ast.ExprNode;
  d_Order : option (list ast.ByItem);
  d_Limit : option ast.Limit;
  d_Tables : option (list ast.TableName);
  d_IsMultiTable : bool
}.

(** The [Delete] node: no other node of this file has it below itself. *)
Record Delete := mkDelete {
  del_id : string;
  del_Tables : list ast.TableName;
  del_IsMultiTable : bool;
  del_children : list LogicalPlan;
  del_schema : expression.Schema
}.

Section Delete.
Context {ext : Externals}.

(** The privilege entries of the tables of [DELETE a, b FROM ...]: the
    schema as it is written and the name of the table in the catalog. *)
Definition deleteListedInfo (vi : list visitInfo) (tables : list ast.TableName)
    : list visitInfo :=
  foldl (λ vi table,
           appendVisitInfo vi "Delete" (model.L (ast.tn_Schema table))
             (model.L (model.ti_Name (ast.tn_TableInfo table))) "")
        vi tables.

(** The privilege entries of the tables of [DELETE FROM a, b ...]: a table
    without a schema is given the current database. *)
Definition deleteFromInfo (vi : list visitInfo) (tableList : list ast.TableName)
    : list visitInfo :=
  foldl (λ vi v,
           let dbName := model.L (ast.tn_Schema v) in
           let dbName := if decide (dbName = "") then CurrentDB else dbName in
           appendVisitInfo vi "Delete" dbName (model.L (ast.tn_Name v)) "")
        vi tableList.

Definition buildDelete (delete : DeleteStmt) : Fn (option Delete) :=
  fn (do modify (λ b, set_needColHandle (needColHandle b + 1) b) ;;
      p <- call (buildJoin (d_TableRefs delete)) ;;
      do bail None ;;
      p <- match d_Where delete with
           | Some where_ =>
               p <- call (buildSelection p where_ []) ;;
               do bail None ;;
               ret p
           | None => ret p
           end ;;
      p <- match d_Order delete with
           | Some items =>
               p <- call (buildSort p items []) ;;
               do bail None ;;
               ret p
           | None => ret p
           end ;;
      p <- match d_Limit delete with
           | Some limit =>
               p <- call (buildLimit p limit) ;;
               do bail None ;;
               ret p
           | None => ret p
           end ;;
      let tables := default [] (d_Tables delete) in
      suffix <- call allocID ;;
      let del := mkDelete ("Delete" +:+ suffix) tables (d_IsMultiTable delete)
                   (option_list p) (expression.NewSchema []) in
      (* Collect visitInfo. *)
      do modify (λ b,
           set_visitInfo
             (match d_Tables delete with
              | Some tables => deleteListedInfo (b_visitInfo b) tables
              | None =>
                  deleteFromInfo (b_visitInfo b)
                    (extractTableList_Join (d_TableRefs delete) [])
              end) b) ;;
      ret (Some del)).

End Delete.

(** ** A concrete setting for the operators of sub-queries *)

Module sample2.

(** The columns of an expression, from left to right. *)
Fixpoint columnsOf (e : expression.Expression) : list expression.Column :=
  match e with
  | expression.EColumn c => [c]
  | expression.EScalarFunction _ _ args => concat (columnsOf <$> args)
  | _ => []
  end.

(** A correlated column that the schema has becomes a column. *)
Fixpoint decorrelate (e : expression.Expression) (s : expression.Schema)
    : expression.Expression :=
  match e with
  | expression.ECorrelatedColumn c =>
      if Contains s c then expression.EColumn c else e
  | expression.EScalarFunction n t args =>
      expression.EScalarFunction n t ((λ a, decorrelate a s) <$> args)
  | _ => e
  end.

Definition exprs : ExprExternals :=
  {| ExtractColumns := columnsOf; Decorrelate := decorrelate |}.

End sample2.

(** * Vocabulary of the further properties *)

(** The correlated column [c] occurs in an expression. *)
Inductive cor_in (c : expression.Column) : expression.Expression → Prop :=
| cor_here : cor_in c (expression.ECorrelatedColumn c)
| cor_arg FuncName RetTp args arg :
    arg ∈ args → cor_in c arg → cor_in c (expression.EScalarFunction FuncName RetTp args).

(** A scalar function named as the equality is. *)
Definition is_equality (e : expression.Expression) : Prop :=
  match e with
  | expression.EScalarFunction FuncName _ _ => model.L FuncName = ast.EQ
  | _ => False
  end.

(** An operator that [buildExists] takes off the top of a plan: a
    projection, a sort, or an aggregation that groups. *)
Definition takenOff (k : PlanKind) : Prop :=
  match k with
  | KProjection _ | KSort _ => True
  | KAggregation _ GroupByItems _ => GroupByItems ≠ []
  | _ => False
  end.

(** An aggregation that does not group. *)
Definition groupless (k : PlanKind) : Prop :=
  match k with
  | KAggregation _ GroupByItems _ => GroupByItems = []
  | _ => False
  end.

(** Where the way down from the top of a plan ends, through the first
    child of each operator that is taken off: at a plan that is neither
    taken off nor an aggregation that does not group, at such an
    aggregation, or at an operator to take off that has no child. *)
Inductive existsEnd :=
| EndPlan (q : LogicalPlan)
| EndGroupless
| EndChildless.

Inductive endsAt : LogicalPlan → existsEnd → Prop :=
| ends_plan p : ¬ takenOff (kind p) → ¬ groupless (kind p) → endsAt p (EndPlan p)
| ends_groupless p : groupless (kind p) → endsAt p EndGroupless
| ends_childless p : takenOff (kind p) → children p = [] → endsAt p EndChildless
| ends_child p c cs r :
    takenOff (kind p) → children p = c :: cs → endsAt c r → endsAt p r.

(** The [Exists] node of id [Exists_<n>] over the children [cs]: its
    schema is the one column [exists_col], of the node. *)
Definition existsOver `{Externals} (n : Z) (cs : list LogicalPlan) : LogicalPlan :=
  let id := "Exists_" +:+ pretty n in
  mkPlan KExists id
    (expression.NewSchema
       [expression.mkColumn id (model.NewCIStr "exists_col") expression.zeroCIStr
          expression.zeroCIStr (NewFieldType TypeTiny) 0 0 false 0])
    cs.

(** The one-row table of id [TableDual_<n>]. *)
Definition tableDual (n : Z) : LogicalPlan :=
  mkPlan (KTableDual 1) ("TableDual_" +:+ pretty n) (expression.NewSchema []) [].

(** A sort over a projection over the plan of [t], whose projection has no
    expression. *)
Definition sorted_projection : LogicalPlan :=
  mkPlan (KSort []) "Sort_3" (schema t_plan)
    [mkPlan (KProjection []) "Projection_2" (schema t_plan) [t_plan]].

(** [attachOnConds] changes fields of the join and nothing else of the
    node. *)
Definition attaches_conditions (ext : Externals) : Prop :=
  ∀ conds p, ∃ f, attachOnConds conds p = withJoin f p.

(** ** What a build leaves behind *)

(** From [b] to [b']: the allocator of ids has not gone back, and the
    privilege entries have only been added to, at the end. *)
Definition grows (b b' : planBuilder) : Prop :=
  allocator b ≤ allocator b' ∧ b_visitInfo b `prefix_of` b_visitInfo b'.

Definition growsG {R A} (m : G R A) : Prop :=
  ∀ b, match m b with
       | Next _ b' | Return _ b' => grows b b'
       | Panic _ => True
       end.

Definition growsF {A} (f : Fn A) : Prop :=
  ∀ b, match f b with
       | Ok _ b' => grows b b'
       | Crash _ => True
       end.

(** The collaborators that take the builder allocate ids and add privilege
    entries as the builder itself does. *)
Definition grows_ext (ext : Externals) : Prop :=
  (∀ e p m s b, grows b (rewrite e p m s b).2)
  ∧ (∀ p l, growsF (buildSelectLock p l)).

(** * Further concrete statements *)

(** [DELETE FROM t WHERE a > 1] and [DELETE FROM t WHERE nosuch > 1], as
    built from the empty builder. *)
Definition delete_t_where (col : string) : DeleteStmt :=
  mkDeleteStmt (ast.mkJoin (tableRef "t") ast.NoRight crossJoin)
    (Some (ast.BinaryOperationExpr "gt" (colRef col) (intLit 1))) None None None false.

Definition delete_run : Res (option Delete) :=
  Eval vm_compute in @buildDelete sample.externals (delete_t_where "a") sample.builder0.

Definition delete_unknown_run : Res (option Delete) :=
  Eval vm_compute in @buildDelete sample.externals (delete_t_where "nosuch") sample.builder0.

(** ** Errors and nil results *)

(** A body that, started without an error, goes on without one, and that
    leaves the function with an error only with a result of which [nil]
    holds. *)
Definition quietG {R A} (nil : R → Prop) (m : G R A) : Prop :=
  ∀ b, err b = None →
       match m b with
       | Next _ b' => err b' = None
       | Return r b' => err b' = None ∨ nil r
       | Panic _ => True
       end.

(** The same of a body started from any builder. *)
Definition tidyG {R A} (nil : R → Prop) (m : G R A) : Prop :=
  ∀ b, match m b with
       | Next _ b' => err b' = None
       | Return r b' => err b' = None ∨ nil r
       | Panic _ => True
       end.

(** A body that leaves the function with an error only with a result of
    which [nil] holds, whatever it does when it goes on. *)
Definition retokG {R A} (nil : R → Prop) (m : G R A) : Prop :=
  ∀ b, match m b with
       | Return r b' => err b' = None ∨ nil r
       | _ => True
       end.

(** A body that leaves the function only at a check of the error that
    finds one, with the result nil. *)
Definition bailingG {R A} (m : G (option R) A) : Prop :=
  ∀ b, match m b with
       | Return r b' => r = None ∧ err b' ≠ None
       | _ => True
       end.

(** A function that sets no error. *)
Definition quietF {A} (f : Fn A) : Prop :=
  ∀ b, err b = None →
       match f b with
       | Ok _ b' => err b' = None
       | Crash _ => True
       end.

(** A function that, called without an error, returns with an error only a
    result of which [nil] holds. *)
Definition nil_on_error {A} (nil : A → Prop) (f : Fn A) : Prop :=
  ∀ b r b', err b = None → f b = Ok r b' → err b' ≠ None → nil r.

(** A known hint and an unknown one, and the builder [hinted_builder] after
    they are pushed. *)
Definition hints_known_unknown : list ast.TableOptimizerHint :=
  [ast.mkTableOptimizerHint (model.NewCIStr "TIDB_SMJ") [model.NewCIStr "t1"];
   ast.mkTableOptimizerHint (model.NewCIStr "other") [model.NewCIStr "t"]].

Definition pushed_builder : planBuilder :=
  Eval vm_compute in
    match pushTableHints hints_known_unknown hinted_builder with
    | Ok _ b => b
    | Crash _ => hinted_builder
    end.

(** A body that leaves the function only with a result of which [nil]
    holds. *)
Definition returnsG {R A} (nil : R → Prop) (m : G R A) : Prop :=
  ∀ b, match m b with
       | Return r _ => nil r
       | _ => True
       end.

(** ** Further concrete expressions and runs *)

(** The result and the builder of a run. *)
Definition result_of {A} (r : Res A) (d : A) : A :=
  match r with Ok a _ => a | Crash _ => d end.

Definition builder_of {A} (r : Res A) : planBuilder :=
  match r with Ok _ b => b | Crash _ => sample.builder0 end.

(** Conditions between [t1(a, b)] and [t2(b, c)]: [t2.b = t1.a], [t1.a > 1],
    the constant [1] and [t1.a < t2.b]. *)
Definition scalar (name : string) (args : list expression.Expression)
    : expression.Expression :=
  expression.EScalarFunction (model.NewCIStr name) (sample.newFieldType 1) args.

Definition on_conditions : list expression.Expression :=
  match t1_columns, t2_columns with
  | a :: _, b :: _ =>
      [scalar "eq" [expression.EColumn b; expression.EColumn a];
       scalar "gt" [expression.EColumn a; expression.EConstant (types.VInt64 1)];
       expression.EConstant (types.VInt64 1);
       scalar "lt" [expression.EColumn a; expression.EColumn b]]
  | _, _ => []
  end.

Definition on_run : Try onConditions :=
  Eval vm_compute in
    @extractOnCondition sample.externals sample2.exprs on_conditions t1_plan t2_plan.

(** A correlated column below a function. *)
Definition outer_a : expression.Column :=
  expression.mkColumn "DataSource_1" (model.NewCIStr "a") expression.zeroCIStr
    (model.NewCIStr "t") (sample.newFieldType 8) 1 0 false 0.

Definition a_eq_outer_a : expression.Expression :=
  scalar "eq" [expression.EConstant (types.VInt64 1); expression.ECorrelatedColumn outer_a].

(** [WHERE nosuch > 1] over the plan of [t]. *)
Definition where_unknown_built : Res (option LogicalPlan) :=
  Eval vm_compute in
    @buildSelection sample.externals (Some t_plan)
      (ast.BinaryOperationExpr "gt" (colRef "nosuch") (intLit 1)) [] builder_after_t.

(** The runs of [select_two_unknowns] and of [union_1_12]. *)
Definition two_unknowns_run : Res (option LogicalPlan) :=
  Eval vm_compute in @buildSelect sample.externals select_two_unknowns sample.builder0.

Definition union_1_12_run : Res (option LogicalPlan) :=
  Eval vm_compute in @buildUnion sample.externals union_1_12 sample.builder0.

(** The projection of [a, b + 1 AS a] over the plan of [t]. *)
Definition projection_run : Res (option LogicalPlan * Z) :=
  Eval vm_compute in
    @buildProjection sample.externals (Some t_plan) [field (colRef "a") "a"; b_plus_1_as_a]
      [] builder_after_t.

(** The resolver of [GROUP BY] over the plan of [t] and the field
    [b + 1 AS a]. *)
Definition gby_sample : gbyResolver :=
  mkGbyResolver [b_plus_1_as_a] (schema t_plan) None false.



(** The column that [buildDataSource] gives the schema of the node [pid]
    for the column [col] of the table, at the place [i]. *)
Definition tableColumn (pid : string) (tableInfo : model.TableInfo)
    (schemaName : model.CIStr) (i : nat) (col : model.ColumnInfo) : expression.Column :=
  expression.mkColumn pid (model.ci_Name col) schemaName (model.ti_Name tableInfo)
    (types.FieldType_of col) (model.ci_ID col) (Z.of_nat i) false 0.

(** The schema name [buildDataSource] looks the table up with, and the
    columns of the table that it reads. *)
Definition schemaNameOf `{Externals} (tn : ast.TableName) : model.CIStr :=
  if decide (model.L (ast.tn_Schema tn) = "") then model.NewCIStr CurrentDB
  else ast.tn_Schema tn.

Definition columnsRead (b : planBuilder) (tbl : Table) : list model.ColumnInfo :=
  if inUpdateStmt b then WritableCols tbl else Cols tbl.

(** The table source [t AS x], as built from the empty builder. *)
Definition aliased_t : ast.ResultSetNode :=
  ast.RTableSource (ast.RTableName (tableName "t")) (model.NewCIStr "x").

Definition aliased_t_run : Res (option LogicalPlan) :=
  Eval vm_compute in @buildResultSetNode sample.externals aliased_t sample.builder0.

(** [t1 LEFT JOIN t2], without a condition. *)
Definition left_join_t1_t2 : ast.Join :=
  ast.mkJoin (tableRef "t1") (ast.HasRight (tableRef "t2"))
    (ast.mkJoinClauses ast.LeftJoin false None None).

Definition left_join_run : Res (option LogicalPlan) :=
  Eval vm_compute in @buildJoin sample.externals left_join_t1_t2 sample.builder0.

(** The plans of [t1] and [t2] under a join without a schema, and
    [coalesceCommonColumns] on them, as for [t1 NATURAL JOIN t2]. *)
Definition t1_node : LogicalPlan := default dual_plan t1_plan.
Definition t2_node : LogicalPlan := default dual_plan t2_plan.

Definition join_node : LogicalPlan :=
  mkPlan (KJoin zeroJoin) "Join_3" (expression.NewSchema []) [].

Definition natural_run : Res (LogicalPlan * option Error) :=
  Eval vm_compute in
    @coalesceCommonColumns sample.externals join_node (Some t1_node) (Some t2_node) false ∅
      sample.builder0.





(** The column of the primary key when it is the handle of the table:
    among the columns read, the last one that has the primary-key flag. *)
Definition pkHandle `{Externals} (pid : string) (tableInfo : model.TableInfo)
    (schemaName : model.CIStr) (columns : list model.ColumnInfo)
    : option expression.Column :=
  if model.PKIsHandle tableInfo then
    last ((λ ic, tableColumn pid tableInfo schemaName ic.1 ic.2)
            <$> List.filter (λ ic, HasPriKeyFlag (model.ci_Flag ic.2)) (imap pair columns))
  else None.

(** The column [_rowid] of the node [pid], at the place [n]. *)
Definition rowidColumn `{Externals} (pid : string) (tableInfo : model.TableInfo)
    (schemaName : model.CIStr) (n : nat) : expression.Column :=
  expression.mkColumn pid (model.NewCIStr "_rowid") schemaName (model.ti_Name tableInfo)
    (NewFieldType TypeLonglong) ExtraHandleID (Z.of_nat n) false (Z.of_nat n).

(** The tables [t] and [u] read with a handle asked for. *)
Definition handle_builder : planBuilder := set_needColHandle 1 sample.builder0.

Definition t_with_handle : Res (option LogicalPlan) :=
  Eval vm_compute in @buildDataSource sample.externals (tableName "t") handle_builder.

Definition u_with_handle : Res (option LogicalPlan) :=
  Eval vm_compute in @buildDataSource sample.externals (tableName "u") handle_builder.

(** The resolver that the walk of the ORDER BY item [b + 1] leaves, from
    the start of the loop of [SELECT b AS a FROM t GROUP BY a ORDER BY b + 1, a]. *)
Definition after_b_plus_1 : havingAndOrderbyExprResolver :=
  Eval vm_compute in
    match @Accept sample.externals _ (@havingAndOrderbyVisitor sample.externals) b_plus_1
            order_by_alias with
    | Done (_, a) => a
    | Fail _ => order_by_alias
    end.
(** * Properties *)

(** ** Running a body *)

Lemma bind_Next {R A B} (m : G R A) (k : A → G R B) b x b' :
  bind m k b = Next x b' → ∃ a b1, m b = Next a b1 ∧ k a b1 = Next x b'.
Proof. unfold bind. destruct (m b) as [a b1| |]; [eauto | done..]. Qed.

Lemma bind_Return {R A B} (m : G R A) (k : A → G R B) b r b' :
  bind m k b = Return r b' →
  m b = Return r b' ∨ ∃ a b1, m b = Next a b1 ∧ k a b1 = Return r b'.
Proof. unfold bind. destruct (m b) as [a b1|r1 b1|]; [eauto | | done]. intros [= -> ->]. auto. Qed.

Lemma fn_Ok {R} (body : G R R) b r b' :
  fn body b = Ok r b' → body b = Next r b' ∨ body b = Return r b'.
Proof. unfold fn. destruct (body b); intros [= -> ->]; auto. Qed.

Lemma call_Next {R A} (f : Fn A) b a b' : @call R A f b = Next a b' → f b = Ok a b'.
Proof. unfold call. destruct (f b); congruence. Qed.

Lemma init_Ok k b :
  init k b = Ok (mkPlan k (kind_tag k +:+ "_" +:+ pretty (allocator b + 1))
                   (expression.NewSchema []) [])
               (set_allocator (allocator b + 1) b).
Proof. reflexivity. Qed.

(** ** Statements that leave the hint stack alone *)

Section Stable.
Context {ext : Externals}.

Lemma stableG_ret {R A} (a : A) : stableG (@ret R A a).
Proof. by intros b. Qed.

Lemma stableG_return {R A} (r : R) : stableG (@return_ R A r).
Proof. by intros b. Qed.

Lemma stableG_panic {R A} k : stableG (@panic R A k).
Proof. by intros b. Qed.

Lemma stableG_get {R} : stableG (@get R).
Proof. by intros b. Qed.

Lemma stableG_bind {R A B} (m : G R A) (k : A → G R B) :
  stableG m → (∀ a, stableG (k a)) → stableG (bind m k).
Proof.
  intros Hm Hk b. unfold bind. specialize (Hm b).
  destruct (m b) as [a b'|r b'|p]; [|done..].
  specialize (Hk a b'). destruct (k a b'); congruence.
Qed.

Lemma stableG_call {R A} (f : Fn A) : stableF f → stableG (@call R A f).
Proof. intros Hf b. unfold call. specialize (Hf b). by destruct (f b). Qed.

Lemma stableF_fn {R} (body : G R R) : stableG body → stableF (fn body).
Proof. intros Hb b. unfold fn. specialize (Hb b). by destruct (body b). Qed.

Lemma stableG_modify {R} f :
  (∀ b, b_tableHintInfo (f b) = b_tableHintInfo b) → stableG (@modify R f).
Proof. intros Hf b. apply Hf. Qed.

Lemma stableG_latch {R} e : stableG (@latch R e).
Proof. by intros b. Qed.

Lemma stableG_bail {R} (r : R) : stableG (bail r).
Proof. intros b. unfold bail. by destruct (err b). Qed.

Lemma stableG_try {R A} (t : Try A) : stableG (@try R A t).
Proof. destruct t; [apply stableG_ret | apply stableG_panic]. Qed.

Lemma stableG_index {R A} (s : list A) i : stableG (@index R A s i).
Proof.
  unfold index. case_decide; [|apply stableG_panic].
  destruct (s !! _); [apply stableG_ret | apply stableG_panic].
Qed.

Lemma stableG_index_nat {R A} (s : list A) i : stableG (@index_nat R A s i).
Proof. unfold index_nat. destruct (s !! _); [apply stableG_ret | apply stableG_panic]. Qed.

Lemma stableG_slice_to {R A} (s : list A) n : stableG (@slice_to R A s n).
Proof. unfold slice_to. case_decide; [apply stableG_ret | apply stableG_panic]. Qed.

Lemma stableG_copy_within {R A} a b c d (s : list A) :
  stableG (@copy_within R A a b c d s).
Proof. unfold copy_within. case_decide; [apply stableG_ret | apply stableG_panic]. Qed.

Lemma stableG_Schema_of {R} p : stableG (@Schema_of R p).
Proof. destruct p; [apply stableG_ret | apply stableG_panic]. Qed.

Lemma stableG_asExprNode {R} n : stableG (@asExprNode R n).
Proof. destruct n as [[]|]; first [apply stableG_ret | apply stableG_panic]. Qed.

Lemma stableF_allocID : stableF allocID.
Proof. by intros b. Qed.

Lemma stableF_init k : stableF (init k).
Proof.
  apply stableF_fn, stableG_bind; [apply stableG_call, stableF_allocID|].
  intros; apply stableG_ret.
Qed.

Lemma stableG_rewriteG {R} e p m s :
  hints_untouched ext → stableG (@rewriteG ext R e p m s).
Proof.
  intros [H _] b. unfold rewriteG. specialize (H e p m s b).
  by destruct (rewrite e p m s b).
Qed.

End Stable.

Create HintDb stable discriminated.
#[global] Hint Resolve stableG_ret stableG_return stableG_panic stableG_get
  stableG_latch stableG_bail stableG_try stableG_index stableG_index_nat
  stableG_slice_to stableG_copy_within stableG_Schema_of stableG_asExprNode
  stableF_allocID stableF_init stableG_rewriteG : stable.

(** One step on a goal [stableG m] or [stableF f]: by the shape of the
    statement, by case analysis of what it branches on, or by a lemma
    already proved. *)
Ltac stable_step :=
  lazymatch goal with
  | |- stableG (bind _ _) => apply stableG_bind; [| intros ?]
  | |- stableG (call _) => apply stableG_call
  | |- stableF (fn _) => apply stableF_fn
  | |- stableG (modify _) => apply stableG_modify; intros ?; reflexivity
  | |- stableG (match ?x with _ => _ end) => destruct x eqn:?
  | |- stableF (match ?x with _ => _ end) => destruct x eqn:?
  | |- stableG (let (_, _) := ?x in _) => destruct x eqn:?
  | |- _ => solve [eauto with stable]
  end.

Ltac stable := repeat stable_step.

Section StableBuilders.
Context {ext : Externals} (Hext : hints_untouched ext).

Local Hint Resolve Hext : stable.

Lemma stable_aggArgsLoop args p acc : stableG (aggArgsLoop args p acc).
Proof. revert p acc. induction args as [|arg rest IH]; intros; simpl; stable. Qed.
Local Hint Resolve stable_aggArgsLoop : stable.

Lemma stable_aggFuncLoop aggID l i st : stableG (aggFuncLoop aggID l i st).
Proof. revert i st. induction l as [|f rest IH]; intros; simpl; stable. Qed.
Local Hint Resolve stable_aggFuncLoop : stable.

Lemma stable_buildAggregation p l gby : stableF (buildAggregation p l gby).
Proof. unfold buildAggregation. stable. Qed.

Lemma stable_extractTableAlias {R} p : stableG (@extractTableAlias R p).
Proof. unfold extractTableAlias. stable. Qed.

Lemma stable_coalesceStep {R} i st : stableG (@coalesceStep R i st).
Proof. unfold coalesceStep. stable. Qed.
Local Hint Resolve stable_coalesceStep : stable.

Lemma stable_coalesceLoop {R} idxs st : stableG (@coalesceLoop R idxs st).
Proof. revert st. induction idxs as [|i rest IH]; intros; simpl; stable. Qed.

Lemma stable_coalesceConds p lsc rsc idxs conds :
  stableG (coalesceConds p lsc rsc idxs conds).
Proof. revert conds. induction idxs as [|i rest IH]; intros; simpl; stable. Qed.
Local Hint Resolve stable_coalesceLoop stable_coalesceConds : stable.

Lemma stable_coalesceCommonColumns p l r rj f :
  stableF (coalesceCommonColumns p l r rj f).
Proof. unfold coalesceCommonColumns. stable. Qed.
Local Hint Resolve stable_coalesceCommonColumns stable_extractTableAlias : stable.

Lemma stable_buildUsingClause p l r tp cols : stableF (buildUsingClause p l r tp cols).
Proof. unfold buildUsingClause. stable. Qed.

Lemma stable_buildNaturalJoin p l r tp : stableF (buildNaturalJoin p l r tp).
Proof. unfold buildNaturalJoin. stable. Qed.
Local Hint Resolve stable_buildUsingClause stable_buildNaturalJoin : stable.

Lemma stable_selectionLoop conds m p exprs : stableG (selectionLoop conds m p exprs).
Proof. revert p exprs. induction conds as [|c rest IH]; intros; simpl; stable. Qed.
Local Hint Resolve stable_selectionLoop : stable.

Lemma stable_buildSelection p w m : stableF (buildSelection p w m).
Proof. unfold buildSelection. stable. Qed.

Lemma stable_fieldNameFromExpressions {R} f :
  stableG (@buildProjectionFieldNameFromExpressions ext R f).
Proof. unfold buildProjectionFieldNameFromExpressions. stable. Qed.
Local Hint Resolve stable_fieldNameFromExpressions : stable.

Lemma stable_buildProjectionField {R} i pos f e :
  stableG (@buildProjectionField ext R i pos f e).
Proof. unfold buildProjectionField. stable. Qed.

Lemma stable_rewriteField {R} f p m s : stableG (@rewriteField ext R f p m s).
Proof. unfold rewriteField. stable. Qed.
Local Hint Resolve stable_buildProjectionField stable_rewriteField : stable.

Lemma stable_projectionLoop pid fields m st : stableG (projectionLoop pid fields m st).
Proof. revert st. induction fields as [|f rest IH]; intros; simpl; stable. Qed.
Local Hint Resolve stable_projectionLoop : stable.

Lemma stable_buildProjection p fields m : stableF (buildProjection p fields m).
Proof. unfold buildProjection. stable. Qed.

Lemma stable_buildDistinct p n : stableF (buildDistinct p n).
Proof. unfold buildDistinct. stable. Qed.

Lemma stable_sortLoop items m p exprs : stableG (sortLoop items m p exprs).
Proof. revert p exprs. induction items as [|c rest IH]; intros; simpl; stable. Qed.
Local Hint Resolve stable_sortLoop : stable.

Lemma stable_buildSort p items m : stableF (buildSort p items m).
Proof. unfold buildSort. stable. Qed.

Lemma stable_buildLimit p l : stableF (buildLimit p l).
Proof. unfold buildLimit. stable. Qed.

Lemma stable_set_err {R} e : stableG (λ b, @Next R unit tt (set_err e b)).
Proof. by intros b. Qed.
Local Hint Resolve stable_set_err : stable.

Lemma stable_orderByLoop c h items done ex : stableG (orderByLoop c h items done ex).
Proof. revert done ex. induction items as [|i rest IH]; intros; simpl; stable. Qed.
Local Hint Resolve stable_orderByLoop : stable.

Lemma stable_resolveHavingAndOrderBy c gby p : stableF (resolveHavingAndOrderBy c gby p).
Proof. unfold resolveHavingAndOrderBy. stable. Qed.

Lemma stable_extractAggLoop {R} fields done ex : stableG (@extractAggLoop ext R fields done ex).
Proof. revert done ex. induction fields as [|f rest IH]; intros; simpl; stable. Qed.
Local Hint Resolve stable_extractAggLoop : stable.

Lemma stable_extractAggFuncs fields : stableF (extractAggFuncs fields).
Proof. unfold extractAggFuncs. stable. Qed.

Lemma stable_gbyItemsLoop items st : stableG (gbyItemsLoop items st).
Proof. revert st. induction items as [|i rest IH]; intros; simpl; stable. Qed.
Local Hint Resolve stable_gbyItemsLoop : stable.

Lemma stable_resolveGbyExprs p gby fields : stableF (resolveGbyExprs p gby fields).
Proof. unfold resolveGbyExprs. stable. Qed.

Lemma stable_unfoldLoop p fields i acc : stableG (unfoldLoop p fields i acc).
Proof. revert i acc. induction fields as [|f rest IH]; intros; simpl; stable. Qed.
Local Hint Resolve stable_unfoldLoop : stable.

Lemma stable_unfoldWildStar p fields : stableF (unfoldWildStar p fields).
Proof. unfold unfoldWildStar. stable. Qed.

Lemma stable_buildTableDual : stableF buildTableDual.
Proof. unfold buildTableDual. stable. Qed.

Lemma stable_buildDataSource tn : stableF (buildDataSource tn).
Proof. unfold buildDataSource. stable. Qed.

Lemma stable_buildSelectLock p l : stableF (buildSelectLock p l).
Proof. apply Hext. Qed.

Local Hint Resolve stable_buildAggregation stable_buildSelection stable_buildProjection
  stable_buildDistinct stable_buildSort stable_buildLimit stable_resolveHavingAndOrderBy
  stable_extractAggFuncs stable_resolveGbyExprs stable_unfoldWildStar
  stable_buildTableDual stable_buildDataSource stable_buildSelectLock : stable.

Lemma stable_joinPlans c l r : stableG (joinPlans c l r).
Proof. unfold joinPlans. stable. Qed.

Lemma stable_unionBranch cols sel : stableG (unionBranch cols sel).
Proof. unfold unionBranch. stable. Qed.
Local Hint Resolve stable_unionBranch : stable.

Lemma stable_unionLoop branches done cols : stableG (unionLoop branches done cols).
Proof. revert done cols. induction branches as [|x rest IH]; intros; simpl; stable. Qed.
Local Hint Resolve stable_unionLoop : stable.

Lemma stable_unionPlans c u branches : stableG (unionPlans c u branches).
Proof. unfold unionPlans. stable. Qed.

Lemma stable_selectBody c hasAgg p : stableG (selectBody c hasAgg p).
Proof. unfold selectBody. stable. Qed.
Local Hint Resolve stable_joinPlans stable_unionPlans stable_selectBody : stable.

(** [pushTableHints] adds one frame, or none. *)
Lemma pushTableHints_spec hints b :
  ∃ frame, pushTableHints hints b
           = Ok true (set_tableHintInfo (b_tableHintInfo b ++ [frame]) b)
           ∨ pushTableHints hints b = Ok false b.
Proof.
  unfold pushTableHints, fn. destruct (foldl _ _ _) as [sm inlj].
  eexists. destruct (_ || _); [left | right]; reflexivity.
Qed.

(** [popTableHints] removes the last frame. *)
Lemma popTableHints_spec b hs frame :
  b_tableHintInfo b = hs ++ [frame] →
  popTableHints b = Ok tt (set_tableHintInfo hs b).
Proof.
  intros Hb. unfold popTableHints, fn, bind, get, slice_to, modify, ret. rewrite Hb.
  rewrite length_app. simpl. case_decide; [|lia].
  replace (Z.to_nat _) with (length hs) by lia. by rewrite take_app_length.
Qed.

(** [buildSelect] around a body that leaves the hint stack alone. *)
Lemma stable_buildSelect_step From c :
  match From with
  | ast.TableRefs j => stableF (buildJoin j)
  | ast.NoFrom => True
  end →
  stableF (buildSelect (ast.mkSelectStmt From c)).
Proof.
  intros HFrom b. simpl.
  set (body := fn (bind _ _)).
  assert (Hbody : stableF body).
  { subst body. stable. }
  assert (Hpush : ∃ frame,
    match ast.TableHints c with [] => Ok false b | hints => pushTableHints hints b end
    = Ok true (set_tableHintInfo (b_tableHintInfo b ++ [frame]) b)
    ∨ match ast.TableHints c with [] => Ok false b | hints => pushTableHints hints b end
      = Ok false b).
  { destruct (ast.TableHints c) as [|h hs]; [exists (mkTableHintInfo [] []); by right|].
    apply pushTableHints_spec. }
  destruct Hpush as [frame [-> | ->]]; unfold defer.
  - specialize (Hbody (set_tableHintInfo (b_tableHintInfo b ++ [frame]) b)).
    destruct (body _) as [r b'|]; [|done]. simpl in Hbody.
    rewrite (popTableHints_spec b' (b_tableHintInfo b) frame Hbody). done.
  - specialize (Hbody b). destruct (body b) as [r b'|]; [|done]. done.
Qed.

(** Every builder of a statement leaves the hint stack as it found it. *)
Lemma stable_statements :
  (∀ node, stableF (buildResultSetNode node))
  ∧ (∀ join, stableF (buildJoin join))
  ∧ (∀ right, match right with
              | ast.HasRight n => stableF (buildResultSetNode n)
              | ast.NoRight => True
              end)
  ∧ (∀ sel, stableF (buildSelect sel))
  ∧ (∀ from, match from with
             | ast.TableRefs j => stableF (buildJoin j)
             | ast.NoFrom => True
             end)
  ∧ (∀ union, stableF (buildUnion union))
  ∧ (∀ sels done, stableG (buildSelects sels done)).
Proof.
  apply ast.stmt_mutind.
  - (* RJoin *) intros j Hj. exact Hj.
  - (* RTableSource *)
    intros Source HSource AsName. simpl.
    destruct Source; simpl in *; stable.
  - (* RSelectStmt *) intros s Hs. exact Hs.
  - (* RUnionStmt *) intros u Hu. exact Hu.
  - (* RTableName *) intros tn. simpl. stable.
  - (* mkJoin *)
    intros Left HLeft Right HRight c.
    destruct Right as [|Right]; simpl; [exact HLeft|].
    stable.
  - done.
  - intros n Hn. exact Hn.
  - (* mkSelectStmt *) intros From HFrom c. by apply stable_buildSelect_step.
  - done.
  - intros j Hj. exact Hj.
  - (* mkUnionStmt *)
    intros Selects HSelects c. simpl. stable.
  - (* SelNil *) intros done. simpl. stable.
  - (* SelCons *)
    intros sel Hsel rest Hrest done. simpl. stable.
Qed.

End StableBuilders.

(** ** The hint stack (section 4.8) *)

Lemma hint_tables_recognized hints (acc : list model.CIStr * list model.CIStr) :
  let r := foldl (λ (acc : list model.CIStr * list model.CIStr) hint,
                    if decide (model.L (ast.HintName hint) = TiDBMergeJoin)
                    then (acc.1 ++ ast.Tables hint, acc.2)
                    else if decide (model.L (ast.HintName hint) = TiDBIndexNestedLoopJoin)
                    then (acc.1, acc.2 ++ ast.Tables hint)
                    else acc) acc hints in
  r = acc ∨ Exists recognized hints.
Proof.
  revert acc. induction hints as [|h hs IH]; intros acc; simpl; [by left|].
  destruct (IH (if decide (model.L (ast.HintName h) = TiDBMergeJoin)
                then (acc.1 ++ ast.Tables h, acc.2)
                else if decide (model.L (ast.HintName h) = TiDBIndexNestedLoopJoin)
                then (acc.1, acc.2 ++ ast.Tables h) else acc)) as [Heq | Hex].
  - simpl in Heq. rewrite Heq. repeat case_decide.
    + right. constructor. by left.
    + right. constructor. by right.
    + by left.
  - right. by constructor 2.
Qed.

Lemma pushTableHints_pushed hints b b1 :
  pushTableHints hints b = Ok true b1 →
  Exists recognized hints
  ∧ ∃ frame, b_tableHintInfo b1 = b_tableHintInfo b ++ [frame].
Proof.
  unfold pushTableHints, fn.
  pose proof (hint_tables_recognized hints ([], [])) as Hrec. simpl in Hrec.
  destruct (foldl _ _ _) as [sm inlj] eqn:Hfold.
  destruct (negb (bool_decide (length sm = 0%nat)) || _) eqn:Hne; simpl; [|done].
  intros [= <-]. split; [|by eexists].
  destruct Hrec as [[= -> ->] | Hex]; [done | exact Hex].
Qed.

Lemma pushTableHints_not_pushed hints b b1 :
  pushTableHints hints b = Ok false b1 → b1 = b.
Proof.
  unfold pushTableHints, fn. destruct (foldl _ _ _) as [sm inlj].
  destruct (_ || _); simpl; congruence.
Qed.

Lemma sample_rewriter_hints e p m s b :
  b_tableHintInfo (sample.rewriter e p m s b).2 = b_tableHintInfo b.
Proof.
  revert p m s b. induction e; intros p m s b; simpl; try done.
  - by destruct (sample.findColumn _ _) as [[?|] [?|]].
  - by destruct (sample.lookupNode _ _); [destruct (_ !! _)|].
  - destruct (sample.rewriter e1 p m true b) as [rl b1] eqn:H1.
    pose proof (IHe1 p m true b) as IH1. rewrite H1 in IH1. simpl in IH1.
    destruct (rw_err rl), (rw_expr rl); try done.
    destruct (sample.rewriter e2 (rw_plan rl) m true b1) as [rr b2] eqn:H2.
    pose proof (IHe2 (rw_plan rl) m true b1) as IH2. rewrite H2 in IH2. simpl in IH2.
    destruct (rw_err rr), (rw_expr rr); simpl; congruence.
  - by destruct s.
Qed.

Lemma sample_hints_untouched : hints_untouched sample.externals.
Proof.
  split; [exact sample_rewriter_hints|].
  intros p l. simpl. unfold sample.lockOver. stable.
Qed.

(** C8.  [buildSelect] leaves the builder's table-hint stack as it was on
    entry, and so at the same depth, whatever the statement and the nested
    SELECTs in it: [pushTableHints] adds a frame only when one of the hints
    is a recognized one, it then adds exactly one, and that frame is removed
    when [buildSelect] returns.  The collaborators that take the builder
    (the rewriter and [buildSelectLock]) are assumed to leave the stack as
    they find it. *)
Theorem buildSelect_hint_stack (ext : Externals) (Hext : hints_untouched ext) :
  (∀ sel b p b',
     buildSelect sel b = Ok p b' →
     b_tableHintInfo b' = b_tableHintInfo b
     ∧ length (b_tableHintInfo b') = length (b_tableHintInfo b))
  ∧ (∀ hints b b1,
       pushTableHints hints b = Ok true b1 →
       Exists recognized hints
       ∧ length (b_tableHintInfo b1) = S (length (b_tableHintInfo b)))
  ∧ (∀ hints b b1, pushTableHints hints b = Ok false b1 → b1 = b).
Proof.
  split; [|split].
  - intros sel b p b' Hrun.
    destruct (stable_statements Hext) as (_ & _ & _ & Hsel & _).
    specialize (Hsel sel b). rewrite Hrun in Hsel. by rewrite Hsel.
  - intros hints b b1 Hpush.
    destruct (pushTableHints_pushed _ _ _ Hpush) as [Hex [frame ->]].
    split; [done|]. rewrite length_app. simpl. lia.
  - apply pushTableHints_not_pushed.
Qed.

Lemma buildSelect_hint_stack_witness :
  match @buildSelect sample.externals hinted_select hinted_builder with
  | Ok (Some _) b' => b_tableHintInfo b' = b_tableHintInfo hinted_builder
  | _ => False
  end.
Proof.
  pose proof (proj1 (buildSelect_hint_stack sample.externals sample_hints_untouched)
                hinted_select hinted_builder) as H.
  assert (Hrun : @buildSelect sample.externals hinted_select hinted_builder = hinted_run)
    by (vm_compute; reflexivity).
  rewrite Hrun in *. exact (proj1 (H _ _ eq_refl)).
Defined.

(** ** USING and NATURAL joins (section 4.6) *)

(** C1.  On [t1 NATURAL JOIN t2], with [t1(a, b)] and [t2(b, c)], the one
    match is the left column [b], at index 1, with the right column [b], at
    index 0.  The claim moves the left [b] and the right [b] to slot 0 of
    their lists, for the output [b, a, c].  The source moves the right
    column at index 1 and the left column at index 0: the left list stays
    [a, b], the right one becomes [c, b], the output of the join is
    [a, b, b] and its equality is [t1.a = t2.c]. *)
Theorem coalesceCommonColumns_moves_other_columns :
  col_names t1_columns = [("t1", "a"); ("t1", "b")]
  ∧ col_names t2_columns = [("t2", "b"); ("t2", "c")]
  ∧ col_names (spec_rotate 0 1 t1_columns) = [("t1", "b"); ("t1", "a")]
  ∧ col_names (spec_rotate 0 0 t2_columns) = [("t2", "b"); ("t2", "c")]
  ∧ (∃ st, @coalesceStep unit 1 (mkCoalesceState t1_columns t2_columns 0 ∅)
             sample.builder0 = Next st sample.builder0
           ∧ col_names (c_lColumns st) = [("t1", "a"); ("t1", "b")]
           ∧ col_names (c_rColumns st) = [("t2", "c"); ("t2", "b")]
           ∧ c_commonLen st = 1%nat)
  ∧ (∃ join b',
       @buildJoin sample.externals natural_t1_t2 sample.builder0 = Ok (Some join) b'
       ∧ err b' = None
       ∧ col_names (expression.Columns (schema join))
         = [("t1", "a"); ("t1", "b"); ("t2", "b")]
       ∧ ∃ tp a c, EqualConditions (joinInfo join)
                   = [expression.EScalarFunction (model.NewCIStr ast.EQ) tp
                        [expression.EColumn a; expression.EColumn c]]
                   ∧ col_names [a; c] = [("t1", "a"); ("t2", "c")]).
Proof.
  repeat split; try (vm_compute; reflexivity).
  - eexists. repeat split; vm_compute; reflexivity.
  - do 2 eexists. split; [vm_compute; reflexivity|].
    split; [reflexivity|]. split; [reflexivity|].
    do 3 eexists. split; reflexivity.
Qed.

(** ** The latched error (section 7) *)

(** C4.  On [missing JOIN t] the build of the left side latches the error
    of the catalog and returns nil.  [buildJoin] goes on: it builds the
    right side, where [buildDataSource] returns a data source while the
    error is latched, and then asks the nil left plan for its schema, which
    panics: [buildJoin] does not return nil. *)
Theorem buildJoin_goes_on_after_error :
  @buildResultSetNode sample.externals (tableRef "missing") sample.builder0
  = Ok None builder_after_missing
  ∧ err builder_after_missing
    = Some (Foreign (mkExtError "Table 'test.missing' doesn't exist"))
  ∧ (∃ ds b2, @buildDataSource sample.externals (tableName "t") builder_after_missing
              = Ok (Some ds) b2
              ∧ err b2 = err builder_after_missing
              ∧ allocator b2 = allocator builder_after_missing + 1)
  ∧ @buildJoin sample.externals join_missing_t sample.builder0 = Crash NilDereference.
Proof.
  split; [vm_compute; reflexivity|]. split; [vm_compute; reflexivity|].
  split; [|vm_compute; reflexivity].
  do 2 eexists. split; [vm_compute; reflexivity|]. split; reflexivity.
Qed.

(** After [resolveHavingAndOrderBy] has latched the unknown column of the
    HAVING clause, [buildSelect] still builds the selection of the WHERE
    clause, whose own error replaces the first one. *)
Lemma buildSelect_first_error_replaced :
  (∃ p b1 ho b2,
     @buildJoin sample.externals
       (ast.mkJoin (tableRef "t") ast.NoRight crossJoin) sample.builder0 = Ok p b1
     ∧ @resolveHavingAndOrderBy sample.externals
         (ast.mkSelectClauses false [field (colRef "a") "a"]
            (Some (ast.BinaryOperationExpr "gt" (colRef "y") (intLit 0))) None
            (Some (ast.BinaryOperationExpr "gt" (colRef "x") (intLit 0)))
            None None ast.SelectLockNone [])
         None p b1 = Ok ho b2
     ∧ err b2 = Some (errors_New "Unknown Column x"))
  ∧ ∃ b', @buildSelect sample.externals select_two_unknowns sample.builder0 = Ok None b'
          ∧ err b' = Some (Foreign (mkExtError "Unknown column y"))
          ∧ allocator b' = 2.
Proof.
  split.
  - do 4 eexists. split; [vm_compute; reflexivity|].
    split; [vm_compute; reflexivity|]. reflexivity.
  - eexists. split; [vm_compute; reflexivity|]. split; reflexivity.
Qed.

(** After [buildSort] has failed in [buildUnion], [buildLimit] still runs,
    on the nil plan. *)
Lemma buildUnion_limit_after_failed_sort :
  @buildUnion sample.externals union_order_limit sample.builder0 = Crash NilDereference.
Proof. vm_compute. reflexivity. Qed.

(** ** LIMIT (section 4.5) *)

Lemma Clone_id s : expression.Clone s = s.
Proof.
  destruct s as [cols h]. unfold expression.Clone, expression.Column_Clone. simpl.
  by rewrite list_fmap_id.
Qed.

Lemma Clone_columns (l : list expression.Column) : expression.Column_Clone <$> l = l.
Proof. unfold expression.Column_Clone. apply list_fmap_id. Qed.

Section Limit.
Context {ext : Externals}.

Lemma buildLimit_offset_fails src limit b :
  (limitValue (ast.Offset limit)).2 ≠ None →
  buildLimit src limit b = Ok None (set_err (Some ErrWrongArguments) b).
Proof.
  unfold buildLimit, limitValue, fn, bind. destruct (ast.Offset limit) as [v|]; [|done].
  destruct (getUintForLimitOffset v) as [o1 [e1|]]; simpl; done.
Qed.

Lemma buildLimit_count_fails src limit b :
  (limitValue (ast.Offset limit)).2 = None →
  (limitValue (ast.Count limit)).2 ≠ None →
  buildLimit src limit b = Ok None (set_err (Some ErrWrongArguments) b).
Proof.
  unfold buildLimit, limitValue, fn, bind.
  destruct (ast.Offset limit) as [v|].
  - destruct (getUintForLimitOffset v) as [o1 [e1|]]; simpl; [done|]. intros _.
    destruct (ast.Count limit) as [w|]; [|done].
    destruct (getUintForLimitOffset w) as [c1 [e2|]]; simpl; done.
  - intros _. simpl.
    destruct (ast.Count limit) as [w|]; [|done].
    destruct (getUintForLimitOffset w) as [c1 [e2|]]; simpl; done.
Qed.

Lemma buildLimit_accepts src limit b :
  (limitValue (ast.Offset limit)).2 = None →
  (limitValue (ast.Count limit)).2 = None →
  ∃ li b',
    buildLimit (Some src) limit b = Ok (Some li) b'
    ∧ kind li = KLimit (limitValue (ast.Offset limit)).1 (limitValue (ast.Count limit)).1
    ∧ schema li = schema src
    ∧ children li = [src]
    ∧ err b' = err b.
Proof.
  unfold buildLimit, limitValue, fn, bind. intros Ho Hc.
  destruct (ast.Offset limit) as [v|], (ast.Count limit) as [w|]; simpl in Ho, Hc.
  - destruct (getUintForLimitOffset v) as [o1 [e1|]]; [done|].
    destruct (getUintForLimitOffset w) as [c1 [e2|]]; [done|].
    simpl. do 2 eexists. repeat split. apply Clone_id.
  - destruct (getUintForLimitOffset v) as [o1 [e1|]]; [done|].
    simpl. do 2 eexists. repeat split. apply Clone_id.
  - destruct (getUintForLimitOffset w) as [c1 [e2|]]; [done|].
    simpl. do 2 eexists. repeat split. apply Clone_id.
  - simpl. do 2 eexists. repeat split. apply Clone_id.
Qed.

End Limit.

(** C6.  [getUintForLimitOffset] accepts a [uint64] value, an [int64] value
    that is not negative, and a string that [StrToUint] converts, and gives
    the number as it is; it rejects a negative [int64] value and a value of
    any other type.  [buildLimit] fails with [ErrWrongArguments] and returns
    nil as soon as the OFFSET or the COUNT is rejected, and otherwise builds
    the limit node with the two numbers. *)
Theorem limit_offset_count_unsigned (ext : Externals) :
  (∀ v, getUintForLimitOffset (types.VUint64 v) = (v, None))
  ∧ (∀ v, 0 ≤ v → getUintForLimitOffset (types.VInt64 v) = (v, None))
  ∧ (∀ s u, StrToUint s = (u, None) → getUintForLimitOffset (types.VString s) = (u, None))
  ∧ (∀ v, v < 0 → ∃ e, getUintForLimitOffset (types.VInt64 v) = (0, Some e))
  ∧ (∀ val, other_type val → ∃ e, getUintForLimitOffset val = (0, Some e))
  ∧ (∀ src limit b,
       (limitValue (ast.Offset limit)).2 ≠ None
       ∨ (limitValue (ast.Count limit)).2 ≠ None →
       buildLimit src limit b = Ok None (set_err (Some ErrWrongArguments) b))
  ∧ (∀ src limit b,
       (limitValue (ast.Offset limit)).2 = None →
       (limitValue (ast.Count limit)).2 = None →
       ∃ li b',
         buildLimit (Some src) limit b = Ok (Some li) b'
         ∧ kind li = KLimit (limitValue (ast.Offset limit)).1
                            (limitValue (ast.Count limit)).1
         ∧ err b' = err b).
Proof.
  repeat split.
  - intros v Hv. unfold getUintForLimitOffset. case_decide; [done | lia].
  - intros s u Hs. unfold getUintForLimitOffset. by rewrite Hs.
  - intros v Hv. unfold getUintForLimitOffset. case_decide; [lia | by eexists].
  - intros val Hval. destruct val; simpl in Hval; try done; by eexists.
  - intros src limit b [Ho | Hc]; [by apply buildLimit_offset_fails|].
    destruct (limitValue (ast.Offset limit)).2 eqn:Ho.
    + apply buildLimit_offset_fails. by rewrite Ho.
    + by apply buildLimit_count_fails.
  - intros src limit b Ho Hc.
    destruct (buildLimit_accepts src limit b Ho Hc) as (li & b' & H1 & H2 & _ & _ & H3).
    by exists li, b'.
Qed.

Lemma limit_offset_count_unsigned_witness :
  @getUintForLimitOffset sample.externals (types.VInt64 5) = (5, None)
  ∧ @getUintForLimitOffset sample.externals (types.VString "7") = (7, None)
  ∧ (∃ e, @getUintForLimitOffset sample.externals (types.VInt64 (-1)) = (0, Some e))
  ∧ (∃ e, @getUintForLimitOffset sample.externals (types.VFloat64 0) = (0, Some e))
  ∧ @buildLimit sample.externals (Some dual_plan) limit_negative_offset sample.builder0
    = Ok None (set_err (Some ErrWrongArguments) sample.builder0)
  ∧ ∃ li b', @buildLimit sample.externals (Some dual_plan) limit_5_7 sample.builder0
             = Ok (Some li) b'
             ∧ kind li = KLimit 5 7 ∧ err b' = None.
Proof.
  pose proof (limit_offset_count_unsigned sample.externals)
    as (_ & Hint & Hstr & Hneg & Hother & Hfail & Hok).
  split; [apply Hint; lia|].
  split; [apply Hstr; vm_compute; reflexivity|].
  split; [apply Hneg; lia|].
  split; [apply Hother; exact I|].
  split; [apply Hfail; left; vm_compute; discriminate|].
  apply (Hok dual_plan limit_5_7 sample.builder0); vm_compute; reflexivity.
Defined.

(** ** Resolution in the select fields (section 4.4) *)

Section ResolveFields.
Variables (v : ast.ColumnName) (ign : bool).

(** One round of the loop, on the column of the field. *)
Lemma resolveFieldsLoop_cons f rest i m idx :
  resolveFieldsLoop v ign (f :: rest) i m idx =
  if ast.Auxiliary f then resolveFieldsLoop v ign rest (i + 1) m idx
  else if matchField f v ign then
    match column_of f with
    | Some curCol =>
        match m with
        | None => resolveFieldsLoop v ign rest (i + 1) (Some curCol) i
        | Some matched =>
            if negb (colMatch matched curCol) && negb (colMatch curCol matched)
            then (-1, Some (ErrAmbiguous (model.L (ast.Name curCol))))
            else resolveFieldsLoop v ign rest (i + 1) m idx
        end
    | None => (i, None)
    end
  else resolveFieldsLoop v ign rest (i + 1) m idx.
Proof. simpl. unfold column_of. by destruct (ast.Expr f) as [[]|]. Qed.

Lemma matched_dec f :
  {matched v ign f} + {ast.Auxiliary f = true ∨ matchField f v ign = false}.
Proof.
  unfold matched. destruct (ast.Auxiliary f), (matchField f v ign); auto.
Qed.

Lemma resolveFieldsLoop_skip f rest i m idx :
  ¬ matched v ign f →
  resolveFieldsLoop v ign (f :: rest) i m idx = resolveFieldsLoop v ign rest (i + 1) m idx.
Proof.
  intros Hn. rewrite resolveFieldsLoop_cons. unfold matched in Hn.
  destruct (ast.Auxiliary f); [done|]. destruct (matchField f v ign); [|done].
  by destruct Hn.
Qed.

(** Auxiliary fields do not count: one may stand for another. *)
Lemma resolveFieldsLoop_auxiliary pre f f' post i m idx :
  ast.Auxiliary f = true → ast.Auxiliary f' = true →
  resolveFieldsLoop v ign (pre ++ f :: post) i m idx
  = resolveFieldsLoop v ign (pre ++ f' :: post) i m idx.
Proof.
  intros Hf Hf'. revert i m idx.
  induction pre as [|g pre IH]; intros i m idx.
  - simpl. by rewrite Hf, Hf'.
  - rewrite <- !app_comm_cons, !resolveFieldsLoop_cons.
    destruct (ast.Auxiliary g); [apply IH|].
    destruct (matchField g v ign); [|apply IH].
    destruct (column_of g) as [c|]; [|done].
    destruct m as [c0|]; [|apply IH].
    destruct (_ && _); [done | apply IH].
Qed.

(** With a column already matched and every later matched field a
    reference to the same column, the first match stays. *)
Lemma resolveFieldsLoop_same fields i c0 i0 :
  (∀ f, f ∈ fields → matched v ign f → ∃ c, column_of f = Some c ∧ same_column c0 c) →
  resolveFieldsLoop v ign fields i (Some c0) i0 = (i0, None).
Proof.
  revert i. induction fields as [|f rest IH]; intros i Hall; [done|].
  destruct (matched_dec f) as [Hm | Hn].
  - destruct (Hall f) as (c & Hc & Hsame); [by left | done |].
    rewrite resolveFieldsLoop_cons. destruct Hm as [-> ->]. rewrite Hc.
    destruct Hsame as [-> | ->]; simpl; rewrite ?andb_false_r;
      apply IH; intros g Hg; apply Hall; by right.
  - rewrite resolveFieldsLoop_skip.
    + apply IH. intros g Hg. apply Hall. by right.
    + unfold matched. intros [? ?]. destruct Hn; congruence.
Qed.

Lemma resolveFieldsLoop_first fields i :
  (∀ f, f ∈ fields → matched v ign f → is_Some (column_of f)) →
  (∀ f g c d, f ∈ fields → g ∈ fields → matched v ign f → matched v ign g →
              column_of f = Some c → column_of g = Some d → same_column c d) →
  resolveFieldsLoop v ign fields i None (-1) = (firstMatched v ign fields i, None).
Proof.
  revert i. induction fields as [|f rest IH]; intros i Hcols Hsame; [done|].
  destruct (matched_dec f) as [Hm | Hn].
  - destruct (Hcols f) as [c Hc]; [by left | done |].
    rewrite resolveFieldsLoop_cons. simpl. destruct Hm as [Haux Hmatch].
    rewrite Haux, Hmatch, Hc. simpl.
    apply resolveFieldsLoop_same. intros g Hg Hgm.
    destruct (Hcols g) as [d Hd]; [by right | done |].
    exists d. split; [done|].
    eapply (Hsame f g); eauto; [by left | by right | done].
  - rewrite resolveFieldsLoop_skip.
    + simpl. replace (negb (ast.Auxiliary f) && matchField f v ign) with false.
      * apply IH; [intros g Hg; apply Hcols; by right|].
        intros g h c d Hg Hh. apply Hsame; by right.
      * destruct Hn as [-> | ->]; [done | by rewrite andb_false_r].
    + unfold matched. intros [? ?]. destruct Hn; congruence.
Qed.

(** A matched field that is not a column reference ends the loop. *)
Lemma resolveFieldsLoop_expr_after pre f post i c0 i0 :
  matched v ign f → column_of f = None →
  (∀ g, g ∈ pre → matched v ign g → ∃ c, column_of g = Some c ∧ same_column c0 c) →
  resolveFieldsLoop v ign (pre ++ f :: post) i (Some c0) i0
  = (i + Z.of_nat (length pre), None).
Proof.
  intros [Haux Hmatch] Hexpr. revert i.
  induction pre as [|g pre IH]; intros i Hall.
  - simpl app. rewrite resolveFieldsLoop_cons, Haux, Hmatch, Hexpr. simpl. f_equal. lia.
  - rewrite <- app_comm_cons.
    replace (i + Z.of_nat (length (g :: pre))) with ((i + 1) + Z.of_nat (length pre))
      by (simpl; lia).
    destruct (matched_dec g) as [Hm | Hn].
    + destruct (Hall g) as (c & Hc & Hsame); [by left | done |].
      rewrite resolveFieldsLoop_cons. destruct Hm as [-> ->]. rewrite Hc.
      destruct Hsame as [-> | ->]; simpl; rewrite ?andb_false_r;
        apply IH; intros h Hh; apply Hall; by right.
    + rewrite resolveFieldsLoop_skip.
      * apply IH. intros h Hh. apply Hall. by right.
      * unfold matched. intros [? ?]. destruct Hn; congruence.
Qed.

Lemma resolveFieldsLoop_expr pre f post i :
  matched v ign f → column_of f = None →
  (∀ g, g ∈ pre → matched v ign g → is_Some (column_of g)) →
  (∀ g h c d, g ∈ pre → h ∈ pre → matched v ign g → matched v ign h →
              column_of g = Some c → column_of h = Some d → same_column c d) →
  resolveFieldsLoop v ign (pre ++ f :: post) i None (-1)
  = (i + Z.of_nat (length pre), None).
Proof.
  intros Hf Hexpr. revert i.
  induction pre as [|g pre IH]; intros i Hcols Hsame.
  - destruct Hf as [Haux Hmatch].
    simpl app. rewrite resolveFieldsLoop_cons, Haux, Hmatch, Hexpr. simpl. f_equal. lia.
  - rewrite <- app_comm_cons.
    replace (i + Z.of_nat (length (g :: pre))) with ((i + 1) + Z.of_nat (length pre))
      by (simpl; lia).
    destruct (matched_dec g) as [Hm | Hn].
    + destruct (Hcols g) as [c Hc]; [by left | done |].
      rewrite resolveFieldsLoop_cons. destruct (Hm) as [-> ->]. rewrite Hc.
      apply resolveFieldsLoop_expr_after; [done..|].
      intros h Hh Hhm. destruct (Hcols h) as [d Hd]; [by right | done |].
      exists d. split; [done|].
      eapply (Hsame g h); eauto; [by left | by right].
    + rewrite resolveFieldsLoop_skip.
      * apply IH; [intros h Hh; apply Hcols; by right|].
        intros h k c d Hh Hk. apply Hsame; by right.
      * unfold matched. intros [? ?]. destruct Hn; congruence.
Qed.

(** An error comes from two matched column references that match in
    neither direction. *)
Lemma resolveFieldsLoop_error rest pre m idx r e :
  resolveFieldsLoop v ign rest (Z.of_nat (length pre)) m idx = (r, Some e) →
  (∀ c, m = Some c → ∃ j fj, pre !! j = Some fj ∧ matched v ign fj ∧ column_of fj = Some c) →
  r = -1
  ∧ ∃ j k fj fk cj ck,
      (j < k)%nat
      ∧ (pre ++ rest) !! j = Some fj ∧ (pre ++ rest) !! k = Some fk
      ∧ matched v ign fj ∧ matched v ign fk
      ∧ column_of fj = Some cj ∧ column_of fk = Some ck
      ∧ colMatch cj ck = false ∧ colMatch ck cj = false
      ∧ e = ErrAmbiguous (model.L (ast.Name ck)).
Proof.
  revert pre m idx. induction rest as [|f rest IH]; intros pre m idx; [done|].
  assert (Hlen : Z.of_nat (length pre) + 1 = Z.of_nat (length (pre ++ [f])))
    by (rewrite length_app; simpl; lia).
  assert (Happ : pre ++ f :: rest = (pre ++ [f]) ++ rest) by by rewrite <- app_assoc.
  assert (Hkeep : ∀ c, (∃ j fj, pre !! j = Some fj ∧ matched v ign fj ∧ column_of fj = Some c)
                       → ∃ j fj, (pre ++ [f]) !! j = Some fj ∧ matched v ign fj
                                 ∧ column_of fj = Some c).
  { intros c (j & fj & Hj & Hm & Hc). exists j, fj.
    split; [by apply lookup_app_l_Some | done]. }
  rewrite resolveFieldsLoop_cons, Hlen, Happ.
  destruct (ast.Auxiliary f) eqn:Haux.
  { intros Hrun Hm. apply (IH _ _ _ Hrun). intros c Hc. by apply Hkeep, Hm. }
  destruct (matchField f v ign) eqn:Hmatch.
  2: { intros Hrun Hm. apply (IH _ _ _ Hrun). intros c Hc. by apply Hkeep, Hm. }
  destruct (column_of f) as [cur|] eqn:Hcur; [|done].
  assert (Hf : (pre ++ [f]) !! length pre = Some f).
  { rewrite lookup_app_r by lia. by rewrite Nat.sub_diag. }
  destruct m as [c0|].
  - destruct (negb (colMatch c0 cur) && negb (colMatch cur c0)) eqn:Hamb.
    + intros [= <- <-] Hm. split; [done|].
      destruct (Hm c0 eq_refl) as (j & fj & Hj & Hmj & Hcj).
      apply andb_true_iff in Hamb as [H1 H2].
      apply negb_true_iff in H1, H2.
      exists j, (length pre), fj, f, c0, cur.
      split; [by apply lookup_lt_Some in Hj|].
      split; [by do 2 apply lookup_app_l_Some|].
      split; [by apply lookup_app_l_Some|]. done.
    + intros Hrun Hm. apply (IH _ _ _ Hrun). intros c Hc. by apply Hkeep, Hm.
  - intros Hrun _. apply (IH _ _ _ Hrun). intros c [= <-].
    by exists (length pre), f.
Qed.

(** Without an error the index is -1 or that of a matched field. *)
Lemma resolveFieldsLoop_index rest pre m idx r :
  resolveFieldsLoop v ign rest (Z.of_nat (length pre)) m idx = (r, None) →
  (idx = -1 ∨ ∃ f, pre !! Z.to_nat idx = Some f ∧ 0 ≤ idx ∧ matched v ign f) →
  r = -1 ∨ ∃ f, (pre ++ rest) !! Z.to_nat r = Some f ∧ 0 ≤ r ∧ matched v ign f.
Proof.
  revert pre m idx. induction rest as [|f rest IH]; intros pre m idx.
  - simpl. intros [= <-] [-> | (f & Hf & Hm)]; [by left | right].
    exists f. by rewrite app_nil_r.
  - assert (Hlen : Z.of_nat (length pre) + 1 = Z.of_nat (length (pre ++ [f])))
      by (rewrite length_app; simpl; lia).
    assert (Happ : pre ++ f :: rest = (pre ++ [f]) ++ rest) by by rewrite <- app_assoc.
    assert (Hkeep : (idx = -1 ∨ ∃ g, pre !! Z.to_nat idx = Some g ∧ 0 ≤ idx ∧ matched v ign g)
                    → idx = -1 ∨ ∃ g, (pre ++ [f]) !! Z.to_nat idx = Some g ∧ 0 ≤ idx
                                      ∧ matched v ign g).
    { intros [-> | (g & Hg & Hm)]; [by left | right].
      exists g. split; [by apply lookup_app_l_Some | done]. }
    assert (Hf : (pre ++ [f]) !! length pre = Some f).
    { rewrite lookup_app_r by lia. by rewrite Nat.sub_diag. }
    rewrite resolveFieldsLoop_cons, Hlen, Happ.
    destruct (ast.Auxiliary f) eqn:Haux.
    { intros Hrun Hidx. apply (IH _ _ _ Hrun). by apply Hkeep. }
    destruct (matchField f v ign) eqn:Hmatch.
    2: { intros Hrun Hidx. apply (IH _ _ _ Hrun). by apply Hkeep. }
    destruct (column_of f) as [cur|] eqn:Hcur.
    + destruct m as [c0|].
      * destruct (_ && _); [done|].
        intros Hrun Hidx. apply (IH _ _ _ Hrun). by apply Hkeep.
      * rewrite <- Hlen. intros Hrun _. rewrite Hlen in Hrun.
        apply (IH _ _ _ Hrun). right. exists f.
        rewrite Nat2Z.id. split; [done|]. split; [lia | done].
    + intros [= <-] _. right. exists f. rewrite Nat2Z.id.
      split; [by apply lookup_app_l_Some|]. split; [lia | done].
Qed.

End ResolveFields.

(** C9.  [resolveFromSelectFields] takes no account of the auxiliary
    fields.  It reports the ambiguous column only when two matched fields
    are column references that match each other in neither direction.
    When every matched field is a column reference and all of them denote
    the same column it returns the index of the first matched field (-1
    when there is none) without an error.  A matched field that is not a
    column reference, reached without such an ambiguity before it, is
    returned at once.  An index that is returned is that of a matched
    field. *)
Theorem resolveFromSelectFields_matches (v : ast.ColumnName) (ign : bool) :
  (∀ pre f f' post,
     ast.Auxiliary f = true → ast.Auxiliary f' = true →
     resolveFromSelectFields v (pre ++ f :: post) ign
     = resolveFromSelectFields v (pre ++ f' :: post) ign)
  ∧ (∀ fields r e,
       resolveFromSelectFields v fields ign = (r, Some e) →
       r = -1
       ∧ ∃ j k fj fk cj ck,
           (j < k)%nat ∧ fields !! j = Some fj ∧ fields !! k = Some fk
           ∧ matched v ign fj ∧ matched v ign fk
           ∧ column_of fj = Some cj ∧ column_of fk = Some ck
           ∧ colMatch cj ck = false ∧ colMatch ck cj = false
           ∧ e = ErrAmbiguous (model.L (ast.Name ck)))
  ∧ (∀ fields,
       (∀ f, f ∈ fields → matched v ign f → is_Some (column_of f)) →
       (∀ f g c d, f ∈ fields → g ∈ fields → matched v ign f → matched v ign g →
                   column_of f = Some c → column_of g = Some d → same_column c d) →
       resolveFromSelectFields v fields ign = (firstMatched v ign fields 0, None))
  ∧ (∀ pre f post,
       matched v ign f → column_of f = None →
       (∀ g, g ∈ pre → matched v ign g → is_Some (column_of g)) →
       (∀ g h c d, g ∈ pre → h ∈ pre → matched v ign g → matched v ign h →
                   column_of g = Some c → column_of h = Some d → same_column c d) →
       resolveFromSelectFields v (pre ++ f :: post) ign = (Z.of_nat (length pre), None))
  ∧ (∀ fields r,
       resolveFromSelectFields v fields ign = (r, None) →
       r = -1 ∨ ∃ f, fields !! Z.to_nat r = Some f ∧ 0 ≤ r ∧ matched v ign f).
Proof.
  unfold resolveFromSelectFields. split; [|split; [|split; [|split]]].
  - intros. by apply resolveFieldsLoop_auxiliary.
  - intros fields r e Hrun.
    by apply (resolveFieldsLoop_error v ign fields [] None (-1) r e Hrun).
  - intros. by apply resolveFieldsLoop_first.
  - intros. rewrite (resolveFieldsLoop_expr v ign pre f post 0); [f_equal; lia | done..].
  - intros fields r Hrun.
    apply (resolveFieldsLoop_index v ign fields [] None (-1) r Hrun). by left.
Qed.

Lemma resolveFromSelectFields_matches_witness :
  resolveFromSelectFields (colName "a") fields_t_a false = (0, None)
  ∧ resolveFromSelectFields (colName "a") ([field (colRef "a") "a"] ++ b_plus_1_as_a :: [])
      false = (1, None).
Proof.
  pose proof (resolveFromSelectFields_matches (colName "a") false)
    as (_ & _ & Hcols & Hexpr & _).
  split.
  - apply (Hcols fields_t_a).
    + intros f Hf _.
      repeat (apply elem_of_cons in Hf as [-> | Hf]);
        [by eexists.. | by apply elem_of_nil in Hf].
    + intros f g c d Hf Hg _ _ Hc Hd.
      repeat (apply elem_of_cons in Hf as [-> | Hf]); [| | by apply elem_of_nil in Hf];
        (repeat (apply elem_of_cons in Hg as [-> | Hg]); [| | by apply elem_of_nil in Hg]);
        vm_compute in Hc, Hd; injection Hc as <-; injection Hd as <-;
        first [left; vm_compute; reflexivity | right; vm_compute; reflexivity].
  - apply (Hexpr [field (colRef "a") "a"] b_plus_1_as_a []).
    + split; vm_compute; reflexivity.
    + reflexivity.
    + intros g Hg _. apply list_elem_of_singleton in Hg as ->. by eexists.
    + intros g h c d Hg Hh _ _ Hc Hd.
      apply list_elem_of_singleton in Hg as ->. apply list_elem_of_singleton in Hh as ->.
      vm_compute in Hc, Hd. injection Hc as <-. injection Hd as <-.
      left. vm_compute. reflexivity.
Defined.

(** ** Wildcards (section 4.4) *)

Section WildStar.
Context {ext : Externals}.

Lemma wildFields_none wc cols :
  (∀ col, col ∈ cols → qualifies wc col = false) → wildFields wc cols = [].
Proof.
  unfold wildFields. induction cols as [|col cols IH]; intros Hq; [done|].
  simpl. rewrite (Hq col) by by left. simpl. apply IH. intros c Hc. apply Hq. by right.
Qed.

Lemma unfoldLoop_expands p fields i acc b :
  lateBareStar fields i = false →
  unfoldLoop (Some p) fields i acc b
  = Next (acc ++ concat (expandField (expression.Columns (schema p)) <$> fields)) b.
Proof.
  revert i acc. induction fields as [|f rest IH]; intros i acc; simpl.
  - intros _. by rewrite app_nil_r.
  - unfold expandField at 1. destruct (ast.WildCard f) as [wc|].
    + intros [Hf Hrest]%orb_false_iff. rewrite Hf. unfold bind at 1. simpl.
      rewrite IH by done. by rewrite <- app_assoc.
    + simpl. intros Hrest. rewrite IH by done. by rewrite <- app_assoc.
Qed.

Lemma unfoldLoop_rejects p fields i acc b :
  lateBareStar fields i = true →
  ∃ resultList,
    unfoldLoop (Some p) fields i acc b
    = Return resultList (set_err (Some ErrInvalidWildCard) b).
Proof.
  revert i acc. induction fields as [|f rest IH]; intros i acc; simpl; [done|].
  destruct (ast.WildCard f) as [wc|].
  - destruct (bool_decide (model.L (ast.wc_Table wc) = "") && bool_decide (i > 0)).
    + intros _. by eexists.
    + simpl. intros Hrest. unfold bind at 1. simpl. by apply IH.
  - simpl. intros Hrest. by apply IH.
Qed.

Lemma unfoldLoop_qualified_none p f rest i acc b wc :
  ast.WildCard f = Some wc →
  model.L (ast.wc_Table wc) ≠ "" →
  (∀ col, col ∈ expression.Columns (schema p) → qualifies wc col = false) →
  unfoldLoop (Some p) (f :: rest) i acc b = unfoldLoop (Some p) rest (i + 1) acc b.
Proof.
  intros Hwc Htbl Hq. simpl. rewrite Hwc.
  rewrite bool_decide_eq_false_2 by done. simpl. unfold bind at 1. simpl.
  by rewrite wildFields_none, app_nil_r.
Qed.

End WildStar.

(** C10.  A wildcard whose qualifiers no column of the schema of the plan
    satisfies stands for no select field, and [unfoldWildStar] passes over
    it without setting an error.  [unfoldWildStar] sets an error, the
    invalid-wildcard one, exactly when a wildcard without a table stands
    after the first select field; otherwise it leaves the builder as it is
    and returns the fields with every wildcard replaced by the fields it
    stands for. *)
Theorem unfoldWildStar_errors (ext : Externals) :
  (∀ wc cols,
     (∀ col, col ∈ cols → qualifies wc col = false) → wildFields wc cols = [])
  ∧ (∀ p f rest i acc b wc,
       ast.WildCard f = Some wc →
       model.L (ast.wc_Table wc) ≠ "" →
       (∀ col, col ∈ expression.Columns (schema p) → qualifies wc col = false) →
       unfoldLoop (Some p) (f :: rest) i acc b = unfoldLoop (Some p) rest (i + 1) acc b)
  ∧ (∀ p fields b,
       lateBareStar fields 0 = false →
       unfoldWildStar (Some p) fields b
       = Ok (concat (expandField (expression.Columns (schema p)) <$> fields)) b)
  ∧ (∀ p fields b,
       lateBareStar fields 0 = true →
       ∃ resultList,
         unfoldWildStar (Some p) fields b
         = Ok resultList (set_err (Some ErrInvalidWildCard) b)).
Proof.
  split; [apply @wildFields_none|]. split; [apply @unfoldLoop_qualified_none|]. split.
  - intros p fields b Hstar. unfold unfoldWildStar, fn.
    by rewrite unfoldLoop_expands.
  - intros p fields b Hstar. unfold unfoldWildStar, fn.
    destruct (unfoldLoop_rejects p fields 0 [] b Hstar) as [res ->]. by exists res.
Qed.

Lemma unfoldWildStar_errors_witness :
  @unfoldWildStar sample.externals (Some t_plan) fields_a_nosuch_b sample.builder0
  = Ok [field (colRef "a") "a"; field (colRef "b") "b"] sample.builder0
  ∧ ∃ resultList,
      @unfoldWildStar sample.externals (Some t_plan) fields_a_star sample.builder0
      = Ok resultList (set_err (Some ErrInvalidWildCard) sample.builder0).
Proof.
  pose proof (unfoldWildStar_errors sample.externals) as (_ & _ & Hok & Herr).
  split.
  - rewrite (Hok t_plan fields_a_nosuch_b sample.builder0); vm_compute; reflexivity.
  - apply (Herr t_plan fields_a_star sample.builder0). vm_compute; reflexivity.
Defined.

(** ** Aggregation (section 4.5) *)

Section Aggregation.
Context {ext : Externals}.

(** The loops leave [buildAggregation] only with a nil plan. *)
Lemma aggArgsLoop_Return args p acc b r b' :
  aggArgsLoop args p acc b = Return r b' → r.1 = None.
Proof.
  revert p acc b. induction args as [|arg args IH]; intros p acc b; simpl; [done|].
  intros [Hrw | (rw & b1 & _ & Hrest)]%bind_Return.
  - unfold rewriteG in Hrw. by destruct (rewrite _ _ _ _ _).
  - destruct (rw_err rw); [|by eapply IH].
    apply bind_Return in Hrest as [? | (? & ? & _ & [= <- _])]; done.
Qed.

Lemma aggFuncLoop_Return aggID l i st b r b' :
  aggFuncLoop aggID l i st b = Return r b' → r.1 = None.
Proof.
  revert i st b. induction l as [|f rest IH]; intros i st b; simpl; [done|].
  intros [Hargs | (pa & b1 & _ & Hrest)]%bind_Return.
  - by eapply aggArgsLoop_Return.
  - destruct (findEqualFunc _ _ _); by eapply IH.
Qed.

(** The first loop appends columns owned by the aggregation only, at most
    one per aggregate function of the list. *)
Lemma aggFuncLoop_owner aggID l i st b st' b' :
  aggFuncLoop aggID l i st b = Next st' b' →
  ∃ newCols,
    expression.Columns (al_schema st') = expression.Columns (al_schema st) ++ newCols
    ∧ Forall (λ c, expression.FromID c = aggID) newCols
    ∧ (length newCols ≤ length l)%nat.
Proof.
  revert i st b. induction l as [|aggFunc rest IH]; intros i st b; simpl.
  - intros [= <- <-]. exists []. by rewrite app_nil_r.
  - intros (pa & b1 & _ & Hrest)%bind_Next.
    destruct (findEqualFunc _ _ _) as [j|].
    + apply IH in Hrest as (newCols & Hcols & Hown & Hlen).
      exists newCols. simpl in Hcols. split; [done|]. split; [done | lia].
    + apply IH in Hrest as (newCols & Hcols & Hown & Hlen).
      simpl in Hcols. rewrite <- app_assoc in Hcols.
      eexists. split; [exact Hcols|]. split; [|simpl; lia].
      constructor; [done | exact Hown].
Qed.

(** The second loop appends the columns it is given, as they are. *)
Lemma firstRowLoop_columns cols st :
  expression.Columns (al_schema (firstRowLoop cols st))
  = expression.Columns (al_schema st) ++ cols
  ∧ al_p (firstRowLoop cols st) = al_p st.
Proof.
  unfold firstRowLoop. revert st. induction cols as [|col cols IH]; intros st; simpl.
  - by rewrite app_nil_r.
  - destruct (IH (mkAggLoop (al_p st)
                    (al_AggFuncs st ++
                       [expression.NewAggFunction ast.AggFuncFirstRow
                          [Some (expression.EColumn (expression.Column_Clone col))] false])
                    (expression.Append (al_schema st) (expression.Column_Clone col))
                    (al_aggIndexMap st))) as [Hcols Hp].
    rewrite Hcols, Hp. simpl. by rewrite <- app_assoc.
Qed.

End Aggregation.

(** C2, as amended.  In the schema of an aggregation node built by
    [buildAggregation], the columns appended for the aggregate functions of
    the list, at most one for each, have the id of the aggregation as their
    owner.  The columns after them, appended for the FIRST_ROW aggregates,
    are the columns of the schema of the child of the node, in their order
    and as they are there, their owner included. *)
Theorem buildAggregation_owners (ext : Externals) p aggFuncList gbyItems b agg m b' :
  buildAggregation p aggFuncList gbyItems b = Ok (Some agg, m) b' →
  ∃ newCols child,
    children agg = [child]
    ∧ expression.Columns (schema agg) = newCols ++ expression.Columns (schema child)
    ∧ Forall (λ c, expression.FromID c = id agg) newCols
    ∧ (length newCols ≤ length aggFuncList)%nat.
Proof.
  unfold buildAggregation. intros [Hrun | Hrun]%fn_Ok.
  - apply bind_Next in Hrun as (agg0 & b0 & Hinit%call_Next & Hrun).
    rewrite init_Ok in Hinit. injection Hinit as <- <-.
    apply bind_Next in Hrun as (psch0 & b0 & Hsch0 & Hrun).
    destruct p as [p0|]; [|done]. injection Hsch0 as _ <-.
    apply bind_Next in Hrun as (st & b1 & Hloop & Hrun).
    apply aggFuncLoop_owner in Hloop as (newCols & Hcols & Hown & Hlen).
    apply bind_Next in Hrun as (psch & b2 & Hsch & Hrun).
    destruct (al_p st) as [child|] eqn:Hp; [|done].
    injection Hsch as <- <-. injection Hrun as <- <- <-.
    destruct (firstRowLoop_columns (expression.Columns (schema child)) st) as [Hfirst _].
    exists newCols, child. simpl in *.
    split; [done|]. split; [by rewrite Hfirst, Hcols | done].
  - exfalso. apply bind_Return in Hrun as [Hrun | (agg0 & b0 & _ & Hrun)]; [done|].
    apply bind_Return in Hrun as [Hrun | (psch0 & b00 & _ & Hrun)]; [by destruct p|].
    apply bind_Return in Hrun as [Hrun | (st & b1 & _ & Hrun)].
    + by apply aggFuncLoop_Return in Hrun.
    + apply bind_Return in Hrun as [Hrun | (psch & b2 & _ & Hrun)]; [|done].
      by destruct (al_p st).
Qed.

Lemma buildAggregation_owners_witness :
  ∃ newCols child,
    children count_a_agg = [child]
    ∧ expression.Columns (schema count_a_agg) = newCols ++ expression.Columns (schema child)
    ∧ Forall (λ c, expression.FromID c = id count_a_agg) newCols
    ∧ (length newCols ≤ 1)%nat.
Proof.
  assert (Hrun : @buildAggregation sample.externals (Some t_plan) [count_a] []
                   builder_after_t = count_a_built) by (vm_compute; reflexivity).
  exact (buildAggregation_owners sample.externals _ _ _ _ _ _ _ Hrun).
Defined.

(** C2, as stated, fails: in the aggregation built for [COUNT(a)] over the
    table [t], whose id is [Aggregation_2], the three columns of the
    FIRST_ROW aggregates are owned by [DataSource_1]. *)
Lemma buildAggregation_first_row_owner :
  @buildAggregation sample.externals (Some t_plan) [count_a] [] builder_after_t
  = count_a_built
  ∧ (∃ m b', count_a_built = Ok (Some count_a_agg, m) b')
  ∧ id count_a_agg = "Aggregation_2"
  ∧ expression.FromID <$> expression.Columns (schema count_a_agg)
    = ["Aggregation_2"; "DataSource_1"; "DataSource_1"; "DataSource_1"]
  ∧ ¬ Forall (λ c, expression.FromID c = id count_a_agg)
        (expression.Columns (schema count_a_agg)).
Proof.
  split; [vm_compute; reflexivity|]. split; [by do 2 eexists|].
  split; [reflexivity|]. split; [reflexivity|].
  intros H. apply Forall_cons in H as [_ H]. apply Forall_cons in H as [H _].
  discriminate H.
Qed.

(** ** The resolver of HAVING and ORDER BY (section 4.4) *)

Lemma ExprNode_ind' (P : ast.ExprNode → Prop) :
  (∀ v, P (ast.ColumnNameExpr v)) →
  (∀ F Args D, Forall P Args → P (ast.AggregateFuncExpr F Args D)) →
  (∀ Op L R, P L → P R → P (ast.BinaryOperationExpr Op L R)) →
  (∀ e, P e → P (ast.ParenthesesExpr e)) →
  (∀ v, P (ast.ValueExpr v)) →
  (∀ N, P (ast.PositionExpr N)) →
  P ast.ParamMarkerExpr →
  (∀ F Args, Forall P Args → P (ast.FuncCallExpr F Args)) →
  (∀ t, P (ast.SubqueryExpr t)) →
  (∀ t, P (ast.ExistsSubqueryExpr t)) →
  (∀ L R, P L → P R → P (ast.CompareSubqueryExpr L R)) →
  ∀ e, P e.
Proof.
  intros Hc Ha Hb Hp Hv Hn Hm Hf Hs He Hq. fix IH 1. intros [v|F Args D|Op L R|e|v|N| |F Args|t|t|L R].
  - apply Hc.
  - apply Ha. induction Args as [|x l IHl]; constructor; [apply IH | exact IHl].
  - apply Hb; apply IH.
  - apply Hp, IH.
  - apply Hv.
  - apply Hn.
  - apply Hm.
  - apply Hf. induction Args as [|x l IHl]; constructor; [apply IH | exact IHl].
  - apply Hs.
  - apply He.
  - apply Hq; apply IH.
Qed.

Section WalkUnfold.
Context {S : Type} (v : Visitor S).

Lemma walkList_inner l acc s :
  (fix walkList (l done : list ast.ExprNode) (s : S) {struct l}
       : Try ((list ast.ExprNode * bool) * S) :=
     match l with
     | [] => Done ((done, true), s)
     | x :: l' =>
         try_bind (sample.walk v x s) (λ r,
           let '((n, ok), s) := r in
           match n, ok with
           | Some (ast.NExpr x'), true => walkList l' (done ++ [x']) s
           | _, _ => Done ((done ++ x :: l', false), s)
           end)
     end) l acc s
  = walkList v l acc s.
Proof.
  revert acc s. induction l as [|x l IH]; intros acc s; [done|]. simpl.
  destruct (sample.walk v x s) as [[[n ok] s1]|]; [|done]. simpl.
  destruct n as [[x'|]|]; try done. destruct ok; [apply IH | done].
Qed.

(** One step of the traversal. *)
Lemma walk_unfold e s :
  sample.walk v e s
  = try_bind (v_Enter v (ast.NExpr e) s) (λ r,
      let '((n, skipChildren), s) := r in
      if skipChildren then v_Leave v n s
      else
        match e with
        | ast.ColumnNameExpr c =>
            try_bind (sample.walkName v c s) (λ r,
              let '((_, ok), s) := r in
              if ok then v_Leave v (ast.NExpr e) s
              else Done ((Some (ast.NExpr e), false), s))
        | ast.AggregateFuncExpr f args d =>
            try_bind (walkList v args [] s) (λ r,
              let '((args, ok), s) := r in
              let e := ast.AggregateFuncExpr f args d in
              if ok then v_Leave v (ast.NExpr e) s
              else Done ((Some (ast.NExpr e), false), s))
        | ast.FuncCallExpr f args =>
            try_bind (walkList v args [] s) (λ r,
              let '((args, ok), s) := r in
              let e := ast.FuncCallExpr f args in
              if ok then v_Leave v (ast.NExpr e) s
              else Done ((Some (ast.NExpr e), false), s))
        | ast.BinaryOperationExpr o l r =>
            try_bind (walkList v [l; r] [] s) (λ r',
              let '((args, ok), s) := r' in
              let e := match args with
                       | [l; r] => ast.BinaryOperationExpr o l r
                       | _ => e
                       end in
              if ok then v_Leave v (ast.NExpr e) s
              else Done ((Some (ast.NExpr e), false), s))
        | ast.ParenthesesExpr x =>
            try_bind (walkList v [x] [] s) (λ r',
              let '((args, ok), s) := r' in
              let e := match args with
                       | [x] => ast.ParenthesesExpr x
                       | _ => e
                       end in
              if ok then v_Leave v (ast.NExpr e) s
              else Done ((Some (ast.NExpr e), false), s))
        | ast.CompareSubqueryExpr l r =>
            try_bind (walkList v [l; r] [] s) (λ r',
              let '((args, ok), s) := r' in
              let e := match args with
                       | [l; r] => ast.CompareSubqueryExpr l r
                       | _ => e
                       end in
              if ok then v_Leave v (ast.NExpr e) s
              else Done ((Some (ast.NExpr e), false), s))
        | _ => v_Leave v (ast.NExpr e) s
        end).
Proof.
  destruct e; simpl;
    destruct (v_Enter v _ s) as [[[n skip] s1]|]; try done; simpl;
    destruct skip; try done; try (by rewrite walkList_inner).
Qed.

End WalkUnfold.

Section Recorded.
Context {ext : Externals}.

Lemma columnsOf_inner pl l :
  (fix columnsOf (pl : place) (l : list ast.ExprNode) {struct l} :=
     match l with
     | [] => []
     | x :: l' => columnsAt pl x ++ columnsOf pl l'
     end) pl l
  = concat (columnsAt pl <$> l).
Proof. induction l as [|x l IH]; [done|]. csimpl. by rewrite IH. Qed.

(** What a walk leaves as it is: the phase and the GROUP BY items, and
    the two flags at a column. *)
Lemma hr_resolveFromSchema_flags a v sch r a' :
  hr_resolveFromSchema a v sch = (r, a') →
  inAggFunc a' = inAggFunc a ∧ inExpr a' = inExpr a
  ∧ orderBy a' = orderBy a ∧ gbyItems a' = gbyItems a.
Proof.
  unfold hr_resolveFromSchema. destruct (FindColumn sch v) as [[col|] [e|]];
    try (by intros [= _ <-]).
  destruct (findMatchingField _ _ _); by intros [= _ <-].
Qed.

Lemma resolveIndex_flags a v i a' :
  resolveIndex a v = Done (i, a') →
  inAggFunc a' = inAggFunc a ∧ inExpr a' = inExpr a
  ∧ orderBy a' = orderBy a ∧ gbyItems a' = gbyItems a.
Proof.
  unfold resolveIndex. destruct (resolveFieldsFirst a v).
  - destruct (resolveFromSelectFields v (selectFields a) false) as [index e].
    destruct e as [e|]; [by intros [= _ <-]|].
    case_bool_decide; [|by intros [= _ <-]]. simpl.
    destruct (orderBy a) eqn:Hob.
    + unfold r_schema. simpl. destruct (r_p a); [|done]. simpl.
      destruct (hr_resolveFromSchema _ _ _) as [[i' e'] a1] eqn:Hsch.
      apply hr_resolveFromSchema_flags in Hsch as (H1 & H2 & H3 & H4).
      intros [= _ <-]. simpl in *. by rewrite H1, H2, H3, H4.
    + destruct (resolveFromSelectFields _ _ true). by intros [= _ <-].
  - unfold r_schema. destruct (r_p a); [|done]. simpl.
    destruct (hr_resolveFromSchema _ _ _) as [[i' e'] a1] eqn:Hsch.
    apply hr_resolveFromSchema_flags in Hsch as (H1 & H2 & H3 & H4).
    case_bool_decide.
    + destruct (resolveFromSelectFields _ _ _). intros [= _ <-]. simpl. done.
    + by intros [= _ <-].
Qed.

Lemma hr_Leave_flags n a r a' :
  hr_Leave n a = Done (r, a') →
  inAggFunc a' = match n with
                 | ast.NExpr (ast.AggregateFuncExpr _ _ _) => false
                 | _ => inAggFunc a
                 end
  ∧ inExpr a' = inExpr a ∧ orderBy a' = orderBy a ∧ gbyItems a' = gbyItems a.
Proof.
  destruct n as [e|c]; [|by intros [= _ <-]].
  destruct e; try (by intros [= _ <-]).
  simpl. unfold hr_LeaveColumn.
  destruct (resolveIndex a Name) as [[i a1]|] eqn:Hidx; [|done]. simpl.
  apply resolveIndex_flags in Hidx as (H1 & H2 & H3 & H4).
  destruct (r_err a1); [by intros [= _ <-]|].
  case_bool_decide.
  - destruct (inOuterSchemas a1 Name); by intros [= _ <-].
  - destruct (inAggFunc a1) eqn:Hagg.
    + destruct (_ !! _); [|done]. intros [= _ <-]. repeat split; congruence.
    + intros [= _ <-]. simpl. repeat split; congruence.
Qed.

End Recorded.

Section RecordedWalk.
Context {ext : Externals}.

Lemma recording_Enter n a (l : list (ast.ColumnName * bool)) :
  v_Enter recording n (a, l)
  = match hr_Enter n a with
    | Done (r, a1) => Done (r, (a1, l))
    | Fail k => Fail k
    end.
Proof. simpl. by destruct (hr_Enter n a) as [[r a1]|]. Qed.

Lemma recording_Leave n a (l : list (ast.ColumnName * bool)) :
  v_Leave recording n (a, l)
  = match hr_Leave n a with
    | Done (r, a1) =>
        Done (r, (a1, match n with
                      | ast.NExpr (ast.ColumnNameExpr v) => l ++ [(v, resolveFieldsFirst a v)]
                      | _ => l
                      end))
    | Fail k => Fail k
    end.
Proof. simpl. by destruct (hr_Leave n a) as [[r a1]|]. Qed.

Lemma recording_walkName c a (l : list (ast.ColumnName * bool)) :
  sample.walkName recording c (a, l) = Done ((Some (ast.NColumnName c), true), (a, l)).
Proof. reflexivity. Qed.

Local Opaque recording.

(** The variable [resolveFieldsFirst], from the flags. *)
Lemma resolveFieldsFirst_flags a v :
  resolveFieldsFirst a v
  = negb (inAggFunc a) && negb (orderBy a && inExpr a)
    && negb (negb (orderBy a) && namesGbyItem (gbyItems a) v).
Proof.
  unfold resolveFieldsFirst.
  destruct (inAggFunc a), (orderBy a), (inExpr a), (namesGbyItem (gbyItems a) v); done.
Qed.

Lemma resolveFieldsFirst_at pl a v :
  flagsAt pl a → resolveFieldsFirst a v = fieldsFirstAt (orderBy a) (gbyItems a) (v, pl).
Proof.
  intros [Hagg Hexpr]. rewrite resolveFieldsFirst_flags. unfold fieldsFirstAt. simpl.
  rewrite Hagg. destruct (insideAgg pl); [done|]. by rewrite Hexpr.
Qed.

Lemma walkList_recorded pl args :
  Forall (λ e, ∀ a l r ok a' l',
            sample.walk recording e (a, l) = Done ((r, ok), (a', l')) →
            flagsAt pl a → nestedApart pl e = true →
            walkedAt pl (columnsAt pl e) a l ok a' l') args →
  ∀ acc a l res ok a' l',
    walkList recording args acc (a, l) = Done ((res, ok), (a', l')) →
    inAggFunc a = insideAgg pl →
    (insideAgg pl = false → insideExpr pl = true ∧ inExpr a = true) →
    forallb (nestedApart pl) args = true →
    walkedAt pl (concat (columnsAt pl <$> args)) a l ok a' l'.
Proof.
  induction 1 as [|x rest Hx _ IH]; intros acc a l res ok a' l' Hrun Hagg Hexpr Hnest.
  - injection Hrun as <- <- <- <-. split; [done|]. split; [done|]. split; [done|].
    exists []. rewrite app_nil_r. by repeat split.
  - simpl in Hrun, Hnest. apply andb_prop in Hnest as [Hnx Hnrest].
    destruct (sample.walk recording x (a, l)) as [[[n ok1] [a1 l1]]|] eqn:Hwalk; [|done].
    simpl in Hrun.
    assert (Hflags : flagsAt pl a).
    { split; [done|]. intros Hpl. destruct (Hexpr Hpl) as [-> ->]. done. }
    destruct (Hx _ _ _ _ _ _ Hwalk Hflags Hnx)
      as (Hob & Hgby & Hmono & part1 & -> & Hpre1 & Hok1).
    csimpl.
    assert (Hstop : ok = false → a' = a1 → l' = l ++ part1 →
                    walkedAt pl (columnsAt pl x ++ concat (columnsAt pl <$> rest))
                      a l ok a' l').
    { intros -> -> ->. split; [done|]. split; [done|]. split; [done|].
      exists part1. split; [done|]. unfold decisionsFor. rewrite fmap_app.
      split; [by apply prefix_app_r|]. intros [=]. }
    destruct n as [[x'|c]|]; [destruct ok1| |];
      try (injection Hrun as <- <- <- <-; by apply Hstop).
    destruct (Hok1 eq_refl) as [-> Hagg1].
    apply IH in Hrun as (Hob2 & Hgby2 & Hmono2 & part2 & -> & Hpre2 & Hok2); [| | |done].
    + split; [congruence|]. split; [congruence|]. split; [tauto|].
      rewrite Hob, Hgby in *.
      eexists (_ ++ part2). split; [by rewrite <- app_assoc|].
      unfold decisionsFor in *. rewrite fmap_app.
      split; [by apply prefix_app|]. intros Hok. destruct (Hok2 Hok) as [-> Hagg2]. done.
    + done.
    + intros Hpl. destruct (Hexpr Hpl) as [Hcmp He]. split; [done | by apply Hmono].
Qed.

(** The children of a node that is not an aggregate function, walked
    after [Enter] has set [inExpr]; the node is left as it is entered. *)
Lemma operands_recorded pl e args a l res okL a2 l2 :
  Forall (λ e, ∀ pl a l r ok a' l',
            sample.walk recording e (a, l) = Done ((r, ok), (a', l')) →
            flagsAt pl a → nestedApart pl e = true →
            walkedAt pl (columnsAt pl e) a l ok a' l') args →
  walkList recording args [] (set_flags (inAggFunc a) true a, l)
  = Done ((res, okL), (a2, l2)) →
  below pl e = mkPlace (insideAgg pl) true →
  flagsAt pl a → forallb (nestedApart (below pl e)) args = true →
  walkedAt pl (concat (columnsAt (below pl e) <$> args)) a l okL a2 l2.
Proof.
  intros Hargs Hlist Hbelow [Hagg Hexpr] Hnest.
  eapply (walkList_recorded (below pl e)) in Hlist
    as (Hob & Hgby & Hmono & part & -> & Hpre & Hok); [| |by rewrite Hbelow|by rewrite Hbelow|done].
  - simpl in *. split; [done|]. split; [done|]. split; [intros _; by apply Hmono|].
    exists part. split; [done|]. split; [done|].
    intros Hk. destruct (Hok Hk) as [-> Hagg2]. split; [done|]. by rewrite Hagg2, Hbelow.
  - eapply Forall_impl; [exact Hargs|]. intros x Hx. apply Hx.
Qed.

Lemma nestedApart_operands pl e args :
  below pl e = mkPlace (insideAgg pl) true →
  (if insideAgg pl then forallb aggregateFree args else forallb aggregatesApart args) = true →
  forallb (nestedApart (below pl e)) args = true.
Proof.
  intros -> H. unfold nestedApart. simpl. by destruct (insideAgg pl).
Qed.

(** A node that is neither a column reference nor an aggregate function
    is left as its children have left the resolver and the record. *)
Lemma compound_left pl cols a l okL a2 l2 x y r ok a' l' :
  walkedAt pl cols a l okL a2 l2 →
  (if okL then v_Leave recording (ast.NExpr x) (a2, l2)
   else Done ((Some (ast.NExpr y), false), (a2, l2))) = Done ((r, ok), (a', l')) →
  hr_Leave (ast.NExpr x) a2 = Done ((Some (ast.NExpr x), true), a2) →
  (∀ v, x ≠ ast.ColumnNameExpr v) →
  walkedAt pl cols a l ok a' l'.
Proof.
  intros Hw Hrun Hleave Hx. destruct okL.
  - rewrite recording_Leave, Hleave in Hrun.
    destruct x; try (by destruct (Hx Name)); by injection Hrun as <- <- <- <-.
  - by injection Hrun as <- <- <- <-.
Qed.

Local Arguments walkList : simpl never.

(** A walk of an expression, started where the flags say it is, decides at
    each column reference as the claim says for its place. *)
Lemma walk_recorded e :
  ∀ pl a l r ok a' l',
    sample.walk recording e (a, l) = Done ((r, ok), (a', l')) →
    flagsAt pl a → nestedApart pl e = true →
    walkedAt pl (columnsAt pl e) a l ok a' l'.
Proof.
  assert (Hleaf : ∀ pl a1 l r ok a' l' a x,
            hr_Leave (ast.NExpr x) a1 = Done ((Some (ast.NExpr x), true), a1) →
            v_Leave recording (ast.NExpr x) (a1, l) = Done ((r, ok), (a', l')) →
            (∀ v, x ≠ ast.ColumnNameExpr v) →
            orderBy a1 = orderBy a → gbyItems a1 = gbyItems a →
            (inExpr a = true → inExpr a1 = true) →
            inAggFunc a1 = insideAgg pl →
            walkedAt pl [] a l ok a' l').
  { intros pl a1 l r ok a' l' a x Hleave Hrun Hx Hob Hgby Hmono Hagg.
    rewrite recording_Leave, Hleave in Hrun.
    destruct x; try (by destruct (Hx Name)); injection Hrun as <- <- <- <-;
      (split; [done|]; split; [done|]; split; [done|];
       exists []; rewrite app_nil_r; by repeat split). }
  induction e as [v|F Args D IH|Op L R IHL IHR|x IH|v|N| |F Args IH|t|t|L R IHL IHR]
    using ExprNode_ind'; intros pl a l r ok a' l' Hrun Hflags Hnest;
    rewrite walk_unfold, recording_Enter in Hrun; simpl in Hrun.
  - (* a column reference *)
    rewrite recording_walkName in Hrun. simpl in Hrun.
    rewrite recording_Leave in Hrun. simpl in Hrun.
    destruct (hr_LeaveColumn _ _ _) as [[[r1 ok1] a1]|] eqn:Hleave; [|done].
    injection Hrun as <- <- <- <-.
    apply (hr_Leave_flags (ast.NExpr (ast.ColumnNameExpr v))) in Hleave
      as (Hagg & Hexpr & Hob & Hgby).
    split; [done|]. split; [done|]. split; [congruence|].
    exists [(v, resolveFieldsFirst a v)]. split; [done|].
    rewrite (resolveFieldsFirst_at pl) by done.
    split; [done|]. intros _. split; [done|]. destruct Hflags. congruence.
  - (* an aggregate function *)
    destruct (walkList recording Args [] _) as [[[res okL] [a2 l2]]|] eqn:Hlist; [|done].
    simpl in Hrun. simpl columnsAt. rewrite columnsOf_inner.
    destruct Hflags as [Hagg Hexpr]. unfold nestedApart in Hnest.
    destruct (insideAgg pl) eqn:Hpl; [done|]. simpl in Hnest.
    eapply (walkList_recorded (mkPlace true (insideExpr pl))) in Hlist
      as (Hob & Hgby & Hmono & part & -> & Hpre & Hok); [| |done|done|done].
    2:{ eapply Forall_impl; [exact IH|]. intros x Hx. apply Hx. }
    simpl in *.
    destruct okL.
    + rewrite recording_Leave in Hrun. simpl in Hrun. injection Hrun as <- <- <- <-.
      destruct (Hok eq_refl) as [-> Hagg2]. simpl.
      split; [done|]. split; [done|]. split; [done|].
      eexists. split; [done|]. split; [done|]. by rewrite Hpl.
    + injection Hrun as <- <- <- <-.
      split; [done|]. split; [done|]. split; [done|].
      exists part. split; [done|]. split; [done|]. intros [=].
  - (* a binary operation *)
    destruct (walkList recording [L; R] [] _) as [[[res okL] [a2 l2]]|] eqn:Hlist; [|done].
    simpl in Hrun. simpl columnsAt.
    replace (columnsAt (mkPlace (insideAgg pl) true) L
             ++ columnsAt (mkPlace (insideAgg pl) true) R)
      with (concat (columnsAt (below pl (ast.BinaryOperationExpr Op L R)) <$> [L; R]))
      by (simpl; by rewrite app_nil_r).
    apply (operands_recorded pl (ast.BinaryOperationExpr Op L R)) in Hlist
      as Hw; [| constructor; [exact IHL|]; constructor; [exact IHR|]; constructor
              | done | done |].
    2:{ apply nestedApart_operands; [done|]. unfold nestedApart in Hnest. simpl in *.
        destruct (insideAgg pl); by rewrite andb_true_r. }
    eapply compound_left; [exact Hw|exact Hrun| |];
      by destruct res as [|? [|? [|? ?]]].
  - (* parentheses *)
    destruct (walkList recording [x] [] _) as [[[res okL] [a2 l2]]|] eqn:Hlist; [|done].
    simpl in Hrun. simpl columnsAt.
    replace (columnsAt (mkPlace (insideAgg pl) true) x)
      with (concat (columnsAt (below pl (ast.ParenthesesExpr x)) <$> [x]))
      by (simpl; by rewrite app_nil_r).
    apply (operands_recorded pl (ast.ParenthesesExpr x)) in Hlist
      as Hw; [| constructor; [exact IH|]; constructor | done | done |].
    2:{ apply nestedApart_operands; [done|]. unfold nestedApart in Hnest. simpl in *.
        destruct (insideAgg pl); by rewrite andb_true_r. }
    eapply compound_left; [exact Hw|exact Hrun| |];
      by destruct res as [|? [|? ?]].
  - (* a value *)
    eapply Hleaf; [|exact Hrun| | | | |]; try done. by destruct Hflags.
  - (* a position *)
    eapply Hleaf; [|exact Hrun| | | | |]; try done. by destruct Hflags.
  - (* a parameter marker *)
    eapply Hleaf; [|exact Hrun| | | | |]; try done. by destruct Hflags.
  - (* a function call *)
    destruct (walkList recording Args [] _) as [[[res okL] [a2 l2]]|] eqn:Hlist; [|done].
    simpl in Hrun. simpl columnsAt. rewrite columnsOf_inner.
    apply (operands_recorded pl (ast.FuncCallExpr F Args)) in Hlist
      as Hw; [| exact IH | done | done |].
    2:{ apply nestedApart_operands; [done|]. unfold nestedApart in Hnest. simpl in *.
        by destruct (insideAgg pl). }
    eapply compound_left; [exact Hw|exact Hrun| |]; done.
  - (* a sub-query *)
    eapply Hleaf; [|exact Hrun| | | | |]; try done. by destruct Hflags.
  - (* EXISTS *)
    eapply Hleaf; [|exact Hrun| | | | |]; try done. by destruct Hflags.
  - (* a comparison with a sub-query *)
    destruct (walkList recording [L; R] [] _) as [[[res okL] [a2 l2]]|] eqn:Hlist; [|done].
    simpl in Hrun. simpl columnsAt.
    replace (columnsAt (mkPlace (insideAgg pl) true) L
             ++ columnsAt (mkPlace (insideAgg pl) true) R)
      with (concat (columnsAt (below pl (ast.CompareSubqueryExpr L R)) <$> [L; R]))
      by (simpl; by rewrite app_nil_r).
    apply (operands_recorded pl (ast.CompareSubqueryExpr L R)) in Hlist
      as Hw; [| constructor; [exact IHL|]; constructor; [exact IHR|]; constructor
              | done | done |].
    2:{ apply nestedApart_operands; [done|]. unfold nestedApart in Hnest. simpl in *.
        destruct (insideAgg pl); by rewrite andb_true_r. }
    eapply compound_left; [exact Hw|exact Hrun| |];
      by destruct res as [|? [|? [|? ?]]].
Qed.

End RecordedWalk.

Section Unrecorded.
Context {ext : Externals}.

Lemma recording_unrecorded n a l :
  unrecorded (v_Leave recording n (a, l)) = hr_Leave n a.
Proof. simpl. by destruct (hr_Leave n a) as [[r a1]|]. Qed.

Lemma recording_entered n a (l : list (ast.ColumnName * bool)) :
  v_Enter recording n (a, l)
  = try_bind (hr_Enter n a) (λ r, Done (r.1, (r.2, l))).
Proof. done. Qed.

Local Opaque recording.
Local Arguments hr_Leave : simpl never.

Lemma walkList_unrecorded args :
  Forall (λ e, ∀ a l, unrecorded (sample.walk recording e (a, l))
                      = sample.walk havingAndOrderbyVisitor e a) args →
  ∀ acc a l, unrecorded (walkList recording args acc (a, l))
             = walkList havingAndOrderbyVisitor args acc a.
Proof.
  induction 1 as [|x rest Hx _ IH]; intros acc a l; [done|]. simpl.
  rewrite <- (Hx a l).
  destruct (sample.walk recording x (a, l)) as [[[n ok] [a1 l1]]|]; [|done]. simpl.
  destruct n as [[x'|c]|]; try done. destruct ok; [apply IH | done].
Qed.

(** The recording visitor walks as the visitor of the source does. *)
Lemma walk_unrecorded e :
  ∀ a l, unrecorded (sample.walk recording e (a, l))
         = sample.walk havingAndOrderbyVisitor e a.
Proof.
  assert (Hlist : ∀ args a l (f : list ast.ExprNode → ast.ExprNode),
            unrecorded (walkList recording args [] (a, l))
            = walkList havingAndOrderbyVisitor args [] a →
            unrecorded
              (try_bind (walkList recording args [] (a, l)) (λ r,
                 let '((args, ok), s) := r in
                 if ok then v_Leave recording (ast.NExpr (f args)) s
                 else Done ((Some (ast.NExpr (f args)), false), s)))
            = try_bind (walkList havingAndOrderbyVisitor args [] a) (λ r,
                let '((args, ok), s) := r in
                if ok then hr_Leave (ast.NExpr (f args)) s
                else Done ((Some (ast.NExpr (f args)), false), s))).
  { intros args a l f <-.
    destruct (walkList recording args [] (a, l)) as [[[res ok] [a1 l1]]|]; [|done].
    simpl. destruct ok; [|done]. apply recording_unrecorded. }
  induction e as [v|F Args D IH|Op L R IHL IHR|x IH|v|N| |F Args IH|t|t|L R IHL IHR]
    using ExprNode_ind'; intros a l; rewrite !walk_unfold, recording_entered;
    try (simpl; by apply recording_unrecorded).
  - simpl. apply (Hlist Args _ l (λ args, ast.AggregateFuncExpr F args D)).
    by apply walkList_unrecorded.
  - simpl.
    apply (Hlist [L; R] _ l (λ args, match args with
                                     | [l; r] => ast.BinaryOperationExpr Op l r
                                     | _ => ast.BinaryOperationExpr Op L R
                                     end)).
    apply walkList_unrecorded. by repeat (constructor; [done|]).
  - simpl.
    apply (Hlist [x] _ l (λ args, match args with
                                  | [x'] => ast.ParenthesesExpr x'
                                  | _ => ast.ParenthesesExpr x
                                  end)).
    apply walkList_unrecorded. by repeat (constructor; [done|]).
  - simpl. apply (Hlist Args _ l (λ args, ast.FuncCallExpr F args)).
    by apply walkList_unrecorded.
  - simpl.
    apply (Hlist [L; R] _ l (λ args, match args with
                                     | [l; r] => ast.CompareSubqueryExpr l r
                                     | _ => ast.CompareSubqueryExpr L R
                                     end)).
    apply walkList_unrecorded. by repeat (constructor; [done|]).
Qed.

End Unrecorded.

Section Started.
Context {ext : Externals}.

Lemma set_colMapper_same b : set_colMapper (colMapper b) b = b.
Proof. by destruct b. Qed.

(** The loop over the ORDER BY items, for items that are walked in turn. *)
Lemma orderByLoop_walked c he items extractor done ok extractor' :
  itemsWalked items extractor done ok extractor' →
  ∀ done0 b,
    colMapper b = r_colMapper extractor →
    orderByLoop c he items done0 extractor b
    = if ok then Next (done0 ++ done, extractor') (set_colMapper (r_colMapper extractor') b)
      else Return (mkHavingOrderResult [] [] (ast.Fields c) he (Some (done0 ++ done)))
             (set_err (r_err extractor') (set_colMapper (r_colMapper extractor') b)).
Proof.
  induction 1 as [ex|item rest ex e ex1 done ok ex' Hwalk _ IH|item rest ex n ex1 Hwalk];
    intros done0 b Hcol.
  - simpl. unfold ret. by rewrite app_nil_r, <- Hcol, set_colMapper_same.
  - simpl. unfold bind at 1. rewrite Hwalk. simpl.
    unfold bind at 1. simpl. unfold bind at 1. simpl.
    rewrite IH by done. rewrite <- app_assoc. simpl. by destruct ok.
  - simpl. unfold bind at 1. rewrite Hwalk. simpl. done.
Qed.

(** [resolveHavingAndOrderBy] starts the walk of the HAVING expression at
    [havingStart] and the loop over the ORDER BY items at [orderByStart]. *)
Lemma resolveHavingAndOrderBy_stopped c gby p b h n extractor :
  ast.Having c = Some h →
  Accept _ havingAndOrderbyVisitor h (havingStart c gby p b) = Done ((n, false), extractor) →
  resolveHavingAndOrderBy c gby p b
  = Ok (mkHavingOrderResult [] [] (ast.Fields c) (ast.Having c) (ast.OrderBy c))
      (set_err (r_err extractor) (set_colMapper (r_colMapper extractor) b)).
Proof.
  intros Hh Hwalk. unfold resolveHavingAndOrderBy, fn. unfold bind at 1. simpl.
  rewrite Hh. unfold bind at 1. unfold bind at 1. unfold havingStart in Hwalk.
  rewrite Hwalk. simpl. done.
Qed.

Lemma resolveHavingAndOrderBy_walked c gby p b he extractor :
  havingWalked c gby p b he extractor →
  match ast.OrderBy c with
  | None =>
      resolveHavingAndOrderBy c gby p b
      = Ok (mkHavingOrderResult (aggMapper extractor) [] (selectFields extractor) he None)
          (set_colMapper (r_colMapper extractor) b)
  | Some items =>
      ∀ done ok extractor',
        itemsWalked items (orderByStart extractor) done ok extractor' →
        resolveHavingAndOrderBy c gby p b
        = if ok
          then Ok (mkHavingOrderResult (aggMapper extractor) (aggMapper extractor')
                     (selectFields extractor') he (Some done))
                 (set_colMapper (r_colMapper extractor') b)
          else Ok (mkHavingOrderResult [] [] (ast.Fields c) he (Some done))
                 (set_err (r_err extractor')
                    (set_colMapper (r_colMapper extractor') b))
  end.
Proof.
  intros Hhaving.
  assert (Hloop : ∀ items done ok extractor' b1,
            colMapper b1 = r_colMapper extractor →
            itemsWalked items (orderByStart extractor) done ok extractor' →
            orderByLoop c he items [] (orderByStart extractor) b1
            = if ok then Next (done, extractor') (set_colMapper (r_colMapper extractor') b1)
              else Return (mkHavingOrderResult [] [] (ast.Fields c) he (Some done))
                     (set_err (r_err extractor')
                        (set_colMapper (r_colMapper extractor') b1))).
  { intros items done ok extractor' b1 Hcol Hw.
    by rewrite (orderByLoop_walked c he _ _ _ _ _ Hw [] b1). }
  unfold resolveHavingAndOrderBy, fn, bind, get.
  destruct Hhaving as [Hh|h e ex Hh Hwalk]; rewrite Hh.
  - fold (havingStart c gby p b). simpl.
    fold (orderByStart (havingStart c gby p b)).
    destruct (ast.OrderBy c) as [items|].
    + intros done ok ex' Hw.
      rewrite (Hloop _ _ _ _ b eq_refl Hw). by destruct ok.
    + simpl. by rewrite set_colMapper_same.
  - fold (havingStart c gby p b). rewrite Hwalk. simpl.
    fold (orderByStart ex).
    destruct (ast.OrderBy c) as [items|].
    + intros done ok ex' Hw.
      rewrite (Hloop _ _ _ _ (set_colMapper (r_colMapper ex) b) eq_refl Hw). by destruct ok.
    + done.
Qed.

End Started.

Section WalkFlags.
Context {ext : Externals}.

Lemma walkList_flags args :
  Forall (λ e, ∀ a r ok a',
            sample.walk havingAndOrderbyVisitor e a = Done ((r, ok), a') →
            flagsWalked (aggregateFree e) (entersExpr e) a ok a') args →
  ∀ acc a res ok a',
    walkList havingAndOrderbyVisitor args acc a = Done ((res, ok), a') →
    flagsWalked (forallb aggregateFree args) (existsb entersExpr args) a ok a'.
Proof.
  induction 1 as [|x rest Hx _ IH]; intros acc a res ok a' Hrun.
  - injection Hrun as <- <- <-. split; [done|]. split; [done|]. split; [done|].
    intros _. simpl. by rewrite andb_true_r, orb_false_r.
  - simpl in Hrun.
    destruct (sample.walk havingAndOrderbyVisitor x a) as [[[n ok1] a1]|] eqn:Hwalk; [|done].
    simpl in Hrun. destruct (Hx _ _ _ _ Hwalk) as (Hob & Hgby & Hmono & Hok1).
    assert (Hstop : ok = false → a' = a1 →
                    flagsWalked (forallb aggregateFree (x :: rest))
                      (existsb entersExpr (x :: rest)) a ok a').
    { intros -> ->. split; [done|]. split; [done|]. split; [done|]. intros [=]. }
    destruct n as [[x'|c]|]; [destruct ok1| |];
      try (injection Hrun as <- <- <-; by apply Hstop).
    destruct (Hok1 eq_refl) as [Hagg1 Hexpr1].
    apply IH in Hrun as (Hob2 & Hgby2 & Hmono2 & Hok2).
    split; [congruence|]. split; [congruence|]. split; [tauto|].
    intros Hk. destruct (Hok2 Hk) as [-> ->]. rewrite Hagg1, Hexpr1. simpl.
    by rewrite andb_assoc, orb_assoc.
Qed.

Local Arguments walkList : simpl never.
Local Arguments hr_Leave : simpl never.

Lemma walk_flags e :
  ∀ a r ok a',
    sample.walk havingAndOrderbyVisitor e a = Done ((r, ok), a') →
    flagsWalked (aggregateFree e) (entersExpr e) a ok a'.
Proof.
  assert (Hset : ∀ a args okL a2 x y r ok a',
            flagsWalked (forallb aggregateFree args) (existsb entersExpr args)
              (set_flags (inAggFunc a) true a) okL a2 →
            (if okL then hr_Leave (ast.NExpr x) a2
             else Done ((Some (ast.NExpr y), false), a2)) = Done ((r, ok), a') →
            hr_Leave (ast.NExpr x) a2 = Done ((Some (ast.NExpr x), true), a2) →
            flagsWalked (forallb aggregateFree args) true a ok a').
  { intros a args okL a2 x y r ok a' (Hob & Hgby & Hmono & Hok) Hrun Hleave.
    assert (a' = a2 ∧ ok = okL) as [-> ->].
    { destruct okL; [rewrite Hleave in Hrun|]; by injection Hrun as <- <- <-. }
    simpl in *. split; [done|]. split; [done|]. split; [auto|].
    intros Hk. destruct (Hok Hk) as [-> ->]. by rewrite orb_true_r. }
  assert (Hleaf : ∀ a x r ok a',
            hr_Leave (ast.NExpr x) (set_flags (inAggFunc a) true a) = Done ((r, ok), a') →
            (∀ a1, hr_Leave (ast.NExpr x) a1 = Done ((Some (ast.NExpr x), true), a1)) →
            flagsWalked true true a ok a').
  { intros a x r ok a' Hrun Hleave. rewrite Hleave in Hrun. injection Hrun as <- <- <-.
    split; [done|]. split; [done|]. split; [done|].
    intros _. simpl. by rewrite andb_true_r, orb_true_r. }
  induction e as [v|F Args D IH|Op L R IHL IHR|x IH|v|N| |F Args IH|t|t|L R IHL IHR]
    using ExprNode_ind'; intros a r ok a' Hrun;
    rewrite walk_unfold in Hrun; simpl in Hrun.
  - change (hr_Leave (ast.NColumnName v) a)
      with (Done ((Some (ast.NColumnName v), true), a)
            : Try ((option ast.Node * bool) * havingAndOrderbyExprResolver)) in Hrun.
    simpl in Hrun.
    apply (hr_Leave_flags (ast.NExpr (ast.ColumnNameExpr v))) in Hrun
      as (Hagg & Hexpr & Hob & Hgby).
    split; [done|]. split; [done|]. split; [congruence|]. intros _.
    by rewrite andb_true_r, orb_false_r.
  - destruct (walkList havingAndOrderbyVisitor Args [] _) as [[[res okL] a2]|] eqn:Hlist;
      [|done].
    simpl in Hrun. apply (walkList_flags _ IH) in Hlist as (Hob & Hgby & Hmono & Hok).
    simpl in *. destruct okL.
    + apply hr_Leave_flags in Hrun as (Hagg' & Hexpr' & Hob' & Hgby').
      destruct (Hok eq_refl) as [_ Hexpr].
      split; [congruence|]. split; [congruence|]. split; [rewrite Hexpr'; tauto|].
      intros _. rewrite andb_false_r. split; congruence.
    + injection Hrun as <- <- <-. split; [done|]. split; [done|]. split; [done|].
      intros [=].
  - destruct (walkList havingAndOrderbyVisitor [L; R] [] _) as [[[res okL] a2]|] eqn:Hlist;
      [|done].
    simpl in Hrun.
    apply (walkList_flags [L; R]) in Hlist; [|by repeat (constructor; [done|])].
    eapply Hset in Hlist; [| exact Hrun | by destruct res as [|? [|? [|? ?]]]].
    simpl in Hlist. by rewrite andb_true_r in Hlist.
  - destruct (walkList havingAndOrderbyVisitor [x] [] _) as [[[res okL] a2]|] eqn:Hlist;
      [|done].
    simpl in Hrun.
    apply (walkList_flags [x]) in Hlist; [|by repeat (constructor; [done|])].
    eapply Hset in Hlist; [| exact Hrun | by destruct res as [|? [|? ?]]].
    simpl in Hlist. by rewrite andb_true_r in Hlist.
  - by eapply Hleaf.
  - by eapply Hleaf.
  - injection Hrun as <- <- <-. split; [done|]. split; [done|]. split; [done|].
    intros _. simpl. by rewrite andb_true_r, orb_false_r.
  - destruct (walkList havingAndOrderbyVisitor Args [] _) as [[[res okL] a2]|] eqn:Hlist;
      [|done].
    simpl in Hrun. apply (walkList_flags _ IH) in Hlist.
    by eapply Hset in Hlist; [| exact Hrun | done].
  - injection Hrun as <- <- <-. split; [done|]. split; [done|]. split; [done|].
    intros _. simpl. by rewrite andb_true_r, orb_false_r.
  - injection Hrun as <- <- <-. split; [done|]. split; [done|]. split; [done|].
    intros _. simpl. by rewrite andb_true_r, orb_false_r.
  - destruct (walkList havingAndOrderbyVisitor [L; R] [] _) as [[[res okL] a2]|] eqn:Hlist;
      [|done].
    simpl in Hrun.
    apply (walkList_flags [L; R]) in Hlist; [|by repeat (constructor; [done|])].
    eapply Hset in Hlist; [| exact Hrun | by destruct res as [|? [|? [|? ?]]]].
    simpl in Hlist. by rewrite andb_true_r in Hlist.
Qed.

End WalkFlags.

Section Decisions.
Context {ext : Externals}.

(** A walk that starts with both flags clear decides at each column
    reference as the claim says for its place. *)
Lemma walk_decisions e a r ok a' :
  inAggFunc a = false → inExpr a = false → aggregatesApart e = true →
  sample.walk havingAndOrderbyVisitor e a = Done ((r, ok), a') →
  ∃ log, sample.walk recording e (a, []) = Done ((r, ok), (a', log))
         ∧ log `prefix_of` decisionsAt (orderBy a) (gbyItems a) e
         ∧ (ok = true → log = decisionsAt (orderBy a) (gbyItems a) e
                        ∧ inAggFunc a' = false)
         ∧ orderBy a' = orderBy a ∧ gbyItems a' = gbyItems a.
Proof.
  intros Hagg Hexpr Hapart Hwalk.
  pose proof (walk_unrecorded e a []) as Hun. rewrite Hwalk in Hun.
  destruct (sample.walk recording e (a, [])) as [[r1 [a1 log]]|] eqn:Hrec; [|done].
  injection Hun as -> ->. exists log. split; [done|].
  destruct (walk_recorded e top a [] _ _ _ _ Hrec) as (Hob & Hgby & _ & part & Hlog & Hpre & Hok);
    [done|done|].
  simpl in Hlog. subst part. done.
Qed.

End Decisions.

(** C3, as amended.  In the walk of the HAVING expression and in the walk
    of the first ORDER BY item, when no aggregate function stands inside
    another, the resolver tries on a column reference the select fields
    before the schema of the child plan if and only if the column is not
    inside an aggregate function, and not in the ORDER BY phase inside a
    compound expression, and not in the HAVING phase a name of a GROUP BY
    item; in all other cases it consults the schema of the child plan
    first.  The decisions that the walk takes, one at each column reference
    that is left, are those of [decisionsAt], which follow these words: all
    of them when the walk comes to its end, the first of them when it
    stops.  The two walks are those of [resolveHavingAndOrderBy]: the
    HAVING expression is walked from [havingStart], the ORDER BY items in
    turn from [orderByStart] of the resolver that the HAVING clause has
    left, each item from the resolver that the one before it has left, and
    the result is made of what these walks leave.  Trying first means that
    a hit settles the index: when the select fields are tried first and
    resolve the column, that index is taken and the schema is not looked
    at; when the schema is consulted first and resolves the column, its
    index is taken and [resolveFromSelectFields] is not called.  The
    traversal is the one of section 9. *)
Theorem resolveFieldsFirst_cases (ext : Externals)
    (Htraversal : ∀ e a, Accept _ havingAndOrderbyVisitor e a
                         = sample.walk havingAndOrderbyVisitor e a) :
  (∀ c gby p b h r ok a',
     ast.Having c = Some h → aggregatesApart h = true →
     Accept _ havingAndOrderbyVisitor h (havingStart c gby p b) = Done ((r, ok), a') →
     ∃ log, sample.walk recording h (havingStart c gby p b, [])
            = Done ((r, ok), (a', log))
            ∧ log `prefix_of` decisionsAt false (default [] gby) h
            ∧ (ok = true → log = decisionsAt false (default [] gby) h))
  ∧ (∀ c gby p b he extractor item rest r ok a',
       havingWalked c gby p b he extractor →
       ast.OrderBy c = Some (item :: rest) →
       aggregatesApart (ast.by_Expr item) = true →
       Accept _ havingAndOrderbyVisitor (ast.by_Expr item) (orderByStart extractor)
       = Done ((r, ok), a') →
       ∃ log, sample.walk recording (ast.by_Expr item) (orderByStart extractor, [])
              = Done ((r, ok), (a', log))
              ∧ log `prefix_of` decisionsAt true (default [] gby) (ast.by_Expr item)
              ∧ (ok = true → log = decisionsAt true (default [] gby) (ast.by_Expr item)))
  ∧ (∀ c gby p b h n extractor,
       ast.Having c = Some h →
       Accept _ havingAndOrderbyVisitor h (havingStart c gby p b)
       = Done ((n, false), extractor) →
       resolveHavingAndOrderBy c gby p b
       = Ok (mkHavingOrderResult [] [] (ast.Fields c) (ast.Having c) (ast.OrderBy c))
           (set_err (r_err extractor) (set_colMapper (r_colMapper extractor) b)))
  ∧ (∀ c gby p b he extractor,
       havingWalked c gby p b he extractor →
       match ast.OrderBy c with
       | None =>
           resolveHavingAndOrderBy c gby p b
           = Ok (mkHavingOrderResult (aggMapper extractor) [] (selectFields extractor)
                   he None)
               (set_colMapper (r_colMapper extractor) b)
       | Some items =>
           ∀ done ok extractor',
             itemsWalked items (orderByStart extractor) done ok extractor' →
             resolveHavingAndOrderBy c gby p b
             = if ok
               then Ok (mkHavingOrderResult (aggMapper extractor) (aggMapper extractor')
                          (selectFields extractor') he (Some done))
                      (set_colMapper (r_colMapper extractor') b)
               else Ok (mkHavingOrderResult [] [] (ast.Fields c) he (Some done))
                      (set_err (r_err extractor')
                         (set_colMapper (r_colMapper extractor') b))
       end)
  ∧ (∀ a v, resolveFieldsFirst a v = true →
       ∀ i, resolveFromSelectFields v (selectFields a) false = (i, None) → i ≠ -1 →
            resolveIndex a v = Done (i, set_r_err None a))
  ∧ (∀ a v, resolveFieldsFirst a v = false →
       ∀ p i e a', r_p a = Some p →
                   hr_resolveFromSchema a v (schema p) = ((i, e), a') → i ≠ -1 →
                   resolveIndex a v = Done (i, a')).
Proof.
  split; [|split; [|split; [|split; [|split]]]].
  - intros c gby p b h r ok a' _ Hapart Hwalk. rewrite Htraversal in Hwalk.
    destruct (walk_decisions h (havingStart c gby p b) r ok a')
      as (log & Hrec & Hpre & Hok & _); [done|done|done|done|].
    exists log. split; [done|]. split; [done|]. intros Hk. by destruct (Hok Hk).
  - intros c gby p b he ex item rest r ok a' Hhaving _ Hapart Hwalk.
    rewrite Htraversal in Hwalk.
    assert (inAggFunc ex = false ∧ gbyItems ex = default [] gby) as [Hagg Hgby].
    { destruct Hhaving as [_|h e ex Hsome Hrun]; [done|]. rewrite Htraversal in Hrun.
      apply walk_flags in Hrun as (_ & Hgby & _ & Hok).
      by destruct (Hok eq_refl). }
    destruct (walk_decisions (ast.by_Expr item) (orderByStart ex) r ok a')
      as (log & Hrec & Hpre & Hok & _); [done|done|done|done|].
    simpl in Hpre, Hok. rewrite Hgby in Hpre, Hok.
    exists log. split; [done|]. split; [done|]. intros Hk. by destruct (Hok Hk).
  - intros c gby p b h n ex. apply resolveHavingAndOrderBy_stopped.
  - intros c gby p b he ex. apply resolveHavingAndOrderBy_walked.
  - intros a v Hfirst i Hfields Hi. unfold resolveIndex. rewrite Hfirst, Hfields.
    by rewrite bool_decide_eq_false_2.
  - intros a v Hfirst p i e a' Hp Hschema Hi. unfold resolveIndex, r_schema.
    rewrite Hfirst, Hp. simpl. rewrite Hschema. by rewrite bool_decide_eq_false_2.
Qed.

Lemma resolveFieldsFirst_cases_witness :
  (∃ r a', sample.walk (@recording sample.externals) a_gt_0
             (havingStart alias_clauses (Some alias_gby) (Some t_plan) builder_after_t, [])
           = Done ((r, true), (a', [(colName "a", false)])))
  ∧ (∃ r a', sample.walk (@recording sample.externals) (colRef "a")
               (orderByStart alias_after_having, [])
             = Done ((r, true), (a', [(colName "a", true)])))
  ∧ @resolveIndex sample.externals order_by_alias (colName "a")
    = Done (0, set_r_err None order_by_alias)
  ∧ ∃ a', @resolveIndex sample.externals having_alias (colName "a") = Done (1, a').
Proof.
  destruct (resolveFieldsFirst_cases sample.externals (λ e a, eq_refl))
    as (Hhaving & Hfirst & _ & _ & Hfields & Hschema).
  assert (Hrun : @Accept sample.externals _ (@havingAndOrderbyVisitor sample.externals) a_gt_0
                   (havingStart alias_clauses (Some alias_gby) (Some t_plan) builder_after_t)
                 = Done ((Some (ast.NExpr a_gt_0), true), alias_after_having))
    by (vm_compute; reflexivity).
  split; [|split; [|split]].
  - destruct (Hhaving alias_clauses (Some alias_gby) (Some t_plan) builder_after_t
                a_gt_0 _ _ _ eq_refl eq_refl Hrun) as (log & Hrec & _ & Hok).
    rewrite (Hok eq_refl) in Hrec. do 2 eexists. exact Hrec.
  - edestruct (Hfirst alias_clauses (Some alias_gby) (Some t_plan) builder_after_t
                 (Some a_gt_0) alias_after_having (ast.mkByItem (colRef "a") false))
      as (log & Hrec & _ & Hok);
      [ by eapply having_some; [|exact Hrun]
      | reflexivity
      | reflexivity
      | vm_compute; reflexivity
      | ].
    rewrite (Hok eq_refl) in Hrec. do 2 eexists. exact Hrec.
  - apply Hfields; [reflexivity | vm_compute; reflexivity | discriminate].
  - eexists. eapply Hschema; [reflexivity | reflexivity | vm_compute; reflexivity | discriminate].
Defined.

(** C3, as stated, fails in the ORDER BY phase.  At the column [a] of
    [SELECT b AS a FROM t GROUP BY a ORDER BY a], the first ORDER BY item,
    the resolver is the one with which [resolveHavingAndOrderBy] starts the
    loop; it is outside an aggregate and outside a compound expression, and
    [a] names a GROUP BY item, so the claim has the schema of the child
    consulted first.  The source resolves the select fields first: it takes
    the field [b AS a], of index 0, and leaves the select fields as they
    are, whereas the schema of [t] has a column [a], for which the
    resolution from the schema appends an auxiliary field of index 1. *)
Lemma order_by_resolves_fields_first :
  order_by_alias
  = orderByStart (havingStart alias_order_by (ast.GroupBy alias_order_by) (Some t_plan)
                    builder_after_t)
  ∧ ast.Having alias_order_by = None
  ∧ ast.OrderBy alias_order_by = Some [ast.mkByItem (colRef "a") false]
  ∧ inAggFunc order_by_alias = false
  ∧ orderBy order_by_alias && inExpr order_by_alias = false
  ∧ namesGbyItem (gbyItems order_by_alias) (colName "a") = true
  ∧ @resolveFieldsFirst order_by_alias (colName "a") = true
  ∧ @hr_Leave sample.externals (ast.NExpr (colRef "a")) order_by_alias
    = Done ((Some (ast.NExpr (colRef "a")), true),
            set_r_colMapper [(colRef "a", 0)] order_by_alias)
  ∧ (∃ a', @hr_resolveFromSchema sample.externals order_by_alias (colName "a")
             (schema t_plan) = ((1, None), a')
           ∧ length (selectFields a') = 2%nat).
Proof.
  repeat split; try (vm_compute; reflexivity).
  eexists. split; vm_compute; reflexivity.
Qed.

(** ** Selection (section 4.5) *)

Section Selection.
Context {ext : Externals}.

Lemma keptConditions_cons expr exprs :
  keptConditions (expr :: exprs)
  = match expr with
    | Some e => SplitCNFItems e ++ keptConditions exprs
    | None => keptConditions exprs
    end.
Proof. by destruct expr. Qed.

Lemma keptConditions_none exprs :
  Forall (λ e, e = None) exprs → keptConditions exprs = [].
Proof.
  induction 1 as [|e l -> _ IH]; [done|]. by rewrite keptConditions_cons.
Qed.

(** The loop keeps what the rewriter returned: the plan of the last call,
    and the conditions that are left, after those it had. *)
Lemma selectionLoop_chain m conds p b exprs child b2 :
  rewritten_in_turn m conds p b exprs child b2 →
  ∀ acc, selectionLoop conds m p acc b = Next (child, acc ++ keptConditions exprs) b2.
Proof.
  induction 1 as [p b|cond rest p b expr np b1 exprs p' b' Hrw _ IH]; intros acc.
  - simpl. by rewrite app_nil_r.
  - simpl. unfold bind at 1, rewriteG. rewrite Hrw. simpl.
    rewrite keptConditions_cons. destruct expr as [e|]; [|apply IH].
    rewrite IH. by rewrite <- app_assoc.
Qed.

(** The first error of the rewriter ends the loop. *)
Lemma selectionLoop_error m before cond after p b exprs q b2 r b3 e acc :
  rewritten_in_turn m before p b exprs q b2 →
  rewrite cond q m false b2 = (r, b3) → rw_err r = Some e →
  selectionLoop (before ++ cond :: after) m p acc b
  = Return None (set_err (Some (Foreign e)) b3).
Proof.
  intros Hchain Hrw He. revert acc.
  induction Hchain as [p b|c0 rest p b expr np b1 exprs p' b' Hrw0 _ IH]; intros acc.
  - simpl. unfold bind at 1, rewriteG. rewrite Hrw. by rewrite He.
  - simpl. unfold bind at 1, rewriteG. rewrite Hrw0. simpl.
    destruct expr; by apply IH.
Qed.

Lemma rewritten_in_turn_keeps m conds p b exprs child b2 :
  keeps_plan m → rewritten_in_turn m conds p b exprs child b2 → child = p.
Proof.
  intros Hkeep. induction 1 as [|cond rest p b expr np b1 exprs p' b' Hrw _ IH]; [done|].
  specialize (Hkeep cond p b). rewrite Hrw in Hkeep. simpl in Hkeep. congruence.
Qed.

(** The rewriter either goes through all the conjuncts or fails at one. *)
Lemma rewritten_in_turn_total m conds p b :
  (∃ exprs child b2, rewritten_in_turn m conds p b exprs child b2)
  ∨ (∃ before cond after exprs q b2 r b3 e,
       conds = before ++ cond :: after
       ∧ rewritten_in_turn m before p b exprs q b2
       ∧ rewrite cond q m false b2 = (r, b3) ∧ rw_err r = Some e).
Proof.
  revert p b. induction conds as [|cond rest IH]; intros p b.
  - left. exists [], p, b. constructor.
  - destruct (rewrite cond p m false b) as [[expr np [e|]] b1] eqn:Hrw.
    + right. exists [], cond, rest, [], p, b, (mkRewritten expr np (Some e)), b1, e.
      split; [done|]. split; [constructor | done].
    + destruct (IH np b1) as [(exprs & child & b2 & Hchain)
                             | (before & c & after & exprs & q & b2 & r & b3 & e
                                & -> & Hchain & Hr & He)].
      * left. exists (expr :: exprs), child, b2. by econstructor.
      * right. exists (cond :: before), c, after, (expr :: exprs), q, b2, r, b3, e.
        split; [done|]. split; [by econstructor | done].
Qed.

End Selection.

(** C7, as amended.  [buildSelection] rewrites the conjuncts that
    [splitWhere] gives, each on the plan the rewriter returned for the one
    before.  A conjunct that is rewritten to nil is dropped, and the others
    are the conditions, each split into its items and in the order of the
    conjuncts.  When every conjunct vanishes, the plan returned by the last
    rewriting is returned, without a Selection node over it; it is the
    child plan that was passed in when the rewriter hands back the plan it
    is given.  Otherwise the result is a Selection node with the conditions
    that are left, whose only child is that plan and whose schema is a
    clone of the schema of that plan.  At the first conjunct for which the
    rewriter reports an error, the error is set and nil is returned. *)
Theorem buildSelection_result (ext : Externals) p where_ AggMapper b :
  let b1 := set_allocator (allocator b + 1) b in
  (∀ exprs child b2,
     rewritten_in_turn AggMapper (splitWhere where_) p b1 exprs child b2 →
     (Forall (λ e, e = None) exprs → keptConditions exprs = [])
     ∧ (keptConditions exprs = [] → buildSelection p where_ AggMapper b = Ok child b2)
     ∧ (keptConditions exprs ≠ [] →
        match child with
        | Some c =>
            buildSelection p where_ AggMapper b
            = Ok (Some (mkPlan (KSelection (keptConditions exprs))
                          ("Selection_" +:+ pretty (allocator b + 1))
                          (expression.Clone (schema c)) [c])) b2
            ∧ expression.Clone (schema c) = schema c
        | None => buildSelection p where_ AggMapper b = Crash NilDereference
        end)
     ∧ (keeps_plan AggMapper → child = p))
  ∧ (∀ before cond after exprs q b2 r b3 e,
       splitWhere where_ = before ++ cond :: after →
       rewritten_in_turn AggMapper before p b1 exprs q b2 →
       rewrite cond q AggMapper false b2 = (r, b3) → rw_err r = Some e →
       buildSelection p where_ AggMapper b = Ok None (set_err (Some (Foreign e)) b3))
  ∧ ((∃ exprs child b2,
        rewritten_in_turn AggMapper (splitWhere where_) p b1 exprs child b2)
     ∨ (∃ before cond after exprs q b2 r b3 e,
          splitWhere where_ = before ++ cond :: after
          ∧ rewritten_in_turn AggMapper before p b1 exprs q b2
          ∧ rewrite cond q AggMapper false b2 = (r, b3) ∧ rw_err r = Some e)).
Proof.
  intros b1. split; [|split; [|apply rewritten_in_turn_total]].
  - intros exprs child b2 Hchain.
    pose proof (selectionLoop_chain _ _ _ _ _ _ _ Hchain []) as Hloop. simpl in Hloop.
    assert (Hrun : buildSelection p where_ AggMapper b
                   = fn (let '(p, expressions) := (child, keptConditions exprs) in
                         if bool_decide (length expressions = 0%nat) then return_ p
                         else
                           let selection :=
                             SetKind (mkPlan (KSelection [])
                                        ("Selection_" +:+ pretty (allocator b + 1))
                                        (expression.NewSchema []) [])
                               (KSelection expressions) in
                           psch <- Schema_of p ;;
                           let selection := SetSchema selection (expression.Clone psch) in
                           let selection := addChild selection p in
                           ret (Some selection)) b2).
    { unfold buildSelection, fn, bind at 1, call. rewrite init_Ok. fold b1.
      unfold bind at 1. by rewrite Hloop. }
    split; [|split; [|split]].
    + apply keptConditions_none.
    + intros Hnil. rewrite Hrun, Hnil. done.
    + intros Hne. rewrite Hrun.
      destruct (keptConditions exprs) as [|e es] eqn:Hkept; [done|].
      destruct child as [c|]; [|done]. split; [reflexivity | apply Clone_id].
    + intros Hkeep. by eapply rewritten_in_turn_keeps.
  - intros before cond after exprs q b2 r b3 e Hsplit Hchain Hrw He.
    unfold buildSelection, fn, bind at 1, call. rewrite init_Ok. fold b1.
    unfold bind at 1. rewrite Hsplit.
    by rewrite (selectionLoop_error _ _ _ _ _ _ _ _ _ _ _ _ [] Hchain Hrw He).
Qed.

Lemma buildSelection_result_witness :
  @buildSelection sample.externals (Some t_plan) where_exists [] builder_after_t
  = where_exists_built
  ∧ @buildSelection sample.externals (Some t_plan) where_a_gt_1 [] builder_after_t
    = where_a_built.
Proof.
  pose proof (buildSelection_result sample.externals (Some t_plan) where_exists []
                builder_after_t) as (Hnone & _).
  pose proof (buildSelection_result sample.externals (Some t_plan) where_a_gt_1 []
                builder_after_t) as (Hsome & _).
  split.
  - edestruct Hnone as (_ & Hrun & _).
    + eapply rewritten_cons; [vm_compute; reflexivity | apply rewritten_nil].
    + rewrite Hrun; [vm_compute; reflexivity | reflexivity].
  - edestruct Hsome as (_ & _ & Hrun & _).
    + eapply rewritten_cons; [vm_compute; reflexivity | apply rewritten_nil].
    + destruct Hrun as [Hrun _]; [discriminate|]. rewrite Hrun. vm_compute. reflexivity.
Defined.

(** C7, as stated, fails when the rewriter changes the plan.  The only
    conjunct of [EXISTS (SELECT 1 FROM t2)] is rewritten to nil with a
    semi-join over the child as the plan to adopt: every conjunct vanishes,
    and [buildSelection] returns that semi-join, not the child. *)
Lemma buildSelection_returns_rewritten_plan :
  @splitWhere sample.externals where_exists = [where_exists]
  ∧ (∃ np b', @rewrite sample.externals where_exists (Some t_plan) [] false
                (set_allocator (allocator builder_after_t + 1) builder_after_t)
              = (mkRewritten None (Some np) None, b'))
  ∧ @buildSelection sample.externals (Some t_plan) where_exists [] builder_after_t
    = where_exists_built
  ∧ (∃ b', where_exists_built = Ok (Some where_exists_plan) b' ∧ err b' = None)
  ∧ where_exists_plan ≠ t_plan
  ∧ id where_exists_plan = "Apply_4"
  ∧ id <$> children where_exists_plan = ["DataSource_1"; "TableDual_3"].
Proof.
  split; [reflexivity|]. split; [do 2 eexists; vm_compute; reflexivity|].
  split; [vm_compute; reflexivity|]. split; [by eexists|].
  split; [discriminate|]. split; reflexivity.
Qed.

(** ** Union (section 4.5) *)

Section Safe.
Context {ext : Externals}.

Lemma safeG_ret {R A} (a : A) : safeG (@ret R A a).
Proof. by intros b. Qed.

Lemma safeG_return {R A} (r : R) : safeG (@return_ R A r).
Proof. by intros b. Qed.

Lemma safeG_panic {R A} k : safeG (@panic R A k).
Proof. by intros b. Qed.

Lemma safeG_bind {R A B} (m : G R A) (k : A → G R B) :
  safeG m → (∀ a, safeG (k a)) → safeG (bind m k).
Proof.
  intros Hm Hk b Hb. unfold bind. specialize (Hm b Hb).
  destruct (m b) as [a b'|r b'|p]; [|done..]. by apply Hk.
Qed.

Lemma safeG_call {R A} (f : Fn A) : safeF f → safeG (@call R A f).
Proof. intros Hf b Hb. unfold call. specialize (Hf b Hb). by destruct (f b). Qed.

Lemma safeF_fn {R} (body : G R R) : safeG body → safeF (fn body).
Proof. intros Hbody b Hb. unfold fn. specialize (Hbody b Hb). by destruct (body b). Qed.

Lemma safeG_latch {R} e : e ≠ union_arity_error → safeG (@latch R e).
Proof. intros He b _. simpl. congruence. Qed.

Lemma safeG_slice_to {R A} (s : list A) n : safeG (@slice_to R A s n).
Proof. unfold slice_to. case_decide; [apply safeG_ret | apply safeG_panic]. Qed.

Lemma safeG_Schema_of {R} p : safeG (@Schema_of R p).
Proof. destruct p; [apply safeG_ret | apply safeG_panic]. Qed.

Lemma safeF_init k : safeF (init k).
Proof. by intros b Hb. Qed.

Lemma safeG_rewriteG {R} e p m s :
  err_untouched ext → safeG (@rewriteG ext R e p m s).
Proof.
  intros H b Hb. unfold rewriteG. specialize (H e p m s b).
  destruct (rewrite e p m s b). simpl in *. congruence.
Qed.

End Safe.

Create HintDb safe discriminated.
#[global] Hint Resolve safeG_ret safeG_return safeG_panic safeG_slice_to safeG_Schema_of
  safeF_init safeG_rewriteG : safe.

Ltac safe_step :=
  lazymatch goal with
  | |- safeG (bind _ _) => apply safeG_bind; [| intros ?]
  | |- safeG (call _) => apply safeG_call
  | |- safeF (fn _) => apply safeF_fn
  | |- safeG (latch _) => apply safeG_latch; discriminate
  | |- safeG (match ?x with _ => _ end) => destruct x eqn:?
  | |- safeG (let (_, _) := ?x in _) => destruct x eqn:?
  | |- _ => solve [eauto with safe]
  end.

Ltac safe := repeat safe_step.

Section Union.
Context {ext : Externals}.

Lemma safe_buildDistinct p n : safeF (buildDistinct p n).
Proof. unfold buildDistinct. safe. Qed.

Lemma safe_sortLoop items m p exprs :
  err_untouched ext → safeG (sortLoop items m p exprs).
Proof.
  intros Hext. revert p exprs. induction items as [|i rest IH]; intros; simpl; safe.
Qed.

Lemma safe_buildSort p items m : err_untouched ext → safeF (buildSort p items m).
Proof. intros Hext. unfold buildSort. safe. by apply safe_sortLoop. Qed.

Lemma safe_buildLimit p l : safeF (buildLimit p l).
Proof. unfold buildLimit. safe. Qed.

(** A branch of the arity of the first one passes the test, and the
    columns of [firstSchema] keep their number. *)
Lemma unionBranch_equal firstCols sel b :
  arity sel = length firstCols →
  ∃ sel' cols' b',
    unionBranch firstCols (Some sel) b = Next (Some sel', cols') b'
    ∧ length cols' = length firstCols
    ∧ err b' = err b.
Proof.
  intros Harity. unfold unionBranch, arity, expression.Len in *.
  unfold bind at 1. simpl. rewrite bool_decide_eq_false_2 by (rewrite Harity; tauto).
  destruct sel as [k i sch cs]. simpl in *.
  assert (Hzip : ∀ (f : expression.Column → expression.Column → expression.Column) cols,
            length cols = length firstCols → length (zip_with f firstCols cols) = length firstCols).
  { intros f cols Hlen. by rewrite length_zip_with_l_eq. }
  destruct k; unfold bind; simpl;
    (do 3 eexists; split; [reflexivity|]; split; [|reflexivity]);
    apply Hzip; rewrite ?length_fmap; done.
Qed.

(** A branch of another arity raises the error. *)
Lemma unionBranch_mismatch firstCols sel b :
  arity sel ≠ length firstCols →
  unionBranch firstCols (Some sel) b = Return None (set_err (Some union_arity_error) b).
Proof.
  intros Harity. unfold unionBranch, arity, expression.Len in *.
  unfold bind at 1. simpl. rewrite bool_decide_eq_true_2; [done|]. lia.
Qed.

Lemma unionLoop_equal plans done cols b :
  Forall (λ p, arity p = length cols) plans →
  ∃ done' cols' b',
    unionLoop (Some <$> plans) done cols b = Next (done', cols') b' ∧ err b' = err b.
Proof.
  revert done cols b. induction plans as [|p plans IH]; intros done cols b Hall; simpl.
  - by do 3 eexists.
  - apply Forall_cons in Hall as [Hp Hall].
    destruct (unionBranch_equal cols p b Hp) as (sel' & cols' & b' & Hrun & Hlen & Herr).
    unfold bind at 1. rewrite Hrun. simpl.
    destruct (IH (done ++ [Some sel']) cols' b') as (d & c' & b'' & Hloop & Herr').
    { by rewrite Hlen. }
    do 3 eexists. split; [exact Hloop | congruence].
Qed.

Lemma unionLoop_mismatch plans done cols b :
  Exists (λ p, arity p ≠ length cols) plans →
  ∃ b', unionLoop (Some <$> plans) done cols b = Return None b'
        ∧ err b' = Some union_arity_error.
Proof.
  revert done cols b. induction plans as [|p plans IH]; intros done cols b Hex; simpl.
  - by apply Exists_nil in Hex.
  - destruct (decide (arity p = length cols)) as [Hp | Hp].
    + destruct (unionBranch_equal cols p b Hp) as (sel' & cols' & b' & Hrun & Hlen & Herr).
      unfold bind at 1. rewrite Hrun. simpl. apply IH. rewrite Hlen.
      apply Exists_inv in Hex as [Hex | Hex]; done.
    + unfold bind at 1. rewrite (unionBranch_mismatch cols p b Hp). by eexists.
Qed.

(** When the first loop of [buildUnion] has built a branch, no error is
    latched after it. *)
Lemma buildSelects_Next sels done b branches b1 :
  buildSelects sels done b = Next branches b1 →
  (sels = ast.SelNil ∧ branches = done) ∨ err b1 = None.
Proof.
  revert done b. induction sels as [|sel rest IH] using ast.SelectList_ind;
    intros done b; simpl.
  - intros [= <- <-]. by left.
  - intros (p & b2 & _ & Hrest)%bind_Next.
    apply bind_Next in Hrest as ([] & b3 & Hbail & Hrest).
    unfold bail in Hbail. destruct (err b2) eqn:Herr; [done|]. injection Hbail as <-.
    right. destruct (IH _ _ Hrest) as [[-> _] | Herr']; [|done].
    simpl in Hrest. by injection Hrest as _ <-.
Qed.

Lemma index_first {R} (plans : list LogicalPlan) p0 :
  plans !! 0%nat = Some p0 → @index R _ (Some <$> plans) 0 = ret (Some p0).
Proof.
  intros Hp0. unfold index. case_decide; [|lia]. change (Z.to_nat 0) with 0%nat.
  by rewrite list_lookup_fmap, Hp0.
Qed.

Lemma unionPlans_mismatch c u plans p0 b :
  plans !! 0%nat = Some p0 →
  Exists (λ p, arity p ≠ arity p0) plans →
  ∃ b', unionPlans c u (Some <$> plans) b = Return None b'
        ∧ err b' = Some union_arity_error.
Proof.
  intros Hp0 Hex. unfold unionPlans. rewrite (index_first _ _ Hp0).
  unfold bind at 1. simpl. unfold bind at 1. simpl. rewrite Clone_columns.
  destruct (unionLoop_mismatch plans [] (expression.Columns (schema p0)) b Hex)
    as (b' & Hloop & Herr).
  unfold bind at 1. rewrite Hloop. by exists b'.
Qed.

Lemma unionPlans_equal c u plans p0 b :
  err_untouched ext →
  plans !! 0%nat = Some p0 →
  Forall (λ p, arity p = arity p0) plans →
  err b ≠ Some union_arity_error →
  match unionPlans c u (Some <$> plans) b with
  | Next _ b' | Return _ b' => err b' ≠ Some union_arity_error
  | Panic _ => True
  end.
Proof.
  intros Hext Hp0 Hall Hb. unfold unionPlans. rewrite (index_first _ _ Hp0).
  unfold bind at 1. simpl. unfold bind at 1. simpl. rewrite Clone_columns.
  destruct (unionLoop_equal plans [] (expression.Columns (schema p0)) b Hall)
    as (done' & cols' & b' & Hloop & Herr).
  unfold bind at 1. rewrite Hloop.
  match goal with |- match ?m b' with _ => _ end => assert (Hsafe : safeG m) end.
  { pose proof safe_buildDistinct. pose proof (λ p i m, safe_buildSort p i m Hext).
    pose proof safe_buildLimit. safe. }
  apply Hsafe. congruence.
Qed.

End Union.

(** C5.  Take a UNION whose branches are built without an error, into the
    plans [plans], the first of which is [p0].  If some branch has not the
    number of columns of [p0], [buildUnion] returns nil with the arity error
    latched.  If every branch has that number, the loop that compares the
    arities runs to its end and leaves the error of the builder as it is,
    and no return of [buildUnion] leaves the arity error in the builder; for
    the latter the rewriter, which [buildSort] calls, is assumed to report
    its errors through its result only. *)
Theorem buildUnion_arity (ext : Externals) Selects c b plans b1 p0 :
  buildSelects Selects [] (set_allocator (allocator b + 1) b) = Next (Some <$> plans) b1 →
  plans !! 0%nat = Some p0 →
  (Exists (λ p, arity p ≠ arity p0) plans →
   ∃ b2, buildUnion (ast.mkUnionStmt Selects c) b = Ok None b2
         ∧ err b2 = Some union_arity_error)
  ∧ (Forall (λ p, arity p = arity p0) plans →
     (∃ branches firstCols b2,
        unionLoop (Some <$> plans) [] (expression.Columns (schema p0)) b1
        = Next (branches, firstCols) b2
        ∧ err b2 = err b1 ∧ err b1 = None)
     ∧ (err_untouched ext →
        ∀ r b2, buildUnion (ast.mkUnionStmt Selects c) b = Ok r b2 →
                err b2 ≠ Some union_arity_error)).
Proof.
  intros Hsels Hp0.
  assert (Hrun : buildUnion (ast.mkUnionStmt Selects c) b
                 = fn (unionPlans c (mkPlan KUnion ("Union_" +:+ pretty (allocator b + 1))
                                       (expression.NewSchema []) [])
                         (Some <$> plans)) b1).
  { simpl. unfold fn, bind at 1, call. rewrite init_Ok. unfold bind at 1.
    by rewrite Hsels. }
  assert (Hb1 : err b1 = None).
  { destruct (buildSelects_Next _ _ _ _ _ Hsels) as [[_ Hnil] | ->]; [|done].
    destruct plans; done. }
  rewrite Hrun. split.
  - intros Hex.
    destruct (unionPlans_mismatch c (mkPlan KUnion ("Union_" +:+ pretty (allocator b + 1))
                                       (expression.NewSchema []) []) plans p0 b1 Hp0 Hex)
      as (b2 & Hplans & Herr).
    exists b2. unfold fn. by rewrite Hplans.
  - intros Hall. split.
    + destruct (unionLoop_equal plans [] (expression.Columns (schema p0)) b1 Hall)
        as (branches & firstCols & b2 & Hloop & Herr).
      by exists branches, firstCols, b2.
    + intros Hext r b2.
      assert (Hne : err b1 ≠ Some union_arity_error) by by rewrite Hb1.
      pose proof (unionPlans_equal c (mkPlan KUnion ("Union_" +:+ pretty (allocator b + 1))
                                        (expression.NewSchema []) []) plans p0 b1
                    Hext Hp0 Hall Hne) as Hsafe.
      unfold fn. destruct (unionPlans _ _ _ _); congruence.
Qed.

Lemma sample_err_untouched : err_untouched sample.externals.
Proof.
  intros e. simpl. induction e; intros p m s b; simpl; try done.
  - by destruct (sample.findColumn _ _) as [[?|] [?|]].
  - by destruct (sample.lookupNode _ _); [destruct (_ !! _)|].
  - destruct (sample.rewriter e1 p m true b) as [rl b1] eqn:H1.
    pose proof (IHe1 p m true b) as IH1. rewrite H1 in IH1. simpl in IH1.
    destruct (rw_err rl), (rw_expr rl); try done.
    destruct (sample.rewriter e2 (rw_plan rl) m true b1) as [rr b2] eqn:H2.
    pose proof (IHe2 (rw_plan rl) m true b1) as IH2. rewrite H2 in IH2. simpl in IH2.
    destruct (rw_err rr), (rw_expr rr); simpl; congruence.
  - by destruct s.
Qed.

Lemma buildUnion_arity_witness :
  (∃ b2, @buildUnion sample.externals union_1_12 sample.builder0 = Ok None b2
         ∧ err b2 = Some union_arity_error)
  ∧ (∀ r b2, @buildUnion sample.externals union_1_1 sample.builder0 = Ok r b2 →
             err b2 ≠ Some union_arity_error).
Proof.
  split.
  - apply (buildUnion_arity sample.externals _ _ sample.builder0
             branches_1_12.1 branches_1_12.2 (first_branch branches_1_12));
      [vm_compute; reflexivity | reflexivity |].
    apply Exists_cons. right. apply Exists_cons. left. vm_compute. discriminate.
  - apply (buildUnion_arity sample.externals _ _ sample.builder0
             branches_1_1.1 branches_1_1.2 (first_branch branches_1_1));
      [vm_compute; reflexivity | reflexivity | | exact sample_err_untouched].
    repeat constructor.
Defined.
(** ** Names of columns *)

(** [colMatch a b] holds when [b] is the name [a] with, possibly, a schema
    or a table filled in.  It is reflexive and transitive, and two names
    that match each other have the same schema, table and name, up to the
    case of the letters.  It is not symmetric: [a] matches [t.a], and
    [t.a] does not match [a]. *)
Theorem colMatch_preorder :
  (∀ a, colMatch a a = true)
  ∧ (∀ a b c, colMatch a b = true → colMatch b c = true → colMatch a c = true)
  ∧ (∀ a b, colMatch a b = true → colMatch b a = true →
            model.L (ast.Schema a) = model.L (ast.Schema b)
            ∧ model.L (ast.Table a) = model.L (ast.Table b)
            ∧ model.L (ast.Name a) = model.L (ast.Name b))
  ∧ (∃ a b, colMatch a b = true ∧ colMatch b a = false).
Proof.
  unfold colMatch. split; [|split; [|split]].
  - intros a. repeat case_bool_decide; simpl; congruence.
  - intros a b c.
    repeat case_bool_decide; simpl; try done; intros; congruence.
  - intros a b.
    repeat case_bool_decide; simpl; try done; intros; repeat split; congruence.
  - exists (colName "a"), (qualified "" "t" "a"). split; reflexivity.
Qed.

Lemma Expression_ind' (P : expression.Expression → Prop) :
  (∀ c, P (expression.EColumn c)) →
  (∀ c, P (expression.ECorrelatedColumn c)) →
  (∀ v, P (expression.EConstant v)) →
  (∀ n t args, Forall P args → P (expression.EScalarFunction n t args)) →
  ∀ e, P e.
Proof.
  intros Hc Hcc Hv Hf. fix IH 1. intros [c|c|v|n t args]; [apply Hc | apply Hcc | apply Hv |].
  apply Hf. induction args as [|a rest IHargs]; constructor; [apply IH | exact IHargs].
Qed.

Lemma extractCorColumns_loop args cols :
  (fix loop (args : list expression.Expression) (cols : list expression.Column) :=
     match args with
     | [] => cols
     | arg :: rest => loop rest (cols ++ extractCorColumns arg)
     end) args cols
  = cols ++ concat (extractCorColumns <$> args).
Proof.
  revert cols. induction args as [|a rest IH]; intros cols; simpl.
  - by rewrite app_nil_r.
  - rewrite IH. by rewrite <- app_assoc.
Qed.

Lemma elem_of_concat {A} (x : A) (ls : list (list A)) :
  x ∈ concat ls ↔ ∃ l, x ∈ l ∧ l ∈ ls.
Proof.
  induction ls as [|l ls IH]; simpl.
  - split; [by intros ?%elem_of_nil | by intros (l & _ & ?%elem_of_nil)].
  - rewrite elem_of_app, IH. split.
    + intros [Hx | (l' & Hx & Hl')]; [exists l | exists l'];
        (split; [done|]); [by left | by right].
    + intros (l' & Hx & [-> | Hl']%elem_of_cons); [by left | right; by exists l'].
Qed.

(** [extractCorColumns] returns the correlated columns of a function as
    those of its arguments, one argument after the other, and a column is
    in its result exactly when it occurs as a correlated column in the
    expression, at any depth.  Columns and constants give none. *)
Theorem extractCorColumns_occurrences :
  (∀ n t args,
     extractCorColumns (expression.EScalarFunction n t args)
     = concat (extractCorColumns <$> args))
  ∧ (∀ e c, c ∈ extractCorColumns e ↔ cor_in c e).
Proof.
  assert (Heq : ∀ n t args,
     extractCorColumns (expression.EScalarFunction n t args)
     = concat (extractCorColumns <$> args)).
  { intros. simpl. by rewrite extractCorColumns_loop. }
  split; [exact Heq|].
  intros e c. induction e as [c'|c'|v|n t args IH] using Expression_ind'.
  - split; [by intros ?%elem_of_nil | inversion 1].
  - split.
    + intros ->%list_elem_of_singleton. constructor.
    + inversion 1. by apply list_elem_of_singleton.
  - split; [by intros ?%elem_of_nil | inversion 1].
  - rewrite Heq. split.
    + intros (l & Hc & (a & -> & Ha)%list_elem_of_fmap)%elem_of_concat.
      rewrite Forall_forall in IH. eapply cor_arg; [done|]. by apply IH.
    + inversion 1 as [|? ? ? a Ha Hc]; subst.
      rewrite Forall_forall in IH. apply elem_of_concat.
      exists (extractCorColumns a). split; [by apply IH|].
      apply list_elem_of_fmap. by exists a.
Qed.

(** ** The tables of a tree of joins *)

Lemma extractTableList_acc :
  (∀ node input, extractTableList node input = input ++ extractTableList node [])
  ∧ (∀ x input, extractTableList_Join x input = input ++ extractTableList_Join x []).
Proof.
  pose proof (ast.stmt_mutind
    (λ node, ∀ input, extractTableList node input = input ++ extractTableList node [])
    (λ x, ∀ input, extractTableList_Join x input = input ++ extractTableList_Join x [])
    (λ right, match right with
              | ast.HasRight r =>
                  ∀ input, extractTableList r input = input ++ extractTableList r []
              | ast.NoRight => True
              end)
    (λ _, True) (λ _, True) (λ _, True) (λ _, True)) as H.
  destruct H as (H1 & H2 & _); [..|by split]; cbv beta; try done.
  - intros Source _ AsName input. destruct Source; simpl; by rewrite ?app_nil_r.
  - intros s _ input. simpl. by rewrite app_nil_r.
  - intros u _ input. simpl. by rewrite app_nil_r.
  - intros tn input. simpl. by rewrite app_nil_r.
  - intros Left HLeft Right HRight c input. simpl.
    destruct Right as [|r]; [apply HLeft|].
    rewrite (HRight (extractTableList Left input)), (HRight (extractTableList Left [])).
    rewrite HLeft. by rewrite <- app_assoc.
Qed.

(** [extractTableList] only appends to the list it is given.  A join
    gives the tables of its left operand and then those of its right
    operand, a join without a right operand those of its left operand, and
    a table source a table name, or nothing when it is over a
    sub-query. *)
Theorem extractTableList_left_to_right :
  (∀ node input, extractTableList node input = input ++ extractTableList node [])
  ∧ (∀ Left Right c,
       extractTableList (ast.RJoin (ast.mkJoin Left (ast.HasRight Right) c)) []
       = extractTableList Left [] ++ extractTableList Right [])
  ∧ (∀ Left c,
       extractTableList (ast.RJoin (ast.mkJoin Left ast.NoRight c)) []
       = extractTableList Left [])
  ∧ (∀ Source AsName,
       extractTableList (ast.RTableSource Source AsName) []
       = match Source with ast.RTableName s => [s] | _ => [] end).
Proof.
  split; [apply extractTableList_acc|]. split; [|split].
  - intros Left Right c. simpl. apply extractTableList_acc.
  - done.
  - intros Source AsName. by destruct Source.
Qed.

(** ** The conditions of a join *)

Lemma try_bind_Done {A B} (t : Try A) (k : A → Try B) x :
  try_bind t k = Done x → ∃ a, t = Done a ∧ k a = Done x.
Proof. destruct t as [a|]; [by exists a | done]. Qed.

Section OnCondition.
Context {ext : Externals} {xext : ExprExternals}.

Lemma onConditionLoop_partition conds l r acc res :
  onConditionLoop conds l r acc = Done res →
  ∃ e lf rt ot,
    eqCond res = eqCond acc ++ e ∧ leftCond res = leftCond acc ++ lf
    ∧ rightCond res = rightCond acc ++ rt ∧ otherCond res = otherCond acc ++ ot
    ∧ (length e + length lf + length rt + length ot = length conds)%nat
    ∧ lf `sublist_of` conds ∧ rt `sublist_of` conds ∧ ot `sublist_of` conds.
Proof.
  revert acc. induction conds as [|expr rest IH]; intros acc; simpl.
  - intros [= <-]. exists [], [], [], []. by rewrite !app_nil_r.
  - intros (eq & _ & Hrun)%try_bind_Done. destruct eq as [cond|].
    + apply IH in Hrun as (e & lf & rt & ot & -> & -> & -> & -> & Hlen & Hlf & Hrt & Hot).
      simpl. exists (cond :: e), lf, rt, ot. rewrite <- app_assoc. simpl.
      repeat split; [lia | by apply sublist_cons..].
    + apply try_bind_Done in Hrun as ([allFromLeft allFromRight] & _ & Hrun).
      destruct allFromRight; [|destruct allFromLeft];
        apply IH in Hrun as (e & lf & rt & ot & -> & -> & -> & -> & Hlen & Hlf & Hrt & Hot);
        simpl.
      * exists e, lf, (expr :: rt), ot. rewrite <- app_assoc. simpl.
        repeat split; [lia | by apply sublist_cons | by apply sublist_skip
                      | by apply sublist_cons].
      * exists e, (expr :: lf), rt, ot. rewrite <- app_assoc. simpl.
        repeat split; [lia | by apply sublist_skip | by apply sublist_cons..].
      * exists e, lf, rt, (expr :: ot). rewrite <- app_assoc. simpl.
        repeat split; [lia | by apply sublist_cons.. | by apply sublist_skip].
Qed.

Lemma eqOfColumns_other expr l r : ¬ is_equality expr → eqOfColumns expr l r = Done None.
Proof.
  intros Hne. destruct expr as [| | |n t args]; try done.
  simpl in *. by case_decide.
Qed.

Lemma sidesOfColumns_right columns lp rp allFromLeft :
  Forall (λ col, Contains (schema rp) col = true) columns →
  ∃ fromLeft, sidesOfColumns columns (Some lp) (Some rp) allFromLeft true
              = Done (fromLeft, true).
Proof.
  revert allFromLeft. induction columns as [|col rest IH]; intros allFromLeft Hall; simpl.
  - by eexists.
  - apply Forall_cons in Hall as [Hcol Hrest]. rewrite Hcol. simpl. by apply IH.
Qed.

End OnCondition.

(** [extractOnCondition] puts every condition in one of its four results:
    when it returns, the lengths of the four lists add up to the number of
    conditions, and the conditions on the left side, those on the right side
    and the others are each a subsequence of the conditions, in their
    order. *)
Theorem extractOnCondition_partition (ext : Externals) (xext : ExprExternals)
    conditions left right res :
  extractOnCondition conditions left right = Done res →
  (length (eqCond res) + length (leftCond res) + length (rightCond res)
   + length (otherCond res) = length conditions)%nat
  ∧ leftCond res `sublist_of` conditions
  ∧ rightCond res `sublist_of` conditions
  ∧ otherCond res `sublist_of` conditions.
Proof.
  intros (e & lf & rt & ot & -> & -> & -> & -> & H)%onConditionLoop_partition. exact H.
Qed.

(** A condition that is not an equality and has no column is a condition on
    the right side, and the plans are not looked at: they may be nil.  More
    generally, between two plans, the conditions that are not equalities
    and whose columns the right schema all contains are conditions on the
    right side, also when the left schema contains them all. *)
Theorem extractOnCondition_right_first (ext : Externals) (xext : ExprExternals) :
  (∀ conditions left right,
     Forall (λ e, ¬ is_equality e ∧ ExtractColumns e = []) conditions →
     extractOnCondition conditions left right = Done (mkOnConditions [] [] conditions []))
  ∧ (∀ conditions lp rp,
       Forall (λ e, ¬ is_equality e
                    ∧ Forall (λ col, Contains (schema rp) col = true) (ExtractColumns e))
         conditions →
       extractOnCondition conditions (Some lp) (Some rp)
       = Done (mkOnConditions [] [] conditions [])).
Proof.
  split.
  - intros conditions left right Hall. unfold extractOnCondition.
    enough (H : ∀ acc, onConditionLoop conditions left right acc
                = Done (mkOnConditions (eqCond acc) (leftCond acc)
                          (rightCond acc ++ conditions) (otherCond acc)))
      by apply (H (mkOnConditions [] [] [] [])).
    induction Hall as [|e rest [Hne Hcols] _ IH]; intros acc; simpl.
    + rewrite app_nil_r. by destruct acc.
    + rewrite eqOfColumns_other by done. simpl. rewrite Hcols. simpl.
      rewrite IH. simpl. by rewrite <- app_assoc.
  - intros conditions lp rp Hall. unfold extractOnCondition.
    enough (H : ∀ acc, onConditionLoop conditions (Some lp) (Some rp) acc
                = Done (mkOnConditions (eqCond acc) (leftCond acc)
                          (rightCond acc ++ conditions) (otherCond acc)))
      by apply (H (mkOnConditions [] [] [] [])).
    induction Hall as [|e rest [Hne Hcols] _ IH]; intros acc; simpl.
    + rewrite app_nil_r. by destruct acc.
    + rewrite eqOfColumns_other by done. simpl.
      destruct (sidesOfColumns_right (ExtractColumns e) lp rp true Hcols) as [fromLeft ->].
      simpl. rewrite IH. simpl. by rewrite <- app_assoc.
Qed.
(** ** Operators of sub-queries *)

Lemma LogicalPlan_ind' (P : LogicalPlan → Prop) :
  (∀ k i s cs, Forall P cs → P (mkPlan k i s cs)) → ∀ p, P p.
Proof.
  intros H. fix IH 1. intros [k i s cs]. apply H.
  induction cs as [|c cs IHcs]; constructor; [apply IH | exact IHcs].
Qed.

Section Exists.
Context {ext : Externals}.

(** The loop of [buildExists] goes down to where the way ends. *)
Lemma existsLoop_endsAt {R} p r :
  endsAt p r →
  ∀ b, @existsLoop R p b
       = match r with
         | EndPlan q => Next (Some q) b
         | EndGroupless =>
             Next (Some (tableDual (allocator b + 1))) (set_allocator (allocator b + 1) b)
         | EndChildless => Panic IndexOutOfRange
         end.
Proof.
  induction 1 as [p Hoff Hgl|p Hgl|p Hoff Hcs|p c cs r Hoff Hcs _ IH]; intros b;
    destruct p as [k i s l]; simpl in *; subst.
  - destruct k as [| | |a g f| | | | | | | | |]; try done; try (by destruct Hoff).
  - destruct k as [| | |a g f| | | | | | | | |]; try done.
    unfold groupless in Hgl. by subst g.
  - destruct k as [| | |a g f| | | | | | | | |]; try done.
    case_bool_decide as Hlen; [|done]. destruct Hoff. by destruct g.
  - destruct k as [| | |a g f| | | | | | | | |]; try done.
    case_bool_decide as Hlen; [|done]. destruct Hoff. by destruct g.
Qed.

Lemma endsAt_total p : ∃ r, endsAt p r.
Proof.
  induction p as [k i s cs IH] using LogicalPlan_ind'.
  assert (Hoff : takenOff k → ∃ r, endsAt (mkPlan k i s cs) r).
  { intros Hoff. destruct cs as [|c cs].
    - exists EndChildless. by apply ends_childless.
    - apply Forall_cons in IH as [[r Hr] _]. exists r. by eapply ends_child. }
  destruct k as [| | |a g f| | | | | | | | |];
    try (by apply Hoff);
    try (eexists; apply ends_plan; simpl; tauto).
  destruct g as [|e g].
  - exists EndGroupless. by apply ends_groupless.
  - by apply Hoff.
Qed.

End Exists.

(** [buildExists] goes down from the top of the plan through the first
    child of every projection, sort and grouping aggregation, and puts an
    [Exists] node over the plan at which this ends, as its only child; at
    an aggregation that does not group it puts the node over a new one-row
    table instead.  The node takes the next id, after that of the one-row
    table if there is one, and its schema is the one column [exists_col],
    of the node; nothing else of the builder changes.  When an operator to
    take off has no child, the call panics on the index.  Every plan ends
    in one of these ways.  Over no plan, the node has no child. *)
Theorem buildExists_strips (ext : Externals) :
  (∀ p r b,
     endsAt p r →
     buildExists (Some p) b
     = match r with
       | EndPlan q =>
           Ok (Some (existsOver (allocator b + 1) [q])) (set_allocator (allocator b + 1) b)
       | EndGroupless =>
           Ok (Some (existsOver (allocator b + 2) [tableDual (allocator b + 1)]))
             (set_allocator (allocator b + 2) b)
       | EndChildless => Crash IndexOutOfRange
       end)
  ∧ (∀ p, ∃ r, endsAt p r)
  ∧ (∀ b, buildExists None b
          = Ok (Some (existsOver (allocator b + 1) [])) (set_allocator (allocator b + 1) b)).
Proof.
  split; [|split; [apply endsAt_total | done]].
  intros p r b Hends. unfold buildExists, fn, bind at 1.
  rewrite (existsLoop_endsAt _ _ Hends). destruct r as [q| |]; [| |done].
  - unfold bind, call. rewrite init_Ok. done.
  - unfold bind, call. rewrite init_Ok. simpl.
    replace (allocator b + 1 + 1) with (allocator b + 2) by lia. done.
Qed.

Lemma buildExists_strips_witness :
  @buildExists sample.externals (Some sorted_projection) builder_after_t
  = Ok (Some (@existsOver sample.externals 2 [t_plan])) (set_allocator 2 builder_after_t)
  ∧ @buildExists sample.externals (Some count_a_agg) builder_after_t
    = Ok (Some (@existsOver sample.externals 3 [tableDual 2]))
        (set_allocator 3 builder_after_t).
Proof.
  destruct (buildExists_strips sample.externals) as (Hrun & _ & _). split.
  - apply (Hrun sorted_projection (EndPlan t_plan) builder_after_t).
    eapply ends_child; [exact I | reflexivity |].
    eapply ends_child; [exact I | reflexivity |].
    apply ends_plan; simpl; tauto.
  - apply (Hrun count_a_agg EndGroupless builder_after_t).
    apply ends_groupless. reflexivity.
Defined.

(** [buildApplyWithJoinType] on two plans always returns an apply over them
    and allocates one id.  The schema of the apply is the columns of the
    outer plan as they are, followed by the columns of the inner plan
    marked as coming from a sub-query; the default values are as many as
    the inner columns for a left outer join, and none otherwise. *)
Theorem buildApplyWithJoinType_schema outer inner tp b :
  ∃ ap,
    buildApplyWithJoinType (Some outer) (Some inner) tp b
    = Ok (Some ap) (set_allocator (allocator b + 1) b)
    ∧ id ap = "Apply_" +:+ pretty (allocator b + 1)
    ∧ children ap = [outer; inner]
    ∧ expression.Columns (schema ap)
      = expression.Columns (schema outer)
        ++ (setIsAggOrSubq true <$> expression.Columns (schema inner))
    ∧ JoinType_ (joinInfo ap) = tp
    ∧ length (DefaultValues (joinInfo ap))
      = if decide (tp = LeftOuterJoin)
        then length (expression.Columns (schema inner)) else 0%nat.
Proof.
  unfold buildApplyWithJoinType, fn, bind at 1, call. rewrite init_Ok.
  assert (Hcols : ∀ l r : list expression.Column,
            take (Z.to_nat (Z.of_nat (length l))) (l ++ r)
            ++ (setIsAggOrSubq true <$> drop (Z.to_nat (Z.of_nat (length l))) (l ++ r))
            = l ++ (setIsAggOrSubq true <$> r)).
  { intros l r. rewrite Nat2Z.id, take_app_length, drop_app_length. done. }
  case_decide as Htp.
  - subst tp. eexists. split; [reflexivity|]. simpl.
    split; [done|]. split; [done|]. rewrite !Clone_columns.
    split; [apply Hcols|]. split; [done|].
    unfold expression.Len. by rewrite length_replicate, Nat2Z.id.
  - eexists. split; [reflexivity|]. simpl.
    split; [done|]. split; [done|]. rewrite !Clone_columns.
    split; [apply Hcols|]. by destruct tp.
Qed.

Section SemiApply.
Context {ext : Externals} {xext : ExprExternals}.

Lemma decorrelateAll_Next {R} outer conds b :
  @decorrelateAll xext R (Some outer) conds b
  = Next ((λ expr, Decorrelate expr (schema outer)) <$> conds) b.
Proof. by destruct conds. Qed.

End SemiApply.

(** [buildSemiApply] on two plans allocates two ids, one for the join of
    [buildSemiJoin] and one for the apply it returns, which has the second.
    The apply is a semi-join of the two plans, a left outer semi-join when
    its result is used as a scalar, with the negation as asked.  Its schema
    is the schema of the outer plan, with one more column in the scalar
    case, and that column is owned by the id of the join, not by the id of
    the apply.  On a nil plan [buildSemiApply] panics. *)
Theorem buildSemiApply_ids (ext : Externals) (xext : ExprExternals) :
  attaches_conditions ext →
  (∀ outer inner condition asScalar not b,
     ∃ ap,
       buildSemiApply (Some outer) (Some inner) condition asScalar not b
       = Ok (Some ap) (set_allocator (allocator b + 2) b)
       ∧ id ap = "Apply_" +:+ pretty (allocator b + 2)
       ∧ children ap = [outer; inner]
       ∧ JoinType_ (joinInfo ap) = (if asScalar then LeftOuterSemiJoin else SemiJoin)
       ∧ anti (joinInfo ap) = not
       ∧ if asScalar then
           ∃ aux, expression.Columns (schema ap)
                  = expression.Columns (schema outer) ++ [aux]
                  ∧ expression.FromID aux = "Join_" +:+ pretty (allocator b + 1)
                  ∧ expression.IsAggOrSubq aux = true
         else expression.Columns (schema ap) = expression.Columns (schema outer))
  ∧ (∀ outer inner condition asScalar not b,
       outer = None ∨ inner = None →
       buildSemiApply outer inner condition asScalar not b = Crash NilDereference).
Proof.
  intros Hattach. split.
  - intros outer inner condition asScalar not b.
    unfold buildSemiApply, fn, bind at 1, call at 1.
    unfold buildSemiJoin, fn, bind at 1, call at 1. rewrite init_Ok.
    unfold bind at 1. rewrite decorrelateAll_Next.
    set (conds := _ <$> condition).
    set (j0 := SetChildren _ _).
    destruct (Hattach conds j0) as [f Hf]. rewrite Hf. subst j0.
    replace (set_allocator (allocator b + 2) b)
      with (set_allocator (allocator (set_allocator (allocator b + 1) b) + 1)
              (set_allocator (allocator b + 1) b))
      by (unfold set_allocator; simpl; f_equal; lia).
    destruct asScalar; simpl.
    + eexists. split; [reflexivity|]. simpl.
      split; [by replace (allocator b + 1 + 1) with (allocator b + 2) by lia|].
      split; [done|]. split; [done|]. split; [done|].
      eexists. rewrite Clone_columns. split; [reflexivity|]. done.
    + eexists. split; [reflexivity|]. simpl.
      split; [by replace (allocator b + 1 + 1) with (allocator b + 2) by lia|].
      split; [done|]. split; [done|]. split; [done|].
      by rewrite Clone_columns.
  - intros outer inner condition asScalar not b Hnil.
    unfold buildSemiApply, fn, bind at 1, call at 1.
    unfold buildSemiJoin, fn, bind at 1, call at 1. rewrite init_Ok.
    destruct outer as [outer|].
    + destruct Hnil as [? | ->]; [done|].
      unfold bind at 1. by rewrite decorrelateAll_Next.
    + by destruct condition.
Qed.
(** ** Ids and privilege entries *)

Section Grows.
Context {ext : Externals}.

Lemma grows_refl b : grows b b.
Proof. split; [lia | done]. Qed.

Lemma grows_trans b1 b2 b3 : grows b1 b2 → grows b2 b3 → grows b1 b3.
Proof. intros [H1 H2] [H3 H4]. split; [lia | by etrans]. Qed.

Lemma growsG_ret {R A} (a : A) : growsG (@ret R A a).
Proof. intros b. apply grows_refl. Qed.

Lemma growsG_return {R A} (r : R) : growsG (@return_ R A r).
Proof. intros b. apply grows_refl. Qed.

Lemma growsG_panic {R A} k : growsG (@panic R A k).
Proof. by intros b. Qed.

Lemma growsG_get {R} : growsG (@get R).
Proof. intros b. apply grows_refl. Qed.

Lemma growsG_bind {R A B} (m : G R A) (k : A → G R B) :
  growsG m → (∀ a, growsG (k a)) → growsG (bind m k).
Proof.
  intros Hm Hk b. unfold bind. specialize (Hm b).
  destruct (m b) as [a b'|r b'|p]; [|done..].
  specialize (Hk a b'). destruct (k a b'); [| |done]; by eapply grows_trans.
Qed.

Lemma growsG_call {R A} (f : Fn A) : growsF f → growsG (@call R A f).
Proof. intros Hf b. unfold call. specialize (Hf b). by destruct (f b). Qed.

Lemma growsF_fn {R} (body : G R R) : growsG body → growsF (fn body).
Proof. intros Hb b. unfold fn. specialize (Hb b). by destruct (body b). Qed.

Lemma growsG_modify {R} f : (∀ b, grows b (f b)) → growsG (@modify R f).
Proof. intros Hf b. apply Hf. Qed.

Lemma growsG_latch {R} e : growsG (@latch R e).
Proof. intros b. split; simpl; [lia | done]. Qed.

Lemma growsG_bail {R} (r : R) : growsG (bail r).
Proof. intros b. unfold bail. destruct (err b); apply grows_refl. Qed.

Lemma growsG_try {R A} (t : Try A) : growsG (@try R A t).
Proof. destruct t; [apply growsG_ret | apply growsG_panic]. Qed.

Lemma growsG_index {R A} (s : list A) i : growsG (@index R A s i).
Proof.
  unfold index. case_decide; [|apply growsG_panic].
  destruct (s !! _); [apply growsG_ret | apply growsG_panic].
Qed.

Lemma growsG_index_nat {R A} (s : list A) i : growsG (@index_nat R A s i).
Proof. unfold index_nat. destruct (s !! _); [apply growsG_ret | apply growsG_panic]. Qed.

Lemma growsG_slice_to {R A} (s : list A) n : growsG (@slice_to R A s n).
Proof. unfold slice_to. case_decide; [apply growsG_ret | apply growsG_panic]. Qed.

Lemma growsG_copy_within {R A} a b c d (s : list A) :
  growsG (@copy_within R A a b c d s).
Proof. unfold copy_within. case_decide; [apply growsG_ret | apply growsG_panic]. Qed.

Lemma growsG_Schema_of {R} p : growsG (@Schema_of R p).
Proof. destruct p; [apply growsG_ret | apply growsG_panic]. Qed.

Lemma growsG_asExprNode {R} n : growsG (@asExprNode R n).
Proof. destruct n as [[]|]; first [apply growsG_ret | apply growsG_panic]. Qed.

Lemma growsF_allocID : growsF allocID.
Proof. intros b. split; simpl; [lia | done]. Qed.

Lemma growsF_init k : growsF (init k).
Proof.
  apply growsF_fn, growsG_bind; [apply growsG_call, growsF_allocID|].
  intros; apply growsG_ret.
Qed.

Lemma growsG_rewriteG {R} e p m s :
  grows_ext ext → growsG (@rewriteG ext R e p m s).
Proof.
  intros [H _] b. unfold rewriteG. specialize (H e p m s b).
  by destruct (rewrite e p m s b).
Qed.

End Grows.

Create HintDb grows discriminated.
#[global] Hint Resolve growsG_ret growsG_return growsG_panic growsG_get
  growsG_latch growsG_bail growsG_try growsG_index growsG_index_nat
  growsG_slice_to growsG_copy_within growsG_Schema_of growsG_asExprNode
  growsF_allocID growsF_init growsG_rewriteG : grows.

(** One step on a goal [growsG m] or [growsF f]: by the shape of the
    statement, by case analysis of what it branches on, or by a lemma
    already proved. *)
Ltac grows_step :=
  lazymatch goal with
  | |- growsG (bind _ _) => apply growsG_bind; [| intros ?]
  | |- growsG (call _) => apply growsG_call
  | |- growsF (fn _) => apply growsF_fn
  | |- growsG (modify _) =>
      apply growsG_modify; intros ?; split; simpl;
      [lia | first [reflexivity | by apply prefix_app_r]]
  | |- growsG (match ?x with _ => _ end) => destruct x eqn:?
  | |- growsF (match ?x with _ => _ end) => destruct x eqn:?
  | |- growsG (let (_, _) := ?x in _) => destruct x eqn:?
  | |- _ => solve [eauto with grows]
  end.

Ltac grows_tac := repeat grows_step.

Section GrowsBuilders.
Context {ext : Externals} (Hext : grows_ext ext).

Local Hint Resolve Hext : grows.

Lemma grows_aggArgsLoop args p acc : growsG (aggArgsLoop args p acc).
Proof. revert p acc. induction args as [|arg rest IH]; intros; simpl; grows_tac. Qed.
Local Hint Resolve grows_aggArgsLoop : grows.

Lemma grows_aggFuncLoop aggID l i st : growsG (aggFuncLoop aggID l i st).
Proof. revert i st. induction l as [|f rest IH]; intros; simpl; grows_tac. Qed.
Local Hint Resolve grows_aggFuncLoop : grows.

Lemma grows_buildAggregation p l gby : growsF (buildAggregation p l gby).
Proof. unfold buildAggregation. grows_tac. Qed.

Lemma grows_extractTableAlias {R} p : growsG (@extractTableAlias R p).
Proof. unfold extractTableAlias. grows_tac. Qed.

Lemma grows_coalesceStep {R} i st : growsG (@coalesceStep R i st).
Proof. unfold coalesceStep. grows_tac. Qed.
Local Hint Resolve grows_coalesceStep : grows.

Lemma grows_coalesceLoop {R} idxs st : growsG (@coalesceLoop R idxs st).
Proof. revert st. induction idxs as [|i rest IH]; intros; simpl; grows_tac. Qed.

Lemma grows_coalesceConds p lsc rsc idxs conds :
  growsG (coalesceConds p lsc rsc idxs conds).
Proof. revert conds. induction idxs as [|i rest IH]; intros; simpl; grows_tac. Qed.
Local Hint Resolve grows_coalesceLoop grows_coalesceConds : grows.

Lemma grows_coalesceCommonColumns p l r rj f :
  growsF (coalesceCommonColumns p l r rj f).
Proof. unfold coalesceCommonColumns. grows_tac. Qed.
Local Hint Resolve grows_coalesceCommonColumns grows_extractTableAlias : grows.

Lemma grows_buildUsingClause p l r tp cols : growsF (buildUsingClause p l r tp cols).
Proof. unfold buildUsingClause. grows_tac. Qed.

Lemma grows_buildNaturalJoin p l r tp : growsF (buildNaturalJoin p l r tp).
Proof. unfold buildNaturalJoin. grows_tac. Qed.
Local Hint Resolve grows_buildUsingClause grows_buildNaturalJoin : grows.

Lemma grows_selectionLoop conds m p exprs : growsG (selectionLoop conds m p exprs).
Proof. revert p exprs. induction conds as [|c rest IH]; intros; simpl; grows_tac. Qed.
Local Hint Resolve grows_selectionLoop : grows.

Lemma grows_buildSelection p w m : growsF (buildSelection p w m).
Proof. unfold buildSelection. grows_tac. Qed.

Lemma grows_fieldNameFromExpressions {R} f :
  growsG (@buildProjectionFieldNameFromExpressions ext R f).
Proof. unfold buildProjectionFieldNameFromExpressions. grows_tac. Qed.
Local Hint Resolve grows_fieldNameFromExpressions : grows.

Lemma grows_buildProjectionField {R} i pos f e :
  growsG (@buildProjectionField ext R i pos f e).
Proof. unfold buildProjectionField. grows_tac. Qed.

Lemma grows_rewriteField {R} f p m s : growsG (@rewriteField ext R f p m s).
Proof. unfold rewriteField. grows_tac. Qed.
Local Hint Resolve grows_buildProjectionField grows_rewriteField : grows.

Lemma grows_projectionLoop pid fields m st : growsG (projectionLoop pid fields m st).
Proof. revert st. induction fields as [|f rest IH]; intros; simpl; grows_tac. Qed.
Local Hint Resolve grows_projectionLoop : grows.

Lemma grows_buildProjection p fields m : growsF (buildProjection p fields m).
Proof. unfold buildProjection. grows_tac. Qed.

Lemma grows_buildDistinct p n : growsF (buildDistinct p n).
Proof. unfold buildDistinct. grows_tac. Qed.

Lemma grows_sortLoop items m p exprs : growsG (sortLoop items m p exprs).
Proof. revert p exprs. induction items as [|c rest IH]; intros; simpl; grows_tac. Qed.
Local Hint Resolve grows_sortLoop : grows.

Lemma grows_buildSort p items m : growsF (buildSort p items m).
Proof. unfold buildSort. grows_tac. Qed.

Lemma grows_buildLimit p l : growsF (buildLimit p l).
Proof. unfold buildLimit. grows_tac. Qed.

Lemma grows_set_err {R} e : growsG (λ b, @Next R unit tt (set_err e b)).
Proof. intros b. split; simpl; [lia | done]. Qed.
Local Hint Resolve grows_set_err : grows.

Lemma grows_orderByLoop c h items done ex : growsG (orderByLoop c h items done ex).
Proof. revert done ex. induction items as [|i rest IH]; intros; simpl; grows_tac. Qed.
Local Hint Resolve grows_orderByLoop : grows.

Lemma grows_resolveHavingAndOrderBy c gby p : growsF (resolveHavingAndOrderBy c gby p).
Proof. unfold resolveHavingAndOrderBy. grows_tac. Qed.

Lemma grows_extractAggLoop {R} fields done ex : growsG (@extractAggLoop ext R fields done ex).
Proof. revert done ex. induction fields as [|f rest IH]; intros; simpl; grows_tac. Qed.
Local Hint Resolve grows_extractAggLoop : grows.

Lemma grows_extractAggFuncs fields : growsF (extractAggFuncs fields).
Proof. unfold extractAggFuncs. grows_tac. Qed.

Lemma grows_gbyItemsLoop items st : growsG (gbyItemsLoop items st).
Proof. revert st. induction items as [|i rest IH]; intros; simpl; grows_tac. Qed.
Local Hint Resolve grows_gbyItemsLoop : grows.

Lemma grows_resolveGbyExprs p gby fields : growsF (resolveGbyExprs p gby fields).
Proof. unfold resolveGbyExprs. grows_tac. Qed.

Lemma grows_unfoldLoop p fields i acc : growsG (unfoldLoop p fields i acc).
Proof. revert i acc. induction fields as [|f rest IH]; intros; simpl; grows_tac. Qed.
Local Hint Resolve grows_unfoldLoop : grows.

Lemma grows_unfoldWildStar p fields : growsF (unfoldWildStar p fields).
Proof. unfold unfoldWildStar. grows_tac. Qed.

Lemma grows_buildTableDual : growsF buildTableDual.
Proof. unfold buildTableDual. grows_tac. Qed.

Lemma grows_buildDataSource tn : growsF (buildDataSource tn).
Proof. unfold buildDataSource. grows_tac. Qed.

Lemma grows_buildSelectLock p l : growsF (buildSelectLock p l).
Proof. apply Hext. Qed.

Local Hint Resolve grows_buildAggregation grows_buildSelection grows_buildProjection
  grows_buildDistinct grows_buildSort grows_buildLimit grows_resolveHavingAndOrderBy
  grows_extractAggFuncs grows_resolveGbyExprs grows_unfoldWildStar
  grows_buildTableDual grows_buildDataSource grows_buildSelectLock : grows.

Lemma grows_joinPlans c l r : growsG (joinPlans c l r).
Proof. unfold joinPlans. grows_tac. Qed.

Lemma grows_unionBranch cols sel : growsG (unionBranch cols sel).
Proof. unfold unionBranch. grows_tac. Qed.
Local Hint Resolve grows_unionBranch : grows.

Lemma grows_unionLoop branches done cols : growsG (unionLoop branches done cols).
Proof. revert done cols. induction branches as [|x rest IH]; intros; simpl; grows_tac. Qed.
Local Hint Resolve grows_unionLoop : grows.

Lemma grows_unionPlans c u branches : growsG (unionPlans c u branches).
Proof. unfold unionPlans. grows_tac. Qed.

Lemma grows_selectBody c hasAgg p : growsG (selectBody c hasAgg p).
Proof. unfold selectBody. grows_tac. Qed.
Local Hint Resolve grows_joinPlans grows_unionPlans grows_selectBody : grows.

Lemma grows_pushTableHints hints : growsF (pushTableHints hints).
Proof. unfold pushTableHints. grows_tac. Qed.

Lemma grows_popTableHints : growsF popTableHints.
Proof. unfold popTableHints. grows_tac. Qed.

Lemma growsF_defer {R} (d : Fn unit) (body : Fn R) :
  growsF d → growsF body → growsF (defer d body).
Proof.
  intros Hd Hbody b. unfold defer. specialize (Hbody b).
  destruct (body b) as [r b'|]; [|done]. specialize (Hd b').
  destruct (d b'); [|done]. by eapply grows_trans.
Qed.

(** [buildSelect] around its body. *)
Lemma grows_buildSelect_step From c :
  match From with
  | ast.TableRefs j => growsF (buildJoin j)
  | ast.NoFrom => True
  end →
  growsF (buildSelect (ast.mkSelectStmt From c)).
Proof.
  intros HFrom b. simpl.
  set (body := fn (bind _ _)).
  assert (Hbody : growsF body).
  { subst body. grows_tac. }
  set (pushed := match ast.TableHints c with [] => _ | _ => _ end).
  assert (Hpush : match pushed with Ok _ b1 => grows b b1 | Crash _ => True end).
  { subst pushed. destruct (ast.TableHints c) as [|h hs]; [apply grows_refl|].
    apply grows_pushTableHints. }
  destruct pushed as [flag b1|]; [|done].
  assert (Hd : growsF (defer (if flag then popTableHints else fn (ret tt)) body)).
  { apply growsF_defer; [|done]. destruct flag; [apply grows_popTableHints | grows_tac]. }
  specialize (Hd b1). destruct (defer _ _ b1); [|done]. by eapply grows_trans.
Qed.

(** Every builder of a statement only allocates ids and adds privilege
    entries. *)
Lemma grows_statements :
  (∀ node, growsF (buildResultSetNode node))
  ∧ (∀ join, growsF (buildJoin join))
  ∧ (∀ right, match right with
              | ast.HasRight n => growsF (buildResultSetNode n)
              | ast.NoRight => True
              end)
  ∧ (∀ sel, growsF (buildSelect sel))
  ∧ (∀ from, match from with
             | ast.TableRefs j => growsF (buildJoin j)
             | ast.NoFrom => True
             end)
  ∧ (∀ union, growsF (buildUnion union))
  ∧ (∀ sels done, growsG (buildSelects sels done)).
Proof.
  apply ast.stmt_mutind.
  - (* RJoin *) intros j Hj. exact Hj.
  - (* RTableSource *)
    intros Source HSource AsName. simpl.
    destruct Source; simpl in *; grows_tac.
  - (* RSelectStmt *) intros s Hs. exact Hs.
  - (* RUnionStmt *) intros u Hu. exact Hu.
  - (* RTableName *) intros tn. simpl. grows_tac.
  - (* mkJoin *)
    intros Left HLeft Right HRight c.
    destruct Right as [|Right]; simpl; [exact HLeft|].
    grows_tac.
  - done.
  - intros n Hn. exact Hn.
  - (* mkSelectStmt *) intros From HFrom c. by apply grows_buildSelect_step.
  - done.
  - intros j Hj. exact Hj.
  - (* mkUnionStmt *)
    intros Selects HSelects c. simpl. grows_tac.
  - (* SelNil *) intros done. simpl. grows_tac.
  - (* SelCons *)
    intros sel Hsel rest Hrest done. simpl. grows_tac.
Qed.

End GrowsBuilders.


Section GrowsMore.
Context {ext : Externals} {xext : ExprExternals} (Hext : grows_ext ext).

Local Hint Resolve Hext grows_buildSelection grows_buildSort grows_buildLimit
  grows_buildTableDual : grows.

Lemma grows_existsLoop {R} p : growsG (@existsLoop R p).
Proof.
  induction p as [k i s cs IH] using LogicalPlan_ind'.
  assert (Hfirst : growsG (match cs with
                           | [] => panic IndexOutOfRange
                           | c :: _ => @existsLoop R c
                           end)).
  { destruct cs as [|c cs]; [apply growsG_panic|]. by apply Forall_cons in IH as [IH _]. }
  destruct k; simpl; try exact Hfirst; try apply growsG_ret.
  case_bool_decide; [|exact Hfirst]. apply growsG_call, grows_buildTableDual.
Qed.
Local Hint Resolve grows_existsLoop : grows.

Lemma grows_buildExists p : growsF (buildExists p).
Proof. unfold buildExists. grows_tac. Qed.

Lemma grows_buildMaxOneRow p : growsF (buildMaxOneRow p).
Proof. unfold buildMaxOneRow. grows_tac. Qed.

Lemma grows_buildApplyWithJoinType o i tp : growsF (buildApplyWithJoinType o i tp).
Proof. unfold buildApplyWithJoinType. grows_tac. Qed.

Lemma grows_decorrelateAll {R} o conds : growsG (@decorrelateAll xext R o conds).
Proof. unfold decorrelateAll. grows_tac. Qed.
Local Hint Resolve grows_decorrelateAll : grows.

Lemma grows_buildSemiJoin o i conds s n : growsF (buildSemiJoin o i conds s n).
Proof. unfold buildSemiJoin. grows_tac. Qed.
Local Hint Resolve grows_buildSemiJoin : grows.

Lemma grows_buildSemiApply o i conds s n : growsF (buildSemiApply o i conds s n).
Proof. unfold buildSemiApply. grows_tac. Qed.

Lemma deleteListedInfo_prefix vi tables : vi `prefix_of` deleteListedInfo vi tables.
Proof.
  revert vi. induction tables as [|t rest IH]; intros vi; simpl; [done|].
  etrans; [|apply IH]. by apply prefix_app_r.
Qed.

Lemma deleteFromInfo_prefix vi tables : vi `prefix_of` deleteFromInfo vi tables.
Proof.
  revert vi. induction tables as [|t rest IH]; intros vi; simpl; [done|].
  etrans; [|apply IH]. by apply prefix_app_r.
Qed.

Lemma grows_buildDelete delete : growsF (buildDelete delete).
Proof.
  destruct (grows_statements Hext) as (_ & Hjoin & _).
  unfold buildDelete.
  apply growsF_fn, growsG_bind; [grows_tac|]. intros _.
  apply growsG_bind; [apply growsG_call, Hjoin|]. intros p.
  do 5 (apply growsG_bind; [grows_tac | intros ?]).
  apply growsG_bind; [|intros; apply growsG_ret].
  apply growsG_modify. intros b. split; simpl; [lia|].
  destruct (d_Tables delete); [apply deleteListedInfo_prefix | apply deleteFromInfo_prefix].
Qed.

End GrowsMore.

(** No builder of a statement removes or changes a privilege entry: the
    entries of the builder that is returned begin with the entries of the
    builder that was given.  The collaborators that take the builder are
    assumed to do the same. *)
Theorem visitInfo_only_appended (ext : Externals) :
  grows_ext ext →
  (∀ node b p b', buildResultSetNode node b = Ok p b' →
                  b_visitInfo b `prefix_of` b_visitInfo b')
  ∧ (∀ join b p b', buildJoin join b = Ok p b' → b_visitInfo b `prefix_of` b_visitInfo b')
  ∧ (∀ sel b p b', buildSelect sel b = Ok p b' → b_visitInfo b `prefix_of` b_visitInfo b')
  ∧ (∀ union b p b', buildUnion union b = Ok p b' →
                     b_visitInfo b `prefix_of` b_visitInfo b')
  ∧ (∀ delete b p b', buildDelete delete b = Ok p b' →
                      b_visitInfo b `prefix_of` b_visitInfo b').
Proof.
  intros Hext.
  destruct (grows_statements Hext) as (Hnode & Hjoin & _ & Hsel & _ & Hunion & _).
  pose proof (grows_buildDelete Hext) as Hdelete.
  repeat split.
  - intros node b p b' Hrun. specialize (Hnode node b). rewrite Hrun in Hnode. apply Hnode.
  - intros join b p b' Hrun. specialize (Hjoin join b). rewrite Hrun in Hjoin. apply Hjoin.
  - intros sel b p b' Hrun. specialize (Hsel sel b). rewrite Hrun in Hsel. apply Hsel.
  - intros union b p b' Hrun. specialize (Hunion union b). rewrite Hrun in Hunion.
    apply Hunion.
  - intros delete b p b' Hrun. specialize (Hdelete delete b). rewrite Hrun in Hdelete.
    apply Hdelete.
Qed.

Lemma sample_rewriter_grows e p m s b : grows b (sample.rewriter e p m s b).2.
Proof.
  revert p m s b. induction e; intros p m s b; simpl;
    try solve [apply grows_refl | auto].
  - destruct (sample.findColumn _ _) as [[?|] [?|]]; apply grows_refl.
  - destruct (sample.lookupNode _ _); [destruct (_ !! _)|]; apply grows_refl.
  - destruct (sample.rewriter e1 p m true b) as [rl b1] eqn:H1.
    pose proof (IHe1 p m true b) as IH1. rewrite H1 in IH1. simpl in IH1.
    destruct (rw_err rl), (rw_expr rl); try done.
    destruct (sample.rewriter e2 (rw_plan rl) m true b1) as [rr b2] eqn:H2.
    pose proof (IHe2 (rw_plan rl) m true b1) as IH2. rewrite H2 in IH2. simpl in IH2.
    destruct (rw_err rr), (rw_expr rr); simpl; by eapply grows_trans.
  - destruct s; [apply grows_refl|]. split; simpl; [lia | done].
Qed.

Lemma sample_grows : grows_ext sample.externals.
Proof.
  split; [exact sample_rewriter_grows|].
  intros p l. simpl. unfold sample.lockOver. grows_tac.
Qed.

Lemma visitInfo_only_appended_witness :
  match hinted_run with
  | Ok _ b' => b_visitInfo hinted_builder `prefix_of` b_visitInfo b'
  | Crash _ => False
  end
  ∧ match delete_run with
    | Ok _ b' => b_visitInfo sample.builder0 `prefix_of` b_visitInfo b'
    | Crash _ => False
    end.
Proof.
  destruct (visitInfo_only_appended sample.externals sample_grows)
    as (_ & _ & Hsel & _ & Hdelete).
  split.
  - specialize (Hsel hinted_select hinted_builder).
    assert (Hrun : @buildSelect sample.externals hinted_select hinted_builder = hinted_run)
      by (vm_compute; reflexivity).
    rewrite Hrun in Hsel. exact (Hsel _ _ eq_refl).
  - specialize (Hdelete (delete_t_where "a") sample.builder0).
    assert (Hrun : @buildDelete sample.externals (delete_t_where "a") sample.builder0
                   = delete_run) by (vm_compute; reflexivity).
    rewrite Hrun in Hdelete. exact (Hdelete _ _ eq_refl).
Defined.
(** ** Errors and nil results *)

Section Quiet.
Context {ext : Externals}.

Lemma quietG_ret {R A} nil (a : A) : quietG nil (@ret R A a).
Proof. by intros b Hb. Qed.

Lemma quietG_return {R A} nil (r : R) : quietG nil (@return_ R A r).
Proof. intros b Hb. by left. Qed.

Lemma quietG_panic {R A} nil k : quietG nil (@panic R A k).
Proof. by intros b Hb. Qed.

Lemma quietG_get {R} nil : quietG nil (@get R).
Proof. by intros b Hb. Qed.

Lemma quietG_bind {R A B} nil (m : G R A) (k : A → G R B) :
  quietG nil m → (∀ a, quietG nil (k a)) → quietG nil (bind m k).
Proof.
  intros Hm Hk b Hb. unfold bind. specialize (Hm b Hb).
  destruct (m b) as [a b'|r b'|p]; [|done..]. by apply Hk.
Qed.

(** A statement that latches an error and returns: the result is nil. *)
Lemma quietG_latch_return {R A} (nil : R → Prop) e r :
  nil r → quietG nil (bind (latch e) (λ _, @return_ R A r)).
Proof. intros Hr b Hb. by right. Qed.

Lemma quietG_set_err_return {R A} (nil : R → Prop) e r :
  nil r → quietG nil (bind (λ b, Next tt (set_err e b)) (λ _, @return_ R A r)).
Proof. intros Hr b Hb. by right. Qed.

(** A call followed by the check of the error: whatever the call does. *)
Lemma quietG_checked {R A B} (nil : R → Prop) (f : Fn A) r (k : A → G R B) :
  nil r → (∀ a, quietG nil (k a)) →
  quietG nil (bind (call f) (λ a, bind (bail r) (λ _, k a))).
Proof.
  intros Hr Hk b Hb. unfold bind, call, bail.
  destruct (f b) as [a b1|]; [|done].
  destruct (err b1) eqn:Hb1; [by right|]. by apply Hk.
Qed.

Lemma quietG_call {R A} nil (f : Fn A) : quietF f → quietG nil (@call R A f).
Proof. intros Hf b Hb. unfold call. specialize (Hf b Hb). by destruct (f b). Qed.

Lemma quietF_fn {R} (body : G R R) : quietG (λ _, False) body → quietF (fn body).
Proof.
  intros Hbody b Hb. unfold fn. specialize (Hbody b Hb).
  destruct (body b); [done | by destruct Hbody | done].
Qed.

Lemma nil_on_error_fn {R} (nil : R → Prop) (body : G R R) :
  quietG nil body → nil_on_error nil (fn body).
Proof.
  intros Hbody b r b' Hb Hrun Herr. unfold fn in Hrun. specialize (Hbody b Hb).
  destruct (body b) as [r1 b1|r1 b1|]; [| |done]; injection Hrun as -> ->; [done|].
  by destruct Hbody.
Qed.

Lemma quietG_modify {R} nil f : (∀ b, err (f b) = err b) → quietG nil (@modify R f).
Proof. intros Hf b Hb. simpl. by rewrite Hf. Qed.

Lemma quietG_bail {R} nil (r : R) : quietG nil (bail r).
Proof. intros b Hb. unfold bail. by rewrite Hb. Qed.

Lemma quietG_try {R A} nil (t : Try A) : quietG nil (@try R A t).
Proof. destruct t; [apply quietG_ret | apply quietG_panic]. Qed.

Lemma quietG_index {R A} nil (s : list A) i : quietG nil (@index R A s i).
Proof.
  unfold index. case_decide; [|apply quietG_panic].
  destruct (s !! _); [apply quietG_ret | apply quietG_panic].
Qed.

Lemma quietG_index_nat {R A} nil (s : list A) i : quietG nil (@index_nat R A s i).
Proof. unfold index_nat. destruct (s !! _); [apply quietG_ret | apply quietG_panic]. Qed.

Lemma quietG_slice_to {R A} nil (s : list A) n : quietG nil (@slice_to R A s n).
Proof. unfold slice_to. case_decide; [apply quietG_ret | apply quietG_panic]. Qed.

Lemma quietG_copy_within {R A} nil a b c d (s : list A) :
  quietG nil (@copy_within R A a b c d s).
Proof. unfold copy_within. case_decide; [apply quietG_ret | apply quietG_panic]. Qed.

Lemma quietG_Schema_of {R} nil p : quietG nil (@Schema_of R p).
Proof. destruct p; [apply quietG_ret | apply quietG_panic]. Qed.

Lemma quietG_asExprNode {R} nil n : quietG nil (@asExprNode R n).
Proof. destruct n as [[]|]; first [apply quietG_ret | apply quietG_panic]. Qed.

Lemma quietF_allocID : quietF allocID.
Proof. by intros b Hb. Qed.

Lemma quietF_init k : quietF (init k).
Proof. by intros b Hb. Qed.

Lemma quietG_rewriteG {R} nil e p m s :
  err_untouched ext → quietG nil (@rewriteG ext R e p m s).
Proof.
  intros H b Hb. unfold rewriteG. specialize (H e p m s b).
  destruct (rewrite e p m s b). simpl in H. congruence.
Qed.

End Quiet.

Create HintDb quiet discriminated.
#[global] Hint Resolve quietG_ret quietG_return quietG_panic quietG_get
  quietG_bail quietG_try quietG_index quietG_index_nat
  quietG_slice_to quietG_copy_within quietG_Schema_of quietG_asExprNode
  quietF_allocID quietF_init quietG_rewriteG : quiet.

(** One step on a goal [quietG nil m], [quietF f] or [nil_on_error nil f],
    by the shape of the statement. *)
Ltac quiet_step :=
  lazymatch goal with
  | |- quietG _ (bind (latch _) (λ _, return_ _)) =>
      apply quietG_latch_return; simpl; reflexivity
  | |- quietG _ (bind (λ b, Next tt (set_err _ b)) (λ _, return_ _)) =>
      apply quietG_set_err_return; simpl; reflexivity
  | |- quietG _ (bind (call _) (λ _, bind (bail _) _)) =>
      apply quietG_checked; [simpl; reflexivity | intros ?]
  | |- quietG _ (bind _ _) => apply quietG_bind; [| intros ?]
  | |- quietG _ (call _) => apply quietG_call
  | |- quietF (fn _) => apply quietF_fn
  | |- nil_on_error _ (fn _) => apply nil_on_error_fn
  | |- quietG _ (modify _) => apply quietG_modify; intros ?; reflexivity
  | |- quietG _ (match ?x with _ => _ end) => destruct x eqn:?
  | |- quietG _ (let (_, _) := ?x in _) => destruct x eqn:?
  | |- _ => solve [eauto with quiet]
  end.

Ltac quiet := repeat quiet_step.

Section QuietBuilders.
Context {ext : Externals} (Hext : err_untouched ext).

Local Hint Resolve Hext : quiet.

Lemma quiet_selectionLoop conds m p exprs :
  quietG (λ r, r = None) (selectionLoop conds m p exprs).
Proof. revert p exprs. induction conds as [|c rest IH]; intros; simpl; quiet. Qed.
Local Hint Resolve quiet_selectionLoop : quiet.

Lemma buildSelection_nil p w m : nil_on_error (λ r, r = None) (buildSelection p w m).
Proof. unfold buildSelection. quiet. Qed.

Lemma quiet_sortLoop items m p exprs :
  quietG (λ r, r = None) (sortLoop items m p exprs).
Proof. revert p exprs. induction items as [|c rest IH]; intros; simpl; quiet. Qed.
Local Hint Resolve quiet_sortLoop : quiet.

Lemma buildSort_nil p items m : nil_on_error (λ r, r = None) (buildSort p items m).
Proof. unfold buildSort. quiet. Qed.

Lemma buildLimit_nil p l : nil_on_error (λ r, r = None) (buildLimit p l).
Proof. unfold buildLimit. quiet. Qed.

Lemma quiet_fieldNameFromExpressions {R} nil f :
  quietG nil (@buildProjectionFieldNameFromExpressions ext R f).
Proof. unfold buildProjectionFieldNameFromExpressions. quiet. Qed.
Local Hint Resolve quiet_fieldNameFromExpressions : quiet.

Lemma quiet_buildProjectionField {R} nil i pos f e :
  quietG nil (@buildProjectionField ext R i pos f e).
Proof. unfold buildProjectionField. quiet. Qed.

Lemma quiet_rewriteField {R} nil f p m s : quietG nil (@rewriteField ext R f p m s).
Proof. unfold rewriteField. quiet. Qed.
Local Hint Resolve quiet_buildProjectionField quiet_rewriteField : quiet.

Lemma quiet_projectionLoop pid fields m st :
  quietG (λ r, r.1 = None) (projectionLoop pid fields m st).
Proof. revert st. induction fields as [|f rest IH]; intros; simpl; quiet. Qed.
Local Hint Resolve quiet_projectionLoop : quiet.

Lemma buildProjection_nil p fields m :
  nil_on_error (λ r, r.1 = None) (buildProjection p fields m).
Proof. unfold buildProjection. quiet. Qed.

Lemma quiet_aggArgsLoop args p acc : quietG (λ r, r.1 = None) (aggArgsLoop args p acc).
Proof. revert p acc. induction args as [|arg rest IH]; intros; simpl; quiet. Qed.
Local Hint Resolve quiet_aggArgsLoop : quiet.

Lemma quiet_aggFuncLoop aggID l i st : quietG (λ r, r.1 = None) (aggFuncLoop aggID l i st).
Proof. revert i st. induction l as [|f rest IH]; intros; simpl; quiet. Qed.
Local Hint Resolve quiet_aggFuncLoop : quiet.

Lemma buildAggregation_nil p l gby :
  nil_on_error (λ r, r.1 = None) (buildAggregation p l gby).
Proof. unfold buildAggregation. quiet. Qed.

Lemma buildDataSource_nil tn : nil_on_error (λ r, r = None) (buildDataSource tn).
Proof. unfold buildDataSource. quiet. Qed.

Lemma quiet_gbyItemsLoop items st :
  quietG (λ r, r.1.1 = None) (gbyItemsLoop items st).
Proof. revert st. induction items as [|i rest IH]; intros; simpl; quiet. Qed.
Local Hint Resolve quiet_gbyItemsLoop : quiet.

Lemma resolveGbyExprs_nil p gby fields :
  nil_on_error (λ r, r.1.1 = None) (resolveGbyExprs p gby fields).
Proof. unfold resolveGbyExprs. quiet. Qed.

Lemma quietF_buildDistinct p n : quietF (buildDistinct p n).
Proof. unfold buildDistinct. quiet. Qed.

End QuietBuilders.

(** A constructor that fails returns nil.  Called without an error, each of
    [buildSelection], [buildSort], [buildLimit], [buildDataSource],
    [buildProjection], [buildAggregation] and [resolveGbyExprs] returns
    with an error only a nil plan.  The rewriter is assumed to report its
    errors through its result only. *)
Theorem constructors_nil_on_error (ext : Externals) :
  err_untouched ext →
  (∀ p where_ m, nil_on_error (λ r, r = None) (buildSelection p where_ m))
  ∧ (∀ p items m, nil_on_error (λ r, r = None) (buildSort p items m))
  ∧ (∀ p limit, nil_on_error (λ r, r = None) (buildLimit p limit))
  ∧ (∀ tn, nil_on_error (λ r, r = None) (buildDataSource tn))
  ∧ (∀ p fields m, nil_on_error (λ r, r.1 = None) (buildProjection p fields m))
  ∧ (∀ p l gby, nil_on_error (λ r, r.1 = None) (buildAggregation p l gby))
  ∧ (∀ p gby fields, nil_on_error (λ r, r.1.1 = None) (resolveGbyExprs p gby fields)).
Proof.
  intros Hext. repeat split.
  - apply (buildSelection_nil Hext).
  - apply (buildSort_nil Hext).
  - apply (buildLimit_nil).
  - apply (buildDataSource_nil).
  - apply (buildProjection_nil Hext).
  - apply (buildAggregation_nil Hext).
  - apply (resolveGbyExprs_nil Hext).
Qed.
(** ** The error at the end of a statement *)

Section Tidy.

Lemma retokG_ret {R A} nil (a : A) : retokG nil (@ret R A a).
Proof. by intros b. Qed.

Lemma retokG_call {R A} nil (f : Fn A) : retokG nil (@call R A f).
Proof. intros b. unfold call. by destruct (f b). Qed.

Lemma retokG_bail {R} (nil : R → Prop) r : nil r → retokG nil (bail r).
Proof. intros Hr b. unfold bail. destruct (err b); [by right | done]. Qed.

Lemma retokG_modify {R} nil f : retokG nil (@modify R f).
Proof. by intros b. Qed.

Lemma retokG_bind {R A B} nil (m : G R A) (k : A → G R B) :
  retokG nil m → (∀ a, retokG nil (k a)) → retokG nil (bind m k).
Proof.
  intros Hm Hk b. unfold bind. specialize (Hm b).
  destruct (m b) as [a b'|r b'|p]; [|done..]. apply Hk.
Qed.

(** A body that goes on after a first part that returns as it should. *)
Lemma tidyG_bind {R A B} nil (m : G R A) (k : A → G R B) :
  retokG nil m → (∀ a, tidyG nil (k a)) → tidyG nil (bind m k).
Proof.
  intros Hm Hk b. unfold bind. specialize (Hm b).
  destruct (m b) as [a b'|r b'|p]; [|done..]. apply Hk.
Qed.

(** After a check of the error, what follows starts without an error. *)
Lemma tidyG_bail {R B} (nil : R → Prop) r (k : unit → G R B) :
  nil r → (∀ a, quietG nil (k a)) → tidyG nil (bind (bail r) k).
Proof.
  intros Hr Hk b. unfold bind, bail.
  destruct (err b) eqn:Hb; [by right|]. by apply Hk.
Qed.

Lemma bailingG_ret {R A} (a : A) : bailingG (@ret (option R) A a).
Proof. by intros b. Qed.

Lemma bailingG_call {R A} (f : Fn A) : bailingG (@call (option R) A f).
Proof. intros b. unfold call. by destruct (f b). Qed.

Lemma bailingG_bail {R} : bailingG (@bail (option R) None).
Proof. intros b. unfold bail. destruct (err b) eqn:Hb; [|done]. split; congruence. Qed.

Lemma bailingG_modify {R} f : bailingG (@modify (option R) f).
Proof. by intros b. Qed.

Lemma bailingG_bind {R A B} (m : G (option R) A) (k : A → G (option R) B) :
  bailingG m → (∀ a, bailingG (k a)) → bailingG (bind m k).
Proof.
  intros Hm Hk b. unfold bind. specialize (Hm b).
  destruct (m b) as [a b'|r b'|p]; [|done..]. apply Hk.
Qed.

End Tidy.

Ltac retok_step :=
  lazymatch goal with
  | |- retokG _ (bind _ _) => apply retokG_bind; [| intros ?]
  | |- retokG _ (call _) => apply retokG_call
  | |- retokG _ (ret _) => apply retokG_ret
  | |- retokG _ (modify _) => apply retokG_modify
  | |- retokG _ (bail _) => apply retokG_bail; reflexivity
  | |- retokG _ (match ?x with _ => _ end) => destruct x eqn:?
  | |- retokG _ (let (_, _) := ?x in _) => destruct x eqn:?
  end.

Ltac retok := repeat retok_step.

Ltac bailing_step :=
  lazymatch goal with
  | |- bailingG (bind _ _) => apply bailingG_bind; [| intros ?]
  | |- bailingG (call _) => apply bailingG_call
  | |- bailingG (ret _) => apply bailingG_ret
  | |- bailingG (modify _) => apply bailingG_modify
  | |- bailingG (bail _) => apply bailingG_bail
  | |- bailingG (match ?x with _ => _ end) => destruct x eqn:?
  | |- bailingG (let (_, _) := ?x in _) => destruct x eqn:?
  end.

Ltac bailing := repeat bailing_step.

Section SelectErrors.
Context {ext : Externals}.

Lemma tidy_selectBody c hasAgg p : tidyG (λ r, r = None) (selectBody c hasAgg p).
Proof.
  unfold selectBody.
  apply tidyG_bind; [retok | intros _].
  apply tidyG_bind; [retok | intros fields].
  apply tidyG_bind; [retok | intros _].
  apply tidyG_bind; [retok | intros [[p1 gbyCols] gbyItems]].
  apply tidyG_bind; [retok | intros ho].
  apply tidyG_bind; [retok | intros p2].
  apply tidyG_bind; [retok | intros p3].
  apply tidyG_bind; [retok | intros [[p4 totalMap] fields']].
  apply tidyG_bind; [retok | intros [p5 oldLen]].
  apply tidyG_bail; [done | intros _]. quiet.
Qed.

Lemma popTableHints_err b u b' : popTableHints b = Ok u b' → err b' = err b.
Proof.
  unfold popTableHints, fn, bind, get, slice_to, modify, ret.
  case_decide; [|done]. by intros [= _ <-].
Qed.

Lemma pushTableHints_err hints b flag b' :
  pushTableHints hints b = Ok flag b' → err b' = err b.
Proof.
  destruct (pushTableHints_spec hints b) as [frame [-> | ->]]; by intros [= _ <-].
Qed.

End SelectErrors.

(** [buildSelect] returns no plan together with an error: when the builder
    it returns holds an error, the plan it returns is nil.  This holds of
    every statement and of any collaborators, also where a step of
    [buildSelect] runs after an error that is not checked at once. *)
Theorem buildSelect_nil_with_error (ext : Externals) sel b r b' :
  buildSelect sel b = Ok r b' → err b' ≠ None → r = None.
Proof.
  destruct sel as [From c]. simpl.
  match goal with
  | |- context [fn ?m] => assert (Htidy : tidyG (λ r : option LogicalPlan, r = None) m)
  end.
  { apply tidyG_bind; [retok | intros _].
    apply tidyG_bind; [retok | intros p]. apply tidy_selectBody. }
  set (body := fn (bind _ _)).
  assert (Hbody : ∀ b1 r1 b2, body b1 = Ok r1 b2 → err b2 ≠ None → r1 = None).
  { intros b1 r1 b2 Hrun Herr. subst body. specialize (Htidy b1).
    apply fn_Ok in Hrun as [Hrun | Hrun]; rewrite Hrun in Htidy; [done|].
    by destruct Htidy. }
  clear Htidy.
  set (pushed := match ast.TableHints c with [] => _ | _ => _ end).
  destruct pushed as [flag b1|]; [|done]. unfold defer.
  destruct (body b1) as [r1 b2|] eqn:Hrun; [|done].
  intros Hd Herr.
  assert (Hb2 : r = r1 ∧ err b' = err b2).
  { destruct flag.
    - destruct (popTableHints b2) as [u b3|] eqn:Hpop; [|done].
      injection Hd as -> ->. split; [done|]. by eapply popTableHints_err.
    - by injection Hd as -> ->. }
  destruct Hb2 as [-> Heq]. eapply Hbody; [done|]. by rewrite <- Heq.
Qed.

Section DeleteErrors.
Context {ext : Externals}.

Lemma nextSome_bind {R A B} (m : G R A) (k : A → G R (option B)) :
  (∀ a b, match k a b with Next r _ => is_Some r | _ => True end) →
  ∀ b, match bind m k b with Next r _ => is_Some r | _ => True end.
Proof. intros Hk b. unfold bind. destruct (m b); [apply Hk | done..]. Qed.

Lemma buildDelete_body delete b r b' :
  buildDelete delete b = Ok r b' →
  (is_Some r ∧ err b' = None) ∨ (r = None ∧ err b' ≠ None).
Proof.
  unfold buildDelete.
  match goal with
  | |- fn ?m b = _ → _ =>
      assert (Htidy : tidyG (λ r : option Delete, r = None) m);
      [|assert (Hbail : bailingG m);
        [|assert (Hsome : ∀ b, match m b with Next r _ => is_Some r | _ => True end)]]
  end.
  - apply tidyG_bind; [retok | intros _].
    apply tidyG_bind; [retok | intros p].
    apply tidyG_bail; [done | intros _]. quiet.
  - bailing.
  - do 8 (apply nextSome_bind; intros ? ?). by eexists.
  - intros [Hrun | Hrun]%fn_Ok.
    + left. specialize (Htidy b). specialize (Hsome b). by rewrite Hrun in Htidy, Hsome.
    + right. specialize (Hbail b). by rewrite Hrun in Hbail.
Qed.

End DeleteErrors.

(** [buildDelete] returns a [Delete] node exactly when it leaves no error in
    the builder: a node comes with no error, and nil comes with one. *)
Theorem buildDelete_node_or_error (ext : Externals) delete b r b' :
  buildDelete delete b = Ok r b' →
  (is_Some r ↔ err b' = None) ∧ (r = None ↔ err b' ≠ None).
Proof.
  intros [[Hr Hb] | [-> Hb]]%buildDelete_body.
  - destruct Hr as [d ->]. split; split; done.
  - split; split; done.
Qed.

Section UnionErrors.
Context {ext : Externals} (Hext : err_untouched ext).

Lemma buildLimit_of_nil limit b r b' : buildLimit None limit b = Ok r b' → r = None.
Proof.
  unfold buildLimit, fn, bind, call, latch, modify, return_, ret, Schema_of, panic.
  destruct (ast.Offset limit) as [o|]; [destruct (getUintForLimitOffset o) as [? [?|]]|];
    (destruct (ast.Count limit) as [c|]; [destruct (getUintForLimitOffset c) as [? [?|]]|]);
    rewrite ?init_Ok; simpl; congruence.
Qed.

(** The end of [buildUnion], from the sort on: started without an error, it
    leaves an error only with a nil plan. *)
Lemma unionTail_nil (c : ast.UnionClauses) (p : option LogicalPlan) b r b' :
  err b = None →
  (p <- match ast.u_OrderBy c with
        | Some items => call (buildSort p items [])
        | None => ret p
        end ;;
   p <- match ast.u_Limit c with
        | Some limit => call (buildLimit p limit)
        | None => ret p
        end ;;
   @ret (option LogicalPlan) _ p) b = Next r b' →
  err b' ≠ None → r = None.
Proof.
  intros Hb (p2 & b2 & Hsort & (p3 & b3 & Hlimit & [= <- <-])%bind_Next)%bind_Next Herr.
  assert (Hp2 : err b2 = None ∨ p2 = None).
  { destruct (ast.u_OrderBy c) as [items|].
    - apply call_Next in Hsort. destruct (err b2) eqn:Hb2; [right | by left].
      eapply (buildSort_nil Hext); [exact Hb | exact Hsort | by rewrite Hb2].
    - injection Hsort as <- <-. by left. }
  destruct (ast.u_Limit c) as [limit|]; [apply call_Next in Hlimit|]; destruct Hp2 as [Hb2 | ->].
  - by eapply buildLimit_nil.
  - by eapply buildLimit_of_nil.
  - injection Hlimit as <- <-. done.
  - by injection Hlimit as <- <-.
Qed.

End UnionErrors.

Section UnionErrors2.
Context {ext : Externals} (Hext : err_untouched ext).

Local Hint Resolve Hext : quiet.

Lemma nice_bind {X A} (m : G (option X) A) (k : A → G (option X) (option X)) :
  quietG (λ r, r = None) m →
  (∀ a b r b', err b = None → k a b = Next r b' ∨ k a b = Return r b' →
               err b' ≠ None → r = None) →
  ∀ b r b', err b = None → bind m k b = Next r b' ∨ bind m k b = Return r b' →
            err b' ≠ None → r = None.
Proof.
  intros Hm Hk b r b' Hb Hrun Herr. specialize (Hm b Hb). unfold bind in Hrun.
  destruct (m b) as [a b1|r1 b1|].
  - by apply (Hk a b1 r b').
  - destruct Hrun as [[=] | [= -> ->]]. by destruct Hm.
  - by destruct Hrun.
Qed.

Lemma quiet_unionBranch cols sel : quietG (λ r, r = None) (unionBranch cols sel).
Proof. unfold unionBranch. quiet. Qed.
Local Hint Resolve quiet_unionBranch : quiet.

Lemma quiet_unionLoop branches done cols :
  quietG (λ r, r = None) (unionLoop branches done cols).
Proof. revert done cols. induction branches as [|x rest IH]; intros; simpl; quiet. Qed.

Lemma unionPlans_nil c u branches b r b' :
  err b = None →
  unionPlans c u branches b = Next r b' ∨ unionPlans c u branches b = Return r b' →
  err b' ≠ None → r = None.
Proof.
  unfold unionPlans.
  apply nice_bind; [quiet|]. intros first.
  apply nice_bind; [quiet|]. intros fsch.
  apply nice_bind; [apply quiet_unionLoop|]. intros [branches' firstCols].
  apply nice_bind.
  { destruct (ast.u_Distinct c); [apply quietG_call, quietF_buildDistinct | quiet]. }
  intros p b1 r1 b2 Hb1 [Hrun | Hrun] Herr.
  - by eapply (unionTail_nil Hext).
  - exfalso. apply bind_Return in Hrun as [Hrun | (p2 & b3 & _ & Hrun)].
    + by destruct (ast.u_OrderBy c); [unfold call in Hrun; destruct (buildSort _ _ _ _)|].
    + apply bind_Return in Hrun as [Hrun | (p3 & b4 & _ & Hrun)]; [|done].
      by destruct (ast.u_Limit c); [unfold call in Hrun; destruct (buildLimit _ _ _)|].
Qed.

Lemma buildSelects_Return sels acc b r b' :
  buildSelects sels acc b = Return r b' → r = None.
Proof.
  revert acc b. induction sels as [|sel rest IH] using ast.SelectList_ind;
    intros acc b; simpl; [done|].
  intros [Hrun | (p & b1 & _ & Hrun)]%bind_Return.
  - unfold call in Hrun. by destruct (buildSelect sel b).
  - apply bind_Return in Hrun as [Hrun | ([] & b2 & _ & Hrun)]; [|by eapply IH].
    unfold bail in Hrun. destruct (err b1); [|done]. by injection Hrun as <- _.
Qed.

End UnionErrors2.

(** [buildUnion] returns no plan together with an error: when the builder
    it returns holds an error, the plan it returns is nil.  After a sort
    that fails, the limit that still runs on the nil plan either fails
    itself, and returns nil, or panics.  The rewriter is assumed to report
    its errors through its result only. *)
Theorem buildUnion_nil_with_error (ext : Externals) :
  err_untouched ext →
  ∀ union b r b', buildUnion union b = Ok r b' → err b' ≠ None → r = None.
Proof.
  intros Hext [Selects c] b r b'. simpl. intros Hrun Herr.
  assert (Hcases : ∃ b0 : planBuilder,
            (∃ branches b1,
               buildSelects Selects [] b0 = Next branches b1
               ∧ (unionPlans c (mkPlan KUnion ("Union_" +:+ pretty (allocator b + 1))
                                  (expression.NewSchema []) []) branches b1 = Next r b'
                  ∨ unionPlans c (mkPlan KUnion ("Union_" +:+ pretty (allocator b + 1))
                                    (expression.NewSchema []) []) branches b1
                    = Return r b'))
            ∨ buildSelects Selects [] b0 = Return r b').
  { exists (set_allocator (allocator b + 1) b).
    apply fn_Ok in Hrun as [Hrun | Hrun].
    - apply bind_Next in Hrun as (u & b0 & Hinit%call_Next & Hrun).
      rewrite init_Ok in Hinit. injection Hinit as <- <-.
      apply bind_Next in Hrun as (branches & b1 & Hsels & Hrun). left. eauto.
    - apply bind_Return in Hrun as [Hrun | (u & b0 & Hinit%call_Next & Hrun)].
      { unfold call in Hrun. by rewrite init_Ok in Hrun. }
      rewrite init_Ok in Hinit. injection Hinit as <- <-.
      apply bind_Return in Hrun as [Hrun | (branches & b1 & Hsels & Hrun)]; [by right|].
      left. eauto. }
  destruct Hcases as [b0 [(branches & b1 & Hsels & Hplans) | Hret]].
  - destruct (buildSelects_Next _ _ _ _ _ Hsels) as [[-> ->] | Hb1].
    + exfalso. unfold unionPlans, bind, index in Hplans. simpl in Hplans.
      by destruct Hplans.
    + by eapply (unionPlans_nil Hext).
  - by eapply buildSelects_Return.
Qed.
(** ** The privilege entries of DELETE *)

Section DeletePrivileges.
Context {ext : Externals} (Hext : grows_ext ext).

Local Hint Resolve Hext grows_buildSelection grows_buildSort grows_buildLimit : grows.

Lemma ends_bind {R A B} (P : planBuilder → B → planBuilder → Prop)
    (m : G R A) (k : A → G R B) :
  (∀ b1 b2 r b3, grows b1 b2 → P b2 r b3 → P b1 r b3) →
  growsG m →
  (∀ a b, match k a b with Next r b' => P b r b' | _ => True end) →
  ∀ b, match bind m k b with Next r b' => P b r b' | _ => True end.
Proof.
  intros Hmono Hm Hk b. unfold bind. specialize (Hm b).
  destruct (m b) as [a b1|r b1|]; [|done..]. specialize (Hk a b1).
  destruct (k a b1); [|done..]. by eapply Hmono.
Qed.

Lemma deleteListedInfo_app vi tables :
  deleteListedInfo vi tables
  = vi ++ ((λ table, mkVisitInfo "Delete" (model.L (ast.tn_Schema table))
                       (model.L (model.ti_Name (ast.tn_TableInfo table))) "")
           <$> tables).
Proof.
  revert vi. induction tables as [|t rest IH]; intros vi; simpl.
  - by rewrite app_nil_r.
  - etrans; [apply IH|]. unfold appendVisitInfo. by rewrite <- app_assoc.
Qed.

Lemma deleteFromInfo_app vi tables :
  deleteFromInfo vi tables
  = vi ++ ((λ v, mkVisitInfo "Delete"
                   (if decide (model.L (ast.tn_Schema v) = "") then CurrentDB
                    else model.L (ast.tn_Schema v))
                   (model.L (ast.tn_Name v)) "")
           <$> tables).
Proof.
  revert vi. induction tables as [|t rest IH]; intros vi; simpl.
  - by rewrite app_nil_r.
  - etrans; [apply IH|]. unfold appendVisitInfo. by rewrite <- app_assoc.
Qed.

Lemma buildDelete_Next delete b del b' :
  buildDelete delete b = Ok (Some del) b' →
  ∃ b1 p,
    grows b b1
    ∧ del = mkDelete ("Delete_" +:+ pretty (allocator b1 + 1))
              (default [] (d_Tables delete)) (d_IsMultiTable delete) (option_list p)
              (expression.NewSchema [])
    ∧ b' = set_visitInfo
             (match d_Tables delete with
              | Some tables => deleteListedInfo (b_visitInfo b1) tables
              | None => deleteFromInfo (b_visitInfo b1)
                          (extractTableList_Join (d_TableRefs delete) [])
              end) (set_allocator (allocator b1 + 1) b1).
Proof.
  destruct (grows_statements Hext) as (_ & Hjoin & _).
  set (P := λ (b : planBuilder) (r : option Delete) (b' : planBuilder),
         ∃ b1 p,
           grows b b1
           ∧ r = Some (mkDelete ("Delete_" +:+ pretty (allocator b1 + 1))
                         (default [] (d_Tables delete)) (d_IsMultiTable delete)
                         (option_list p) (expression.NewSchema []))
           ∧ b' = set_visitInfo
                    (match d_Tables delete with
                     | Some tables => deleteListedInfo (b_visitInfo b1) tables
                     | None => deleteFromInfo (b_visitInfo b1)
                                 (extractTableList_Join (d_TableRefs delete) [])
                     end) (set_allocator (allocator b1 + 1) b1)).
  assert (Hmono : ∀ b1 b2 r b3, grows b1 b2 → P b2 r b3 → P b1 r b3).
  { intros b1 b2 r b3 H12 (b4 & p & H24 & Hr & Hb). exists b4, p.
    split; [by eapply grows_trans | done]. }
  unfold buildDelete.
  match goal with
  | |- fn ?m b = _ → _ =>
      assert (Hends : ∀ b, match m b with Next r b' => P b r b' | _ => True end);
      [|assert (Hbail : bailingG m) by bailing]
  end.
  - apply ends_bind; [done | grows_tac | intros _].
    apply ends_bind; [done | apply growsG_call, Hjoin | intros p0].
    apply ends_bind; [done | grows_tac | intros _].
    apply ends_bind; [done | grows_tac | intros p1].
    apply ends_bind; [done | grows_tac | intros p2].
    apply ends_bind; [done | grows_tac | intros p3].
    intros b0. exists b0, p3. split; [apply grows_refl | done].
  - intros [Hrun | Hrun]%fn_Ok.
    + specialize (Hends b). rewrite Hrun in Hends.
      destruct Hends as (b1 & p & Hg & [= ->] & ->). by exists b1, p.
    + specialize (Hbail b). rewrite Hrun in Hbail. by destruct Hbail.
Qed.

End DeletePrivileges.

(** A [Delete] node that [buildDelete] returns comes with one privilege
    entry for each table to delete from, in their order, added after
    everything that the build of the FROM clause and of the WHERE, ORDER BY
    and LIMIT clauses has added.  With a list of tables, [DELETE a, b FROM
    ...], the entries have the schema as it is written and the name of the
    table in the catalog; without one they are the tables of the FROM
    clause, and a table without a schema is given the current database.
    The node has the listed tables, an empty schema and at most one
    child. *)
Theorem buildDelete_privileges (ext : Externals) :
  grows_ext ext →
  ∀ delete b del b',
    buildDelete delete b = Ok (Some del) b' →
    (∃ vi,
       b_visitInfo b `prefix_of` vi
       ∧ b_visitInfo b'
         = vi ++ match d_Tables delete with
                 | Some tables =>
                     (λ table, mkVisitInfo "Delete" (model.L (ast.tn_Schema table))
                                 (model.L (model.ti_Name (ast.tn_TableInfo table))) "")
                     <$> tables
                 | None =>
                     (λ v, mkVisitInfo "Delete"
                             (if decide (model.L (ast.tn_Schema v) = "") then CurrentDB
                              else model.L (ast.tn_Schema v))
                             (model.L (ast.tn_Name v)) "")
                     <$> extractTableList_Join (d_TableRefs delete) []
                 end)
    ∧ del_Tables del = default [] (d_Tables delete)
    ∧ del_schema del = expression.NewSchema []
    ∧ (length (del_children del) ≤ 1)%nat.
Proof.
  intros Hext delete b del b' (b1 & p & [_ Hvi] & -> & ->)%(buildDelete_Next Hext).
  split; [|split; [done|split; [done|]]].
  - exists (b_visitInfo b1). split; [done|]. simpl.
    destruct (d_Tables delete); [apply deleteListedInfo_app | apply deleteFromInfo_app].
  - simpl. destruct p; simpl; lia.
Qed.

Lemma buildDelete_privileges_witness :
  match delete_run with
  | Ok (Some del) b' =>
      ∃ vi, b_visitInfo sample.builder0 `prefix_of` vi
            ∧ b_visitInfo b' = vi ++ [mkVisitInfo "Delete" "test" "t" ""]
  | _ => False
  end.
Proof.
  assert (Hrun : @buildDelete sample.externals (delete_t_where "a") sample.builder0
                 = delete_run) by (vm_compute; reflexivity).
  destruct (buildDelete_privileges sample.externals sample_grows _ _ _ _ Hrun)
    as [(vi & Hpre & Hvi) _].
  by exists vi.
Defined.
(** ** The hint stack, once more *)

(** Pushing and popping are inverse: after [pushTableHints] has pushed a
    frame, [popTableHints] gives back the builder as it was before.  On an
    empty stack [popTableHints] panics, with a slice bound out of range. *)
Theorem push_pop_round_trip :
  (∀ hints b b1, pushTableHints hints b = Ok true b1 → popTableHints b1 = Ok tt b)
  ∧ (∀ b, b_tableHintInfo b = [] → popTableHints b = Crash SliceBounds).
Proof.
  split.
  - intros hints b b1 Hpush.
    destruct (pushTableHints_spec hints b) as [frame [Heq | Heq]];
      rewrite Heq in Hpush; [|done].
    injection Hpush as <-.
    rewrite (popTableHints_spec _ (b_tableHintInfo b) frame) by done.
    by destruct b.
  - intros b Hb. unfold popTableHints, fn, bind, get, slice_to. by rewrite Hb.
Qed.

Lemma push_pop_round_trip_witness :
  popTableHints pushed_builder = Ok tt hinted_builder
  ∧ popTableHints sample.builder0 = Crash SliceBounds.
Proof.
  destruct push_pop_round_trip as [Hround Hempty]. split.
  - apply (Hround hints_known_unknown hinted_builder pushed_builder).
    vm_compute. reflexivity.
  - by apply Hempty.
Defined.

(** ** Wildcards, once more *)

Section NoWildcard.
Context {ext : Externals}.

Lemma wildFields_plain wc cols :
  Forall (λ f, ast.WildCard f = None ∧ is_Some (ast.Expr f)) (wildFields wc cols).
Proof.
  unfold wildFields. induction cols as [|col cols IH]; simpl; [constructor|].
  destruct (_ && _); [|exact IH]. constructor; [|exact IH]. split; [done | by eexists].
Qed.

Lemma unfoldLoop_Forall (Q : ast.SelectField → Prop) p fields i acc b :
  (∀ wc cols, Forall Q (wildFields wc cols)) →
  Forall (λ f, ast.WildCard f = None → Q f) fields →
  Forall Q acc →
  match unfoldLoop p fields i acc b with
  | Next res _ | Return res _ => Forall Q res
  | Panic _ => True
  end.
Proof.
  intros Hwild. revert i acc.
  induction fields as [|f rest IH]; intros i acc Hfields Hacc; simpl; [done|].
  apply Forall_cons in Hfields as [Hf Hrest].
  destruct (ast.WildCard f) as [wc|] eqn:Hwc.
  - destruct (_ && _); [done|]. unfold bind at 1. destruct p as [p|]; [|done]. simpl.
    apply IH; [done|]. apply Forall_app. split; [done | apply Hwild].
  - apply IH; [done|]. apply Forall_app. split; [done|]. repeat constructor. by apply Hf.
Qed.

End NoWildcard.

(** [unfoldWildStar] leaves no wildcard behind: in the list it returns, also
    the partial one it returns with the invalid-wildcard error, no field is
    a wildcard.  When every field of the statement that is not a wildcard
    has an expression, every field of the list has one: the projection,
    which rewrites the expression of each field, is never handed a nil
    one. *)
Theorem unfoldWildStar_no_wildcard (ext : Externals) p selectFields b resultList b' :
  unfoldWildStar p selectFields b = Ok resultList b' →
  Forall (λ f, ast.WildCard f = None) resultList
  ∧ (Forall (λ f, ast.WildCard f = None → is_Some (ast.Expr f)) selectFields →
     Forall (λ f, is_Some (ast.Expr f)) resultList).
Proof.
  unfold unfoldWildStar, fn. intros Hrun. split.
  - pose proof (unfoldLoop_Forall (λ f, ast.WildCard f = None) p selectFields 0 [] b) as H.
    destruct (unfoldLoop _ _ _ _ _) as [res b1|res b1|]; [| |done];
      injection Hrun as <- <-; (apply H; [|by apply Forall_forall|constructor]);
      intros wc cols; eapply Forall_impl; [apply wildFields_plain | by intros ? []
                                          | apply wildFields_plain | by intros ? []].
  - intros Hfields.
    pose proof (unfoldLoop_Forall (λ f, is_Some (ast.Expr f)) p selectFields 0 [] b) as H.
    destruct (unfoldLoop _ _ _ _ _) as [res b1|res b1|]; [| |done];
      injection Hrun as <- <-; (apply H; [|done|constructor]);
      intros wc cols; eapply Forall_impl; [apply wildFields_plain | by intros ? []
                                          | apply wildFields_plain | by intros ? []].
Qed.

Lemma unfoldWildStar_no_wildcard_witness :
  Forall (λ f, ast.WildCard f = None) [field (colRef "a") "a"; field (colRef "b") "b"]
  ∧ Forall (λ f, is_Some (ast.Expr f)) [field (colRef "a") "a"; field (colRef "b") "b"].
Proof.
  assert (Hrun : @unfoldWildStar sample.externals (Some t_plan) fields_a_nosuch_b
                   sample.builder0
                 = Ok [field (colRef "a") "a"; field (colRef "b") "b"] sample.builder0)
    by (vm_compute; reflexivity).
  destruct (unfoldWildStar_no_wildcard sample.externals _ _ _ _ _ Hrun) as [H1 H2].
  split; [exact H1|]. apply H2.
  repeat (apply Forall_cons; split;
          [first [by intros [=] | intros _; by eexists]|]).
  constructor.
Defined.
(** ** The select fields of the resolver *)

Section ResolverFields.
Context {ext : Externals}.

Lemma resolveFromSelectFields_bound v fields ign r :
  resolveFromSelectFields v fields ign = (r, None) →
  r = -1 ∨ 0 ≤ r < Z.of_nat (length fields).
Proof.
  intros Hrun.
  destruct (resolveFieldsLoop_index v ign fields [] None (-1) r Hrun) as [-> | (f & Hf & Hr & _)];
    [by left | by left |].
  right. apply lookup_lt_Some in Hf. simpl in Hf. lia.
Qed.

Lemma findMatchingField_bound c fields i0 i :
  findMatchingField c fields i0 = Some i → i0 ≤ i < i0 + Z.of_nat (length fields).
Proof.
  revert i0. induction fields as [|f rest IH]; intros i0; simpl; [done|].
  assert (Hrest : findMatchingField c rest (i0 + 1) = Some i →
                  i0 ≤ i < i0 + Z.pos (Pos.of_succ_nat (length rest))).
  { intros H%IH. lia. }
  destruct (ast.Expr f) as [[]|]; try exact Hrest.
  destruct (colMatch _ _); [|exact Hrest]. intros [= <-]. lia.
Qed.

(** The resolution from the schema appends at most one auxiliary field and
    changes nothing else of the resolver; an index it gives is that of a
    field. *)
Lemma hr_resolveFromSchema_fields a v sch i e a' :
  hr_resolveFromSchema a v sch = ((i, e), a') →
  ∃ new, a' = set_selectFields (selectFields a ++ new) a
         ∧ (length new ≤ 1)%nat
         ∧ Forall (λ f, ast.Auxiliary f = true) new
         ∧ (i = -1 ∨ 0 ≤ i < Z.of_nat (length (selectFields a ++ new))).
Proof.
  unfold hr_resolveFromSchema.
  assert (Hsame : a = set_selectFields (selectFields a ++ []) a)
    by (rewrite app_nil_r; by destruct a).
  destruct (FindColumn sch v) as [[col|] [er|]].
  - intros [= <- <- <-]. exists []. rewrite app_nil_r. simpl. repeat split; auto.
    by destruct a.
  - destruct (findMatchingField _ _ _) as [j|] eqn:Hfind.
    + intros [= <- <- <-]. exists []. rewrite app_nil_r. simpl.
      split; [by destruct a|]. split; [lia|]. split; [constructor|].
      right. apply findMatchingField_bound in Hfind. lia.
    + simpl. intros [= <- <- <-]. eexists [_]. split; [done|]. split; [simpl; lia|].
      split; [by repeat constructor|]. right. rewrite length_app. simpl. lia.
  - intros [= <- <- <-]. exists []. rewrite app_nil_r. simpl. repeat split; auto.
    by destruct a.
  - intros [= <- <- <-]. exists []. rewrite app_nil_r. simpl. repeat split; auto.
    by destruct a.
Qed.

Lemma resolveIndex_fields a v i a' :
  resolveIndex a v = Done (i, a') →
  ∃ new, selectFields a' = selectFields a ++ new
         ∧ (length new ≤ 1)%nat
         ∧ Forall (λ f, ast.Auxiliary f = true) new
         ∧ r_colMapper a' = r_colMapper a ∧ aggMapper a' = aggMapper a
         ∧ inAggFunc a' = inAggFunc a
         ∧ (r_err a' = None → i = -1 ∨ 0 ≤ i < Z.of_nat (length (selectFields a'))).
Proof.
  assert (Hnone : ∀ ign j e b,
            resolveFromSelectFields v (selectFields b) ign = (j, e) →
            e = None → j = -1 ∨ 0 ≤ j < Z.of_nat (length (selectFields b))).
  { intros ign j e b Hrun ->. by eapply resolveFromSelectFields_bound. }
  unfold resolveIndex. destruct (resolveFieldsFirst a v).
  - destruct (resolveFromSelectFields v (selectFields a) false) as [j e] eqn:Hfirst.
    destruct e as [e|].
    + intros [= <- <-]. exists []. rewrite app_nil_r. simpl. repeat split; auto.
      all: by intros [=].
    + case_bool_decide as Hj.
      * simpl. destruct (orderBy a).
        -- unfold r_schema. simpl. destruct (r_p a) as [p|]; simpl; [|done].
           destruct (hr_resolveFromSchema _ _ _) as [[k e] a1] eqn:Hsch.
           apply hr_resolveFromSchema_fields in Hsch as (new & -> & Hlen & Haux & Hk).
           intros [= <- <-]. exists new. simpl. repeat split; auto.
        -- destruct (resolveFromSelectFields v _ true) as [k e] eqn:Hsecond.
           intros [= <- <-]. exists []. rewrite app_nil_r. simpl. repeat split; auto.
           all: intros ->; by eapply (Hnone true k None (set_r_err None a)).
      * intros [= <- <-]. exists []. rewrite app_nil_r. simpl. repeat split; auto.
        all: intros _; by eapply (Hnone false j None a).
  - unfold r_schema. simpl. destruct (r_p a) as [p|]; simpl; [|done].
    destruct (hr_resolveFromSchema _ _ _) as [[k e] a1] eqn:Hsch.
    apply hr_resolveFromSchema_fields in Hsch as (new & -> & Hlen & Haux & Hk).
    case_bool_decide as Hk1.
    + destruct (resolveFromSelectFields v _ false) as [j e'] eqn:Hsecond.
      intros [= <- <-]. exists new. simpl. repeat split; auto.
      all: intros ->; simpl in Hsecond;
        by eapply (Hnone false j None (set_selectFields _ a)).
    + intros [= <- <-]. exists new. simpl. repeat split; auto.
      all: intros _; destruct Hk as [? | ?]; [done | by right].
Qed.

Lemma fields_unchanged (a : havingAndOrderbyExprResolver) :
  ∃ new, selectFields a = selectFields a ++ new
         ∧ (length new ≤ 1)%nat
         ∧ Forall (λ f, ast.Auxiliary f = true) new.
Proof. exists []. rewrite app_nil_r. split; [done|]. split; [simpl; lia | constructor]. Qed.

End ResolverFields.

(** The resolver of HAVING and ORDER BY only adds to the select fields.
    When it leaves a node, the fields it had are still there, in their
    places, followed by at most one new field, which is auxiliary.  An
    entry it adds to the map of the columns or to the map of the aggregates
    gives the index of a field of the list; for an aggregate, of the field
    just added.  Entering a node changes no field. *)
Theorem resolver_only_appends (ext : Externals) :
  (∀ n a r a',
     hr_Leave n a = Done (r, a') →
     (∃ new, selectFields a' = selectFields a ++ new
             ∧ (length new ≤ 1)%nat
             ∧ Forall (λ f, ast.Auxiliary f = true) new)
     ∧ (r_colMapper a' = r_colMapper a
        ∨ ∃ e i, r_colMapper a' = (e, i) :: r_colMapper a
                 ∧ 0 ≤ i < Z.of_nat (length (selectFields a')))
     ∧ (aggMapper a' = aggMapper a
        ∨ ∃ e i, aggMapper a' = (e, i) :: aggMapper a
                 ∧ i = Z.of_nat (length (selectFields a))
                 ∧ ∃ f, selectFields a' !! Z.to_nat i = Some f ∧ ast.Expr f = Some e))
  ∧ (∀ n a r a', hr_Enter n a = Done (r, a') → selectFields a' = selectFields a).
Proof.
  split.
  - intros n a r a'. unfold hr_Leave.
    destruct n as [e|c].
    2:{ intros [= <- <-]. split; [apply fields_unchanged|]. split; by left. }
    destruct e as [v|F Args D| | | | | | | | |];
      try (intros [= <- <-]; split; [apply fields_unchanged|]; split; by left).
    + unfold hr_LeaveColumn.
      destruct (resolveIndex a v) as [[i a1]|] eqn:Hidx; [|done]. simpl.
      apply resolveIndex_fields in Hidx
        as (new & Hfields & Hlen & Haux & Hcol & Hagg & Hin & Hi).
      assert (Hnew : ∃ new, selectFields a1 = selectFields a ++ new
                            ∧ (length new ≤ 1)%nat
                            ∧ Forall (λ f, ast.Auxiliary f = true) new)
        by (by exists new).
      destruct (r_err a1) eqn:Herr.
      { intros [= <- <-]. split; [done|]. split; [by left | left; congruence]. }
      case_bool_decide as Hi1.
      { destruct (inOuterSchemas a1 v); intros [= <- <-]; simpl;
          (split; [done|]; split; [by left | left; congruence]). }
      destruct (inAggFunc a1).
      { destruct (selectFields a1 !! _); [|done]. intros [= <- <-].
        split; [done|]. split; [by left | left; congruence]. }
      intros [= <- <-]. simpl. split; [done|]. split; [|left; congruence].
      right. eexists _, i. rewrite Hcol. split; [done|].
      by destruct (Hi eq_refl) as [? | ?].
    + intros [= <- <-]. simpl. split.
      { eexists [_]. split; [done|]. split; [simpl; lia | by repeat constructor]. }
      split; [by left|]. right. eexists _, _. split; [done|]. split; [done|].
      eexists. rewrite Nat2Z.id. split.
      * rewrite lookup_app_r by done. by rewrite Nat.sub_diag.
      * reflexivity.
  - intros n a r a'. unfold hr_Enter.
    destruct n as [e|c]; [destruct e|]; by intros [= <- <-].
Qed.

Lemma resolver_only_appends_witness :
  ∃ r a',
    @hr_Leave sample.externals (ast.NExpr (colRef "a")) having_alias = Done (r, a')
    ∧ ∃ new, selectFields a' = selectFields having_alias ++ new
             ∧ (length new ≤ 1)%nat
             ∧ Forall (λ f, ast.Auxiliary f = true) new.
Proof.
  destruct (@hr_Leave sample.externals (ast.NExpr (colRef "a")) having_alias)
    as [[r a']|] eqn:Hrun; [|by vm_compute in Hrun].
  exists r, a'. split; [done|].
  exact (proj1 (proj1 (resolver_only_appends sample.externals) _ _ _ _ Hrun)).
Defined.
(** ** What a body returns *)

Section Returns.
Context {ext : Externals}.

Lemma returnsG_ret {R A} nil (a : A) : returnsG nil (@ret R A a).
Proof. by intros b. Qed.

Lemma returnsG_return {R A} (nil : R → Prop) (r : R) : nil r → returnsG nil (@return_ R A r).
Proof. by intros Hr b. Qed.

Lemma returnsG_panic {R A} nil k : returnsG nil (@panic R A k).
Proof. by intros b. Qed.

Lemma returnsG_get {R} nil : returnsG nil (@get R).
Proof. by intros b. Qed.

Lemma returnsG_bind {R A B} nil (m : G R A) (k : A → G R B) :
  returnsG nil m → (∀ a, returnsG nil (k a)) → returnsG nil (bind m k).
Proof.
  intros Hm Hk b. unfold bind. specialize (Hm b).
  destruct (m b) as [a b'|r b'|p]; [|done..]. apply Hk.
Qed.

Lemma returnsG_call {R A} nil (f : Fn A) : returnsG nil (@call R A f).
Proof. intros b. unfold call. by destruct (f b). Qed.

Lemma returnsG_modify {R} nil f : returnsG nil (@modify R f).
Proof. by intros b. Qed.

Lemma returnsG_latch {R} nil e : returnsG nil (@latch R e).
Proof. by intros b. Qed.

Lemma returnsG_bail {R} (nil : R → Prop) r : nil r → returnsG nil (bail r).
Proof. intros Hr b. unfold bail. by destruct (err b). Qed.

Lemma returnsG_try {R A} nil (t : Try A) : returnsG nil (@try R A t).
Proof. destruct t; [apply returnsG_ret | apply returnsG_panic]. Qed.

Lemma returnsG_index {R A} nil (s : list A) i : returnsG nil (@index R A s i).
Proof.
  unfold index. case_decide; [|apply returnsG_panic].
  destruct (s !! _); [apply returnsG_ret | apply returnsG_panic].
Qed.

Lemma returnsG_index_nat {R A} nil (s : list A) i : returnsG nil (@index_nat R A s i).
Proof. unfold index_nat. destruct (s !! _); [apply returnsG_ret | apply returnsG_panic]. Qed.

Lemma returnsG_slice_to {R A} nil (s : list A) n : returnsG nil (@slice_to R A s n).
Proof. unfold slice_to. case_decide; [apply returnsG_ret | apply returnsG_panic]. Qed.

Lemma returnsG_copy_within {R A} nil a b c d (s : list A) :
  returnsG nil (@copy_within R A a b c d s).
Proof. unfold copy_within. case_decide; [apply returnsG_ret | apply returnsG_panic]. Qed.

Lemma returnsG_Schema_of {R} nil p : returnsG nil (@Schema_of R p).
Proof. destruct p; [apply returnsG_ret | apply returnsG_panic]. Qed.

Lemma returnsG_asExprNode {R} nil n : returnsG nil (@asExprNode R n).
Proof. destruct n as [[]|]; first [apply returnsG_ret | apply returnsG_panic]. Qed.

Lemma returnsG_rewriteG {R} nil e p m s : returnsG nil (@rewriteG ext R e p m s).
Proof. intros b. unfold rewriteG. by destruct (rewrite e p m s b). Qed.

Lemma returnsG_set_err {R} nil e : returnsG nil (λ b, @Next R unit tt (set_err e b)).
Proof. by intros b. Qed.

(** From a body that returns only nil results: a result that is not nil
    comes from the end of the body. *)
Lemma returnsG_Ok {R} (nil : R → Prop) (body : G R R) b r b' :
  returnsG nil body → fn body b = Ok r b' → ¬ nil r → body b = Next r b'.
Proof.
  intros Hbody Hrun Hr. specialize (Hbody b). unfold fn in Hrun.
  destruct (body b) as [r1 b1|r1 b1|]; [congruence | | done].
  injection Hrun as -> ->. done.
Qed.

End Returns.

Create HintDb returns discriminated.
#[global] Hint Resolve returnsG_ret returnsG_panic returnsG_get returnsG_call
  returnsG_modify returnsG_latch returnsG_try returnsG_index returnsG_index_nat
  returnsG_slice_to returnsG_copy_within returnsG_Schema_of returnsG_asExprNode
  returnsG_rewriteG returnsG_set_err : returns.

Ltac returns_step :=
  lazymatch goal with
  | |- returnsG _ (bind _ _) => apply returnsG_bind; [| intros ?]
  | |- returnsG _ (return_ _) => apply returnsG_return; simpl; reflexivity
  | |- returnsG _ (bail _) => apply returnsG_bail; simpl; reflexivity
  | |- returnsG _ (match ?x with _ => _ end) => destruct x eqn:?
  | |- returnsG _ (let (_, _) := ?x in _) => destruct x eqn:?
  | |- _ => solve [eauto with returns]
  end.

Ltac returns := repeat returns_step.

Section ReturnsBuilders.
Context {ext : Externals}.

Lemma returns_fieldNameFromExpressions {R} nil f :
  returnsG nil (@buildProjectionFieldNameFromExpressions ext R f).
Proof. unfold buildProjectionFieldNameFromExpressions. returns. Qed.
Local Hint Resolve returns_fieldNameFromExpressions : returns.

Lemma returns_buildProjectionField {R} nil i pos f e :
  returnsG nil (@buildProjectionField ext R i pos f e).
Proof. unfold buildProjectionField. returns. Qed.

Lemma returns_rewriteField {R} nil f p m s : returnsG nil (@rewriteField ext R f p m s).
Proof. unfold rewriteField. returns. Qed.
Local Hint Resolve returns_buildProjectionField returns_rewriteField : returns.

Lemma returns_projectionLoop pid fields m st :
  returnsG (λ r, r.1 = None) (projectionLoop pid fields m st).
Proof. revert st. induction fields as [|f rest IH]; intros; simpl; returns. Qed.

Lemma returns_aggArgsLoop args p acc : returnsG (λ r, r.1 = None) (aggArgsLoop args p acc).
Proof. revert p acc. induction args as [|arg rest IH]; intros; simpl; returns. Qed.
Local Hint Resolve returns_aggArgsLoop : returns.

Lemma returns_aggFuncLoop aggID l i st :
  returnsG (λ r, r.1 = None) (aggFuncLoop aggID l i st).
Proof. revert i st. induction l as [|f rest IH]; intros; simpl; returns. Qed.

Lemma returns_unionBranch cols sel : returnsG (λ r, r = None) (unionBranch cols sel).
Proof. unfold unionBranch. returns. Qed.
Local Hint Resolve returns_unionBranch : returns.



End ReturnsBuilders.
(** ** The columns of a projection *)

Section ProjectionColumns.
Context {ext : Externals}.

Lemma buildProjectionField_Next {R} pid position f expr b col b' :
  @buildProjectionField ext R pid position f expr b = Next col b' →
  b' = b
  ∧ expression.FromID col = pid
  ∧ expression.Position col = position
  ∧ (model.L (ast.AsName f) ≠ "" →
     expression.ColName col = ast.AsName f
     ∧ expression.TblName col = expression.zeroCIStr).
Proof.
  unfold buildProjectionField.
  intros (names & b1 & Hnames & Hcol)%bind_Next.
  destruct expr as [e|]; [|done]. injection Hcol as <- <-. simpl.
  case_decide as Halias.
  - injection Hnames as <- <-. done.
  - assert (Hb : b1 = b); [|by subst].
    destruct e as [c| | |]; simpl in Hnames;
      try (apply bind_Next in Hnames as (n & b2 & Hn & [= _ <-]);
           unfold buildProjectionFieldNameFromExpressions in Hn;
           repeat case_match; simplify_eq; by injection Hn).
    destruct (negb _); [by injection Hnames|].
    apply bind_Next in Hnames as (n & b2 & Hn & [= _ <-]).
    unfold buildProjectionFieldNameFromExpressions in Hn.
    repeat case_match; simplify_eq; by injection Hn.
Qed.

Lemma projectionLoop_columns pid fields m st b st' b' :
  projectionLoop pid fields m st b = Next st' b' →
  ∃ newCols,
    expression.Columns (pl_schema st') = expression.Columns (pl_schema st) ++ newCols
    ∧ length newCols = length fields
    ∧ length (pl_Exprs st') = (length (pl_Exprs st) + length fields)%nat
    ∧ pl_oldLen st'
      = pl_oldLen st + Z.of_nat (length (filter (λ f, ast.Auxiliary f = false) fields))
    ∧ ∀ k col f,
        newCols !! k = Some col → fields !! k = Some f →
        expression.FromID col = pid
        ∧ expression.Position col = expression.Len (pl_schema st) + Z.of_nat k + 1
        ∧ (model.L (ast.AsName f) ≠ "" →
           expression.ColName col = ast.AsName f
           ∧ expression.TblName col = expression.zeroCIStr).
Proof.
  revert st b. induction fields as [|f rest IH]; intros st b; simpl.
  - intros [= <- <-]. exists []. rewrite app_nil_r. repeat split; try done; lia.
  - intros (r & b1 & _ & Hrun)%bind_Next. destruct (rw_err r); [|].
    { apply bind_Next in Hrun as (? & ? & _ & [=]). }
    apply bind_Next in Hrun as (col & b2 & Hcol & Hrun).
    apply buildProjectionField_Next in Hcol as (-> & Hid & Hpos & Halias).
    apply IH in Hrun as (newCols & Hcols & Hlen & Hexprs & Hold & Hall). simpl in *.
    exists (col :: newCols). rewrite <- app_assoc in Hcols.
    split; [done|]. split; [simpl; lia|].
    split; [rewrite Hexprs, length_app; simpl; lia|].
    split.
    { rewrite Hold, filter_cons.
      destruct (ast.Auxiliary f) eqn:Haux;
        [rewrite decide_False by congruence | rewrite decide_True by congruence];
        simpl; lia. }
    intros [|k] c g; simpl.
    + intros [= <-] [= <-]. split; [done|]. split; [lia | done].
    + intros Hc Hg. destruct (Hall k c g Hc Hg) as (H1 & H2 & H3).
      split; [done|]. split; [|done]. rewrite H2. unfold expression.Len, expression.Append.
      simpl. rewrite length_app. simpl. lia.
Qed.

End ProjectionColumns.

(** A projection that [buildProjection] returns has one expression and one
    column for each field, in the order of the fields.  Each column is
    owned by the projection and numbered from 1 by its place; the column of
    a field with an alias is named by the alias and has no table name.  The
    length returned with the projection is the number of the fields that
    are not auxiliary. *)
Theorem buildProjection_columns (ext : Externals) p fields mapper b proj oldLen b' :
  buildProjection p fields mapper b = Ok (Some proj, oldLen) b' →
  length (expression.Columns (schema proj)) = length fields
  ∧ (∃ exprs, kind proj = KProjection exprs ∧ length exprs = length fields)
  ∧ oldLen = Z.of_nat (length (filter (λ f, ast.Auxiliary f = false) fields))
  ∧ ∀ k col f,
      expression.Columns (schema proj) !! k = Some col → fields !! k = Some f →
      expression.FromID col = id proj
      ∧ expression.Position col = Z.of_nat k + 1
      ∧ (model.L (ast.AsName f) ≠ "" →
         expression.ColName col = ast.AsName f
         ∧ expression.TblName col = expression.zeroCIStr).
Proof.
  unfold buildProjection. intros Hrun.
  apply (returnsG_Ok (λ r, r.1 = None)) in Hrun; [| |done].
  2:{ pose proof (@returns_projectionLoop ext). returns. }
  apply bind_Next in Hrun as (proj0 & b0 & Hinit%call_Next & Hrun).
  rewrite init_Ok in Hinit. injection Hinit as <- <-.
  apply bind_Next in Hrun as (st & b1 & Hloop & [= <- <- <-]).
  apply projectionLoop_columns in Hloop as (newCols & Hcols & Hlen & Hexprs & Hold & Hall).
  simpl in *. 
  assert (Hschema : ∀ q, expression.Columns (schema (addChild
            (SetSchema (SetKind (mkPlan (KProjection [])
                                   ("Projection_" +:+ pretty (allocator b + 1))
                                   (expression.NewSchema []) [])
                          (KProjection (pl_Exprs st))) (pl_schema st)) q)) = newCols).
  { intros [q|]; simpl; by rewrite Hcols. }
  rewrite Hschema.
  split; [done|]. split; [destruct (pl_p st); by eexists|]. split; [lia|].
  intros k col f Hk Hf. destruct (Hall k col f Hk Hf) as (H1 & H2 & H3).
  destruct (pl_p st); simpl; (split; [done|]; split; [done|done]).
Qed.
(** ** The functions and the columns of an aggregation *)

Section AggregationAligned.
Context {ext : Externals}.

Lemma findEqualFunc_bound funcs f j0 j :
  findEqualFunc funcs f j0 = Some j → j0 ≤ j < j0 + Z.of_nat (length funcs).
Proof.
  revert j0. induction funcs as [|g rest IH]; intros j0; simpl; [done|].
  destruct (agg_Equal g f); [intros [= <-]; lia|]. intros H%IH. lia.
Qed.

(** The first loop keeps one function for each column, and maps the index
    of each aggregate of the list to the place of a function. *)
Lemma aggFuncLoop_aligned aggID l i st b st' b' :
  aggFuncLoop aggID l i st b = Next st' b' →
  length (al_AggFuncs st) = length (expression.Columns (al_schema st)) →
  (∀ k j, al_aggIndexMap st !! k = Some j →
          0 ≤ j < Z.of_nat (length (al_AggFuncs st))) →
  (∃ newFuncs, al_AggFuncs st' = al_AggFuncs st ++ newFuncs)
  ∧ length (al_AggFuncs st') = length (expression.Columns (al_schema st'))
  ∧ (∀ k j, al_aggIndexMap st' !! k = Some j →
            0 ≤ j < Z.of_nat (length (al_AggFuncs st')))
  ∧ (∀ k, i ≤ k < i + Z.of_nat (length l) → is_Some (al_aggIndexMap st' !! k))
  ∧ (∀ k, is_Some (al_aggIndexMap st !! k) → is_Some (al_aggIndexMap st' !! k)).
Proof.
  revert i st b. induction l as [|aggFunc rest IH]; intros i st b; simpl.
  - intros [= <- <-] Hlen Hmap. split; [exists []; by rewrite app_nil_r|].
    split; [done|]. split; [done|]. split; [lia | done].
  - intros (pa & b1 & _ & Hrest)%bind_Next Hlen Hmap.
    destruct (findEqualFunc _ _ _) as [j|] eqn:Hfind.
    + apply findEqualFunc_bound in Hfind.
      apply IH in Hrest as ([newFuncs Hfuncs] & Hlen' & Hmap' & Hdom & Hkeep); simpl in *.
      * split; [by exists newFuncs|]. split; [done|]. split; [done|].
        split; [|intros k Hk; apply Hkeep; rewrite lookup_insert; by case_decide].
        intros k Hk. destruct (decide (k = i)) as [->|Hne].
        -- apply Hkeep. by rewrite lookup_insert_eq.
        -- apply Hdom. lia.
      * done.
      * intros k j'. rewrite lookup_insert. case_decide; [|apply Hmap].
        intros [= <-]. lia.
    + apply IH in Hrest as ([newFuncs Hfuncs] & Hlen' & Hmap' & Hdom & Hkeep); simpl in *.
      * split; [eexists; by rewrite Hfuncs, <- app_assoc|]. split; [done|].
        split; [done|].
        split; [|intros k Hk; apply Hkeep; rewrite lookup_insert; by case_decide].
        intros k Hk. destruct (decide (k = i)) as [->|Hne].
        -- apply Hkeep. by rewrite lookup_insert_eq.
        -- apply Hdom. lia.
      * rewrite !length_app. simpl. lia.
      * intros k j'. rewrite length_app, lookup_insert. simpl.
        case_decide; [intros [= <-]; lia|]. intros Hj%Hmap. lia.
Qed.

Lemma firstRowLoop_funcs cols st :
  al_AggFuncs (firstRowLoop cols st)
  = al_AggFuncs st
    ++ ((λ col, expression.NewAggFunction ast.AggFuncFirstRow
                  [Some (expression.EColumn col)] false) <$> cols)
  ∧ al_aggIndexMap (firstRowLoop cols st) = al_aggIndexMap st.
Proof.
  unfold firstRowLoop. revert st. induction cols as [|col cols IH]; intros st; simpl.
  - by rewrite app_nil_r.
  - destruct (IH (mkAggLoop (al_p st)
                    (al_AggFuncs st ++
                       [expression.NewAggFunction ast.AggFuncFirstRow
                          [Some (expression.EColumn (expression.Column_Clone col))] false])
                    (expression.Append (al_schema st) (expression.Column_Clone col))
                    (al_aggIndexMap st))) as [Hfuncs Hmap].
    rewrite Hfuncs, Hmap. simpl. by rewrite <- app_assoc.
Qed.

End AggregationAligned.

(** In an aggregation that [buildAggregation] returns, the functions and the
    columns of the schema go together: there are as many of each, the
    functions kept for the aggregates of the list come first, and after
    them one FIRST_ROW function for each column of the child, in the order
    of the columns.  The map returned with the node gives every index of
    the list of aggregates the place of one of the functions kept for the
    list, also when two aggregates of the list share a function. *)
Theorem buildAggregation_aligned (ext : Externals) p aggFuncList gbyItems b agg m b' :
  buildAggregation p aggFuncList gbyItems b = Ok (Some agg, m) b' →
  ∃ listFuncs child,
    children agg = [child]
    ∧ kind agg
      = KAggregation
          (listFuncs ++ ((λ col, expression.NewAggFunction ast.AggFuncFirstRow
                                   [Some (expression.EColumn col)] false)
                         <$> expression.Columns (schema child)))
          gbyItems (collectGroupByColumns gbyItems)
    ∧ length (expression.Columns (schema agg))
      = (length listFuncs + length (expression.Columns (schema child)))%nat
    ∧ (length listFuncs ≤ length aggFuncList)%nat
    ∧ ∀ i, 0 ≤ i < Z.of_nat (length aggFuncList) →
           ∃ j, m !! i = Some j ∧ 0 ≤ j < Z.of_nat (length listFuncs).
Proof.
  unfold buildAggregation. intros Hrun.
  apply (returnsG_Ok (λ r, r.1 = None)) in Hrun; [| |done].
  2:{ pose proof (@returns_aggFuncLoop ext). returns. }
  apply bind_Next in Hrun as (agg0 & b0 & Hinit%call_Next & Hrun).
  rewrite init_Ok in Hinit. injection Hinit as <- <-.
  apply bind_Next in Hrun as (psch0 & b0 & Hsch0 & Hrun).
  destruct p as [p0|]; [|done]. injection Hsch0 as _ <-.
  apply bind_Next in Hrun as (st & b1 & Hloop & Hrun).
  pose proof (aggFuncLoop_owner _ _ _ _ _ _ _ Hloop) as (newCols & Hcols & _ & Hle).
  apply aggFuncLoop_aligned in Hloop
    as ([listFuncs Hfuncs] & Hlen & Hmap & Hdom & _); [|done|by intros k j; simpl; rewrite lookup_empty].
  apply bind_Next in Hrun as (psch & b2 & Hsch & Hrun).
  destruct (al_p st) as [child|] eqn:Hp; [|done].
  injection Hsch as <- <-. injection Hrun as <- <- <-.
  destruct (firstRowLoop_columns (expression.Columns (schema child)) st) as [Hfirst _].
  destruct (firstRowLoop_funcs (expression.Columns (schema child)) st) as [Hffuncs Hfmap].
  simpl in *. exists listFuncs, child.
  split; [done|]. split; [by rewrite Hffuncs, Hfuncs|].
  rewrite Hfirst, length_app, <- Hlen, Hfuncs.
  split; [done|].
  assert (Hnew : length listFuncs = length newCols).
  { rewrite Hfuncs, Hcols in Hlen. simpl in Hlen. done. }
  split; [lia|].
  intros i Hi. rewrite Hfmap. destruct (Hdom i ltac:(lia)) as [j Hj].
  exists j. split; [done|]. apply Hmap in Hj. by rewrite Hfuncs in Hj.
Qed.

Lemma buildAggregation_aligned_witness :
  ∃ (listFuncs : list expression.AggregationFunction) child,
    children count_a_agg = [child]
    ∧ length (expression.Columns (schema count_a_agg))
      = (length listFuncs + length (expression.Columns (schema child)))%nat
    ∧ (length listFuncs ≤ 1)%nat.
Proof.
  assert (Hrun : @buildAggregation sample.externals (Some t_plan) [count_a] []
                   builder_after_t
                 = Ok (Some count_a_agg, match count_a_built with
                                         | Ok (_, m) _ => m
                                         | Crash _ => ∅
                                         end)
                      (match count_a_built with
                       | Ok _ b => b
                       | Crash _ => sample.builder0
                       end)) by (vm_compute; reflexivity).
  destruct (buildAggregation_aligned sample.externals _ _ _ _ _ _ _ Hrun)
    as (listFuncs & child & H1 & _ & H3 & H4 & _).
  by exists listFuncs, child.
Defined.
(** ** Instances of the further properties *)

Lemma colMatch_preorder_witness :
  colMatch (colName "a") (qualified "test" "t" "a") = true.
Proof.
  destruct colMatch_preorder as (_ & Htrans & _).
  apply (Htrans (colName "a") (qualified "" "t" "a") (qualified "test" "t" "a"));
    reflexivity.
Defined.

Lemma extractCorColumns_occurrences_witness : cor_in outer_a a_eq_outer_a.
Proof.
  destruct extractCorColumns_occurrences as [_ Hin].
  apply (Hin a_eq_outer_a outer_a). simpl. by apply list_elem_of_singleton.
Defined.

Lemma extractOnCondition_partition_witness :
  match on_run with
  | Done res =>
      (length (eqCond res) + length (leftCond res) + length (rightCond res)
       + length (otherCond res) = 4)%nat
      ∧ rightCond res `sublist_of` on_conditions
  | Fail _ => False
  end.
Proof.
  assert (Hrun : @extractOnCondition sample.externals sample2.exprs on_conditions
                   t1_plan t2_plan = on_run) by (vm_compute; reflexivity).
  destruct (extractOnCondition_partition sample.externals sample2.exprs _ _ _ _ Hrun)
    as (Hlen & _ & Hright & _).
  split; [exact Hlen | exact Hright].
Defined.

Lemma extractOnCondition_right_first_witness :
  @extractOnCondition sample.externals sample2.exprs
    [expression.EConstant (types.VInt64 1)] None None
  = Done (mkOnConditions [] [] [expression.EConstant (types.VInt64 1)] []).
Proof.
  destruct (extractOnCondition_right_first sample.externals sample2.exprs) as [Hfirst _].
  apply Hfirst. constructor; [|constructor]. split; [by intros [] | reflexivity].
Defined.

Lemma sample_attaches : attaches_conditions sample.externals.
Proof. intros conds p. eexists. reflexivity. Qed.

Lemma buildSemiApply_ids_witness :
  ∃ ap,
    @buildSemiApply sample.externals sample2.exprs (Some t_plan) (Some t_plan) [] true false
      builder_after_t
    = Ok (Some ap) (set_allocator (allocator builder_after_t + 2) builder_after_t)
    ∧ children ap = [t_plan; t_plan]
    ∧ JoinType_ (joinInfo ap) = LeftOuterSemiJoin.
Proof.
  destruct (buildSemiApply_ids sample.externals sample2.exprs sample_attaches) as [Hids _].
  destruct (Hids t_plan t_plan [] true false builder_after_t)
    as (ap & Hrun & _ & Hchildren & Htype & _).
  by exists ap.
Defined.

Lemma constructors_nil_on_error_witness : result_of where_unknown_built None = None.
Proof.
  destruct (constructors_nil_on_error sample.externals sample_err_untouched)
    as (Hselection & _).
  assert (Hrun : @buildSelection sample.externals (Some t_plan)
                   (ast.BinaryOperationExpr "gt" (colRef "nosuch") (intLit 1)) []
                   builder_after_t
                 = Ok (result_of where_unknown_built None) (builder_of where_unknown_built))
    by (vm_compute; reflexivity).
  apply (Hselection _ _ _ builder_after_t _ _ eq_refl Hrun). vm_compute. discriminate.
Defined.

Lemma buildSelect_nil_with_error_witness : result_of two_unknowns_run None = None.
Proof.
  assert (Hrun : @buildSelect sample.externals select_two_unknowns sample.builder0
                 = Ok (result_of two_unknowns_run None) (builder_of two_unknowns_run))
    by (vm_compute; reflexivity).
  apply (buildSelect_nil_with_error sample.externals _ _ _ _ Hrun). vm_compute. discriminate.
Defined.

Lemma buildDelete_node_or_error_witness :
  is_Some (result_of delete_run None) ∧ result_of delete_unknown_run None = None.
Proof.
  assert (Hrun : @buildDelete sample.externals (delete_t_where "a") sample.builder0
                 = Ok (result_of delete_run None) (builder_of delete_run))
    by (vm_compute; reflexivity).
  assert (Hrun' : @buildDelete sample.externals (delete_t_where "nosuch") sample.builder0
                  = Ok (result_of delete_unknown_run None) (builder_of delete_unknown_run))
    by (vm_compute; reflexivity).
  split.
  - apply (buildDelete_node_or_error sample.externals _ _ _ _ Hrun). reflexivity.
  - apply (buildDelete_node_or_error sample.externals _ _ _ _ Hrun'). vm_compute.
    discriminate.
Defined.

Lemma buildUnion_nil_with_error_witness : result_of union_1_12_run None = None.
Proof.
  assert (Hrun : @buildUnion sample.externals union_1_12 sample.builder0
                 = Ok (result_of union_1_12_run None) (builder_of union_1_12_run))
    by (vm_compute; reflexivity).
  apply (buildUnion_nil_with_error sample.externals sample_err_untouched _ _ _ _ Hrun).
  vm_compute. discriminate.
Defined.

Lemma buildProjection_columns_witness :
  match projection_run with
  | Ok (Some proj, oldLen) _ =>
      length (expression.Columns (schema proj)) = 2%nat ∧ oldLen = 2
  | _ => False
  end.
Proof.
  assert (Hrun : @buildProjection sample.externals (Some t_plan)
                   [field (colRef "a") "a"; b_plus_1_as_a] [] builder_after_t
                 = projection_run) by (vm_compute; reflexivity).
  destruct (buildProjection_columns sample.externals _ _ _ _ _ _ _ Hrun)
    as (Hlen & _ & Hold & _).
  split; [exact Hlen | exact Hold].
Defined.
(** ** DISTINCT *)

Lemma collectGroupByColumns_Column2Exprs cols :
  collectGroupByColumns (expression.Column2Exprs cols) = cols.
Proof.
  unfold collectGroupByColumns, expression.Column2Exprs.
  induction cols as [|c cols IH]; csimpl; [done | by rewrite IH].
Qed.

(** [buildDistinct] on a plan and a length within the columns of the plan
    returns an aggregation over the plan with the schema of the plan: it
    groups by the first [length] columns, which are also its group-by
    columns, and computes FIRST_ROW of every column, in the order of the
    columns.  It allocates one id.  With a length that is negative or
    larger than the number of columns it panics with a slice bound out of
    range, and on a nil plan with a nil dereference. *)
Theorem buildDistinct_groups_prefix child length b :
  (0 ≤ length ≤ expression.Len (schema child) →
   ∃ agg,
     buildDistinct (Some child) length b
     = Ok (Some agg) (set_allocator (allocator b + 1) b)
     ∧ id agg = "Aggregation_" +:+ pretty (allocator b + 1)
     ∧ children agg = [child]
     ∧ schema agg = schema child
     ∧ kind agg
       = KAggregation
           ((λ col, expression.NewAggFunction ast.AggFuncFirstRow
                      [Some (expression.EColumn col)] false)
            <$> expression.Columns (schema child))
           (expression.Column2Exprs
              (take (Z.to_nat length) (expression.Columns (schema child))))
           (take (Z.to_nat length) (expression.Columns (schema child))))
  ∧ (¬ 0 ≤ length ≤ expression.Len (schema child) →
     buildDistinct (Some child) length b = Crash SliceBounds)
  ∧ buildDistinct None length b = Crash NilDereference.
Proof.
  split; [|split; [|done]].
  - intros Hlen. unfold buildDistinct, fn, bind at 1. simpl.
    unfold bind at 1, slice_to. rewrite Clone_columns.
    unfold expression.Len in Hlen. rewrite decide_True by done. simpl.
    eexists. split; [reflexivity|]. simpl.
    split; [done|]. split; [done|].
    split; [unfold expression.Clone; rewrite Clone_columns; by destruct (schema child)|].
    by rewrite collectGroupByColumns_Column2Exprs.
  - intros Hlen. unfold buildDistinct, fn, bind at 1. simpl.
    unfold bind at 1, slice_to. rewrite Clone_columns.
    unfold expression.Len in Hlen. by rewrite decide_False.
Qed.

Lemma buildDistinct_groups_prefix_witness :
  ∃ agg,
    buildDistinct (Some t_plan) 1 builder_after_t
    = Ok (Some agg) (set_allocator (allocator builder_after_t + 1) builder_after_t)
    ∧ children agg = [t_plan]
    ∧ schema agg = schema t_plan.
Proof.
  destruct (buildDistinct_groups_prefix t_plan 1 builder_after_t) as [Hin _].
  destruct Hin as (agg & Hrun & _ & Hchildren & Hschema & _); [vm_compute; by split|].
  by exists agg.
Defined.
(** ** The resolver of GROUP BY *)

(** [gbyResolver.Leave] never indexes the select fields out of range: it
    returns on every node and every resolver.  A position from 1 to the
    number of fields is replaced by the expression of the field at that
    place, counted from 1, and the resolver is left as it was; any other
    position stops the walk with the error [Unknown column 'N' in 'group
    statement'].  A column name is left in place or replaced by the
    expression of one of the fields. *)
Theorem gbyResolver_Leave_in_range (ext : Externals) :
  (∀ inNode g, ∃ r, g_Leave inNode g = Done r)
  ∧ (∀ N g, 1 ≤ N ≤ Z.of_nat (length (g_fields g)) →
       ∃ field, g_fields g !! Z.to_nat (N - 1) = Some field
                ∧ g_Leave (ast.NExpr (ast.PositionExpr N)) g
                  = Done ((ast.NExpr <$> ast.Expr field, true), g))
  ∧ (∀ N g, ¬ 1 ≤ N ≤ Z.of_nat (length (g_fields g)) →
       ∃ g', g_Leave (ast.NExpr (ast.PositionExpr N)) g
             = Done ((Some (ast.NExpr (ast.PositionExpr N)), false), g')
             ∧ g_err g'
               = Some (errors_New ("Unknown column '" +:+ pretty N +:+
                                   "' in 'group statement'"))
             ∧ g_fields g' = g_fields g)
  ∧ (∀ v g n ok g',
       g_Leave (ast.NExpr (ast.ColumnNameExpr v)) g = Done ((n, ok), g') →
       n = Some (ast.NExpr (ast.ColumnNameExpr v))
       ∨ ∃ field, field ∈ g_fields g ∧ n = ast.NExpr <$> ast.Expr field).
Proof.
  assert (Hpos : ∀ N g, 1 ≤ N ≤ Z.of_nat (length (g_fields g)) →
            ∃ field, g_fields g !! Z.to_nat (N - 1) = Some field
                     ∧ g_Leave (ast.NExpr (ast.PositionExpr N)) g
                       = Done ((ast.NExpr <$> ast.Expr field, true), g)).
  { intros N g HN. destruct (lookup_lt_is_Some_2 (g_fields g) (Z.to_nat (N - 1)))
      as [field Hfield]; [lia|].
    exists field. split; [done|]. simpl.
    rewrite !bool_decide_eq_true_2 by lia. simpl. by rewrite Hfield. }
  assert (Hout : ∀ N g, ¬ 1 ≤ N ≤ Z.of_nat (length (g_fields g)) →
            ∃ g', g_Leave (ast.NExpr (ast.PositionExpr N)) g
                  = Done ((Some (ast.NExpr (ast.PositionExpr N)), false), g')
                  ∧ g_err g'
                    = Some (errors_New ("Unknown column '" +:+ pretty N +:+
                                        "' in 'group statement'"))
                  ∧ g_fields g' = g_fields g).
  { intros N g HN. eexists. simpl.
    destruct (bool_decide (N >= 1)) eqn:H1;
      destruct (bool_decide (N <= Z.of_nat (length (g_fields g)))) eqn:H2; simpl;
      try (split; [reflexivity | by split]).
    apply bool_decide_eq_true_1 in H1, H2. lia. }
  split; [|split; [exact Hpos | split; [exact Hout|]]].
  - intros inNode g. destruct inNode as [e|c]; [|by eexists].
    destruct e; try by eexists.
    + simpl. destruct (FindColumn _ _) as [col err].
      destruct (bool_decide (col = None) || negb (g_inExpr g)); [|by eexists].
      destruct (resolveFromSelectFields _ _ _) as [index e] eqn:Hres.
      destruct e as [e|]; [by eexists|]. destruct col; [by eexists|].
      case_bool_decide as Hindex; [|by eexists].
      apply resolveFromSelectFields_bound in Hres as [->|Hres]; [done|].
      destruct (lookup_lt_is_Some_2 (g_fields g) (Z.to_nat index)) as [field Hfield];
        [lia|].
      rewrite Hfield. by eexists.
    + match goal with
      | |- context [ast.PositionExpr ?N] =>
          destruct (decide (1 ≤ N ≤ Z.of_nat (length (g_fields g)))) as [HN|HN]
      end.
      * destruct (Hpos _ g HN) as (field & _ & ->). by eexists.
      * destruct (Hout _ g HN) as (g' & -> & _). by eexists.
  - intros v g n ok g'. simpl. destruct (FindColumn _ _) as [col err].
    destruct (bool_decide (col = None) || negb (g_inExpr g));
      [|intros [= <- _ _]; by left].
    destruct (resolveFromSelectFields _ _ _) as [index e] eqn:Hres.
    destruct e as [e|]; [intros [= <- _ _]; by left|].
    destruct col; [intros [= <- _ _]; by left|].
    case_bool_decide as Hindex; [|intros [= <- _ _]; by left].
    destruct (g_fields g !! Z.to_nat index) as [field|] eqn:Hfield; [|done].
    intros [= <- _ _]. right. exists field. split; [|done].
    by eapply list_elem_of_lookup_2.
Qed.

Lemma gbyResolver_Leave_in_range_witness :
  @g_Leave sample.externals (ast.NExpr (ast.PositionExpr 1)) gby_sample
  = Done ((ast.NExpr <$> ast.Expr b_plus_1_as_a, true), gby_sample).
Proof.
  destruct (gbyResolver_Leave_in_range sample.externals) as (_ & Hpos & _).
  destruct (Hpos 1 gby_sample) as (field & Hfield & Hrun); [simpl; lia|].
  simpl in Hfield. injection Hfield as <-. exact Hrun.
Defined.
(** ** ORDER BY *)

Section SortShape.
Context {ext : Externals}.



End SortShape.


(** ** Data sources *)

Section DataSourceSchema.
Context {ext : Externals}.

Lemma dataSourceColumns_foldl pid ti sn (l : list (nat * model.ColumnInfo)) cols0 sch0 pk0 :
  foldl (λ (acc : list model.ColumnInfo * expression.Schema * option expression.Column) ic,
           let '(cols, schema, pkCol) := acc in
           let '(i, col) := (ic.1, ic.2) in
           let c := {| expression.FromID := pid;
                       expression.ColName := model.ci_Name col;
                       expression.DBName := sn;
                       expression.TblName := model.ti_Name ti;
                       expression.RetType := types.FieldType_of col;
                       expression.ID := model.ci_ID col;
                       expression.Position := Z.of_nat i;
                       expression.IsAggOrSubq := false;
                       expression.Index := 0 |} in
           (cols ++ [col], expression.Append schema c,
            if model.PKIsHandle ti && HasPriKeyFlag (model.ci_Flag col)
            then Some c else pkCol))
        (cols0, sch0, pk0) l
  = (cols0 ++ l.*2,
     expression.mkSchema
       (expression.Columns sch0 ++ ((λ ic, tableColumn pid ti sn ic.1 ic.2) <$> l))
       (expression.TblID2Handle sch0),
     if model.PKIsHandle ti then
       match last ((λ ic, tableColumn pid ti sn ic.1 ic.2)
                     <$> List.filter (λ ic, HasPriKeyFlag (model.ci_Flag ic.2)) l) with
       | Some c => Some c
       | None => pk0
       end
     else pk0).
Proof.
  match goal with |- context [foldl ?f _ _] => set (step := f) end.
  revert cols0 sch0 pk0. induction l as [|[i col] rest IH]; intros cols0 sch0 pk0.
  - simpl. rewrite !app_nil_r. destruct sch0. by destruct (model.PKIsHandle ti).
  - cbn [foldl].
    change (step (cols0, sch0, pk0) (i, col))
      with (cols0 ++ [col], expression.Append sch0 (tableColumn pid ti sn i col),
            if model.PKIsHandle ti && HasPriKeyFlag (model.ci_Flag col)
            then Some (tableColumn pid ti sn i col) else pk0).
    rewrite IH. f_equal; [f_equal|].
    + simpl. by rewrite <- app_assoc.
    + simpl. by rewrite <- app_assoc.
    + destruct (model.PKIsHandle ti); [|done]. simpl.
      destruct (HasPriKeyFlag (model.ci_Flag col)); [|done].
      csimpl. rewrite last_cons. by destruct (last _).
Qed.

Lemma dataSourceColumns_spec pid ti sn columns :
  dataSourceColumns pid ti sn columns
  = (columns, expression.NewSchema (imap (tableColumn pid ti sn) columns),
     pkHandle pid ti sn columns).
Proof.
  unfold dataSourceColumns. rewrite dataSourceColumns_foldl. simpl.
  assert (H2 : (imap pair columns).*2 = columns).
  { rewrite fmap_imap. clear. induction columns as [|c l IH] using rev_ind; [done|].
    rewrite imap_app, IH. done. }
  assert (Hcols : (λ ic : nat * model.ColumnInfo, tableColumn pid ti sn ic.1 ic.2)
                  <$> imap pair columns = imap (tableColumn pid ti sn) columns).
  { rewrite fmap_imap. by apply imap_ext. }
  rewrite H2, Hcols. unfold pkHandle.
  destruct (model.PKIsHandle ti); [|done]. by destruct (last _).
Qed.

Lemma buildDataSource_found tn b tbl :
  TableByName (schemaNameOf tn) (ast.tn_Name tn) = inl tbl →
  ∃ ds info b1,
    buildDataSource tn b = Ok (Some ds) b1
    ∧ kind ds = KDataSource info
    ∧ tableInfo info = Meta tbl.
Proof.
  intros Htbl. unfold buildDataSource, schemaNameOf in *. rewrite Htbl.
  unfold fn, bind at 1, get. unfold bind at 1, call. rewrite init_Ok.
  unfold bind at 1, modify.
  destruct (dataSourceColumns _ _ _ _) as [[pColumns sch] pkCol].
  destruct (_ && _); [by eexists _, _, _|].
  destruct pkCol; by eexists _, _, _.
Qed.

End DataSourceSchema.

(** [buildDataSource] looks the table up in the current database when the
    name has no schema.  When the table is not found it sets the error and
    returns nil, and changes nothing else of the builder.  When it is found
    it returns a data source without children, allocates one id and adds
    one [Select] privilege entry for the table.  The schema begins with one
    column for each column of the table, in their order, owned by the data
    source and placed from 0.  When no handle is asked for and the
    transaction does not write, these are all the columns and the schema
    has no handle.  Otherwise the schema has exactly one handle, for the id
    of the table.  When the primary key is the handle of the table and a
    column that is read has the primary-key flag, the handle is the column
    of the schema for the last such column, and the schema has no other
    column.  When the primary key is not the handle, or no column read has
    the flag, the handle is a column [_rowid] of the data source, with the
    id of the extra handle, appended after the columns of the table and
    placed there. *)
Theorem buildDataSource_schema (ext : Externals) tn b :
  (∀ e, TableByName (schemaNameOf tn) (ast.tn_Name tn) = inr e →
        buildDataSource tn b = Ok None (set_err (Some (Foreign e)) b))
  ∧ (∀ tbl, TableByName (schemaNameOf tn) (ast.tn_Name tn) = inl tbl →
       ∃ ds,
         buildDataSource tn b
         = Ok (Some ds)
              (set_visitInfo
                 (b_visitInfo b ++ [mkVisitInfo "Select" (model.L (schemaNameOf tn))
                                      (model.L (model.ti_Name (Meta tbl))) ""])
                 (set_allocator (allocator b + 1) b))
         ∧ id ds = "DataSource_" +:+ pretty (allocator b + 1)
         ∧ children ds = []
         ∧ (∃ info, kind ds = KDataSource info
                    ∧ tableInfo info = Meta tbl
                    ∧ ds_DBName info = schemaNameOf tn
                    ∧ TableAsName info = None
                    ∧ NeedColHandle info = bool_decide (needColHandle b > 0))
         ∧ let cols := imap (tableColumn (id ds) (Meta tbl) (schemaNameOf tn))
                         (columnsRead b tbl) in
           if bool_decide (needColHandle b = 0) && negb TxnReadWrite then
             expression.Columns (schema ds) = cols
             ∧ expression.TblID2Handle (schema ds) = ∅
           else
             match pkHandle (id ds) (Meta tbl) (schemaNameOf tn) (columnsRead b tbl) with
             | Some handle =>
                 expression.Columns (schema ds) = cols
                 ∧ expression.TblID2Handle (schema ds)
                   = {[ model.ti_ID (Meta tbl) := [handle] ]}
             | None =>
                 let rowid := rowidColumn (id ds) (Meta tbl) (schemaNameOf tn)
                                (length (columnsRead b tbl)) in
                 expression.Columns (schema ds) = cols ++ [rowid]
                 ∧ expression.TblID2Handle (schema ds)
                   = {[ model.ti_ID (Meta tbl) := [rowid] ]}
             end).
Proof.
  split.
  - intros e He. unfold buildDataSource, schemaNameOf in *. by rewrite He.
  - intros tbl Htbl. unfold buildDataSource, schemaNameOf in *. rewrite Htbl.
    unfold fn, bind at 1, get. unfold bind at 1, call. rewrite init_Ok.
    unfold bind at 1, modify. cbn [id].
    set (sn := if decide (model.L (ast.tn_Schema tn) = "") then _ else _).
    set (pid := "DataSource_" +:+ pretty (allocator b + 1)).
    fold (columnsRead b tbl).
    rewrite (dataSourceColumns_spec (kind_tag (KDataSource
                (mkDataSourceInfo (ast.IndexHints tn) (Meta tbl) sn None []
                   (bool_decide (needColHandle b > 0)) None)) +:+ "_" +:+
                pretty (allocator b + 1)) (Meta tbl) sn (columnsRead b tbl)).
    change (kind_tag (KDataSource _) +:+ "_" +:+ pretty (allocator b + 1)) with pid.
    destruct (bool_decide (needColHandle b = 0) && negb TxnReadWrite) eqn:Hplain.
    + eexists. split; [reflexivity|]. simpl. split; [done|]. split; [done|].
      split; [by eexists|]. done.
    + destruct (pkHandle pid (Meta tbl) sn (columnsRead b tbl)) as [pkCol|] eqn:Hpk.
      * eexists. split; [reflexivity|]. simpl. split; [done|]. split; [done|].
        split; [by eexists|]. fold pid. rewrite Hpk. done.
      * eexists. split; [reflexivity|]. simpl. split; [done|]. split; [done|].
        split; [by eexists|]. fold pid. rewrite Hpk. unfold expression.Len. simpl.
        rewrite length_imap. done.
Qed.

Lemma buildDataSource_schema_witness :
  (∃ ds, t_with_handle
         = Ok (Some ds)
             (set_visitInfo [mkVisitInfo "Select" "test" "t" ""]
                (set_allocator 1 handle_builder))
         ∧ model.L ∘ expression.ColName <$> expression.Columns (schema ds)
           = ["a"; "b"; "c"; "_rowid"]
         ∧ expression.TblID2Handle (schema ds)
           = {[ 1 := [@rowidColumn sample.externals "DataSource_1"
                        (Meta (sample.tableOf 1 "t" ["a"; "b"; "c"]))
                        (model.NewCIStr "test") 3] ]})
  ∧ (∃ ds, u_with_handle
           = Ok (Some ds)
               (set_visitInfo [mkVisitInfo "Select" "test" "u" ""]
                  (set_allocator 1 handle_builder))
           ∧ model.L ∘ expression.ColName <$> expression.Columns (schema ds)
             = ["id"; "v"]
           ∧ ∃ handle, expression.TblID2Handle (schema ds) = {[ 4 := [handle] ]}
                       ∧ expression.Columns (schema ds) !! 0%nat = Some handle).
Proof.
  split.
  - destruct (buildDataSource_schema sample.externals (tableName "t") handle_builder)
      as [_ Hfound].
    destruct (Hfound (sample.tableOf 1 "t" ["a"; "b"; "c"]) eq_refl)
      as (ds & Hrun & Hid & _ & _ & Hcols).
    exists ds. split; [exact Hrun|]. rewrite Hid in Hcols.
    destruct Hcols as [-> ->]. split; reflexivity.
  - destruct (buildDataSource_schema sample.externals (tableName "u") handle_builder)
      as [_ Hfound].
    destruct (Hfound sample.keyedTable eq_refl) as (ds & Hrun & Hid & _ & _ & Hcols).
    exists ds. split; [exact Hrun|]. rewrite Hid in Hcols.
    destruct Hcols as [-> ->]. split; [reflexivity|]. eexists. split; reflexivity.
Defined.

(** ** Table sources and their alias *)

Lemma bail_Next {R} (r : R) b u b' : bail r b = Next u b' → err b = None ∧ b' = b.
Proof. unfold bail. destruct (err b); [done|]. by intros [= _ <-]. Qed.

(** A table source that returns a plan returns it without an error.  When
    the source has an alias, every column of the plan has the alias as its
    table name and no database name, and a data source records the alias,
    also an empty one.  For [buildJoin], which asks [extractTableAlias]
    for the name of each side: a plan built from a table source with an
    alias goes by the alias when it is a data source or has a column, and a
    table without an alias by the name of the table in the catalog. *)
Theorem table_source_alias (ext : Externals) Source AsName b p b' :
  buildResultSetNode (ast.RTableSource Source AsName) b = Ok (Some p) b' →
  err b' = None
  ∧ (∀ ds, kind p = KDataSource ds → TableAsName ds = Some AsName)
  ∧ (model.L AsName ≠ "" →
     Forall (λ col, expression.TblName col = AsName
                    ∧ expression.DBName col = model.NewCIStr "")
       (expression.Columns (schema p))
     ∧ ∀ R b0,
         (∃ ds, kind p = KDataSource ds) ∨ expression.Columns (schema p) ≠ [] →
         @extractTableAlias R (Some p) b0 = Next (Some AsName) b0)
  ∧ (model.L AsName = "" →
     ∀ tn tbl R b0,
       Source = ast.RTableName tn →
       TableByName (schemaNameOf tn) (ast.tn_Name tn) = inl tbl →
       @extractTableAlias R (Some p) b0 = Next (Some (model.ti_Name (Meta tbl))) b0).
Proof.
  simpl. intros Hrun.
  apply (returnsG_Ok (λ r, r = None)) in Hrun; [| |done].
  2:{ returns. }
  apply bind_Next in Hrun as (p0 & b1 & Hsrc & Hrun).
  apply bind_Next in Hrun as (u & b2 & [Herr ->]%bail_Next & Hrun).
  assert (Hp : ∃ n, p0 = Some n
                    ∧ b' = b1
                    ∧ p = (if decide (model.L AsName ≠ "")
                           then aliasColumns AsName (setTableAsName AsName n)
                           else setTableAsName AsName n)).
  { destruct p0 as [n|]; simpl in Hrun.
    - exists n. split; [done|]. case_decide; by injection Hrun as <- <-.
    - case_decide; [done | by injection Hrun]. }
  destruct Hp as (n & -> & -> & ->). clear Hrun.
  split; [done|].
  assert (Hkind : ∀ q, kind (aliasColumns AsName q) = kind q) by done.
  assert (Hset : ∀ ds, kind (setTableAsName AsName n) = KDataSource ds →
                       TableAsName ds = Some AsName).
  { intros ds. unfold setTableAsName. destruct (kind n) eqn:Hn; simpl; rewrite ?Hn; try done.
    by intros [= <-]. }
  split; [|split].
  - intros ds. case_decide; [rewrite Hkind|]; apply Hset.
  - intros Halias. rewrite decide_True by done. split.
    + simpl. apply Forall_fmap, Forall_true. by intros col.
    + intros R b0 Hcases.
      assert (Hall : Forall (λ col, expression.TblName col = AsName)
                       (expression.Columns
                          (schema (aliasColumns AsName (setTableAsName AsName n))))).
      { simpl. apply Forall_fmap, Forall_true. by intros col. }
      unfold extractTableAlias.
      destruct (aliasColumns AsName (setTableAsName AsName n)) as [k i s c] eqn:Hq.
      assert (Hk : kind (setTableAsName AsName n) = k) by (by rewrite <- Hkind, Hq).
      simpl in Hall, Hcases.
      destruct k;
        try (destruct Hcases as [[ds Hds] | Hne]; [done|]; unfold bind, ret; simpl;
             destruct (expression.Columns s) as [|c0 cs]; [done|];
             apply Forall_cons in Hall as [-> _]; by rewrite decide_True).
      rewrite (Hset _ Hk). by rewrite decide_True.
  - intros Halias tn tbl R b0 -> Htbl. rewrite decide_False by (by intros []).
    apply call_Next in Hsrc.
    destruct (buildDataSource_found tn b tbl Htbl) as (ds & info & b2 & Hds & Hinfo & Hti).
    rewrite Hds in Hsrc. injection Hsrc as <- <-.
    unfold extractTableAlias, setTableAsName. rewrite Hinfo.
    destruct ds as [k i s c]. simpl in *. subst k. simpl.
    rewrite decide_False by (by intros []). by rewrite Hti.
Qed.

Lemma table_source_alias_witness :
  match aliased_t_run with
  | Ok (Some p) b' =>
      err b' = None
      ∧ Forall (λ col, expression.TblName col = model.NewCIStr "x"
                       ∧ expression.DBName col = model.NewCIStr "")
          (expression.Columns (schema p))
  | _ => False
  end.
Proof.
  assert (Hrun : @buildResultSetNode sample.externals aliased_t sample.builder0
                 = aliased_t_run) by (vm_compute; reflexivity).
  destruct (table_source_alias sample.externals _ _ _ _ _ Hrun)
    as (Herr & _ & Halias & _).
  split; [exact Herr|]. apply Halias. vm_compute. discriminate.
Defined.
(** ** Joins without a condition *)

Section PlainJoin.
Context {ext : Externals}.

Lemma returnsG_extractTableAlias {R} nil p : returnsG nil (@extractTableAlias R p).
Proof. unfold extractTableAlias. returns. Qed.

Lemma extractTableAlias_Next {R} p a b b' :
  @extractTableAlias R p b = Next a b' → b' = b ∧ is_Some p.
Proof.
  unfold extractTableAlias. destruct p as [[k i s c]|]; [|done].
  intros H. split; [|done]. revert H.
  destruct k; try (unfold bind, ret; simpl; destruct (expression.Columns s);
                   [|case_decide]; by intros [= _ <-]).
  destruct (TableAsName _); [|done]. case_decide; by intros [= _ <-].
Qed.

End PlainJoin.

(** A join of two operands without ON, USING or NATURAL that [buildJoin]
    returns is marked as a cartesian product, whatever its type: the test
    of the type runs before the type of the statement is set.  Its
    children are the two plans, its columns are those of the left plan and
    then those of the right plan, a left join has one default value for
    each column of the right plan and a right join one for each column of
    the left plan.  Hints for a merge join and for an index join are never
    both kept. *)
Theorem buildJoin_without_condition (ext : Externals) Left Right c b j b' :
  ast.NaturalJoin c = false → ast.Using c = None → ast.On c = None →
  buildJoin (ast.mkJoin Left (ast.HasRight Right) c) b = Ok (Some j) b' →
  ∃ lp rp info,
    children j = [lp; rp]
    ∧ kind j = KJoin info
    ∧ cartesianJoin info = true
    ∧ expression.Columns (schema j)
      = expression.Columns (schema lp) ++ expression.Columns (schema rp)
    ∧ ¬ (preferMergeJoin info = true ∧ preferINLJ info > 0)
    ∧ match ast.Tp c with
      | ast.LeftJoin =>
          JoinType_ info = LeftOuterJoin
          ∧ length (DefaultValues info) = length (expression.Columns (schema rp))
      | ast.RightJoin =>
          JoinType_ info = RightOuterJoin
          ∧ length (DefaultValues info) = length (expression.Columns (schema lp))
      | ast.CrossJoin => JoinType_ info = InnerJoin ∧ DefaultValues info = []
      end.
Proof.
  intros Hnat Husing Hon. simpl. unfold joinPlans. rewrite Hnat, Husing, Hon.
  intros Hrun.
  apply (returnsG_Ok (λ r, r = None)) in Hrun; [| |done].
  2:{ pose proof @returnsG_extractTableAlias. returns. }
  apply bind_Next in Hrun as (leftPlan & b1 & _ & Hrun).
  apply bind_Next in Hrun as (rightPlan & b2 & _ & Hrun).
  apply bind_Next in Hrun as (leftAlias & b3 & [-> [lp ->]]%extractTableAlias_Next & Hrun).
  apply bind_Next in Hrun as (rightAlias & b3 & [-> [rp ->]]%extractTableAlias_Next & Hrun).
  apply bind_Next in Hrun as (lsch & b3 & [= <- <-] & Hrun).
  apply bind_Next in Hrun as (rsch & b3 & [= <- <-] & Hrun).
  apply bind_Next in Hrun as (joinPlan & b3 & Hinit%call_Next & Hrun).
  rewrite init_Ok in Hinit. injection Hinit as <- <-.
  apply bind_Next in Hrun as (b4 & b5 & [= <- <-] & Hrun).
  apply bind_Next in Hrun as (joinPlan & b6 & Hhints & Hrun).
  assert (Hj : ∃ merge inlj r,
            joinPlan
            = mkPlan (KJoin (setJoinHints merge inlj (setRedundant r zeroJoin)))
                ("Join_" +:+ pretty (allocator b2 + 1))
                (default (expression.NewSchema [])
                   (expression.MergeSchema (Some (schema lp)) (Some (schema rp))))
                [lp; rp]
            ∧ ¬ (merge = true ∧ inlj > 0)).
  { destruct (TableHints _) as [hints|].
    - destruct (_ && _) eqn:Hc; [done|]. injection Hhints as <- <-.
      eexists _, _, _. split; [reflexivity|].
      intros [Hm HX]. apply andb_false_iff in Hc as [Hc | Hc].
      + pose proof (eq_trans (eq_sym Hm) Hc). discriminate.
      + apply bool_decide_eq_false in Hc. exact (Hc HX).
    - injection Hhints as <- <-. exists false, 0, (expression.MergeSchema
        (redundantOf (Some lp)) (redundantOf (Some rp))).
      split; [reflexivity | lia]. }
  clear Hhints. destruct Hj as (merge & inlj & r & -> & Hconflict).
  apply bind_Next in Hrun as (joinPlan & b7 & Hcart & Hrun).
  simpl in Hcart. injection Hcart as <- <-.
  exists lp, rp.
  destruct (ast.Tp c); injection Hrun as <- <-; simpl;
    (eexists; split; [done|]; split; [reflexivity|]; simpl; split; [done|]).
  all: rewrite !Clone_columns; split; [done|]; split; [done|]; split; [done|].
  - done.
  - unfold expression.Len. by rewrite length_replicate, Nat2Z.id.
  - unfold expression.Len. by rewrite length_replicate, Nat2Z.id.
Qed.

Lemma buildJoin_without_condition_witness :
  match left_join_run with
  | Ok (Some j) _ =>
      ∃ info, kind j = KJoin info ∧ cartesianJoin info = true
              ∧ JoinType_ info = LeftOuterJoin
  | _ => False
  end.
Proof.
  assert (Hrun : @buildJoin sample.externals left_join_t1_t2 sample.builder0
                 = left_join_run) by (vm_compute; reflexivity).
  destruct (buildJoin_without_condition sample.externals (tableRef "t1") (tableRef "t2")
              (ast.mkJoinClauses ast.LeftJoin false None None) sample.builder0 _ _
              eq_refl eq_refl eq_refl Hrun)
    as (lp & rp & info & _ & Hkind & Hcart & _ & _ & Htype & _).
  by exists info.
Defined.
(** ** The columns of a join with USING or NATURAL *)

Section CoalesceColumns.
Context {ext : Externals}.

Lemma index_nat_Next {R A} (s : list A) i x b b' :
  @index_nat R A s i b = Next x b' → s !! i = Some x ∧ b' = b.
Proof. unfold index_nat. destruct (s !! i); [|done]. by intros [= <- <-]. Qed.

Lemma copy_within_Next {R A} dlo dhi slo shi (s s' : list A) b b' :
  @copy_within R A dlo dhi slo shi s b = Next s' b' →
  (dlo ≤ dhi ≤ length s)%nat ∧ (slo ≤ shi ≤ length s)%nat
  ∧ s' = take dlo s ++ take ((dhi - dlo) `min` (shi - slo))%nat (drop slo s)
         ++ drop (dlo + (dhi - dlo) `min` (shi - slo))%nat s
  ∧ b' = b.
Proof.
  unfold copy_within. case_decide as H; [|done]. intros [= <- <-].
  destruct H. done.
Qed.

(** The three statements that move the column at [i] to the place [n]:
    a rotation of the columns from [n] to [i]. *)
Lemma rotate_to_front {A} (s : list A) (n i : nat) col :
  (n ≤ i)%nat → s !! i = Some col →
  <[n := col]> (take (n + 1) s
                ++ take ((i + 1 - (n + 1)) `min` (i - n))%nat (drop n s)
                ++ drop (n + 1 + (i + 1 - (n + 1)) `min` (i - n))%nat s)
  = take n s ++ col :: take (i - n) (drop n s) ++ drop (S i) s.
Proof.
  intros Hn Hi. pose proof (lookup_lt_Some _ _ _ Hi) as Hlen.
  replace ((i + 1 - (n + 1)) `min` (i - n))%nat with (i - n)%nat by lia.
  replace (n + 1 + (i - n))%nat with (S i) by lia.
  replace (n + 1)%nat with (S n) by lia.
  destruct (lookup_lt_is_Some_2 s n ltac:(lia)) as [x Hx].
  rewrite (take_S_r _ _ _ Hx), <- app_assoc. simpl.
  rewrite insert_app_r_alt by (rewrite length_take; lia).
  rewrite length_take. replace (n - n `min` length s)%nat with 0%nat by lia. done.
Qed.

Lemma rotate_to_front_perm {A} (s : list A) (n i : nat) col :
  (n ≤ i)%nat → s !! i = Some col →
  take n s ++ col :: take (i - n) (drop n s) ++ drop (S i) s ≡ₚ s.
Proof.
  intros Hn Hi.
  rewrite <- (take_drop n s) at 4.
  apply Permutation_app_head.
  rewrite <- (take_drop (i - n) (drop n s)) at 2.
  rewrite drop_drop. replace (n + (i - n))%nat with i by lia.
  rewrite (drop_S _ _ _ Hi). by rewrite Permutation_middle.
Qed.

Lemma scanRight_bound name rest j0 j :
  scanRight name rest j0 = Some j → (j0 ≤ j < j0 + length rest)%nat.
Proof.
  revert j0. induction rest as [|c rest IH]; intros j0; simpl; [done|].
  case_decide as Hne; [intros Hj%IH; lia | intros [= <-]; lia].
Qed.

(** One round keeps the columns of both lists, in another order, and
    counts at most one more common column. *)
Lemma coalesceStep_perm {R} i st b st' b' :
  @coalesceStep R i st b = Next st' b' →
  (c_commonLen st ≤ i)%nat →
  (c_commonLen st ≤ length (c_rColumns st))%nat →
  c_lColumns st' ≡ₚ c_lColumns st
  ∧ c_rColumns st' ≡ₚ c_rColumns st
  ∧ (c_commonLen st' ≤ S i)%nat
  ∧ (c_commonLen st' ≤ length (c_rColumns st'))%nat
  ∧ b' = b.
Proof.
  unfold coalesceStep. intros Hrun Hi Hr.
  apply bind_Next in Hrun as (lCol & b1 & [Hl ->]%index_nat_Next & Hrun).
  destruct (scanRight _ _ _) as [j|] eqn:Hscan.
  2:{ injection Hrun as <- <-. repeat split; (done || lia). }
  destruct (_ && _). { injection Hrun as <- <-. repeat split; (done || lia). }
  apply scanRight_bound in Hscan. rewrite length_drop in Hscan.
  apply bind_Next in Hrun as (rc & b2 & [Hrc ->]%index_nat_Next & Hrun).
  apply bind_Next in Hrun as (r' & b2 & (_ & _ & -> & ->)%copy_within_Next & Hrun).
  apply bind_Next in Hrun as (lc & b2 & [Hlc ->]%index_nat_Next & Hrun).
  apply bind_Next in Hrun as (l' & b2 & (_ & _ & -> & ->)%copy_within_Next & Hrun).
  injection Hrun as <- <-. simpl.
  rewrite (rotate_to_front (c_rColumns st) _ i rc) by done.
  rewrite (rotate_to_front (c_lColumns st) _ j lc) by (lia || done).
  pose proof (rotate_to_front_perm (c_rColumns st) (c_commonLen st) i rc Hi Hrc) as Hpr.
  pose proof (rotate_to_front_perm (c_lColumns st) (c_commonLen st) j lc
                ltac:(lia) Hlc) as Hpl.
  split; [done|]. split; [done|]. split; [lia|]. split; [|done].
  rewrite (Permutation_length Hpr). lia.
Qed.

Lemma coalesceLoop_perm {R} n k st b st' b' :
  @coalesceLoop R (seq k n) st b = Next st' b' →
  (c_commonLen st ≤ k)%nat →
  (c_commonLen st ≤ length (c_rColumns st))%nat →
  c_lColumns st' ≡ₚ c_lColumns st
  ∧ c_rColumns st' ≡ₚ c_rColumns st
  ∧ (c_commonLen st' ≤ length (c_rColumns st'))%nat
  ∧ b' = b.
Proof.
  revert k st b. induction n as [|n IH]; intros k st b; simpl.
  - intros [= <- <-] _ Hr. done.
  - intros (st1 & b1 & Hstep & Hrest)%bind_Next Hk Hr.
    apply coalesceStep_perm in Hstep as (Hl & Hr1 & Hk1 & Hlen & ->); [|done..].
    apply IH in Hrest as (Hl2 & Hr2 & Hlen2 & ->); [|done..].
    split; [by rewrite Hl2|]. split; [by rewrite Hr2|]. done.
Qed.

Lemma coalesceConds_length p lsc rsc idxs conds b conds' b' :
  coalesceConds p lsc rsc idxs conds b = Next conds' b' →
  ∃ new, conds' = conds ++ new ∧ length new = length idxs ∧ b' = b.
Proof.
  revert conds b. induction idxs as [|i idxs IH]; intros conds b; simpl.
  - intros [= <- <-]. exists []. by rewrite app_nil_r.
  - intros (lc & b1 & [_ ->]%index_nat_Next & Hrun)%bind_Next.
    apply bind_Next in Hrun as (rc & b1 & [_ ->]%index_nat_Next & Hrun).
    destruct (NewFunction _ _ _) as [[[]|] [e|]]; try done.
    apply IH in Hrun as (new & -> & Hlen & ->).
    eexists (_ :: new). split; [by rewrite <- app_assoc|]. split; [simpl; lia | done].
Qed.

Lemma returns_coalesceStep {R} nil i st : returnsG nil (@coalesceStep R i st).
Proof. unfold coalesceStep. returns. Qed.

Lemma returns_coalesceLoop {R} nil idxs st : returnsG nil (@coalesceLoop R idxs st).
Proof.
  revert st. induction idxs as [|i idxs IH]; intros st; simpl; [apply returnsG_ret|].
  apply returnsG_bind; [apply returns_coalesceStep | done].
Qed.

Lemma returns_coalesceConds p lsc rsc idxs conds :
  returnsG (λ r, r.2 ≠ None) (coalesceConds p lsc rsc idxs conds).
Proof.
  revert conds. induction idxs as [|i idxs IH]; intros conds; simpl; [apply returnsG_ret|].
  apply returnsG_bind; [apply returnsG_index_nat | intros lc].
  apply returnsG_bind; [apply returnsG_index_nat | intros rc].
  destruct (NewFunction _ _ _) as [[[]|] [e|]];
    first [by apply returnsG_return | apply returnsG_panic | apply IH].
Qed.

End CoalesceColumns.

(** [coalesceCommonColumns] loses no column.  When it returns without an
    error on a join and two plans, the schema of the join begins with the
    columns of the first operand in some order, the left plan or, for a
    right join, the right plan.  The columns of the other operand are the
    ones added to the redundant schema and the rest of the schema of the
    join, in some order.  The join gets one equality in front of those it
    had for each column added to the redundant schema, and the builder is
    not changed. *)
Theorem coalesceCommonColumns_keeps_columns (ext : Externals)
    p info lp rp rightJoin filter b p' b' :
  kind p = KJoin info →
  coalesceCommonColumns p (Some lp) (Some rp) rightJoin filter b = Ok (p', None) b' →
  let first := expression.Columns (schema (if rightJoin then rp else lp)) in
  let second := expression.Columns (schema (if rightJoin then lp else rp)) in
  ∃ info' conds redundant,
    kind p' = KJoin info'
    ∧ EqualConditions info' = conds ++ EqualConditions info
    ∧ length conds = length redundant
    ∧ redundantSchema info'
      = expression.MergeSchema (redundantSchema info)
          (Some (expression.NewSchema redundant))
    ∧ take (length first) (expression.Columns (schema p')) ≡ₚ first
    ∧ redundant ++ drop (length first) (expression.Columns (schema p')) ≡ₚ second
    ∧ b' = b.
Proof.
  intros Hkind Hrun first second. unfold coalesceCommonColumns in Hrun.
  apply (returnsG_Ok (λ r, r.2 ≠ None)) in Hrun; [| |by intros []].
  2:{ pose proof @returns_coalesceLoop. pose proof (@returns_coalesceConds ext).
      repeat first [by apply returnsG_return | returns_step]. }
  apply bind_Next in Hrun as (lsch & b1 & [= <- <-] & Hrun).
  apply bind_Next in Hrun as (rsch & b1 & [= <- <-] & Hrun).
  unfold expression.Clone in Hrun. simpl in Hrun. rewrite !Clone_columns in Hrun.
  assert (Hpair : (if rightJoin
                   then (expression.Columns (schema rp), expression.Columns (schema lp))
                   else (expression.Columns (schema lp), expression.Columns (schema rp)))
                  = (first, second)) by (by destruct rightJoin).
  rewrite Hpair in Hrun. clear Hpair.
  apply bind_Next in Hrun as (st & b1 & Hloop & Hrun).
  apply coalesceLoop_perm in Hloop as (Hl & Hr & Hlen & ->); simpl; [|lia..].
  simpl in Hl, Hr.
  apply bind_Next in Hrun as (u & b1 & Hunseen & Hrun).
  assert (b1 = b) as ->.
  { destruct (_ && _); [destruct (unseenColumn _); [done|]|]; by injection Hunseen. }
  clear Hunseen.
  set (pair := if rightJoin then (c_rColumns st, c_lColumns st)
               else (c_lColumns st, c_rColumns st)) in Hrun.
  destruct pair as [lscCols rscCols].
  apply bind_Next in Hrun as (conds & b1 & (new & -> & Hnew & ->)%coalesceConds_length & Hrun).
  injection Hrun as <- <-.
  destruct p as [k i s c]. simpl in Hkind. subst k. simpl.
  eexists _, new, (take (c_commonLen st) (c_rColumns st)).
  split; [reflexivity|]. simpl. split; [done|].
  split; [by rewrite Hnew, length_seq, length_take_le|].
  split; [done|].
  rewrite <- (Permutation_length Hl).
  rewrite take_app_length, drop_app_length, take_drop.
  done.
Qed.

Lemma coalesceCommonColumns_keeps_columns_witness :
  match natural_run with
  | Ok (p', None) _ =>
      take (length (expression.Columns (schema t1_node))) (expression.Columns (schema p'))
      ≡ₚ expression.Columns (schema t1_node)
  | _ => False
  end.
Proof.
  assert (Hrun : @coalesceCommonColumns sample.externals join_node (Some t1_node)
                   (Some t2_node) false ∅ sample.builder0
                 = natural_run) by (vm_compute; reflexivity).
  destruct (coalesceCommonColumns_keeps_columns sample.externals join_node zeroJoin
              t1_node t2_node false ∅ sample.builder0 _ _ eq_refl Hrun)
    as (info' & conds & redundant & _ & _ & _ & _ & Hfirst & _).
  exact Hfirst.
Defined.
(** ** The branches of a union *)

(** What [buildUnion] makes of the plan of a branch: the plan itself when
    it is a projection, else a projection over it, with the columns of the
    plan under the id of the projection. *)
Section UnionBranches.
Context {ext : Externals}.




End UnionBranches.

Section UnionSelects.
Context {ext : Externals}.


End UnionSelects.



(** ** The aggregates of the select fields *)

Section AggregateIndexes.
Context {ext : Externals}.


End AggregateIndexes.



(** ** The flag [inExpr] between the ORDER BY items *)

(** The flag [inExpr] is cleared once before the loop over the ORDER BY
    items, and not between the items.  A walk that comes to its end
    leaves the phase as it was and [inExpr] set if it was set or the walk
    has entered a node other than an aggregate function, a column
    reference, a parameter marker and a sub-query.  The loop walks the next
    item from the resolver that the item before has left.  So in the ORDER
    BY phase, after an item whose walk sets [inExpr], every column is
    resolved from the schema of the child plan first, also a column that
    is an item of its own, outside any compound expression.  The traversal
    is the one of section 9. *)
Theorem inExpr_kept_between_items (ext : Externals)
    (Htraversal : ∀ e a, Accept _ havingAndOrderbyVisitor e a
                         = sample.walk havingAndOrderbyVisitor e a) :
  (∀ e a r a',
     Accept _ havingAndOrderbyVisitor e a = Done ((r, true), a') →
     orderBy a' = orderBy a ∧ inExpr a' = inExpr a || entersExpr e)
  ∧ (∀ c he item rest done0 a e a' b,
       Accept _ havingAndOrderbyVisitor (ast.by_Expr item) a
       = Done ((Some (ast.NExpr e), true), a') →
       orderByLoop c he (item :: rest) done0 a b
       = orderByLoop c he rest (done0 ++ [ast.mkByItem e (ast.Desc item)]) a'
           (set_colMapper (r_colMapper a') b))
  ∧ (∀ item a e a' v,
       orderBy a = true → entersExpr (ast.by_Expr item) = true →
       Accept _ havingAndOrderbyVisitor (ast.by_Expr item) a
       = Done ((Some (ast.NExpr e), true), a') →
       resolveFieldsFirst a' v = false).
Proof.
  split; [|split].
  - intros e a r a' Hwalk. rewrite Htraversal in Hwalk.
    apply walk_flags in Hwalk as (Hob & _ & _ & Hok).
    split; [done|]. by destruct (Hok eq_refl).
  - intros c he item rest done0 a e a' b Hwalk. simpl.
    unfold bind at 1. rewrite Hwalk. done.
  - intros item a e a' v Hphase Henters Hwalk. rewrite Htraversal in Hwalk.
    apply walk_flags in Hwalk as (Hob & _ & _ & Hok).
    destruct (Hok eq_refl) as [_ Hexpr]. rewrite Henters, orb_true_r in Hexpr.
    unfold resolveFieldsFirst. rewrite Hob, Hphase, Hexpr.
    by destruct (inAggFunc a').
Qed.

Lemma inExpr_kept_between_items_witness :
  @resolveFieldsFirst order_by_alias (colName "a") = true
  ∧ @resolveFieldsFirst after_b_plus_1 (colName "a") = false
  ∧ (∃ a', @hr_Leave sample.externals (ast.NExpr (colRef "a")) order_by_alias
           = Done ((Some (ast.NExpr (colRef "a")), true), a')
           ∧ r_colMapper a' = [(colRef "a", 0)])
  ∧ (∃ a', @hr_Leave sample.externals (ast.NExpr (colRef "a")) after_b_plus_1
           = Done ((Some (ast.NExpr (colRef "a")), true), a')
           ∧ head (r_colMapper a') = Some (colRef "a", 2)).
Proof.
  destruct (inExpr_kept_between_items sample.externals (λ e a, eq_refl))
    as (_ & _ & Hfirst).
  split; [reflexivity|]. split.
  - apply (Hfirst (ast.mkByItem b_plus_1 false) order_by_alias b_plus_1);
      [reflexivity | reflexivity | vm_compute; reflexivity].
  - split; eexists; split; vm_compute; reflexivity.
Defined.
